(** * bplib: a shallow embedding of the Bundle Protocol library core

    The development follows the C sources module by module:
    - [Sdnv]    : src/src/bplib_sdnv.c  (bplib_sdnv_read, bplib_sdnv_write)
    - [Eid]     : src/lib/bplib.c       (bplib_eid2ipn, bplib_ipn2eid)
    - [Os]      : src/os/cfe.c
    - [Dacs]    : src/v6/dacs.c         (dacs_read)
    - [RbTree]  : src/src/bplib_rb_tree.c
    - [Channel] : src/lib/bplib.c, src/lib/bundle.c

    Machine integers are integers of [Z] with the wrap-around written out;
    C arrays are lists read and written by index; a read or a write outside
    the array, or through a null pointer, has no defined result and is
    modelled by [None]. *)

From Stdlib Require Import ZArith List Lia Bool Ascii String Permutation.
From stdpp Require Import base option list sorting sets.

Open Scope Z_scope.

(** ** Machine arithmetic *)

Definition wrap (bits : Z) (x : Z) : Z := x mod 2 ^ bits.
Definition u8  (x : Z) : Z := wrap 8 x.
Definition u32 (x : Z) : Z := wrap 32 x.
Definition u64 (x : Z) : Z := wrap 64 x.

(** Reading and writing a C array held in a list. *)
Definition rd {A} (l : list A) (i : Z) : option A :=
  if i <? 0 then None else l !! Z.to_nat i.

Definition wr {A} (l : list A) (i : Z) (x : A) : option (list A) :=
  if (i <? 0) || (Z.of_nat (length l) <=? i) then None
  else Some (<[Z.to_nat i := x]> l).

(** Status codes.
    Modelled from the spec: the codes are macros of bplib.h, which is not
    among the sources; the spec fixes SUCCESS = 1, TIMEOUT = 0 and a
    distinct negative code for every error. *)
Definition BP_SUCCESS          : Z := 1.
Definition BP_TIMEOUT          : Z := 0.
Definition BP_ERROR            : Z := -1.
Definition BP_PARMERR          : Z := -2.
Definition BP_BUNDLEPARSEERR   : Z := -8.
Definition BP_BUNDLETOOLARGE   : Z := -10.
Definition BP_PAYLOADTOOLARGE  : Z := -11.
Definition BP_FAILEDSTORE      : Z := -13.
Definition BP_FAILEDMEM        : Z := -15.
Definition BP_FAILEDRESPONSE   : Z := -16.
Definition BP_INVALIDEID       : Z := -17.
Definition BP_OVERFLOW         : Z := -21.

(** [bplog(err, fmt, ...)] logs a message and hands the error code back
    ("Returns - the error code passed in (for convenience)", os/cfe.c). *)
Definition bplog (err : Z) : Z := err.

(* ================================================================== *)
(** ** SDNV codec (src/src/bplib_sdnv.c) *)
(* ================================================================== *)

Module Sdnv.

(** Modelled from the spec: [bp_sdnv_t] is declared in bplib_sdnv.h, which
    is not among the sources; the spec gives the record
    [{value, index, width}].  The value is taken 64 bits wide (the spec's
    round trip ranges over [0, 2^56)), index and width are C ints. *)
Record bp_sdnv_t := mk_sdnv { value : Z; index : Z; width : Z }.

(** Modelled from the spec: the two flag bits are macros of bplib.h. *)
Definition BP_SDNV_OVERFLOW   : Z := 1.
Definition BP_SDNV_INCOMPLETE : Z := 2.

(** The body of the [for] loop of bplib_sdnv_read, [n] iterations left,
    [i] the running index.  Result: bytes read, value, flags. *)
Fixpoint read_loop (n : nat) (block : list Z) (size idx : Z)
         (i v flags : Z) : option (Z * Z * Z) :=
  match n with
  | O => Some (i - idx, v, Z.lor flags BP_SDNV_OVERFLOW)
  | S n' =>
      b ← rd block i;
      let v1 := u64 (Z.shiftl v 7) in
      let v2 := Z.lor v1 (Z.land b 0x7F) in
      if Z.land b 0x80 =? 0x00 then Some ((i + 1) - idx, v2, flags)
      else
        let flags' := if size <? i + 2 then Z.lor flags BP_SDNV_INCOMPLETE
                      else flags in
        read_loop n' block size idx (i + 1) v2 flags'
  end.

(** int bplib_sdnv_read(uint8_t* block, int size, bp_sdnv_t* sdnv,
                        uint8_t* flags) *)
Definition bplib_sdnv_read (block : list Z) (size : Z) (sdnv : bp_sdnv_t)
           (flags : Z) : option (Z * bp_sdnv_t * Z) :=
  let w := if width sdnv <? 0 then size else width sdnv in
  let n := Z.to_nat (Z.min w size - index sdnv) in
  '(ret, v, fl) ← read_loop n block size (index sdnv) (index sdnv) 0 flags;
  Some (ret, mk_sdnv v (index sdnv) (width sdnv), fl).

(** [while(tmpval > 0) { maxbytes++; tmpval >>= 7; }] on a uint32_t. *)
Fixpoint bytes_needed (fuel : nat) (tmpval : Z) (maxbytes : Z) : Z :=
  match fuel with
  | O => maxbytes
  | S f => if 0 <? tmpval then bytes_needed f (Z.shiftr tmpval 7) (maxbytes + 1)
           else maxbytes
  end.

(** The write loop, [n] iterations left, [i] counting down. *)
Fixpoint write_loop (n : nat) (block : list Z) (i v : Z)
  : option (list Z * Z) :=
  match n with
  | O => Some (block, v)
  | S n' =>
      let byte := if i =? 0 then Z.land v 0x7F else u8 (Z.lor v 0x80) in
      block' ← wr block i byte;
      write_loop n' block' (i - 1) (Z.shiftr v 7)
  end.

(** int bplib_sdnv_write(uint8_t* block, int size, bp_sdnv_t sdnv,
                         uint8_t* flags).
    Result: bytes written (as returned), the block, the flags. *)
Definition bplib_sdnv_write (block : list Z) (size : Z) (sdnv : bp_sdnv_t)
           (flags : Z) : option (Z * list Z * Z) :=
  let '(maxbytes, flags1) :=
    if width sdnv <=? 0 then (bytes_needed 32 (u32 (value sdnv)) 0, flags)
    else if width sdnv <=? size - index sdnv then (width sdnv, flags)
    else (size - index sdnv, Z.lor flags BP_SDNV_INCOMPLETE) in
  (* for(i = maxbytes + index; i >= index; i--) *)
  let n := Z.to_nat (maxbytes + 1) in
  '(block', v') ← write_loop n block (maxbytes + index sdnv) (value sdnv);
  let flags2 := if 0 <? v' then Z.lor flags1 BP_SDNV_OVERFLOW else flags1 in
  Some (maxbytes, block', flags2).

(** Encode [v] at width [w] into a zeroed buffer of [size] bytes, then
    decode with the same width. *)
Definition round_trip (size v w : Z) : option (Z * Z) :=
  '(_, block, wflags) ← bplib_sdnv_write (replicate (Z.to_nat size) 0) size
                          (mk_sdnv v 0 w) 0;
  '(_, s, rflags) ← bplib_sdnv_read block size (mk_sdnv 0 0 w) wflags;
  Some (value s, rflags).

End Sdnv.

(* ================================================================== *)
(** ** EID parser (src/lib/bplib.c, bplib_eid2ipn) *)
(* ================================================================== *)

Module Eid.

Definition NUL : ascii := "000"%char.

(** *** The C library functions the parser calls *)

(** The characters of the C string that starts a buffer: everything
    before the first NUL. *)
Fixpoint cstring (buf : list ascii) : list ascii :=
  match buf with
  | [] => []
  | c :: r => if Ascii.eqb c NUL then [] else c :: cstring r
  end.

(** [strchr(s, ch)]: offset of the first [ch] in the C string, if any. *)
Fixpoint strchr (s : list ascii) (ch : ascii) : option nat :=
  match s with
  | [] => None
  | c :: r => if Ascii.eqb c NUL then None
              else if Ascii.eqb c ch then Some O
              else S <$> strchr r ch
  end.

Definition isspace (c : ascii) : bool :=
  let n := nat_of_ascii c in
  Nat.eqb n 32 || (Nat.leb 9 n && Nat.leb n 13).

Definition digit (c : ascii) : option Z :=
  let n := nat_of_ascii c in
  if Nat.leb 48 n && Nat.leb n 57 then Some (Z.of_nat n - 48) else None.

Fixpoint skip_spaces (s : list ascii) : nat * list ascii :=
  match s with
  | c :: r => if isspace c then let '(k, r') := skip_spaces r in (S k, r')
              else (O, s)
  | [] => (O, [])
  end.

(** Accumulates the leading decimal digits: value and number of digits. *)
Fixpoint digits (s : list ascii) (acc : Z) (k : nat) : Z * nat :=
  match s with
  | c :: r => match digit c with
              | Some d => digits r (10 * acc + d) (S k)
              | None => (acc, k)
              end
  | [] => (acc, k)
  end.

(** [unsigned long] of the LP64 targets. *)
Definition ULONG_MAX : Z := 2 ^ 64 - 1.

(** [strtoul(nptr, &endptr, 10)]: result, offset of [endptr] from [nptr],
    and whether [errno] is left at [ERANGE].  White space is skipped, a
    sign is accepted, the digits are converted; with no digit nothing is
    consumed; a value above [ULONG_MAX] is clamped and reported. *)
Definition strtoul (s : list ascii) : Z * nat * bool :=
  let '(k1, s1) := skip_spaces s in
  let '(neg, k2, s2) :=
    match s1 with
    | c :: r => if Ascii.eqb c "-"%char then (true, 1%nat, r)
                else if Ascii.eqb c "+"%char then (false, 1%nat, r)
                else (false, O, s1)
    | [] => (false, O, s1)
    end in
  let '(n, k3) := digits s2 0 O in
  match k3 with
  | O => (0, O, false)
  | _ => if ULONG_MAX <? n then (ULONG_MAX, (k1 + k2 + k3)%nat, true)
         else ((if neg then (- n) mod 2 ^ 64 else n), (k1 + k2 + k3)%nat, false)
  end.

Section Eid2Ipn.

(** Macro and type of bplib.h, which is not among the sources: the size
    of the EID buffer and the width in bits of [bp_ipn_t]. *)
Variable BP_MAX_EID_STRING : Z.
Variable bp_ipn_bits : Z.

(** [eid[0] != 'i' || eid[1] != 'p' || eid[2] != 'n' || eid[3] != ':'],
    read left to right: a byte is looked at only when the ones before it
    matched, so the test never reads past the terminator. *)
Definition bad_scheme (eid : list ascii) : bool :=
  match eid with
  | c0 :: c1 :: c2 :: c3 :: _ =>
      negb (Ascii.eqb c0 "i") || negb (Ascii.eqb c1 "p")
      || negb (Ascii.eqb c2 "n") || negb (Ascii.eqb c3 ":")
  | _ => true
  end.

(** [memcpy(eidtmp, &eid[4], tmplen)]: [eid] holds the characters before
    the terminator, so the bytes [eid[0..length eid]] are readable. *)
Definition copy_tail (eid : list ascii) (tmplen : Z) : option (list ascii) :=
  if Z.of_nat (length eid) + 1 <? 4 + tmplen then None
  else Some (take (Z.to_nat tmplen) (drop 4 (eid ++ [NUL]))).

Definition range_error (result : Z) (erange : bool) : bool :=
  ((result =? ULONG_MAX) || (result =? 0)) && erange.

(** int bplib_eid2ipn(const char* eid, int len, bp_ipn_t* node,
                      bp_ipn_t* store).
    [eid = None] is the null pointer.  Result: the status and, when they
    are written, the two outputs. *)
Definition bplib_eid2ipn (eid : option (list ascii)) (len : Z)
  : option (Z * option (Z * Z)) :=
  match eid with
  | None => Some (bplog BP_INVALIDEID, None)
  | Some eid =>
      if len <? 7 then Some (bplog BP_INVALIDEID, None)
      else if BP_MAX_EID_STRING <? len then Some (bplog BP_INVALIDEID, None)
      else if bad_scheme eid then Some (bplog BP_INVALIDEID, None)
      else
        let tmplen := len - 4 in
        copied ← copy_tail eid tmplen;
        let eidtmp := copied ++ [NUL] in
        match strchr eidtmp "."%char with
        | None => Some (bplog BP_INVALIDEID, None)
        | Some dot =>
            let node_ptr := take dot eidtmp ++ [NUL] in
            let service_ptr := drop (S dot) eidtmp in
            let '(node_result, nend, nerr) := strtoul (cstring node_ptr) in
            if Nat.eqb nend O || range_error node_result nerr
            then Some (bplog BP_INVALIDEID, None)
            else
              let '(service_result, send, serr) :=
                strtoul (cstring service_ptr) in
              if Nat.eqb send O || range_error service_result serr
              then Some (bplog BP_INVALIDEID, None)
              else Some (BP_SUCCESS,
                         Some (wrap bp_ipn_bits node_result,
                               wrap bp_ipn_bits service_result))
        end
  end.

End Eid2Ipn.

Definition chars (s : string) : list ascii := list_ascii_of_string s.

(** An EID as a caller hands it in: the string and its length. *)
Definition parse (max bits : Z) (s : string) : option (Z * option (Z * Z)) :=
  bplib_eid2ipn max bits (Some (chars s)) (Z.of_nat (length (chars s))).

(** What may follow a number of an EID for the parser to stop there: no
    digit at its head, and no terminator before the end of the string. *)
Definition no_digit_ahead (s : list ascii) : Prop :=
  match s with [] => True | c :: _ => digit c = None end.

Definition junk (j : list ascii) : Prop :=
  (NUL ∉ j) /\ no_digit_ahead j.

(** *** bplib_ipn2eid *)

(** The decimal digits of an [unsigned long], most significant first, as
    the conversion [%lu] prints them; twenty digits hold every value. *)
Fixpoint utoa_loop (fuel : nat) (n : Z) (acc : list ascii) : list ascii :=
  match fuel with
  | O => acc
  | S f =>
      let acc' := ascii_of_nat (48 + Z.to_nat (n mod 10)) :: acc in
      if n <? 10 then acc' else utoa_loop f (n / 10) acc'
  end.

Definition utoa (n : Z) : list ascii := utoa_loop 20 n [].

(** What the format ["ipn:%lu.%lu"] expands to. *)
Definition ipn_text (node store : Z) : list ascii :=
  chars "ipn:" ++ utoa node ++ chars "." ++ utoa store.

(** os/cfe.c: int bplib_os_format(char* dst, size_t len, const char* fmt,
    ...), a call of [vsnprintf]: at most [len - 1] characters of the
    expanded text go to [dst], then a terminator; the length of the whole
    text is returned.  [text] is the expanded format. *)
Definition bplib_os_format (dst : list ascii) (len : Z) (text : list ascii)
  : option (Z * list ascii) :=
  if len <=? 0 then Some (Z.of_nat (length text), dst)
  else
    let out := take (Z.to_nat (len - 1)) text ++ [NUL] in
    if (length dst <? length out)%nat then None
    else Some (Z.of_nat (length text), out ++ drop (length out) dst).

(** int bplib_ipn2eid(char* eid, int len, bp_ipn_t node, bp_ipn_t store).
    [eid = None] is the null pointer, [Some buf] the bytes of the buffer.
    Result: the status and the buffer afterwards. *)
Definition bplib_ipn2eid (BP_MAX_EID_STRING : Z) (eid : option (list ascii))
           (len node store : Z) : option (Z * option (list ascii)) :=
  match eid with
  | None => Some (bplog BP_INVALIDEID, None)
  | Some buf =>
      if len <? 7 then Some (bplog BP_INVALIDEID, eid)
      else if BP_MAX_EID_STRING <? len then Some (bplog BP_INVALIDEID, eid)
      else
        '(_, buf') ← bplib_os_format buf len (ipn_text node store);
        Some (BP_SUCCESS, Some buf')
  end.

End Eid.

(* ================================================================== *)
(** ** Operating system layer (src/os/cfe.c) *)
(* ================================================================== *)

Module Os.

(** int bplib_os_strnlen(const char* str, int maxlen): the [for] loop with
    [n] turns left, [len] the running index. *)
Fixpoint strnlen_loop (n : nat) (str : list ascii) (len maxlen : Z)
  : option Z :=
  match n with
  | O => Some maxlen
  | S n' =>
      c ← rd str len;
      if Ascii.eqb c Eid.NUL then Some len
      else strnlen_loop n' str (len + 1) maxlen
  end.

Definition bplib_os_strnlen (str : list ascii) (maxlen : Z) : option Z :=
  strnlen_loop (Z.to_nat maxlen) str 0 maxlen.

(** [size_t] of the LP64 targets. *)
Definition size_t (x : Z) : Z := wrap 64 x.
Definition sizeof_size_t : Z := 8.

(** FILE DATA, and the blocks [calloc] has handed out and [free] has not
    taken back: the address of each with the amount written at its
    start. *)
Record memory := mk_memory {
  current_memory_allocated : Z;
  highest_memory_allocated : Z;
  blocks : list (Z * Z) }.

Definition block_at (p : Z) (bs : list (Z * Z)) : option Z :=
  snd <$> List.find (fun b => fst b =? p) bs.

Fixpoint release (p : Z) (bs : list (Z * Z)) : list (Z * Z) :=
  match bs with
  | [] => []
  | b :: r => if fst b =? p then r else b :: release p r
  end.

(** void* bplib_os_calloc(size_t size).  [mem_ptr] is what [calloc]
    returns, [None] for NULL.  Result: the pointer handed to the caller. *)
Definition bplib_os_calloc (size : Z) (mem_ptr : option Z) (m : memory)
  : option Z * memory :=
  let block_size := size_t (size + sizeof_size_t) in
  match mem_ptr with
  | Some p =>
      let current := size_t (current_memory_allocated m + block_size) in
      let highest := if highest_memory_allocated m <? current then current
                     else highest_memory_allocated m in
      (Some (p + sizeof_size_t),
       mk_memory current highest ((p, block_size) :: blocks m))
  | None => (None, m)
  end.

(** void bplib_os_free(void* ptr): the amount is read in front of the
    block; a pointer that is not of a block handed out has no amount to
    read. *)
Definition bplib_os_free (ptr : option Z) (m : memory) : option memory :=
  match ptr with
  | None => Some m
  | Some q =>
      block_size ← block_at (q - sizeof_size_t) (blocks m);
      Some (mk_memory (size_t (current_memory_allocated m - block_size))
                      (highest_memory_allocated m)
                      (release (q - sizeof_size_t) (blocks m)))
  end.

Definition bplib_os_memused (m : memory) : Z := current_memory_allocated m.
Definition bplib_os_memhigh (m : memory) : Z := highest_memory_allocated m.

(** The two counters as the program starts. *)
Definition start : memory := mk_memory 0 0 [].

(** The bytes of the blocks handed out. *)
Definition in_use (bs : list (Z * Z)) : Z :=
  fold_right (fun b s => snd b + s) 0 bs.

(** The states of the counters: calls of bplib_os_calloc, [calloc] giving
    a block only while the blocks in use fit the address space, and calls
    of bplib_os_free on pointers handed out. *)
Inductive reachable : memory -> Prop :=
| reach_start : reachable start
| reach_calloc m size mem_ptr :
    reachable m -> 0 <= size ->
    (is_Some mem_ptr -> in_use (blocks m) + size + sizeof_size_t < 2 ^ 64) ->
    reachable (snd (bplib_os_calloc size mem_ptr m))
| reach_free m ptr m' :
    reachable m -> bplib_os_free ptr m = Some m' -> reachable m'.

End Os.

(* ================================================================== *)
(** ** Aggregate custody signal reader (src/v6/dacs.c, dacs_read) *)
(* ================================================================== *)

Module Dacs.

(** [bp_sdnv_t] as dacs.c initialises it: [{ value, index, width }]. *)
Record bp_sdnv_t := mk_sdnv { value : Z; index : Z; width : Z }.

(** Modelled from the spec: the record layout macros belong to the v6
    headers, which are not among the sources; the spec puts the status
    at byte 1 of the record and the acknowledgment flag at its bit 0. *)
Definition BP_ACS_REC_STATUS_INDEX : Z := 1.
Definition BP_ACS_ACK_MASK : Z := 0x01.

(** *** What an SDNV is

    The reference decoder of one SDNV at the head of a byte string:
    the low seven bits of each byte, most significant group first, up to
    and including the first byte whose high bit is clear.  Result: the
    value and the number of bytes. *)
Fixpoint sdnv_decode_from (bytes : list Z) (acc : Z) (n : nat)
  : option (Z * nat) :=
  match bytes with
  | [] => None
  | b :: r =>
      let acc' := 128 * acc + Z.land b 0x7F in
      if Z.land b 0x80 =? 0 then Some (acc', S n)
      else sdnv_decode_from r acc' (S n)
  end.

Definition sdnv_decode (bytes : list Z) : option (Z * nat) :=
  sdnv_decode_from bytes 0 O.

(** [enc] is exactly one SDNV, of value [v]. *)
Definition sdnv_bytes (enc : list Z) (v : Z) : Prop :=
  sdnv_decode enc = Some (v, length enc).

(** [int] of the targets, 32 bits: the type of [ack_count]. *)
Definition INT_MAX : Z := 2 ^ 31 - 1.

Section DacsRead.

(** Width in bits of [bp_val_t] (bplib.h, not among the sources). *)
Variable bp_val_bits : Z.

(** [sdnv_read] of the v6 SDNV module, declared in sdnv.h and not among
    the sources: a parameter of the reader.  dacs_read passes the record,
    its size, the field and the flags, and stores what the function
    returns in [fill.index].  Result: the number returned, the field, the
    flags.  [Dacs.sdnv_read] below is the function as the spec describes
    it. *)
Variable sdnv_read : list Z -> Z -> bp_sdnv_t -> Z -> Z * bp_sdnv_t * Z.

(** The acknowledge callback, [int ack(void* parm, bp_val_t cid)], with
    the object behind [parm] passed along. *)
Context {A : Type}.
Variable ack : A -> Z -> Z * A.

(** [ack_count++] on an [int]: past [INT_MAX] the increment is undefined. *)
Definition incr (ack_count : Z) : option Z :=
  if ack_count <? INT_MAX then Some (ack_count + 1) else None.

(** [for(i = 0; i < fill.value; i++)
       if(ack(ack_parm, cid.value + i) == BP_SUCCESS) ack_count++;] *)
Fixpoint ack_run (n : nat) (i cid_value : Z) (parm : A) (ack_count : Z)
  : option (A * Z) :=
  match n with
  | O => Some (parm, ack_count)
  | S n' =>
      let '(status, parm') := ack parm (wrap bp_val_bits (cid_value + i)) in
      ack_count' ← (if status =? BP_SUCCESS then incr ack_count
                    else Some ack_count);
      ack_run n' (i + 1) cid_value parm' ack_count'
  end.

(** The [while((int)fill.index < rec_size)] loop. *)
Fixpoint fill_loop (fuel : nat) (rec : list Z) (rec_size : Z)
         (cid fill : bp_sdnv_t) (cidin ack_success : bool)
         (parm : A) (ack_count flags : Z) : option (Z * A) :=
  match fuel with
  | O => None
  | S fuel' =>
      if index fill <? rec_size then
        let '(next, fill1, flags1) := sdnv_read rec rec_size fill flags in
        let fill2 := mk_sdnv (value fill1) next (width fill1) in
        if negb (flags1 =? 0) then Some (bplog BP_BUNDLEPARSEERR, parm)
        else
          '(cidin', (parm', ack_count')) ←
            (if cidin && ack_success
             then r ← ack_run (Z.to_nat (value fill2)) 0 (value cid)
                              parm ack_count;
                  Some (false, r)
             else Some (true, (parm, ack_count)));
          let cid' := mk_sdnv (wrap bp_val_bits (value cid + value fill2))
                              (index cid) (width cid) in
          fill_loop fuel' rec rec_size cid' fill2 cidin' ack_success
                    parm' ack_count' flags1
      else if negb (flags =? 0) then Some (bplog BP_BUNDLEPARSEERR, parm)
      else Some (ack_count, parm)
  end.

(** int dacs_read(uint8_t* rec, int rec_size, bp_acknowledge_t ack,
                  void* ack_parm, uint16_t* sdnvflags).
    [fuel] bounds the iterations of the fill loop. *)
Definition dacs_read (fuel : nat) (rec : list Z) (rec_size : Z) (parm : A)
  : option (Z * A) :=
  let cid := mk_sdnv 0 2 0 in
  let fill := mk_sdnv 0 0 0 in
  acs_status ← rd rec BP_ACS_REC_STATUS_INDEX;
  let ack_success := Z.land acs_status BP_ACS_ACK_MASK =? BP_ACS_ACK_MASK in
  let '(next, cid1, flags) := sdnv_read rec rec_size cid 0 in
  let fill1 := mk_sdnv (value fill) next (width fill) in
  if negb (flags =? 0) then Some (bplog BP_BUNDLEPARSEERR, parm)
  else fill_loop fuel rec rec_size cid1 fill1 true ack_success parm 0 flags.

(** *** The reading of a record the claim describes *)

(** The CIDs of the runs: the fills alternate run, gap, run, ... and each
    fill moves the current CID forward by its length. *)
Fixpoint run_cids (cid : Z) (fills : list Z) (is_run : bool) : list Z :=
  match fills with
  | [] => []
  | f :: r =>
      (if is_run
       then map (fun i => wrap bp_val_bits (cid + Z.of_nat i))
                (seq 0 (Z.to_nat f))
       else [])
      ++ run_cids (wrap bp_val_bits (cid + f)) r (negb is_run)
  end.

(** The callback applied to a list of CIDs, first to last, counting the
    calls that report success. *)
Fixpoint ack_all (cids : list Z) (parm : A) (ack_count : Z) : A * Z :=
  match cids with
  | [] => (parm, ack_count)
  | c :: r =>
      let '(status, parm') := ack parm c in
      ack_all r parm' (if status =? BP_SUCCESS then ack_count + 1
                       else ack_count)
  end.

(** The reader dacs_read is written for.  dacs_read gives both of its
    fields the width 0, keeps what the reader returns as the index of
    the next field and loops while that index is below the size of the
    record.  The condition says as much of the reader: it decodes the
    SDNV that starts at [sdnv.index] whatever the width of the field,
    leaves the flags alone when the SDNV is complete and fits, and
    returns the index after it. *)
Definition sdnv_read_decodes : Prop :=
  forall rec s flags v n,
    0 <= index s ->
    sdnv_decode (drop (Z.to_nat (index s)) rec) = Some (v, n) ->
    0 <= v < 2 ^ bp_val_bits ->
    sdnv_read rec (Z.of_nat (length rec)) s flags
    = (index s + Z.of_nat n, mk_sdnv v (index s) (width s), flags).

End DacsRead.

(** *** The SDNV reader of the spec *)

(** Modelled from the spec: the loop of [sdnv_read], which is not among
    the sources (see below).  The spec (4.1): "consume bytes while the
    high bit is 1, accumulating the low 7 bits MSB-first into an integer.
    Stop at the first byte with high bit 0."  [bytes] is the span left to
    read.  Result: the value, the bytes consumed, whether the byte with
    its high bit clear was reached. *)
Fixpoint sdnv_take (bytes : list Z) (v n : Z) : Z * Z * bool :=
  match bytes with
  | [] => (v, n, false)
  | b :: r =>
      let v' := 128 * v + Z.land b 0x7F in
      if Z.land b 0x80 =? 0 then (v', n + 1, true)
      else sdnv_take r v' (n + 1)
  end.

(** Modelled from the spec: [sdnv_read] belongs to the v6 SDNV module
    (sdnv.h), which is not among the sources.  The spec (4.1): read
    consumes bytes while the high bit is 1, accumulating the low 7 bits
    MSB-first, and stops at the first byte with high bit 0; inputs are
    the buffer, its size and the record [{value, index, width}]; if
    [width < 0] it reads up to [size] bytes, otherwise it stops at
    [index + width]; it sets OVERFLOW if the terminator byte is never
    reached within the allotted span or the value exceeds the
    destination width, and INCOMPLETE if the buffer ends mid-SDNV; it
    advances the index and returns the bytes consumed.  The flag bits
    are those of [Sdnv]. *)
Definition sdnv_read (bp_val_bits : Z) (rec : list Z) (size : Z)
           (s : bp_sdnv_t) (flags : Z) : Z * bp_sdnv_t * Z :=
  let stop := if width s <? 0 then size
              else Z.min size (index s + width s) in
  let span := drop (Z.to_nat (index s)) (take (Z.to_nat stop) rec) in
  let '(v, n, ended) := sdnv_take span 0 0 in
  let flags1 := if ended && (v <? 2 ^ bp_val_bits) then flags
                else Z.lor flags Sdnv.BP_SDNV_OVERFLOW in
  let flags2 := if negb ended && (0 <? n) && (size <=? index s + n)
                then Z.lor flags1 Sdnv.BP_SDNV_INCOMPLETE else flags1 in
  (n, mk_sdnv (wrap bp_val_bits v) (index s + n) (width s), flags2).

(** An example of a reader that meets [sdnv_read_decodes]; it is not a
    function of the repository.  It is the reader of the spec with the
    two changes dacs_read needs: the span runs up to the size whatever
    the width of the field (the spec's reader at a negative width), and
    the index of the next byte is returned in place of the count; the
    index of the field stays. *)
Definition sdnv_read_next (bp_val_bits : Z) (rec : list Z) (size : Z)
           (s : bp_sdnv_t) (flags : Z) : Z * bp_sdnv_t * Z :=
  let '(n, s', flags') :=
    sdnv_read bp_val_bits rec size (mk_sdnv (value s) (index s) (-1)) flags in
  (index s + n, mk_sdnv (value s') (index s) (width s), flags').

End Dacs.

(* ================================================================== *)
(** ** Red-black tree of CID ranges (src/src/bplib_rb_tree.c) *)
(* ================================================================== *)

Module RbTree.

(** A pointer to a node is its index in the block [node_block] the tree
    allocates once; [None] is the null pointer. *)
Definition ptr := option nat.

Definition ptr_eqb (p q : ptr) : bool :=
  match p, q with
  | None, None => true
  | Some i, Some j => Nat.eqb i j
  | _, _ => false
  end.

(** [struct rb_node]: the range [value, value + offset), the colour
    (red is [true]) and the three links. *)
Record rb_node := mk_node {
  value : Z; offset : Z; color : bool;
  left : ptr; right : ptr; parent : ptr }.

(** [struct rb_tree]. *)
Record rb_tree := mk_tree {
  size : Z; max_size : Z; root : ptr;
  free_node_head : ptr; free_node_tail : ptr;
  node_block : list rb_node }.

(** *** Statements over the tree: state passing with undefined behaviour *)

Definition M (A : Type) : Type := rb_tree -> option (A * rb_tree).

Definition ret {A} (x : A) : M A := fun t => Some (x, t).
Definition bind {A B} (m : M A) (k : A -> M B) : M B :=
  fun t => match m t with Some (x, t') => k x t' | None => None end.
Definition undefined {A} : M A := fun _ => None.

Declare Scope rb_scope.
Delimit Scope rb_scope with rb.
Notation "x <- m ;; k" := (bind m (fun x => k))
  (at level 62, m at next level, right associativity) : rb_scope.
Notation "m ;;; k" := (bind m (fun _ => k))
  (at level 62, right associativity) : rb_scope.
Open Scope rb_scope.

(** [*node]: undefined through a null pointer. *)
Definition deref (node : ptr) : M rb_node :=
  fun t => match node with
           | Some i => match node_block t !! i with
                       | Some n => Some (n, t)
                       | None => None
                       end
           | None => None
           end.

Definition store (node : ptr) (n : rb_node) : M unit :=
  fun t => match node with
           | Some i =>
               if Nat.ltb i (length (node_block t))
               then Some (tt, mk_tree (size t) (max_size t) (root t)
                                      (free_node_head t) (free_node_tail t)
                                      (<[i := n]> (node_block t)))
               else None
           | None => None
           end.

Definition get {A} (f : rb_tree -> A) : M A := fun t => Some (f t, t).

Definition set_size (x : Z) : M unit := fun t =>
  Some (tt, mk_tree x (max_size t) (root t) (free_node_head t)
                    (free_node_tail t) (node_block t)).
Definition set_root (p : ptr) : M unit := fun t =>
  Some (tt, mk_tree (size t) (max_size t) p (free_node_head t)
                    (free_node_tail t) (node_block t)).
Definition set_free_node_head (p : ptr) : M unit := fun t =>
  Some (tt, mk_tree (size t) (max_size t) (root t) p
                    (free_node_tail t) (node_block t)).
Definition set_free_node_tail (p : ptr) : M unit := fun t =>
  Some (tt, mk_tree (size t) (max_size t) (root t) (free_node_head t)
                    p (node_block t)).

(** [node->field = x] *)
Definition set_value (node : ptr) (x : Z) : M unit :=
  n <- deref node ;;
  store node (mk_node x (offset n) (color n) (left n) (right n) (parent n)).
Definition set_offset (node : ptr) (x : Z) : M unit :=
  n <- deref node ;;
  store node (mk_node (value n) x (color n) (left n) (right n) (parent n)).
Definition set_color (node : ptr) (x : bool) : M unit :=
  n <- deref node ;;
  store node (mk_node (value n) (offset n) x (left n) (right n) (parent n)).
Definition set_left (node : ptr) (x : ptr) : M unit :=
  n <- deref node ;;
  store node (mk_node (value n) (offset n) (color n) x (right n) (parent n)).
Definition set_right (node : ptr) (x : ptr) : M unit :=
  n <- deref node ;;
  store node (mk_node (value n) (offset n) (color n) (left n) x (parent n)).
Definition set_parent (node : ptr) (x : ptr) : M unit :=
  n <- deref node ;;
  store node (mk_node (value n) (offset n) (color n) (left n) (right n) x).

(** [node->field] *)
Definition field {A} (f : rb_node -> A) (node : ptr) : M A :=
  n <- deref node ;; ret (f n).

(** *** LOCAL FUNCTIONS *)

Definition pop_free_node : M ptr :=
  free_node <- get free_node_tail ;;
  match free_node with
  | Some _ =>
      l <- field left free_node ;;
      set_free_node_tail l ;;;
      (match l with
       | None => set_free_node_head None
       | Some _ => ret tt
       end) ;;;
      sz <- get size ;;
      set_size (u32 (sz + 1)) ;;;
      ret free_node
  | None => ret free_node
  end.

Definition push_free_node (node : ptr) : M unit :=
  head <- get free_node_head ;;
  set_right node head ;;;
  set_left node None ;;;
  sz <- get size ;;
  set_size (u32 (sz - 1)) ;;;
  match head with
  | None => set_free_node_head node ;;; set_free_node_tail node
  | Some _ => set_left head node ;;; set_free_node_head node
  end.

Definition set_black (node : ptr) : M unit := set_color node false.
Definition set_red (node : ptr) : M unit := set_color node true.

Definition is_black (node : ptr) : M bool :=
  match node with
  | None => ret true
  | Some _ => c <- field color node ;; ret (negb c)
  end.

Definition is_red (node : ptr) : M bool :=
  match node with
  | None => ret false
  | Some _ => field color node
  end.

Definition get_grandparent (node : ptr) : M ptr :=
  p <- field parent node ;;
  match p with
  | None => ret None
  | Some _ => field parent p
  end.

Definition is_root (node : ptr) : M bool :=
  p <- field parent node ;; ret (ptr_eqb p None).

Definition is_left_child (node : ptr) : M bool :=
  r <- is_root node ;;
  if r then ret false
  else p <- field parent node ;;
       l <- field left p ;;
       ret (ptr_eqb node l).

Definition get_sibling (node : ptr) : M ptr :=
  p <- field parent node ;;
  match p with
  | None => ret None
  | Some _ =>
      il <- is_left_child node ;;
      if il then field right p else field left p
  end.

Definition get_uncle (node : ptr) : M ptr :=
  p <- field parent node ;;
  match p with
  | None => ret None
  | Some _ =>
      g <- get_grandparent node ;;
      match g with
      | None => ret None
      | Some _ => get_sibling p
      end
  end.

Definition has_left_child (node : ptr) : M bool :=
  l <- field left node ;; ret (negb (ptr_eqb l None)).
Definition has_right_child (node : ptr) : M bool :=
  r <- field right node ;; ret (negb (ptr_eqb r None)).

Definition swap_parents (node_1 node_2 : ptr) : M unit :=
  p1 <- field parent node_1 ;;
  set_parent node_2 p1 ;;;
  r <- is_root node_1 ;;
  (if r then set_root node_2
   else il <- is_left_child node_1 ;;
        p <- field parent node_1 ;;
        if il then set_left p node_2 else set_right p node_2) ;;;
  set_parent node_1 node_2.

Definition rotate_left (node : ptr) : M unit :=
  new_parent <- field right node ;;
  npl <- field left new_parent ;;
  set_right node npl ;;;
  set_left new_parent node ;;;
  h <- has_right_child node ;;
  (if h then r <- field right node ;; set_parent r node else ret tt) ;;;
  swap_parents node new_parent.

Definition rotate_right (node : ptr) : M unit :=
  new_parent <- field left node ;;
  npr <- field right new_parent ;;
  set_left node npr ;;;
  set_right new_parent node ;;;
  h <- has_left_child node ;;
  (if h then l <- field left node ;; set_parent l node else ret tt) ;;;
  swap_parents node new_parent.

Definition populate_rb_node (v : Z) (node : ptr) : M unit :=
  set_value node v ;;;
  set_offset node 1 ;;;
  set_parent node None ;;;
  set_left node None ;;;
  set_right node None.

Definition create_black_node (v : Z) : M ptr :=
  node <- pop_free_node ;;
  match node with
  | None => ret None
  | Some _ => populate_rb_node v node ;;; set_black node ;;; ret node
  end.

Definition create_red_node (v : Z) : M ptr :=
  node <- pop_free_node ;;
  match node with
  | None => ret None
  | Some _ => populate_rb_node v node ;;; set_red node ;;; ret node
  end.

(** [insert_child(node, parent, &parent->left)] and
    [insert_child(node, parent, &parent->right)]. *)
Definition insert_child_left (node par : ptr) : M unit :=
  set_parent node par ;;; set_left par node.
Definition insert_child_right (node par : ptr) : M unit :=
  set_parent node par ;;; set_right par node.

(** [while (has_right_child(sucessor)) sucessor = sucessor->right;] *)
Fixpoint rightmost (fuel : nat) (sucessor : ptr) : M ptr :=
  match fuel with
  | O => undefined
  | S f => h <- has_right_child sucessor ;;
           if h then r <- field right sucessor ;; rightmost f r
           else ret sucessor
  end.

Fixpoint leftmost (fuel : nat) (sucessor : ptr) : M ptr :=
  match fuel with
  | O => undefined
  | S f => h <- has_left_child sucessor ;;
           if h then l <- field left sucessor ;; leftmost f l
           else ret sucessor
  end.

Definition get_left_sucessor (fuel : nat) (node : ptr) : M ptr :=
  h <- has_left_child node ;;
  if negb h then ret None
  else l <- field left node ;; rightmost fuel l.

Definition get_right_sucessor (fuel : nat) (node : ptr) : M ptr :=
  h <- has_right_child node ;;
  if negb h then ret None
  else r <- field right node ;; leftmost fuel r.

Definition get_sucessor (fuel : nat) (node : ptr) : M ptr :=
  sucessor <- get_left_sucessor fuel node ;;
  match sucessor with
  | None => get_right_sucessor fuel node
  | Some _ => ret sucessor
  end.

Definition swap_values (n1 n2 : ptr) : M unit :=
  temp <- field value n1 ;;
  v2 <- field value n2 ;;
  set_value n1 v2 ;;;
  set_value n2 temp.

Definition swap_offsets (n1 n2 : ptr) : M unit :=
  temp <- field offset n1 ;;
  o2 <- field offset n2 ;;
  set_offset n1 o2 ;;;
  set_offset n2 temp.

Definition replace_node (node child : ptr) : M unit :=
  par <- field parent node ;;
  il <- is_left_child node ;;
  (if il then set_left par child else set_right par child) ;;;
  match child with
  | Some _ => set_parent child par
  | None => ret tt
  end.

(** [a && b] of C: [b] is evaluated only when [a] holds. *)
Definition and_then (a b : M bool) : M bool :=
  x <- a ;; if x then b else ret false.

Definition delete_case_6 (node : ptr) : M unit :=
  sibling <- get_sibling node ;;
  par <- field parent node ;;
  pc <- field color par ;;
  set_color sibling pc ;;;
  set_black par ;;;
  il <- is_left_child node ;;
  if il then
    sr <- field right sibling ;;
    set_black sr ;;;
    rotate_left par
  else
    sl <- field left sibling ;;
    set_black sl ;;;
    rotate_right par.

Definition delete_case_5 (node : ptr) : M unit :=
  sibling <- get_sibling node ;;
  sb <- is_black sibling ;;
  (if sb then
     is_left <- is_left_child node ;;
     c1 <- and_then (ret is_left)
             (and_then (sr <- field right sibling ;; is_black sr)
                       (sl <- field left sibling ;; is_red sl)) ;;
     if c1 then
       set_red sibling ;;;
       sl <- field left sibling ;;
       set_black sl ;;;
       rotate_right sibling
     else
       c2 <- and_then (ret (negb is_left))
               (and_then (sl <- field left sibling ;; is_black sl)
                         (sr <- field right sibling ;; is_red sr)) ;;
       if c2 then rotate_left sibling else ret tt
   else ret tt) ;;;
  delete_case_6 node.

Definition delete_case_4 (node : ptr) : M unit :=
  sibling <- get_sibling node ;;
  par <- field parent node ;;
  c <- and_then (is_red par)
         (and_then (is_black sibling)
            (and_then (sl <- field left sibling ;; is_black sl)
                      (sr <- field right sibling ;; is_black sr))) ;;
  if c then set_red sibling ;;; set_black par
  else delete_case_5 node.

(** delete_case_3, delete_case_2 and delete_case_1 call one another;
    [case_1] stands for the recursive call. *)
Definition delete_case_3 (case_1 : ptr -> M unit) (node : ptr) : M unit :=
  sibling <- get_sibling node ;;
  par <- field parent node ;;
  c <- and_then (is_black par)
         (and_then (is_black sibling)
            (and_then (sl <- field left sibling ;; is_black sl)
                      (sr <- field right sibling ;; is_black sr))) ;;
  if c then set_red sibling ;;; case_1 par
  else delete_case_4 node.

Definition delete_case_2 (case_1 : ptr -> M unit) (node : ptr) : M unit :=
  sibling <- get_sibling node ;;
  par <- field parent node ;;
  sr <- is_red sibling ;;
  (if sr then
     set_red par ;;;
     set_black sibling ;;;
     il <- is_left_child node ;;
     if il then rotate_left par else rotate_right par
   else ret tt) ;;;
  delete_case_3 case_1 node.

Fixpoint delete_case_1 (fuel : nat) (node : ptr) : M unit :=
  match fuel with
  | O => undefined
  | S f =>
      r <- is_root node ;;
      if r then ret tt
      else delete_case_2 (delete_case_1 f) node
  end.

Definition delete_one_child (fuel : nat) (node : ptr) : M unit :=
  h <- has_left_child node ;;
  child <- (if h then field left node else field right node) ;;
  match child with
  | None =>
      b <- is_black node ;;
      (if b then delete_case_1 fuel node else ret tt) ;;;
      replace_node node child
  | Some _ =>
      replace_node node child ;;;
      b <- is_black node ;;
      if b then
        rc <- is_red child ;;
        if rc then set_black child else delete_case_1 fuel child
      else ret tt
  end ;;;
  push_free_node node.

Definition delete_node (fuel : nat) (node : ptr) : M unit :=
  replace <- get_sucessor fuel node ;;
  r <- (match replace with
        | None => is_root node
        | Some _ => ret false
        end) ;;
  if r then push_free_node node ;;; set_root None
  else
    match replace with
    | Some _ =>
        swap_values node replace ;;;
        swap_offsets node replace ;;;
        delete_one_child fuel replace
    | None => delete_one_child fuel node
    end.

Definition are_consecutive (value_1 value_2 : Z) : bool :=
  u32 (value_1 + 1) =? value_2.

Definition is_empty : M bool := sz <- get size ;; ret (sz =? 0).
Definition is_full : M bool :=
  sz <- get size ;; mx <- get max_size ;; ret (sz =? mx).

(** The [while (true)] loop of try_binary_insert_or_merge; [walk] bounds
    the loops of the functions it calls. *)
Fixpoint insert_or_merge_loop (walk fuel : nat) (v : Z) (node : ptr)
  : M ptr :=
  match fuel with
  | O => undefined
  | S f =>
      nv <- field value node ;;
      if are_consecutive v nv then
        sucessor <- get_left_sucessor walk node ;;
        merge <- (match sucessor with
                  | None => ret false
                  | Some _ =>
                      sv <- field value sucessor ;;
                      so <- field offset sucessor ;;
                      ret (are_consecutive (u32 (u32 (sv + so) - 1)) v)
                  end) ;;
        if merge then
          sv <- field value sucessor ;;
          set_value node sv ;;;
          no <- field offset node ;;
          so <- field offset sucessor ;;
          set_offset node (u32 (no + u32 (so + 1))) ;;;
          delete_node walk sucessor ;;;
          ret None
        else
          set_value node v ;;;
          no <- field offset node ;;
          set_offset node (u32 (no + 1)) ;;;
          ret None
      else if v <? nv then
        h <- has_left_child node ;;
        if h then l <- field left node ;; insert_or_merge_loop walk f v l
        else
          new_node <- create_red_node v ;;
          match new_node with
          | None => ret None
          | Some _ => insert_child_left new_node node ;;; ret new_node
          end
      else
        no <- field offset node ;;
        if are_consecutive (u32 (u32 (nv + no) - 1)) v then
          sucessor <- get_right_sucessor walk node ;;
          merge <- (match sucessor with
                    | None => ret false
                    | Some _ =>
                        sv <- field value sucessor ;;
                        ret (are_consecutive v sv)
                    end) ;;
          if merge then
            so <- field offset sucessor ;;
            set_offset node (u32 (no + u32 (so + 1))) ;;;
            delete_node walk sucessor ;;;
            ret None
          else
            set_offset node (u32 (no + 1)) ;;;
            ret None
        else if nv <? v then
          h <- has_right_child node ;;
          if h then r <- field right node ;; insert_or_merge_loop walk f v r
          else
            new_node <- create_red_node v ;;
            match new_node with
            | None => ret None
            | Some _ => insert_child_right new_node node ;;; ret new_node
            end
        else ret None
  end.

Definition try_binary_insert_or_merge (fuel : nat) (v : Z) : M ptr :=
  node <- get root ;;
  match node with
  | None =>
      full <- is_full ;;
      if full then ret None
      else
        r <- create_black_node v ;;
        set_root r ;;;
        ret r
  | Some _ => insert_or_merge_loop fuel fuel v node
  end.

(** The [while(true)] loop of try_insert_rebalance. *)
Fixpoint try_insert_rebalance (fuel : nat) (node : ptr) : M unit :=
  match fuel with
  | O => undefined
  | S f =>
      par <- field parent node ;;
      uncle <- get_uncle node ;;
      match par with
      | None => set_black node
      | Some _ =>
          pb <- is_black par ;;
          if pb then ret tt
          else
            ur <- and_then (ret (negb (ptr_eqb uncle None))) (is_red uncle) ;;
            if ur then
              set_black par ;;;
              set_black uncle ;;;
              grandparent <- get_grandparent node ;;
              set_red grandparent ;;;
              try_insert_rebalance f grandparent
            else
              grandparent <- get_grandparent node ;;
              gl <- field left grandparent ;;
              pr <- field right par ;;
              node1 <-
                (if ptr_eqb par gl && ptr_eqb node pr then
                   rotate_left par ;;;
                   field left node
                 else
                   gr <- field right grandparent ;;
                   pl <- field left par ;;
                   if ptr_eqb par gr && ptr_eqb node pl then
                     rotate_right par ;;;
                     field right node
                   else ret node) ;;
              grandparent1 <- get_grandparent node1 ;;
              par1 <- field parent node1 ;;
              il <- is_left_child node1 ;;
              (if il then rotate_right grandparent1
               else rotate_left grandparent1) ;;;
              set_black par1 ;;;
              set_red grandparent1
      end
  end.

(** *** EXPORTED FUNCTIONS *)

(** [for (; start < end; start++) push_free_node(tree, start);] *)
Fixpoint push_all (n : nat) (start : nat) : M unit :=
  match n with
  | O => ret tt
  | S n' => push_free_node (Some start) ;;; push_all n' (S start)
  end.

(** [calloc]: every field of every node is zero. *)
Definition zero_node : rb_node := mk_node 0 0 false None None None.

Definition create_rb_tree (max_size : Z) : option rb_tree :=
  let tree := mk_tree max_size max_size None None None
                      (replicate (Z.to_nat max_size) zero_node) in
  snd <$> push_all (Z.to_nat max_size) O tree.

(** The loops follow links between nodes of the block; a walk that takes
    more steps than the block has nodes is in a cycle. *)
Definition fuel_of (t : rb_tree) : nat := S (length (node_block t)).

(** [bool insert(uint32_t value, struct rb_tree* tree)] *)
Definition insert (v : Z) : M bool :=
  fun t =>
    (inserted_node <- try_binary_insert_or_merge (fuel_of t) v ;;
     match inserted_node with
     | None => ret false
     | Some _ => try_insert_rebalance (fuel_of t) inserted_node ;;; ret true
     end) t.

(** A sequence of calls of [insert], results dropped. *)
Fixpoint inserts (vs : list Z) (t : rb_tree) : option rb_tree :=
  match vs with
  | [] => Some t
  | v :: r => match insert v t with
              | Some (_, t') => inserts r t'
              | None => None
              end
  end.

(** *** Reading the tree off the block *)

Inductive shape : Type :=
| Leaf
| Node (l : shape) (red : bool) (v o : Z) (r : shape).

Fixpoint shape_of (fuel : nat) (blk : list rb_node) (p : ptr) : shape :=
  match fuel, p with
  | S f, Some i =>
      match blk !! i with
      | Some n => Node (shape_of f blk (left n)) (color n)
                       (value n) (offset n) (shape_of f blk (right n))
      | None => Leaf
      end
  | _, _ => Leaf
  end.

Definition tree_shape (t : rb_tree) : shape :=
  shape_of (fuel_of t) (node_block t) (root t).

(** The ranges in order, as apply_inorder visits them. *)
Fixpoint inorder (s : shape) : list (Z * Z) :=
  match s with
  | Leaf => []
  | Node l _ v o r => inorder l ++ (v, o) :: inorder r
  end.

Definition ranges (t : rb_tree) : list (Z * Z) := inorder (tree_shape t).

(** The validity conditions. *)
Definition red (s : shape) : bool :=
  match s with Node _ c _ _ _ => c | Leaf => false end.

Definition root_is_black (s : shape) : bool := negb (red s).

Fixpoint no_red_red (s : shape) : bool :=
  match s with
  | Leaf => true
  | Node l c _ _ r =>
      negb (c && (red l || red r)) && no_red_red l && no_red_red r
  end.

(** Black depth of the subtree when all its paths agree. *)
Fixpoint black_depth (s : shape) : option nat :=
  match s with
  | Leaf => Some 1%nat
  | Node l c _ _ r =>
      match black_depth l, black_depth r with
      | Some a, Some b =>
          if Nat.eqb a b then Some (if c then a else S a) else None
      | _, _ => None
      end
  end.

(** Strictly increasing values, and no range touching the next one:
    [A.value + A.offset < B.value] for [A] before [B]. *)
Fixpoint separated (rs : list (Z * Z)) : bool :=
  match rs with
  | a :: ((b :: _) as r) => (fst a + snd a <? fst b) && separated r
  | _ => true
  end.

Definition rb_valid (t : rb_tree) : bool :=
  let s := tree_shape t in
  root_is_black s && no_red_red s && bool_decide (is_Some (black_depth s))
  && separated (inorder s).

Close Scope rb_scope.

End RbTree.

(** ** The tree of bplib_rb_tree.c as a term

    The nodes of the tree in the block read as a term, with the paths,
    the red-black conditions and the ranges the proofs about [insert]
    speak of. *)

Module RbHeap.
Import RbTree.

(** A tree of the block read as a term: each node with its index in the
    block. *)
Inductive tr : Type :=
| E
| T (l : tr) (i : nat) (c : bool) (v o : Z) (r : tr).

Definition rootp (t : tr) : ptr :=
  match t with E => None | T _ i _ _ _ _ => Some i end.

Fixpoint ids (t : tr) : list nat :=
  match t with E => [] | T l i _ _ _ r => i :: ids l ++ ids r end.

Fixpoint erase (t : tr) : shape :=
  match t with
  | E => Leaf
  | T l _ c v o r => Node (erase l) c v o (erase r)
  end.

Fixpoint height (t : tr) : nat :=
  match t with E => O | T l _ _ _ _ r => S (Nat.max (height l) (height r)) end.

(** The block holds [t] below the node [par]. *)
Fixpoint rep (blk : list rb_node) (par : ptr) (t : tr) : Prop :=
  match t with
  | E => True
  | T l i c v o r =>
      blk !! i = Some (mk_node v o c (rootp l) (rootp r) par)
      /\ rep blk (Some i) l /\ rep blk (Some i) r
  end.

(** The path from a subtree up to the root: every node on it with the
    subtree on its other side. *)
Inductive frame : Type :=
| FL (i : nat) (c : bool) (v o : Z) (r : tr)
| FR (l : tr) (i : nat) (c : bool) (v o : Z).

Definition fill (f : frame) (t : tr) : tr :=
  match f with
  | FL i c v o r => T t i c v o r
  | FR l i c v o => T l i c v o t
  end.

Fixpoint plug (k : list frame) (t : tr) : tr :=
  match k with [] => t | f :: k' => plug k' (fill f t) end.

Definition fid (f : frame) : nat :=
  match f with FL i _ _ _ _ => i | FR _ i _ _ _ => i end.

Definition fsib (f : frame) : tr :=
  match f with FL _ _ _ _ r => r | FR l _ _ _ _ => l end.

Definition cpar (k : list frame) : ptr :=
  match k with [] => None | f :: _ => Some (fid f) end.

Fixpoint idsc (k : list frame) : list nat :=
  match k with [] => [] | f :: k' => fid f :: ids (fsib f) ++ idsc k' end.

Fixpoint repc (blk : list rb_node) (k : list frame) (p : ptr) : Prop :=
  match k with
  | [] => True
  | FL i c v o r :: k' =>
      blk !! i = Some (mk_node v o c p (rootp r) (cpar k'))
      /\ rep blk (Some i) r /\ repc blk k' (Some i)
  | FR l i c v o :: k' =>
      blk !! i = Some (mk_node v o c (rootp l) p (cpar k'))
      /\ rep blk (Some i) l /\ repc blk k' (Some i)
  end.

(** The free nodes, oldest first: each one's [left] is the next. *)
Definition chain (blk : list rb_node) (fl : list nat) : Prop :=
  forall j a, fl !! j = Some a ->
    exists n, blk !! a = Some n /\ left n = fl !! S j.

Record wf (cap : nat) (h : rb_tree) (t : tr) (fl : list nat) : Prop := mk_wf {
  wf_root : root h = rootp t;
  wf_rep : rep (node_block h) None t;
  wf_nodup : NoDup (ids t ++ fl);
  wf_chain : chain (node_block h) fl;
  wf_tail : free_node_tail h = fl !! O;
  wf_head : free_node_head h = last fl;
  wf_size : size h = Z.of_nat (length (ids t));
  wf_len : length (node_block h) = (length (ids t) + length fl)%nat;
  wf_max : max_size h = Z.of_nat (length (node_block h));
  wf_u32 : max_size h < 2 ^ 32;
  wf_cap : length (node_block h) = cap }.

Definition upd (h : rb_tree) (i : nat) (n : rb_node) : rb_tree :=
  mk_tree (size h) (max_size h) (root h) (free_node_head h)
          (free_node_tail h) (<[i := n]> (node_block h)).

(** *** The red-black conditions on the term *)

Definition col (t : tr) : bool :=
  match t with E => false | T _ _ c _ _ _ => c end.

(** Black nodes on the leftmost path. *)
Fixpoint bhl (t : tr) : nat :=
  match t with
  | E => O
  | T l _ c _ _ _ => if c then bhl l else S (bhl l)
  end.

Fixpoint bal (t : tr) : Prop :=
  match t with
  | E => True
  | T l _ _ _ _ r => bhl l = bhl r /\ bal l /\ bal r
  end.

Fixpoint nrr (t : tr) : Prop :=
  match t with
  | E => True
  | T l _ c _ _ r =>
      (c = true -> col l = false /\ col r = false) /\ nrr l /\ nrr r
  end.

Definition rbt (t : tr) : Prop := col t = false /\ bal t /\ nrr t.

Definition fcol (f : frame) : bool :=
  match f with FL _ c _ _ _ => c | FR _ _ c _ _ => c end.

Definition pblack (k : list frame) : Prop :=
  match k with [] => False | f :: _ => fcol f = false end.

Definition bh_add (c : bool) (b : nat) : nat := if c then b else S b.

(** The path takes a black-rooted subtree of black height [b]. *)
Fixpoint okc (k : list frame) (b : nat) : Prop :=
  match k with
  | [] => True
  | f :: k' =>
      bhl (fsib f) = b /\ bal (fsib f) /\ nrr (fsib f)
      /\ (fcol f = true -> col (fsib f) = false /\ pblack k')
      /\ okc k' (bh_add (fcol f) b)
  end.

(** The ranges in order. *)
Fixpoint ino (t : tr) : list (Z * Z) :=
  match t with
  | E => []
  | T l _ _ v o r => ino l ++ (v, o) :: ino r
  end.

Definition frange (f : frame) : Z * Z :=
  match f with FL _ _ v o _ => (v, o) | FR _ _ _ v o => (v, o) end.

(** The ranges before and after the subtree a path leads to. *)
Fixpoint lft (k : list frame) : list (Z * Z) :=
  match k with
  | [] => []
  | FL _ _ _ _ _ :: k' => lft k'
  | FR l _ _ v o :: k' => lft k' ++ ino l ++ [(v, o)]
  end.

Fixpoint rgt (k : list frame) : list (Z * Z) :=
  match k with
  | [] => []
  | FL _ _ v o r :: k' => (v, o) :: ino r ++ rgt k'
  | FR _ _ _ _ _ :: k' => rgt k'
  end.

(** *** The ranges as a list *)

(** What an insertion of a value outside the ranges does to them. *)
Fixpoint ins_list (v : Z) (rs : list (Z * Z)) : list (Z * Z) :=
  match rs with
  | [] => [(v, 1)]
  | (a, o) :: rest =>
      if v + 1 <? a then (v, 1) :: rs
      else if v + 1 =? a then (v, o + 1) :: rest
      else if a + o =? v then
        match rest with
        | (a2, o2) :: rest2 =>
            if v + 1 =? a2 then (a, o + (o2 + 1)) :: rest2
            else (a, o + 1) :: rest
        | [] => [(a, o + 1)]
        end
      else (a, o) :: ins_list v rest
  end.

Definition in_range (x : Z) (r : Z * Z) : Prop := fst r <= x < fst r + snd r.

Definition covered (rs : list (Z * Z)) (x : Z) : Prop :=
  Exists (in_range x) rs.

Definition range_ok (n : Z) (r : Z * Z) : Prop :=
  0 <= fst r /\ 1 <= snd r /\ fst r + snd r <= n.

Definition ranges_ok (n : Z) (rs : list (Z * Z)) : Prop :=
  separated rs = true /\ Forall (range_ok n) rs.

Definition ends_before (v : Z) (r : Z * Z) : Prop := fst r + snd r < v.
Definition starts_after (v : Z) (r : Z * Z) : Prop := v + 1 < fst r.

(** The number of values in the ranges. *)
Definition total (rs : list (Z * Z)) : Z :=
  fold_right (fun r s => snd r + s) 0 rs.

(** The state of the tree after the values [vs], all below [n], went in. *)
Definition holds (cap : nat) (n : Z) (vs : list Z) (h : rb_tree) : Prop :=
  exists t fl,
    wf cap h t fl /\ rbt t /\ ranges_ok n (ino t)
    /\ (forall x, covered (ino t) x <-> x ∈ vs)
    /\ total (ino t) = Z.of_nat (length vs).

(** The tree while [create_rb_tree] fills the list of free nodes. *)
Definition building (cap m : nat) (h : rb_tree) : Prop :=
  root h = None /\ chain (node_block h) (seq 0 m)
  /\ free_node_tail h = seq 0 m !! O /\ free_node_head h = last (seq 0 m)
  /\ size h = Z.of_nat cap - Z.of_nat m
  /\ length (node_block h) = cap
  /\ max_size h = Z.of_nat cap /\ Z.of_nat cap < 2 ^ 32.

(** *** Statements of the proof of the coalescing *)

Definition starts_above (lo : Z) (rs : list (Z * Z)) : Prop :=
  match rs with [] => True | b :: _ => lo < fst b end.

(** The state after the repair below the node [t]: the path takes a
    subtree one black node lower. *)
Definition repaired (cap : nat) (h' : rb_tree) (k' k : list frame) (t : tr) (b : nat)
    (fl : list nat) : Prop :=
  wf cap h' (plug k' t) fl /\ okc k' b /\ lft k' = lft k /\ rgt k' = rgt k
  /\ (k = [] \/ k' <> []).

Definition repairs (cap : nat) (rec : ptr -> M unit) (fuel : nat) : Prop :=
  forall h k l x c v o r b fl,
    wf cap h (plug k (T l x c v o r)) fl ->
    (length k < fuel)%nat ->
    okc k (S b) ->
    exists h' k',
      rec (Some x) h = Some (tt, h')
      /\ repaired cap h' k' k (T l x c v o r) b fl.

(** The state after the search of [try_binary_insert_or_merge]. *)
Definition searched (cap : nat) (v : Z) (rs : list (Z * Z))
    (res : ptr) (h' : rb_tree) : Prop :=
  match res with
  | None =>
      exists t' fl', wf cap h' t' fl' /\ rbt t' /\ ino t' = ins_list v rs
  | Some j =>
      exists k' fl',
        wf cap h' (plug k' (T E j true v 1 E)) fl' /\ okc k' 0
        /\ ino (plug k' (T E j true v 1 E)) = ins_list v rs
  end.

End RbHeap.

(* ================================================================== *)
(** ** Channel (src/lib/bplib.c) and bundle glue (src/lib/bundle.c) *)
(* ================================================================== *)

Module Channel.

(** *** Types and constants of the headers

    Modelled from the spec: bplib.h and bundle_types.h are not among the
    sources.  The records below carry the fields bplib.c and bundle.c
    read and write; the flag bits are distinct bits of the flag word and
    the wrap responses are the three values bplib_config accepts. *)

Definition BP_SID_VACANT : Z := 0.
Definition BP_INVALID_HANDLE : Z := -1.
Definition BP_CHECK : Z := 0.
Definition BP_OS_ERROR : Z := -1.

Definition BP_FLAG_UNRELIABLETIME  : Z := 0x0004.
Definition BP_FLAG_ROUTENEEDED     : Z := 0x0040.
Definition BP_FLAG_STOREFAILURE    : Z := 0x0080.
Definition BP_FLAG_ACTIVETABLEWRAP : Z := 0x0800.

Definition BP_WRAP_RESEND : Z := 0.
Definition BP_WRAP_BLOCK  : Z := 1.
Definition BP_WRAP_DROP   : Z := 2.

(** bplib.c, DEFINES *)
Definition BP_WRAP_TIMEOUT : Z := 1000.

Inductive bp_opt_mode := BP_OPT_MODE_READ | BP_OPT_MODE_WRITE.

(** The option selectors bplib_config switches on; [BP_OPT_OTHER] is any
    value that reaches the [default] case. *)
Inductive bp_opt :=
| BP_OPT_LIFETIME | BP_OPT_REQUEST_CUSTODY | BP_OPT_ADMIN_RECORD
| BP_OPT_INTEGRITY_CHECK | BP_OPT_ALLOW_FRAGMENTATION | BP_OPT_CIPHER_SUITE
| BP_OPT_TIMEOUT | BP_OPT_MAX_LENGTH | BP_OPT_WRAP_RESPONSE
| BP_OPT_CID_REUSE | BP_OPT_DACS_RATE
| BP_OPT_OTHER (opt : Z).

Record bp_attr_t := mk_attr {
  lifetime : Z; request_custody : Z; admin_record : Z; integrity_check : Z;
  allow_fragmentation : Z; cipher_suite : Z; timeout : Z; max_length : Z;
  wrap_response : Z; cid_reuse : Z; dacs_rate : Z; active_table_size : Z;
  max_fills_per_dacs : Z; max_gaps_per_dacs : Z; storage_service_parm : Z }.

Record bp_stats_t := mk_stats {
  lost : Z; expired : Z; acknowledged : Z; transmitted : Z;
  retransmitted : Z; received : Z; generated : Z; delivered : Z;
  bundles : Z; payloads : Z; records : Z; active : Z }.

(** What the storage service keeps for a bundle ([bp_bundle_data_t]). *)
Record bp_bundle_data_t := mk_data {
  exprtime : Z; cteboffset : Z; bundlesize : Z; header : list Z }.

(** What a storage handle holds: bundles on the bundle and DACS handles,
    payload bytes on the payload handle. *)
Inductive object :=
| Bundle (d : bp_bundle_data_t)
| Payload (bytes : list Z).

(** [bp_bundle_t]: the handles and the template flag. *)
Record bp_bundle_t := mk_bundle {
  bundle_handle : Z; payload_handle : Z; prebuilt : bool }.

(** bplib.c, TYPEDEFS *)
Record bp_active_table_t := mk_slot { sid : Z; retx : Z }.

Record bp_channel_t {C : Type} := mk_channel {
  attributes : bp_attr_t;
  bundle : bp_bundle_t;
  custody : C;
  oldest_active_cid : Z;
  current_active_cid : Z;
  active_table_signal : Z;
  active_table : list bp_active_table_t;
  stats : bp_stats_t }.
Arguments bp_channel_t : clear implicits.
Arguments mk_channel {C}.

(** *** The collaborators

    The storage service, the operating system layer, the custody module
    and the v6 bundle codec are reached through function pointers or
    live in files that are not among the sources.  [W] is the state they
    own (stored objects, clock, memory, condition variable); every call
    takes it and gives it back. *)

Record bp_store_t {W : Type} := mk_store {
  (* status, the data pointer, its size and the storage id written *)
  dequeue : Z -> Z -> W -> (Z * option object * Z * Z) * W;
  retrieve : Z -> Z -> Z -> W -> (Z * option object) * W;
  relinquish : Z -> Z -> W -> Z * W;
  getcount : Z -> W -> Z }.
Arguments bp_store_t : clear implicits.
Arguments mk_store {W}.

Record bp_os_t {W : Type} := mk_os {
  bplib_os_systime : W -> (Z * Z) * W;       (* status, seconds *)
  bplib_os_waiton : Z -> Z -> W -> Z * W;    (* handle, milliseconds *)
  bplib_os_signal : Z -> W -> W;
  malloc : Z -> W -> bool * W }.             (* whether memory was given *)
Arguments bp_os_t : clear implicits.
Arguments mk_os {W}.

Record bp_v6_t {W C : Type} := mk_v6 {
  (* v6_build(bundle, NULL, NULL, 0, flags) *)
  v6_build : bp_bundle_t -> Z -> W -> (Z * bp_bundle_t * Z) * W;
  (* v6_write(bundle, true, pay, pay_size, timeout, flags) *)
  v6_write : bp_bundle_t -> list Z -> Z -> Z -> Z -> W
             -> (Z * bp_bundle_t * Z) * W;
  (* v6_update(data, cid, flags) *)
  v6_update : bp_bundle_data_t -> Z -> Z -> bp_bundle_data_t * Z;
  (* custody_send(&custody, dacs_rate, sysnow, BP_CHECK, flags) *)
  custody_send : C -> Z -> Z -> Z -> Z -> W -> (C * Z) * W;
  (* custody.bundle.bundle_handle *)
  custody_handle : C -> Z }.
Arguments bp_v6_t : clear implicits.
Arguments mk_v6 {W C}.

Section WithCollaborators.

Context {W C : Type}.
Variable store : bp_store_t W.
Variable os : bp_os_t W.
Variable v6 : bp_v6_t W C.

(** Width in bits of [bp_val_t] and of the counters of [bp_stats_t]. *)
Variable bp_val_bits : Z.

Local Abbreviation channel := (bp_channel_t C).

Definition val (x : Z) : Z := wrap bp_val_bits x.

(** Field updates. *)
Definition with_attributes (ch : channel) (a : bp_attr_t) : channel :=
  mk_channel a (bundle ch) (custody ch) (oldest_active_cid ch)
             (current_active_cid ch) (active_table_signal ch)
             (active_table ch) (stats ch).
Definition with_bundle (ch : channel) (b : bp_bundle_t) : channel :=
  mk_channel (attributes ch) b (custody ch) (oldest_active_cid ch)
             (current_active_cid ch) (active_table_signal ch)
             (active_table ch) (stats ch).
Definition with_custody (ch : channel) (c : C) : channel :=
  mk_channel (attributes ch) (bundle ch) c (oldest_active_cid ch)
             (current_active_cid ch) (active_table_signal ch)
             (active_table ch) (stats ch).
Definition with_oldest (ch : channel) (x : Z) : channel :=
  mk_channel (attributes ch) (bundle ch) (custody ch) x
             (current_active_cid ch) (active_table_signal ch)
             (active_table ch) (stats ch).
Definition with_current (ch : channel) (x : Z) : channel :=
  mk_channel (attributes ch) (bundle ch) (custody ch) (oldest_active_cid ch)
             x (active_table_signal ch) (active_table ch) (stats ch).
Definition with_table (ch : channel) (t : list bp_active_table_t) : channel :=
  mk_channel (attributes ch) (bundle ch) (custody ch) (oldest_active_cid ch)
             (current_active_cid ch) (active_table_signal ch) t (stats ch).
Definition with_stats (ch : channel) (s : bp_stats_t) : channel :=
  mk_channel (attributes ch) (bundle ch) (custody ch) (oldest_active_cid ch)
             (current_active_cid ch) (active_table_signal ch)
             (active_table ch) s.

Definition incr_lost (s : bp_stats_t) : bp_stats_t :=
  mk_stats (val (lost s + 1)) (expired s) (acknowledged s) (transmitted s)
           (retransmitted s) (received s) (generated s) (delivered s)
           (bundles s) (payloads s) (records s) (active s).
Definition incr_expired (s : bp_stats_t) : bp_stats_t :=
  mk_stats (lost s) (val (expired s + 1)) (acknowledged s) (transmitted s)
           (retransmitted s) (received s) (generated s) (delivered s)
           (bundles s) (payloads s) (records s) (active s).
Definition incr_transmitted (s : bp_stats_t) : bp_stats_t :=
  mk_stats (lost s) (expired s) (acknowledged s) (val (transmitted s + 1))
           (retransmitted s) (received s) (generated s) (delivered s)
           (bundles s) (payloads s) (records s) (active s).
Definition incr_retransmitted (s : bp_stats_t) : bp_stats_t :=
  mk_stats (lost s) (expired s) (acknowledged s) (transmitted s)
           (val (retransmitted s + 1)) (received s) (generated s)
           (delivered s) (bundles s) (payloads s) (records s) (active s).
Definition incr_generated (s : bp_stats_t) : bp_stats_t :=
  mk_stats (lost s) (expired s) (acknowledged s) (transmitted s)
           (retransmitted s) (received s) (val (generated s + 1))
           (delivered s) (bundles s) (payloads s) (records s) (active s).
Definition incr_delivered (s : bp_stats_t) : bp_stats_t :=
  mk_stats (lost s) (expired s) (acknowledged s) (transmitted s)
           (retransmitted s) (received s) (generated s)
           (val (delivered s + 1)) (bundles s) (payloads s) (records s)
           (active s).

(** [ch->active_table[ati]], [ati = cid % active_table_size]. *)
Definition slot_index (ch : channel) (cid : Z) : option Z :=
  let n := active_table_size (attributes ch) in
  if n <=? 0 then None else Some (cid mod n).

Definition slot_sid (ch : channel) (ati : Z) : option Z :=
  sid <$> rd (active_table ch) ati.

Definition set_slot_sid (ch : channel) (ati : Z) (s : Z) : option channel :=
  e ← rd (active_table ch) ati;
  t ← wr (active_table ch) ati (mk_slot s (retx e));
  Some (with_table ch t).

Definition set_slot_retx (ch : channel) (ati : Z) (r : Z) : option channel :=
  e ← rd (active_table ch) ati;
  t ← wr (active_table ch) ati (mk_slot (sid e) r);
  Some (with_table ch t).

Definition bump_oldest (ch : channel) : channel :=
  with_oldest ch (val (oldest_active_cid ch + 1)).

(** *** LOCAL FUNCTIONS *)

(** static int acknowledge(void* parm, bp_val_t cid) *)
Definition acknowledge (ch : channel) (cid : Z) (w : W)
  : option (Z * channel * W) :=
  ati ← slot_index ch cid;
  s ← slot_sid ch ati;
  if negb (s =? BP_SID_VACANT) then
    let '(status, w') := relinquish store (bundle_handle (bundle ch)) s w in
    ch' ← set_slot_sid ch ati BP_SID_VACANT;
    Some (status, ch', w')
  else Some (BP_FAILEDRESPONSE, ch, w).

(** *** EXPORTED FUNCTIONS *)

(** The state bplib_open leaves, the table zeroed by [memset]. *)
Definition open_channel (a : bp_attr_t) (b : bp_bundle_t) (c : C)
           (signal : Z) : channel :=
  mk_channel a b c 1 1 signal
             (replicate (Z.to_nat (active_table_size a)) (mk_slot 0 0))
             (mk_stats 0 0 0 0 0 0 0 0 0 0 0 0).

(** The [while] loop of bplib_flush. *)
Fixpoint flush_loop (fuel : nat) (ch : channel) (w : W)
  : option (channel * W) :=
  match fuel with
  | O => None
  | S f =>
      if negb (oldest_active_cid ch =? current_active_cid ch) then
        ati ← slot_index ch (oldest_active_cid ch);
        s ← slot_sid ch ati;
        '(ch1, w1) ←
          (if negb (s =? BP_SID_VACANT) then
             let '(_, w') := relinquish store (bundle_handle (bundle ch)) s w in
             ch' ← set_slot_sid ch ati BP_SID_VACANT;
             Some (with_stats ch' (incr_lost (stats ch')), w')
           else Some (ch, w));
        flush_loop f (bump_oldest ch1) w1
      else Some (ch, w)
  end.

(** The CIDs between oldest and current, counted modulo the width. *)
Definition window (ch : channel) : Z :=
  val (current_active_cid ch - oldest_active_cid ch).

(** int bplib_flush(bp_desc_t channel) *)
Definition bplib_flush (channel_ : option channel) (w : W)
  : option (Z * option channel * W) :=
  match channel_ with
  | None => Some (BP_PARMERR, None, w)
  | Some ch =>
      '(ch', w') ← flush_loop (S (Z.to_nat (window ch))) ch w;
      Some (BP_SUCCESS, Some ch', w')
  end.

Definition is_bool (x : Z) : bool := (x =? 1) || (x =? 0).

Definition set_attr (opt : bp_opt) (a : bp_attr_t) (x : Z) : bp_attr_t :=
  match opt with
  | BP_OPT_LIFETIME =>
      mk_attr x (request_custody a) (admin_record a) (integrity_check a)
        (allow_fragmentation a) (cipher_suite a) (timeout a) (max_length a)
        (wrap_response a) (cid_reuse a) (dacs_rate a) (active_table_size a)
        (max_fills_per_dacs a) (max_gaps_per_dacs a) (storage_service_parm a)
  | BP_OPT_REQUEST_CUSTODY =>
      mk_attr (lifetime a) x (admin_record a) (integrity_check a)
        (allow_fragmentation a) (cipher_suite a) (timeout a) (max_length a)
        (wrap_response a) (cid_reuse a) (dacs_rate a) (active_table_size a)
        (max_fills_per_dacs a) (max_gaps_per_dacs a) (storage_service_parm a)
  | BP_OPT_ADMIN_RECORD =>
      mk_attr (lifetime a) (request_custody a) x (integrity_check a)
        (allow_fragmentation a) (cipher_suite a) (timeout a) (max_length a)
        (wrap_response a) (cid_reuse a) (dacs_rate a) (active_table_size a)
        (max_fills_per_dacs a) (max_gaps_per_dacs a) (storage_service_parm a)
  | BP_OPT_INTEGRITY_CHECK =>
      mk_attr (lifetime a) (request_custody a) (admin_record a) x
        (allow_fragmentation a) (cipher_suite a) (timeout a) (max_length a)
        (wrap_response a) (cid_reuse a) (dacs_rate a) (active_table_size a)
        (max_fills_per_dacs a) (max_gaps_per_dacs a) (storage_service_parm a)
  | BP_OPT_ALLOW_FRAGMENTATION =>
      mk_attr (lifetime a) (request_custody a) (admin_record a)
        (integrity_check a) x (cipher_suite a) (timeout a) (max_length a)
        (wrap_response a) (cid_reuse a) (dacs_rate a) (active_table_size a)
        (max_fills_per_dacs a) (max_gaps_per_dacs a) (storage_service_parm a)
  | BP_OPT_CIPHER_SUITE =>
      mk_attr (lifetime a) (request_custody a) (admin_record a)
        (integrity_check a) (allow_fragmentation a) x (timeout a)
        (max_length a) (wrap_response a) (cid_reuse a) (dacs_rate a)
        (active_table_size a) (max_fills_per_dacs a) (max_gaps_per_dacs a)
        (storage_service_parm a)
  | BP_OPT_TIMEOUT =>
      mk_attr (lifetime a) (request_custody a) (admin_record a)
        (integrity_check a) (allow_fragmentation a) (cipher_suite a) x
        (max_length a) (wrap_response a) (cid_reuse a) (dacs_rate a)
        (active_table_size a) (max_fills_per_dacs a) (max_gaps_per_dacs a)
        (storage_service_parm a)
  | BP_OPT_MAX_LENGTH =>
      mk_attr (lifetime a) (request_custody a) (admin_record a)
        (integrity_check a) (allow_fragmentation a) (cipher_suite a)
        (timeout a) x (wrap_response a) (cid_reuse a) (dacs_rate a)
        (active_table_size a) (max_fills_per_dacs a) (max_gaps_per_dacs a)
        (storage_service_parm a)
  | BP_OPT_WRAP_RESPONSE =>
      mk_attr (lifetime a) (request_custody a) (admin_record a)
        (integrity_check a) (allow_fragmentation a) (cipher_suite a)
        (timeout a) (max_length a) x (cid_reuse a) (dacs_rate a)
        (active_table_size a) (max_fills_per_dacs a) (max_gaps_per_dacs a)
        (storage_service_parm a)
  | BP_OPT_CID_REUSE =>
      mk_attr (lifetime a) (request_custody a) (admin_record a)
        (integrity_check a) (allow_fragmentation a) (cipher_suite a)
        (timeout a) (max_length a) (wrap_response a) x (dacs_rate a)
        (active_table_size a) (max_fills_per_dacs a) (max_gaps_per_dacs a)
        (storage_service_parm a)
  | BP_OPT_DACS_RATE =>
      mk_attr (lifetime a) (request_custody a) (admin_record a)
        (integrity_check a) (allow_fragmentation a) (cipher_suite a)
        (timeout a) (max_length a) (wrap_response a) (cid_reuse a) x
        (active_table_size a) (max_fills_per_dacs a) (max_gaps_per_dacs a)
        (storage_service_parm a)
  | BP_OPT_OTHER _ => a
  end.

Definition get_attr (opt : bp_opt) (a : bp_attr_t) : Z :=
  match opt with
  | BP_OPT_LIFETIME => lifetime a
  | BP_OPT_REQUEST_CUSTODY => request_custody a
  | BP_OPT_ADMIN_RECORD => admin_record a
  | BP_OPT_INTEGRITY_CHECK => integrity_check a
  | BP_OPT_ALLOW_FRAGMENTATION => allow_fragmentation a
  | BP_OPT_CIPHER_SUITE => cipher_suite a
  | BP_OPT_TIMEOUT => timeout a
  | BP_OPT_MAX_LENGTH => max_length a
  | BP_OPT_WRAP_RESPONSE => wrap_response a
  | BP_OPT_CID_REUSE => cid_reuse a
  | BP_OPT_DACS_RATE => dacs_rate a
  | BP_OPT_OTHER _ => 0
  end.

(** The check each [case] makes on a value to be set. *)
Definition value_accepted (opt : bp_opt) (x : Z) : bool :=
  match opt with
  | BP_OPT_REQUEST_CUSTODY | BP_OPT_ADMIN_RECORD | BP_OPT_INTEGRITY_CHECK
  | BP_OPT_ALLOW_FRAGMENTATION | BP_OPT_CID_REUSE => is_bool x
  | BP_OPT_WRAP_RESPONSE =>
      (x =? BP_WRAP_RESEND) || (x =? BP_WRAP_BLOCK) || (x =? BP_WRAP_DROP)
  | _ => true
  end.

(** int bplib_config(bp_desc_t channel, int mode, int opt, void* val,
                     int len).
    [val_] is the integer behind [val].  Result: the status, the channel
    and the integer behind [val] afterwards. *)
Definition bplib_config (channel_ : option channel) (mode : bp_opt_mode)
           (opt : bp_opt) (val_ : option Z) (len : Z)
  : Z * option channel * option Z :=
  match channel_, val_ with
  | None, _ => (BP_PARMERR, channel_, val_)
  | Some _, None => (BP_PARMERR, channel_, val_)
  | Some ch, Some x =>
      let setopt := match mode with
                    | BP_OPT_MODE_WRITE => true
                    | BP_OPT_MODE_READ => false
                    end in
      match opt with
      | BP_OPT_OTHER _ => (bplog BP_PARMERR, channel_, val_)
      | _ =>
          if negb (len =? 4) then (BP_PARMERR, channel_, val_)
          else if setopt && negb (value_accepted opt x)
          then (BP_PARMERR, channel_, val_)
          else
            let ch1 := if setopt
                       then with_attributes ch (set_attr opt (attributes ch) x)
                       else ch in
            let out := if setopt then x else get_attr opt (attributes ch) in
            (* Re-initialize Bundles *)
            let ch2 := if setopt
                       then with_bundle ch1
                              (mk_bundle (bundle_handle (bundle ch1))
                                         (payload_handle (bundle ch1)) true)
                       else ch1 in
            (BP_SUCCESS, Some ch2, Some out)
      end
  end.

(** bundle.c: int bundle_send(bp_bundle_t* bundle, uint8_t* pay,
                             int pay_size, int timeout, uint16_t* flags) *)
Definition bundle_send (b : bp_bundle_t) (pay : list Z)
           (pay_size timeout_ flags : Z) (w : W)
  : (Z * bp_bundle_t * Z) * W :=
  let '((_, b1, flags1), w1) :=
    if negb (prebuilt b) then v6_build v6 b flags w
    else ((BP_SUCCESS, b, flags), w) in
  v6_write v6 b1 pay pay_size timeout_ flags1 w1.

(** int bplib_store(bp_desc_t channel, void* payload, int size,
                    int timeout, uint16_t* flags) *)
Definition bplib_store (channel_ : option channel) (payload : option (list Z))
           (size_ timeout_ : Z) (flags : option Z) (w : W)
  : Z * option channel * option Z * W :=
  match channel_, payload, flags with
  | Some ch, Some pay, Some fl =>
      let '((status, b, fl'), w') :=
        bundle_send (bundle ch) pay size_ timeout_ fl w in
      let ch1 := with_bundle ch b in
      let ch2 := if status =? BP_SUCCESS
                 then with_stats ch1 (incr_generated (stats ch1)) else ch1 in
      (status, Some ch2, Some fl', w')
  | _, _, _ => (BP_PARMERR, channel_, flags, w)
  end.

(** The local variables of bplib_load that outlive its loops. *)
Record locals := mk_locals {
  data : option bp_bundle_data_t;   (* NULL or the bundle to send *)
  l_sid : Z;
  ati : Z;
  newcid : bool;
  status : Z;
  l_flags : Z;
  handle : Z }.

Definition with_data (l : locals) (d : option bp_bundle_data_t) : locals :=
  mk_locals d (l_sid l) (ati l) (newcid l) (status l) (l_flags l) (handle l).
Definition with_sid (l : locals) (s : Z) : locals :=
  mk_locals (data l) s (ati l) (newcid l) (status l) (l_flags l) (handle l).
Definition with_ati (l : locals) (a : Z) : locals :=
  mk_locals (data l) (l_sid l) a (newcid l) (status l) (l_flags l) (handle l).
Definition with_newcid (l : locals) (b : bool) : locals :=
  mk_locals (data l) (l_sid l) (ati l) b (status l) (l_flags l) (handle l).
Definition with_status (l : locals) (s : Z) : locals :=
  mk_locals (data l) (l_sid l) (ati l) (newcid l) s (l_flags l) (handle l).
Definition or_flags (l : locals) (f : Z) : locals :=
  mk_locals (data l) (l_sid l) (ati l) (newcid l) (status l)
            (Z.lor (l_flags l) f) (handle l).
Definition with_handle (l : locals) (h : Z) : locals :=
  mk_locals (data l) (l_sid l) (ati l) (newcid l) (status l) (l_flags l) h.

(** [(void** )&data] handed to the storage service: the object it stores
    there is read as a [bp_bundle_data_t]. *)
Definition as_bundle (o : option object) : option (option bp_bundle_data_t) :=
  match o with
  | None => Some None
  | Some (Bundle d) => Some (Some d)
  | Some (Payload _) => None
  end.

Definition is_expired (d : bp_bundle_data_t) (sysnow : Z) : bool :=
  negb (exprtime d =? 0) && (exprtime d <=? sysnow).

(** One turn of the loop "Try to Send Timed-out Bundle".  The boolean is
    false when the turn ends in [break]. *)
Definition scan_step (sysnow : Z) (ch : channel) (l : locals) (w : W)
  : option (bool * channel * locals * W) :=
  i ← slot_index ch (oldest_active_cid ch);
  s ← slot_sid ch i;
  let l := with_sid (with_ati l i) s in
  if s =? BP_SID_VACANT then
    Some (true, bump_oldest ch, l, w)
  else
    let '((st, o), w1) := retrieve store (handle l) s BP_CHECK w in
    dopt ← as_bundle o;
    let l := with_data l dopt in
    if st =? BP_SUCCESS then
      d ← dopt;
      if is_expired d sysnow then
        (* Bundle Expired - Clear Entry *)
        let '(_, w2) := relinquish store (handle l) s w1 in
        ch1 ← set_slot_sid ch i BP_SID_VACANT;
        let ch2 := bump_oldest ch1 in
        Some (true, with_stats ch2 (incr_expired (stats ch2)),
              with_data l None, w2)
      else
        e ← rd (active_table ch) i;
        let tmo := timeout (attributes ch) in
        if negb (tmo =? 0) && (val (retx e + tmo) <=? sysnow) then
          (* Retransmit Bundle *)
          let ch1 := bump_oldest ch in
          let ch2 := with_stats ch1 (incr_retransmitted (stats ch1)) in
          if negb (cid_reuse (attributes ch) =? 0) then
            Some (true, ch2, with_newcid l false, w1)
          else
            ch3 ← set_slot_sid ch2 i BP_SID_VACANT;
            Some (true, ch3, l, w1)
        else
          (* Bundle Not Ready to Retransmit *)
          let l := with_data l None in
          wi ← slot_index ch (current_active_cid ch);
          ws ← slot_sid ch wi;
          let l := with_sid (with_ati l wi) ws in
          if negb (ws =? BP_SID_VACANT) then
            let l := or_flags l BP_FLAG_ACTIVETABLEWRAP in
            if wrap_response (attributes ch) =? BP_WRAP_RESEND then
              let ch1 := bump_oldest ch in
              let '((st2, o2), w2) :=
                retrieve store (handle l) ws BP_CHECK w1 in
              d2 ← as_bundle o2;
              let l := with_data l d2 in
              if negb (st2 =? BP_SUCCESS) then
                let '(_, w3) := relinquish store (handle l) ws w2 in
                ch2 ← set_slot_sid ch1 wi BP_SID_VACANT;
                Some (false, with_stats ch2 (incr_lost (stats ch2)),
                      or_flags l BP_FLAG_STOREFAILURE, w3)
              else
                let ch2 := with_stats ch1 (incr_retransmitted (stats ch1)) in
                let '(_, w3) := bplib_os_waiton os (active_table_signal ch)
                                                BP_WRAP_TIMEOUT w2 in
                Some (false, ch2, l, w3)
            else if wrap_response (attributes ch) =? BP_WRAP_BLOCK then
              let '(_, w2) := bplib_os_waiton os (active_table_signal ch)
                                              BP_WRAP_TIMEOUT w1 in
              Some (false, ch, with_status l BP_OVERFLOW, w2)
            else
              let ch1 := bump_oldest ch in
              let '(_, w2) := relinquish store (handle l) ws w1 in
              ch2 ← set_slot_sid ch1 wi BP_SID_VACANT;
              Some (false, with_stats ch2 (incr_lost (stats ch2)), l, w2)
          else Some (false, ch, l, w1)
    else
      (* Failed to Retrieve Bundle from Storage *)
      let '(_, w2) := relinquish store (handle l) s w1 in
      ch1 ← set_slot_sid ch i BP_SID_VACANT;
      Some (true, with_stats ch1 (incr_lost (stats ch1)),
            or_flags l BP_FLAG_STOREFAILURE, w2).

(** [while((data == NULL) && (oldest_active_cid != current_active_cid))] *)
Fixpoint scan_loop (fuel : nat) (sysnow : Z) (ch : channel) (l : locals)
         (w : W) : option (channel * locals * W) :=
  match fuel with
  | O => None
  | S f =>
      match data l with
      | Some _ => Some (ch, l, w)
      | None =>
          if oldest_active_cid ch =? current_active_cid ch
          then Some (ch, l, w)
          else
            '(continue, ch', l', w') ← scan_step sysnow ch l w;
            if continue : bool then scan_loop f sysnow ch' l' w'
            else Some (ch', l', w')
      end
  end.

(** [while(data == NULL)] of "Try to Send Stored Bundle". *)
Fixpoint dequeue_loop (fuel : nat) (sysnow timeout_ : Z) (ch : channel)
         (l : locals) (w : W) : option (channel * locals * W) :=
  match fuel with
  | O => None
  | S f =>
      match data l with
      | Some _ => Some (ch, l, w)
      | None =>
          let '((deq_status, o, _, dsid), w1) :=
            dequeue store (handle l) timeout_ w in
          dopt ← as_bundle o;
          let l := with_sid (with_data l dopt) dsid in
          if deq_status =? BP_SUCCESS then
            d ← dopt;
            if is_expired d sysnow then
              let '(_, w2) := relinquish store (handle l) dsid w1 in
              dequeue_loop f sysnow timeout_
                (with_stats ch (incr_expired (stats ch)))
                (with_data (with_sid l BP_SID_VACANT) None) w2
            else dequeue_loop f sysnow timeout_ ch l w1
          else if deq_status =? BP_TIMEOUT then
            Some (ch, with_status l BP_TIMEOUT, w1)
          else
            Some (ch, or_flags (with_status l BP_FAILEDSTORE)
                               BP_FLAG_STOREFAILURE, w1)
      end
  end.

(** "Send Bundle if Ready to Send".  [caller_buffer] tells whether
    [*bundle] is a buffer of the caller; the bytes copied out come back
    with the status. *)
Definition emit (sysnow size_ : Z) (caller_buffer : bool) (ch : channel)
           (l : locals) (w : W)
  : option (channel * locals * option (list Z) * W) :=
  match data l with
  | None => Some (ch, l, None, w)
  | Some d =>
      if negb caller_buffer || (bundlesize d <=? size_) then
        let '(have_memory, w1) :=
          if negb caller_buffer then malloc os (bundlesize d) w
          else (true, w) in
        if have_memory : bool then
          '(ch1, l1, d1) ←
            (if negb (cteboffset d =? 0) then
               '(ch', l', d') ←
                 (if newcid l then
                    i ← slot_index ch (current_active_cid ch);
                    ch' ← set_slot_sid ch i (l_sid l);
                    let '(d', fl') := v6_update v6 d (current_active_cid ch)
                                                (l_flags l) in
                    Some (with_current ch' (val (current_active_cid ch + 1)),
                          mk_locals (data l) (l_sid l) i (newcid l)
                                    (status l) fl' (handle l),
                          d')
                  else Some (ch, l, d));
               ch'' ← set_slot_retx ch' (ati l') sysnow;
               Some (ch'', l', d')
             else Some (ch, l, d));
          let out := take (Z.to_nat (bundlesize d1)) (header d1) in
          let ch2 := with_stats ch1 (incr_transmitted (stats ch1)) in
          let w2 := if cteboffset d1 =? 0
                    then snd (relinquish store (handle l1) (l_sid l1) w1)
                    else w1 in
          Some (ch2, with_status l1 (bundlesize d1), Some out, w2)
        else
          let '(_, w2) := relinquish store (handle l) (l_sid l) w1 in
          Some (with_stats ch (incr_lost (stats ch)),
                with_status l (bplog BP_FAILEDMEM), None, w2)
      else
        let '(_, w1) := relinquish store (handle l) (l_sid l) w in
        Some (with_stats ch (incr_lost (stats ch)),
              with_status l (bplog BP_BUNDLETOOLARGE), None, w1)
  end.

(** "Get Current Time" and "Try to Send DACS Bundle": the time, and the
    locals with the DACS bundle in [data] when one was dequeued. *)
Definition start_load (fl : Z) (ch : channel) (w : W)
  : option (Z * channel * locals * W) :=
  let '((tstatus, sysnow), w0) := bplib_os_systime os w in
  let fl := if tstatus =? BP_OS_ERROR
            then Z.lor fl BP_FLAG_UNRELIABLETIME else fl in
  let '((c', fl1), w1) :=
    custody_send v6 (custody ch) (dacs_rate (attributes ch)) sysnow
                 BP_CHECK fl w0 in
  let ch := with_custody ch c' in
  let dacs_handle := custody_handle v6 c' in
  let '((dst, o, _, dsid), w2) := dequeue store dacs_handle BP_CHECK w1 in
  dopt ← as_bundle o;
  Some (sysnow, ch,
        mk_locals dopt dsid (-1) true BP_SUCCESS
                  (if dst =? BP_SUCCESS then Z.lor fl1 BP_FLAG_ROUTENEEDED
                   else fl1)
                  dacs_handle,
        w2).

(** int bplib_load(bp_desc_t channel, void** bundle, int size,
                   int timeout, uint16_t* flags).
    [bundle_ = None] is a null [bundle], [Some false] a null [*bundle],
    [Some true] a buffer of the caller.  [fuel] bounds the turns of each
    loop.  Result: the status, the channel, the bytes loaded, the flags. *)
Definition bplib_load (fuel : nat) (channel_ : option channel)
           (bundle_ : option bool) (size_ timeout_ : Z) (flags : option Z)
           (w : W)
  : option (Z * option channel * option (list Z) * option Z * W) :=
  match channel_, bundle_, flags with
  | Some ch, Some caller_buffer, Some fl =>
      '(sysnow, ch, l, w2) ← start_load fl ch w;
      (* Try to Send Active Bundle (if nothing to send) *)
      '(ch1, l1, w3) ←
        match data l with
        | None =>
            scan_loop fuel sysnow ch
                      (with_handle l (bundle_handle (bundle ch))) w2
        | Some _ => Some (ch, l, w2)
        end;
      (* Try to Send Stored Bundle (if nothing to send) *)
      '(ch2, l2, w4) ← dequeue_loop fuel sysnow timeout_ ch1 l1 w3;
      (* Send Bundle if Ready to Send *)
      '(ch3, l3, out, w5) ← emit sysnow size_ caller_buffer ch2 l2 w4;
      Some (status l3, Some ch3, out, Some (l_flags l3), w5)
  | _, _, _ => Some (BP_PARMERR, channel_, None, flags, w)
  end.

(** int bplib_accept(bp_desc_t channel, void** payload, int size,
                     int timeout, uint16_t* flags).
    [payload_] as [bundle_] of bplib_load. *)
Definition bplib_accept (channel_ : option channel) (payload_ : option bool)
           (size_ timeout_ : Z) (flags : option Z) (w : W)
  : option (Z * option channel * option (list Z) * W) :=
  match channel_, payload_, flags with
  | Some ch, Some caller_buffer, Some _ =>
      (* Dequeue Payload from Storage *)
      let '((deqstat, payptr, paylen, psid), w1) :=
        dequeue store (payload_handle (bundle ch)) timeout_ w in
      if 0 <? deqstat then
        '(st, ch1, out, w2) ←
          (if negb caller_buffer || (paylen <=? size_) then
             let '(have_memory, w') :=
               if negb caller_buffer then malloc os paylen w1
               else (true, w1) in
             if have_memory : bool then
               (* memcpy( *payload, payptr, paylen) *)
               match payptr with
               | Some (Payload bytes) =>
                   Some (paylen,
                         with_stats ch (incr_delivered (stats ch)),
                         Some (take (Z.to_nat paylen) bytes), w')
               | _ => None
               end
             else
               Some (bplog BP_FAILEDMEM,
                     with_stats ch (incr_lost (stats ch)), None, w')
           else
             Some (bplog BP_PAYLOADTOOLARGE,
                   with_stats ch (incr_lost (stats ch)), None, w1));
        (* Relinquish Memory *)
        let '(_, w3) := relinquish store (payload_handle (bundle ch)) psid w2 in
        Some (st, Some ch1, out, w3)
      else Some (deqstat, Some ch, None, w1)
  | _, _, _ => Some (BP_PARMERR, channel_, None, w)
  end.

(** int bplib_latchstats(bp_desc_t channel, bp_stats_t* stats).
    Result: the status, the channel and the statistics behind [stats]. *)
Definition bplib_latchstats (channel_ : option channel)
           (stats_ : option bp_stats_t) (w : W)
  : Z * option channel * option bp_stats_t :=
  match channel_, stats_ with
  | Some ch, Some _ =>
      let s := stats ch in
      let s' :=
        mk_stats (lost s) (expired s) (acknowledged s) (transmitted s)
                 (retransmitted s) (received s) (generated s) (delivered s)
                 (* Update Store Counts *)
                 (val (getcount store (bundle_handle (bundle ch)) w))
                 (val (getcount store (payload_handle (bundle ch)) w))
                 (val (getcount store (custody_handle v6 (custody ch)) w))
                 (* Update Active Statistic *)
                 (val (current_active_cid ch - oldest_active_cid ch)) in
      (BP_SUCCESS, Some (with_stats ch s'), Some s')
  | _, _ => (BP_PARMERR, channel_, stats_)
  end.

(** The statistics other than the count of lost bundles. *)
Definition other_stats (s : bp_stats_t) : list Z :=
  [expired s; acknowledged s; transmitted s; retransmitted s; received s;
   generated s; delivered s; bundles s; payloads s; records s; active s].

(** *** Counting the active table *)

Definition occupied_at (ch : channel) (i : nat) : bool :=
  match active_table ch !! i with
  | Some e => negb (sid e =? BP_SID_VACANT)
  | None => false
  end.

(** Non-vacant slots of the active table. *)
Definition occupied (ch : channel) : Z :=
  Z.of_nat (length (List.filter (occupied_at ch)
                                (seq 0 (length (active_table ch))))).

(** Whether the slot of CID [oldest + k] is vacant. *)
Definition vacant_after (ch : channel) (k : nat) : bool :=
  match active_table_size (attributes ch) with
  | Z0 => false
  | n => negb (occupied_at ch
                 (Z.to_nat ((oldest_active_cid ch + Z.of_nat k) mod n)))
  end.

(** CIDs between oldest and current whose slot is vacant. *)
Definition vacated (ch : channel) : Z :=
  Z.of_nat (length (List.filter (vacant_after ch)
                                (seq 0 (Z.to_nat (window ch))))).

(** *** The states of a channel

    The states a channel goes through from bplib_open on, by calls of
    bplib_config, bplib_store, bplib_flush, bplib_load and by the
    acknowledgments bplib_process makes through [acknowledge].  The
    calls of bplib_load are those of a channel that drops on wrap and
    issues a new CID on retransmission, with no CTEB in the DACS bundles
    and the CID counter short of its wrap-around. *)
Definition load_guard (fl : Z) (ch : channel) (w : W) : Prop :=
  cid_reuse (attributes ch) = 0
  /\ wrap_response (attributes ch) = BP_WRAP_DROP
  /\ current_active_cid ch + 1 < 2 ^ bp_val_bits
  /\ (forall sysnow ch0 l0 w0 d,
        start_load fl ch w = Some (sysnow, ch0, l0, w0) ->
        data l0 = Some d -> cteboffset d = 0).

Inductive reachable : channel -> Prop :=
| reach_open a b c signal :
    0 < active_table_size a -> 1 < 2 ^ bp_val_bits ->
    reachable (open_channel a b c signal)
| reach_config ch mode opt x len st ch' out :
    reachable ch ->
    bplib_config (Some ch) mode opt x len = (st, Some ch', out) ->
    reachable ch'
| reach_store ch pay size_ tmo fl w st ch' fl' w' :
    reachable ch ->
    bplib_store (Some ch) pay size_ tmo fl w = (st, Some ch', fl', w') ->
    reachable ch'
| reach_flush ch w st ch' w' :
    reachable ch ->
    bplib_flush (Some ch) w = Some (st, Some ch', w') ->
    reachable ch'
| reach_acknowledge ch cid w st ch' w' :
    reachable ch ->
    acknowledge ch cid w = Some (st, ch', w') ->
    reachable ch'
| reach_load ch fuel buf size_ tmo fl w st ch' out fl' w' :
    reachable ch ->
    load_guard fl ch w ->
    bplib_load fuel (Some ch) buf size_ tmo (Some fl) w
    = Some (st, Some ch', out, fl', w') ->
    reachable ch'.

(** What holds of the table and the two counters in those states: the
    counters are in order and at most a table apart, and every
    non-vacant slot is the slot of a CID between oldest and current. *)
Definition in_window (ch : channel) (i : nat) : Prop :=
  exists c, oldest_active_cid ch <= c < current_active_cid ch
            /\ c mod active_table_size (attributes ch) = Z.of_nat i.

Record table_invariant (ch : channel) : Prop := mk_table_invariant {
  inv_size : 0 < active_table_size (attributes ch);
  inv_length :
    Z.of_nat (length (active_table ch)) = active_table_size (attributes ch);
  inv_order : 0 <= oldest_active_cid ch <= current_active_cid ch;
  inv_range : current_active_cid ch < 2 ^ bp_val_bits;
  inv_window :
    current_active_cid ch - oldest_active_cid ch
    <= active_table_size (attributes ch);
  inv_occupied : forall i, occupied_at ch i = true -> in_window ch i }.

(** The part of a channel the invariant looks at. *)
Definition core (ch : channel) : Z * list Z * Z * Z :=
  (active_table_size (attributes ch), sid <$> active_table ch,
   oldest_active_cid ch, current_active_cid ch).

(** A storage service whose [retrieve] hands out data only with the
    status of success. *)
Definition retrieve_clean : Prop :=
  forall h s t w,
    fst (fst (retrieve store h s t w)) <> BP_SUCCESS ->
    snd (fst (retrieve store h s t w)) = None.

End WithCollaborators.

End Channel.

(* ================================================================== *)
(** ** A storage service and an operating system layer to run against *)
(* ================================================================== *)

(** Modelled from the spec: the storage service is a collaborator of the
    library (section 6 of the spec), reached through the function
    pointers of [bp_store_t]: [enqueue] appends, [dequeue] fetches the
    head of the queue and retains the copy under a storage id,
    [retrieve] reads a retained copy by its id, [relinquish] releases
    it, [getcount] is the queue depth and an empty queue times out.
    The operating system layer follows src/os/cfe.c where it is there
    ([bplib_os_waiton] returns [BP_TIMEOUT], [bplib_os_signal] does
    nothing); every call is recorded. *)
Module Sim.

Import Channel.

Inductive event :=
| EvDequeue (handle : Z)
| EvRetrieve (handle sid : Z)
| EvRelinquish (handle sid : Z)
| EvWaitOn (handle ms : Z)
| EvSignal (handle : Z)
| EvBuild
| EvWrite.

Record entry := mk_entry {
  e_handle : Z; e_sid : Z; e_object : object; e_queued : bool }.

Record world := mk_world {
  entries : list entry;
  next_sid : Z;
  clock : Z;              (* seconds bplib_os_systime reports *)
  memory : bool;          (* whether malloc has memory to give *)
  custodial : bool;       (* whether v6_write builds bundles with a CTEB *)
  log : list event }.

Definition logged (w : world) (e : event) : world :=
  mk_world (entries w) (next_sid w) (clock w) (memory w) (custodial w)
           (log w ++ [e]).
Definition with_entries (w : world) (es : list entry) : world :=
  mk_world es (next_sid w) (clock w) (memory w) (custodial w) (log w).
Definition at_time (w : world) (t : Z) : world :=
  mk_world (entries w) (next_sid w) t (memory w) (custodial w) (log w).
Definition out_of_memory (w : world) : world :=
  mk_world (entries w) (next_sid w) (clock w) false (custodial w) (log w).

Definition object_size (o : object) : Z :=
  match o with
  | Bundle d => bundlesize d
  | Payload bytes => Z.of_nat (length bytes)
  end.

(** Head of the queue of [handle]: the first entry still queued. *)
Fixpoint take_head (handle : Z) (es : list entry)
  : option (entry * list entry) :=
  match es with
  | [] => None
  | e :: r =>
      if (e_handle e =? handle) && e_queued e
      then Some (e, mk_entry (e_handle e) (e_sid e) (e_object e) false :: r)
      else '(x, r') ← take_head handle r; Some (x, e :: r')
  end.

Definition find_entry (handle sid : Z) (es : list entry) : option entry :=
  List.find (fun e => (e_handle e =? handle) && (e_sid e =? sid)) es.

Definition sim_dequeue (handle timeout_ : Z) (w : world)
  : (Z * option object * Z * Z) * world :=
  let w := logged w (EvDequeue handle) in
  match take_head handle (entries w) with
  | Some (e, es) =>
      ((BP_SUCCESS, Some (e_object e), object_size (e_object e), e_sid e),
       with_entries w es)
  | None => ((BP_TIMEOUT, None, 0, BP_SID_VACANT), w)
  end.

Definition sim_retrieve (handle sid timeout_ : Z) (w : world)
  : (Z * option object) * world :=
  let w := logged w (EvRetrieve handle sid) in
  match find_entry handle sid (entries w) with
  | Some e => ((BP_SUCCESS, Some (e_object e)), w)
  | None => ((BP_FAILEDSTORE, None), w)
  end.

Definition sim_relinquish (handle sid : Z) (w : world) : Z * world :=
  let w := logged w (EvRelinquish handle sid) in
  (BP_SUCCESS,
   with_entries w
     (List.filter (fun e => negb ((e_handle e =? handle) && (e_sid e =? sid)))
                  (entries w))).

Definition sim_getcount (handle : Z) (w : world) : Z :=
  Z.of_nat (length (List.filter
                      (fun e => (e_handle e =? handle) && e_queued e)
                      (entries w))).

Definition sim_enqueue (handle : Z) (o : object) (w : world) : world :=
  mk_world (entries w ++ [mk_entry handle (next_sid w) o true])
           (next_sid w + 1) (clock w) (memory w) (custodial w) (log w).

Definition sim_store : bp_store_t world :=
  mk_store sim_dequeue sim_retrieve sim_relinquish sim_getcount.

Definition sim_os : bp_os_t world :=
  mk_os (fun w => ((BP_SUCCESS, clock w), w))
        (fun handle ms w => (BP_TIMEOUT, logged w (EvWaitOn handle ms)))
        (fun handle w => logged w (EvSignal handle))
        (fun _ w => (memory w, w)).

(** The bundle v6_write stores for a payload: a three byte header stands
    for the blocks, the CTEB at offset 1 when custody is requested. *)
Definition built_bundle (w : world) (pay : list Z) : bp_bundle_data_t :=
  mk_data 0 (if custodial w then 1 else 0)
          (3 + Z.of_nat (length pay)) ([6; 0; 0] ++ pay).

Definition sim_v6 : bp_v6_t world unit :=
  mk_v6 (fun b flags w =>
           ((BP_SUCCESS,
             mk_bundle (bundle_handle b) (payload_handle b) true, flags),
            logged w EvBuild))
        (fun b pay pay_size timeout_ flags w =>
           ((BP_SUCCESS, b, flags),
            sim_enqueue (bundle_handle b) (Bundle (built_bundle w pay))
                        (logged w EvWrite)))
        (fun d cid flags =>
           (mk_data (exprtime d) (cteboffset d) (bundlesize d)
                    (<[Z.to_nat (cteboffset d) := cid]> (header d)), flags))
        (fun c rate sysnow timeout_ flags w => ((c, flags), w))
        (fun _ => 3).

Definition empty_world (custody_requested : bool) : world :=
  mk_world [] 1 0 true custody_requested [].

(** The default attributes but for the table size, the wrap response,
    the retransmit timeout and CID reuse. *)
Definition attrs (table_size wrap tmo reuse : Z) : bp_attr_t :=
  mk_attr 0 1 0 1 0 0 tmo 4096 wrap reuse 5 table_size 64 1028 0.

(** A channel as bplib_open leaves it: bundles on handle 1, payloads on
    handle 2, the template built by bundle_initialize. *)
Definition opened (a : bp_attr_t) : bp_channel_t unit :=
  open_channel a (mk_bundle 1 2 true) tt 0.

Definition bits : Z := 32.

Definition load (ch : bp_channel_t unit) (w : world) :=
  bplib_load sim_store sim_os sim_v6 bits 64 (Some ch) (Some false) 0 0
             (Some 0) w.

Definition store_payload (ch : bp_channel_t unit) (pay : list Z) (w : world) :=
  bplib_store sim_v6 bits (Some ch) (Some pay) (Z.of_nat (length pay)) 0
              (Some 0) w.

(** The channel of the wrap scenario: a table of two slots, wrap
    response BLOCK, two custodial bundles stored and loaded. *)
Definition blocked_channel : option (bp_channel_t unit * world) :=
  let ch0 := opened (attrs 2 BP_WRAP_BLOCK 10 0) in
  let '(_, c1, _, w1) := store_payload ch0 [104] (empty_world true) in
  ch1 ← c1;
  let '(_, c2, _, w2) := store_payload ch1 [105] w1 in
  ch2 ← c2;
  '(_, c3, _, _, w3) ← load ch2 w2;
  ch3 ← c3;
  '(_, c4, _, _, w4) ← load ch3 w3;
  ch4 ← c4;
  Some (ch4, w4).

(** One custodial bundle stored, loaded under CID 1, then
    acknowledged. *)
Definition stored_state : bp_channel_t unit * world :=
  let ch0 := opened (attrs 4 BP_WRAP_DROP 10 0) in
  match store_payload ch0 [104] (empty_world true) with
  | (_, Some ch, _, w) => (ch, w)
  | (_, None, _, w) => (ch0, w)
  end.

Definition loaded_state : bp_channel_t unit * world :=
  match load (fst stored_state) (snd stored_state) with
  | Some (_, Some ch, _, _, w) => (ch, w)
  | _ => stored_state
  end.

Definition acknowledged_state : bp_channel_t unit * world :=
  match acknowledge sim_store (fst loaded_state) 1 (snd loaded_state) with
  | Some (_, ch, w) => (ch, w)
  | None => loaded_state
  end.

End Sim.

(* ================================================================== *)
(** * Properties *)
(* ================================================================== *)

(** Case analysis on the integer comparisons of a goal. *)
Ltac zcases :=
  repeat match goal with
    | |- context [?a =? ?b] => destruct (Z.eqb_spec a b)
    | |- context [?a <? ?b] => destruct (Z.ltb_spec a b)
    | |- context [?a <=? ?b] => destruct (Z.leb_spec a b)
    end.

(** ** SDNV codec *)

Lemma wr_Some {A} (l : list A) (i : nat) (x : A) :
  (i < length l)%nat -> wr l (Z.of_nat i) x = Some (<[i := x]> l).
Proof.
  intros H. unfold wr.
  destruct (Z.ltb_spec (Z.of_nat i) 0) as [E1|E1]; [lia|].
  destruct (Z.leb_spec (Z.of_nat (length l)) (Z.of_nat i)) as [E2|E2]; [lia|].
  simpl. by rewrite Nat2Z.id.
Qed.

Lemma rd_Some {A} (l : list A) (i : nat) :
  rd l (Z.of_nat i) = l !! i.
Proof.
  unfold rd. destruct (Z.ltb_spec (Z.of_nat i) 0); [lia|]. by rewrite Nat2Z.id.
Qed.

(** The write loop started at index [k] of a block puts the seven bits
    of the value above bit [7 k] at index 0, with the high bit clear. *)
Lemma write_loop_head (k : nat) : forall (block : list Z) (v : Z),
  (k < length block)%nat ->
  exists block',
    Sdnv.write_loop (S k) block (Z.of_nat k) v
    = Some (block', Z.shiftr v (7 * Z.of_nat (S k)))
    /\ block' !! 0%nat = Some (Z.land (Z.shiftr v (7 * Z.of_nat k)) 0x7F)
    /\ length block' = length block.
Proof.
  induction k as [|k IH]; intros block v Hk.
  - exists (<[0%nat := Z.land v 0x7F]> block). cbn [Sdnv.write_loop].
    change (Z.of_nat 0 =? 0) with true. cbv iota.
    rewrite (wr_Some block 0) by lia. cbn.
    split; [done|]. split.
    + rewrite list_lookup_insert_eq; [|exact Hk]. by rewrite Z.shiftr_0_r.
    + by rewrite length_insert.
  - cbn [Sdnv.write_loop].
    destruct (Z.eqb_spec (Z.of_nat (S k)) 0) as [E|E]; [lia|].
    rewrite (wr_Some block (S k)) by lia. cbn [mbind option_bind].
    replace (Z.of_nat (S k) - 1) with (Z.of_nat k) by lia.
    destruct (IH (<[S k := u8 (Z.lor v 128)]> block) (Z.shiftr v 7))
      as (b' & H1 & H2 & H3).
    { rewrite length_insert. lia. }
    exists b'. cbn [Sdnv.write_loop] in H1. rewrite H1.
    rewrite Z.shiftr_shiftr in * by lia.
    split; [f_equal; f_equal; f_equal; lia|]. split.
    + rewrite H2. do 3 f_equal. lia.
    + by rewrite H3, length_insert.
Qed.

Lemma shiftr_small (v n : Z) : 0 <= n -> 0 <= v < 2 ^ n -> Z.shiftr v n = 0.
Proof.
  intros Hn Hv. destruct (Z.eq_dec v 0) as [->|]; [apply Z.shiftr_0_l|].
  apply Z.shiftr_eq_0; [lia|]. apply Z.log2_lt_pow2; lia.
Qed.

(** C2 (as the code has it): whatever the value below [2^(7 w)] and the
    width [w >= 1], encoding at width [w] at the start of a buffer with
    room for it and decoding the bytes gives 0 with no flag: the encoder
    clears the continuation bit of the first byte, which holds the bits
    above the width, and sets it on the last one.  The round trip loses
    every value but 0. *)
Theorem sdnv_round_trip_returns_zero (size v w : Z) :
  1 <= w < size -> 0 <= v < 2 ^ (7 * w) ->
  Sdnv.round_trip size v w = Some (0, 0).
Proof.
  intros Hw Hv. unfold Sdnv.round_trip, Sdnv.bplib_sdnv_write.
  cbn [Sdnv.width Sdnv.index Sdnv.value].
  destruct (Z.leb_spec w 0) as [E1|E1]; [lia|].
  destruct (Z.leb_spec w (size - 0)) as [E2|E2]; [|lia].
  replace (Z.to_nat (w + 1)) with (S (Z.to_nat w)) by lia.
  replace (w + 0) with (Z.of_nat (Z.to_nat w)) by lia.
  destruct (write_loop_head (Z.to_nat w) (replicate (Z.to_nat size) 0) v)
    as (b' & H1 & H2 & H3).
  { rewrite length_replicate. lia. }
  rewrite H1. cbn [mbind option_bind].
  assert (Hle : 2 ^ (7 * w) <= 2 ^ (7 * Z.of_nat (S (Z.to_nat w))))
    by (apply Z.pow_le_mono_r; lia).
  rewrite shiftr_small by lia.
  rewrite shiftr_small in H2 by (rewrite ?Z2Nat.id; lia).
  cbn [Z.ltb Z.compare].
  unfold Sdnv.bplib_sdnv_read. cbn [Sdnv.width Sdnv.index Sdnv.value].
  destruct (Z.ltb_spec w 0) as [E3|E3]; [lia|].
  replace (Z.to_nat (Z.min w size - 0)) with (S (Z.to_nat (w - 1))) by lia.
  cbn [Sdnv.read_loop]. change (rd b' 0) with (rd b' (Z.of_nat 0)).
  rewrite rd_Some, H2. reflexivity.
Qed.

Lemma sdnv_round_trip_returns_zero_witness :
  Sdnv.round_trip 4 1 1 = Some (0, 0).
Proof. apply sdnv_round_trip_returns_zero; [lia | vm_compute; split; [discriminate | reflexivity]]. Defined.

(** ** EID parser *)

Lemma strchr_elem (s : list ascii) (ch : ascii) (k : nat) :
  Eid.strchr s ch = Some k -> ch ∈ s.
Proof.
  revert k. induction s as [|c r IH]; intros k H; [discriminate|].
  cbn in H. destruct (Ascii.eqb c Eid.NUL); [discriminate|].
  destruct (Ascii.eqb_spec c ch) as [->|Hne]; [left|].
  destruct (Eid.strchr r ch) as [j|]; [|discriminate].
  right. by apply (IH j).
Qed.

Lemma bad_scheme_without_prefix (eid : list ascii) :
  ~ (exists rest, eid = Eid.chars "ipn:" ++ rest) -> Eid.bad_scheme eid = true.
Proof.
  intros H. destruct eid as [|c0 [|c1 [|c2 [|c3 rest]]]]; try reflexivity.
  cbn. destruct (Ascii.eqb_spec c0 "i") as [->|]; [|reflexivity].
  destruct (Ascii.eqb_spec c1 "p") as [->|]; [|reflexivity].
  destruct (Ascii.eqb_spec c2 "n") as [->|]; [|reflexivity].
  destruct (Ascii.eqb_spec c3 ":") as [->|]; [|reflexivity].
  exfalso. apply H. by exists rest.
Qed.

Lemma wrap_small (bits x : Z) : 0 <= x < 2 ^ bits -> wrap bits x = x.
Proof. intros H. unfold wrap. by apply Z.mod_small. Qed.

(** C4, the part of the claim the code contradicts: the node component
    of "ipn:0.1" is zero and the EID is accepted, as node 0, service 1. *)
Lemma eid2ipn_accepts_zero_component :
  Eid.parse 128 32 "ipn:0.1" = Some (BP_SUCCESS, Some (0, 1))
  /\ Eid.parse 128 32 "ipn:0.1" <> Some (BP_INVALIDEID, None).
Proof. split; [vm_compute; reflexivity | vm_compute; discriminate]. Qed.

(** C4 (amended): "ipn:1.1" parses to node 1, service 1; an EID shorter
    than 7 bytes, an EID that does not begin with "ipn:" and an EID with
    no dot are refused with the invalid-EID code; a zero component is
    not refused ("ipn:0.1" gives node 0, service 1). *)
Theorem eid2ipn_boundaries (max bits : Z) :
  7 <= max -> 1 <= bits ->
  Eid.parse max bits "ipn:1.1" = Some (BP_SUCCESS, Some (1, 1))
  /\ Eid.parse max bits "ipn:0.1" = Some (BP_SUCCESS, Some (0, 1))
  /\ (forall eid len,
        len < 7 -> Eid.bplib_eid2ipn max bits eid len
                   = Some (BP_INVALIDEID, None))
  /\ (forall eid len,
        ~ (exists rest, eid = Eid.chars "ipn:" ++ rest) ->
        Eid.bplib_eid2ipn max bits (Some eid) len
        = Some (BP_INVALIDEID, None))
  /\ (forall eid len,
        len <= Z.of_nat (length eid) + 1 -> "."%char ∉ eid ->
        Eid.bplib_eid2ipn max bits (Some eid) len
        = Some (BP_INVALIDEID, None)).
Proof.
  intros Hmax Hbits.
  assert (H2 : 2 <= 2 ^ bits).
  { change 2 with (2 ^ 1) at 1. apply Z.pow_le_mono_r; lia. }
  repeat split.
  - unfold Eid.parse, Eid.bplib_eid2ipn.
    change (Z.of_nat (length (Eid.chars "ipn:1.1"))) with 7.
    destruct (Z.ltb_spec 7 7); [lia|]. destruct (Z.ltb_spec max 7); [lia|].
    pose proof (wrap_small bits 0 ltac:(lia)) as W0.
    pose proof (wrap_small bits 1 ltac:(lia)) as W1.
    revert W0 W1. generalize (wrap bits). intros f W0 W1.
    vm_compute. by rewrite ?W0, ?W1.
  - unfold Eid.parse, Eid.bplib_eid2ipn.
    change (Z.of_nat (length (Eid.chars "ipn:0.1"))) with 7.
    destruct (Z.ltb_spec 7 7); [lia|]. destruct (Z.ltb_spec max 7); [lia|].
    pose proof (wrap_small bits 0 ltac:(lia)) as W0.
    pose proof (wrap_small bits 1 ltac:(lia)) as W1.
    revert W0 W1. generalize (wrap bits). intros f W0 W1.
    vm_compute. by rewrite ?W0, ?W1.
  - intros eid len Hlen. unfold Eid.bplib_eid2ipn.
    destruct eid; [|reflexivity]. by destruct (Z.ltb_spec len 7); [|lia].
  - intros eid len Hpre. unfold Eid.bplib_eid2ipn.
    destruct (len <? 7); [reflexivity|]. destruct (max <? len); [reflexivity|].
    by rewrite bad_scheme_without_prefix.
  - intros eid len Hlen Hdot. unfold Eid.bplib_eid2ipn.
    destruct (len <? 7); [reflexivity|]. destruct (max <? len); [reflexivity|].
    destruct (Eid.bad_scheme eid); [reflexivity|].
    unfold Eid.copy_tail.
    destruct (Z.ltb_spec (Z.of_nat (length eid) + 1) (4 + (len - 4))); [lia|].
    cbn [mbind option_bind].
    destruct (Eid.strchr _ _) as [k|] eqn:Hk; [|reflexivity].
    exfalso. apply strchr_elem in Hk.
    apply elem_of_app in Hk as [Hk|Hk].
    + apply elem_of_take in Hk as (i & Hk & _).
      rewrite lookup_drop in Hk. apply list_elem_of_lookup_2 in Hk.
      apply elem_of_app in Hk as [Hk|Hk]; [done|].
      apply list_elem_of_singleton in Hk. discriminate.
    + apply list_elem_of_singleton in Hk. discriminate.
Qed.

Lemma eid2ipn_boundaries_witness :
  Eid.parse 128 32 "ipn:1.1" = Some (BP_SUCCESS, Some (1, 1))
  /\ Eid.parse 128 32 "foo:1.1" = Some (BP_INVALIDEID, None)
  /\ Eid.parse 128 32 "ipn:1" = Some (BP_INVALIDEID, None)
  /\ Eid.parse 128 32 "ipn:123" = Some (BP_INVALIDEID, None).
Proof.
  destruct (eid2ipn_boundaries 128 32 ltac:(lia) ltac:(lia))
    as (H1 & _ & H3 & H4 & H5).
  split; [exact H1|]. split.
  - apply H4. intros [rest H]. discriminate H.
  - split.
    + apply H3. vm_compute. reflexivity.
    + apply H5; [vm_compute; discriminate|].
      vm_compute. intros H. repeat (apply elem_of_cons in H as [H|H]; [discriminate H|]).
      by apply elem_of_nil in H.
Defined.

(** ** Aggregate custody signal reader *)

Lemma sdnv_decode_from_app (enc rest : list Z) : forall acc n v m,
  Dacs.sdnv_decode_from enc acc n = Some (v, m) ->
  Dacs.sdnv_decode_from (enc ++ rest) acc n = Some (v, m).
Proof.
  induction enc as [|b r IH]; intros acc n v m H; [discriminate|].
  cbn in *. destruct (Z.land b 128 =? 0); [done|]. by apply IH.
Qed.

Lemma sdnv_decode_from_grows (bytes : list Z) : forall acc n v m,
  0 <= acc -> Dacs.sdnv_decode_from bytes acc n = Some (v, m) ->
  acc <= v /\ (n < m)%nat.
Proof.
  induction bytes as [|b r IH]; intros acc n v m Hacc H; [discriminate|].
  cbn in H. pose proof (Z.land_nonneg b 127) as Hd.
  assert (0 <= Z.land b 127) by (apply Hd; lia).
  destruct (Z.land b 128 =? 0).
  - injection H as <- <-. lia.
  - apply IH in H; lia.
Qed.

Lemma sdnv_bytes_nonempty (enc : list Z) (v : Z) :
  Dacs.sdnv_bytes enc v -> (0 < length enc)%nat /\ 0 <= v.
Proof.
  unfold Dacs.sdnv_bytes, Dacs.sdnv_decode. intros H.
  apply sdnv_decode_from_grows in H; lia.
Qed.

Lemma lor_group (acc b : Z) :
  0 <= acc -> Z.lor (Z.shiftl acc 7) (Z.land b 0x7F) = 128 * acc + Z.land b 0x7F.
Proof.
  intros Hacc. rewrite Z.shiftl_mul_pow2 by lia. change (2 ^ 7) with 128.
  rewrite (Z.mul_comm acc 128).
  rewrite <- Z.lxor_lor, <- Z.add_nocarry_lxor; [done| |];
    (apply Z.bits_inj'; intros i Hi; rewrite Z.land_spec, Z.bits_0;
     rewrite (Z.mul_comm 128 acc); change 128 with (2 ^ 7);
     rewrite Z.mul_pow2_bits by lia; rewrite Z.land_spec;
     destruct (Z.lt_ge_cases i 7);
     [ rewrite (Z.testbit_neg_r acc) by lia; reflexivity
     | change 127 with (Z.ones 7); rewrite Z.ones_spec_high by lia;
       by rewrite !andb_false_r ]).
Qed.

Lemma sdnv_take_decodes (bytes : list Z) : forall acc n k v m,
  Dacs.sdnv_decode_from bytes acc n = Some (v, m) ->
  Dacs.sdnv_take bytes acc k = (v, k + (Z.of_nat m - Z.of_nat n), true).
Proof.
  induction bytes as [|b r IH]; intros acc n k v m H; [discriminate|].
  cbn in H. cbn [Dacs.sdnv_take].
  destruct (Z.land b 128 =? 0).
  - injection H as <- <-. do 2 f_equal. lia.
  - rewrite (IH _ (S n) (k + 1) v m H). do 2 f_equal. lia.
Qed.

(** The reader of the spec at the width 0 that dacs_read gives its
    fields: the span ends where it starts, no byte is read and the
    overflow flag is raised. *)
Lemma sdnv_read_width_zero (bits : Z) (rec : list Z) (size v i flags : Z) :
  0 <= i ->
  Dacs.sdnv_read bits rec size (Dacs.mk_sdnv v i 0) flags
  = (0, Dacs.mk_sdnv 0 i 0, Z.lor flags Sdnv.BP_SDNV_OVERFLOW).
Proof.
  intros Hi. unfold Dacs.sdnv_read. cbn [Dacs.width Dacs.index].
  change (0 <? 0) with false. cbn match.
  rewrite drop_ge.
  2: { rewrite length_take. lia. }
  cbn [Dacs.sdnv_take andb negb]. change (0 <? 0) with false.
  cbn [andb]. unfold wrap. by rewrite Zmod_0_l, Z.add_0_r.
Qed.

(** With the reader of the spec, dacs_read reads no CID: every record is
    refused with the parse error and the callback is not called. *)
Lemma dacs_read_spec_reader_refuses {A} (ack : A -> Z -> Z * A) (bits : Z)
      (fuel : nat) (rec : list Z) (rec_size status : Z) (parm : A) :
  rd rec Dacs.BP_ACS_REC_STATUS_INDEX = Some status ->
  Dacs.dacs_read bits (Dacs.sdnv_read bits) ack fuel rec rec_size parm
  = Some (BP_BUNDLEPARSEERR, parm).
Proof.
  intros Hrd. unfold Dacs.dacs_read. rewrite Hrd. cbn [mbind option_bind].
  by rewrite sdnv_read_width_zero.
Qed.


(** The reader [sdnv_read_next] is of the kind dacs_read is written for. *)
Lemma sdnv_read_next_decodes (bits : Z) :
  Dacs.sdnv_read_decodes bits (Dacs.sdnv_read_next bits).
Proof.
  intros rec s flags v n Hi Hd Hv.
  unfold Dacs.sdnv_read_next, Dacs.sdnv_read.
  cbn [Dacs.width Dacs.index Dacs.value].
  change (-1 <? 0) with true. cbn match.
  rewrite Nat2Z.id, firstn_all.
  unfold Dacs.sdnv_decode in Hd.
  rewrite (sdnv_take_decodes _ _ _ 0 _ _ Hd).
  destruct (Z.ltb_spec v (2 ^ bits)); [|lia].
  cbn [andb negb]. rewrite wrap_small by lia.
  do 2 f_equal. change (Z.of_nat 0) with 0. lia.
Qed.

Section DacsReadProperties.

Variable bits : Z.
Variable sdnv_read :
  list Z -> Z -> Dacs.bp_sdnv_t -> Z -> Z * Dacs.bp_sdnv_t * Z.
Context {A : Type}.
Variable ack : A -> Z -> Z * A.
Hypothesis sdnv_read_ok : Dacs.sdnv_read_decodes bits sdnv_read.

Local Abbreviation ack_all := (Dacs.ack_all ack).
Local Abbreviation run_cids := (Dacs.run_cids bits).

Lemma ack_all_app (xs ys : list Z) : forall parm count,
  ack_all (xs ++ ys) parm count
  = let '(p, n) := ack_all xs parm count in ack_all ys p n.
Proof.
  induction xs as [|x r IH]; intros parm count; [reflexivity|].
  cbn. destruct (ack parm x) as [st p]. apply IH.
Qed.

(** The count only grows. *)
Lemma ack_all_grows (xs : list Z) : forall parm count,
  count <= snd (ack_all xs parm count).
Proof.
  induction xs as [|x r IH]; intros parm count; cbn; [lia|].
  destruct (ack parm x) as [st p].
  destruct (st =? BP_SUCCESS).
  - pose proof (IH p (count + 1)). lia.
  - apply IH.
Qed.

(** A run whose count stays an [int] is the callback applied to the CIDs
    of the run. *)
Lemma ack_run_all (n : nat) : forall i cid parm count,
  0 <= i ->
  snd (ack_all (map (fun k => wrap bits (cid + Z.of_nat k))
                    (seq (Z.to_nat i) n)) parm count) <= Dacs.INT_MAX ->
  Dacs.ack_run bits ack n i cid parm count
  = Some (ack_all (map (fun k => wrap bits (cid + Z.of_nat k))
                       (seq (Z.to_nat i) n)) parm count).
Proof.
  induction n as [|n IH]; intros i cid parm count Hi Hmax; [reflexivity|].
  cbn in Hmax |- *. rewrite Z2Nat.id in Hmax |- * by lia.
  destruct (ack parm _) as [st p].
  replace (S (Z.to_nat i)) with (Z.to_nat (i + 1)) in Hmax |- * by lia.
  destruct (st =? BP_SUCCESS).
  - pose proof (ack_all_grows
                  (map (fun k => wrap bits (cid + Z.of_nat k))
                       (seq (Z.to_nat (i + 1)) n)) p (count + 1)).
    unfold Dacs.incr. destruct (Z.ltb_spec count Dacs.INT_MAX); [|lia].
    cbn [mbind option_bind]. apply IH; [lia|done].
  - cbn [mbind option_bind]. apply IH; [lia|done].
Qed.

Lemma fill_loop_runs (encs : list (list Z)) (fills : list Z) :
  Forall2 Dacs.sdnv_bytes encs fills ->
  Forall (fun f => f < 2 ^ bits) fills ->
  forall fuel pre c fv fw cidin parm count,
    (length fills < fuel)%nat ->
    snd (ack_all (run_cids c fills cidin) parm count) <= Dacs.INT_MAX ->
    Dacs.fill_loop bits sdnv_read ack fuel (pre ++ concat encs)
      (Z.of_nat (length (pre ++ concat encs)))
      (Dacs.mk_sdnv c 2 0) (Dacs.mk_sdnv fv (Z.of_nat (length pre)) fw)
      cidin true parm count 0
    = Some (let '(p, n) := ack_all (run_cids c fills cidin) parm count in
            (n, p)).
Proof.
  induction 1 as [|enc v encs fills Henc Hrest IH];
    intros Hrange fuel pre c fv fw cidin parm count Hfuel Hmax.
  - destruct fuel as [|fuel]; [cbn in Hfuel; lia|].
    cbn [Dacs.fill_loop Dacs.index concat]. rewrite app_nil_r.
    destruct (Z.ltb_spec (Z.of_nat (length pre)) (Z.of_nat (length pre)));
      [lia|]. reflexivity.
  - destruct fuel as [|fuel]; [cbn in Hfuel; lia|].
    apply Forall_cons in Hrange as [Hv Hrange].
    pose proof (sdnv_bytes_nonempty _ _ Henc) as [Hlen Hv0].
    cbn [Dacs.fill_loop Dacs.index concat Dacs.value Dacs.width].
    destruct (Z.ltb_spec (Z.of_nat (length pre))
                (Z.of_nat (length (pre ++ enc ++ concat encs)))) as [_|Hge];
      [|rewrite !length_app in Hge; lia].
    rewrite (sdnv_read_ok (pre ++ enc ++ concat encs) _ 0 v (length enc)).
    2: cbn; lia.
    2: { cbn [Dacs.index]. rewrite Nat2Z.id, drop_app_length.
         by apply sdnv_decode_from_app. }
    2: lia.
    cbn [Dacs.index Dacs.value Dacs.width negb Z.eqb].
    rewrite andb_true_r.
    replace (Z.of_nat (length pre) + Z.of_nat (length enc))
      with (Z.of_nat (length (pre ++ enc))) by (rewrite length_app; lia).
    rewrite (app_assoc pre enc).
    cbn [Dacs.run_cids] in Hmax |- *. rewrite ack_all_app in Hmax |- *.
    destruct cidin; cbn [negb] in Hmax |- *.
    + rewrite ack_run_all; [|lia|].
      2: { change (Z.to_nat 0) with 0%nat.
           destruct (ack_all _ parm count) as [p n] eqn:E.
           pose proof (ack_all_grows
                         (run_cids (wrap bits (c + v)) fills false) p n).
           cbn [snd]. lia. }
      change (Z.to_nat 0) with 0%nat. cbn [mbind option_bind].
      destruct (ack_all _ parm count) as [p n].
      apply IH; [done|cbn in Hfuel; lia|done].
    + cbn [map Dacs.ack_all mbind option_bind] in Hmax |- *.
      apply IH; [done|cbn in Hfuel; lia|done].
Qed.

Lemma land_ack_mask (status : Z) :
  Z.testbit status 0 = true ->
  Z.land status Dacs.BP_ACS_ACK_MASK = Dacs.BP_ACS_ACK_MASK.
Proof.
  intros H. unfold Dacs.BP_ACS_ACK_MASK. change 1 with (Z.ones 1).
  rewrite Z.land_ones by lia. change (2 ^ 1) with 2.
  by rewrite <- Z.bit0_mod, H.
Qed.

Lemma run_increasing (cid : Z) (n : nat) : forall start : nat,
  0 <= cid -> cid + Z.of_nat start + Z.of_nat n <= 2 ^ bits ->
  let run := map (fun k => wrap bits (cid + Z.of_nat k)) (seq start n) in
  Forall (fun c => cid + Z.of_nat start <= c
                   < cid + Z.of_nat start + Z.of_nat n) run
  /\ StronglySorted Z.lt run.
Proof.
  induction n as [|n IH]; intros start Hc Hn; cbn; [split; constructor|].
  destruct (IH (S start) Hc ltac:(lia)) as [Hb Hs].
  rewrite wrap_small by lia. split.
  - constructor; [lia|]. eapply Forall_impl; [exact Hb|]. cbn. lia.
  - constructor; [done|]. eapply Forall_impl; [exact Hb|]. cbn. lia.
Qed.

Lemma run_cids_increasing (fills : list Z) : forall cid is_run,
  0 <= cid -> Forall (fun f => 0 <= f) fills ->
  cid + foldr Z.add 0 fills < 2 ^ bits ->
  Forall (fun c => cid <= c < cid + foldr Z.add 0 fills)
         (run_cids cid fills is_run)
  /\ StronglySorted Z.lt (run_cids cid fills is_run).
Proof.
  induction fills as [|f r IH]; intros cid is_run Hc Hf Hsum.
  - cbn. split; constructor.
  - apply Forall_cons in Hf as [Hf0 Hf]. cbn [foldr] in Hsum |- *.
    assert (Hr : 0 <= foldr Z.add 0 r).
    { clear -Hf. induction Hf; cbn; lia. }
    cbn [Dacs.run_cids]. rewrite (wrap_small bits (cid + f)) by lia.
    destruct (IH (cid + f) (negb is_run) ltac:(lia) Hf ltac:(lia))
      as [Hb Hs].
    destruct (run_increasing cid (Z.to_nat f) 0 Hc ltac:(lia)) as [Hb1 Hs1].
    assert (Hrun :
      Forall (fun c => cid <= c < cid + f)
             (if is_run
              then map (fun k => wrap bits (cid + Z.of_nat k))
                       (seq 0 (Z.to_nat f))
              else [])
      /\ StronglySorted Z.lt
           (if is_run
            then map (fun k => wrap bits (cid + Z.of_nat k))
                     (seq 0 (Z.to_nat f))
            else [])).
    { destruct is_run; [|split; constructor]. split; [|done].
      eapply Forall_impl; [exact Hb1|]. cbn. lia. }
    destruct Hrun as [Hb2 Hs2]. split.
    + apply Forall_app. split.
      * eapply Forall_impl; [exact Hb2|]. cbn. lia.
      * eapply Forall_impl; [exact Hb|]. cbn. lia.
    + apply StronglySorted_app. split; [|done].
      intros x1 x2 H1 H2.
      rewrite Forall_forall in Hb2, Hb.
      specialize (Hb2 x1 H1). specialize (Hb x2 H2). cbn in *. lia.
Qed.


End DacsReadProperties.


(** ** Red-black tree of CID ranges *)

(** C8 (as the code has it): a value inside a stored range, other than
    its first value, is not recognised as a duplicate.  After 0 and 1 the
    tree holds the range [0, 2); inserting 1 again succeeds and adds the
    range [1, 2) as a second node, which overlaps the first. *)
Theorem insert_inside_range_adds_overlapping_node :
  exists t1 t2,
    (RbTree.create_rb_tree 2 ≫= RbTree.inserts [0; 1]) = Some t1
    /\ RbTree.ranges t1 = [(0, 2)]
    /\ RbTree.insert 1 t1 = Some (true, t2)
    /\ RbTree.ranges t2 = [(0, 2); (1, 1)]
    /\ ~ (0 + 2 < 1).
Proof.
  eexists. eexists. split; [vm_compute; reflexivity|].
  split; [vm_compute; reflexivity|].
  split; [vm_compute; reflexivity|].
  split; [vm_compute; reflexivity|]. lia.
Qed.

(** C6 (as the code has it): after the inserts 5, 6, 7, 6 the tree is
    still a red-black tree (black root, no red node with a red child,
    equal black depths) but its ranges are no longer apart: [5, 8) is
    followed by [6, 7).  Same defect as for C8. *)
Theorem inserts_break_range_separation :
  exists t,
    (RbTree.create_rb_tree 4 ≫= RbTree.inserts [5; 6; 7; 6]) = Some t
    /\ RbTree.root_is_black (RbTree.tree_shape t) = true
    /\ RbTree.no_red_red (RbTree.tree_shape t) = true
    /\ RbTree.black_depth (RbTree.tree_shape t) = Some 2%nat
    /\ RbTree.ranges t = [(5, 3); (6, 1)]
    /\ RbTree.separated (RbTree.ranges t) = false
    /\ RbTree.rb_valid t = false.
Proof.
  eexists. split; [vm_compute; reflexivity|].
  repeat split; vm_compute; reflexivity.
Qed.

(** ** Channel *)

Section ChannelProperties.

Import Channel.

Context {W C : Type}.
Variable store : bp_store_t W.
Variable os : bp_os_t W.
Variable v6 : bp_v6_t W C.
Variable bits : Z.

(** C1 (as the code has it): a bplib_config call in write mode that
    succeeds leaves the template flag set, whatever it was, so that the
    bundle_send that follows goes to v6_write without calling v6_build. *)
Theorem config_write_marks_template_built
        (ch ch' : bp_channel_t C) (opt : bp_opt) (x len : Z) (out : option Z)
        (pay : list Z) (pay_size tmo flags : Z) (w : W) :
  bplib_config (Some ch) BP_OPT_MODE_WRITE opt (Some x) len
  = (BP_SUCCESS, Some ch', out) ->
  prebuilt (bundle ch') = true
  /\ bundle_send v6 (bundle ch') pay pay_size tmo flags w
     = v6_write v6 (bundle ch') pay pay_size tmo flags w.
Proof.
  intros H.
  assert (Hp : prebuilt (bundle ch') = true).
  { unfold bplib_config in H.
    destruct opt; try discriminate H;
      (destruct (len =? 4); [|discriminate H]);
      cbn [negb andb] in H;
      (destruct (value_accepted _ x); cbn [negb] in H; [|discriminate H]);
      injection H as <- _; reflexivity. }
  split; [exact Hp|]. unfold bundle_send. rewrite Hp. reflexivity.
Qed.

(** C10: when bplib_accept has dequeued a payload and cannot hand it
    over - the caller's buffer is smaller than the payload, or there is
    no buffer and no memory for one - it returns the error code, counts
    the payload as lost and has relinquished its storage id. *)
Theorem accept_relinquishes_undeliverable_payload
        (ch : bp_channel_t C) (caller_buffer : bool) (size_ tmo flags : Z)
        (w w1 : W) (deqstat paylen psid : Z) (payptr : option object) :
  dequeue store (payload_handle (bundle ch)) tmo w
  = ((deqstat, payptr, paylen, psid), w1) ->
  0 < deqstat ->
  (caller_buffer = true /\ size_ < paylen
   \/ caller_buffer = false /\ fst (malloc os paylen w1) = false) ->
  exists st w2,
    bplib_accept store os bits (Some ch) (Some caller_buffer) size_ tmo
                 (Some flags) w
    = Some (st, Some (with_stats ch (incr_lost bits (stats ch))), None,
            snd (relinquish store (payload_handle (bundle ch)) psid w2))
    /\ (caller_buffer = true -> st = BP_PAYLOADTOOLARGE /\ w2 = w1)
    /\ (caller_buffer = false ->
        st = BP_FAILEDMEM /\ w2 = snd (malloc os paylen w1))
    /\ lost (stats (with_stats ch (incr_lost bits (stats ch))))
       = wrap bits (lost (stats ch) + 1).
Proof.
  intros Hdeq Hpos Hcase. unfold bplib_accept. rewrite Hdeq.
  destruct (Z.ltb_spec 0 deqstat) as [_|]; [|lia].
  destruct Hcase as [[-> Hsmall]|[-> Hmem]].
  - cbn [negb orb]. destruct (Z.leb_spec paylen size_); [lia|].
    cbn [mbind option_bind].
    destruct (relinquish store _ psid w1) as [rs w3] eqn:Hr.
    exists BP_PAYLOADTOOLARGE, w1. rewrite Hr. cbn.
    repeat split; try discriminate; reflexivity.
  - cbn [negb orb]. destruct (malloc os paylen w1) as [m w'] eqn:Hm.
    cbn in Hmem. subst m. cbn [mbind option_bind].
    destruct (relinquish store _ psid w') as [rs w3] eqn:Hr.
    exists BP_FAILEDMEM, w'. rewrite Hr. cbn.
    repeat split; try discriminate; reflexivity.
Qed.

End ChannelProperties.

(** *** The active table and the two CID counters *)

Section ActiveTable.

Import Channel.

Context {W C : Type}.
Variable store : bp_store_t W.
Variable os : bp_os_t W.
Variable v6 : bp_v6_t W C.
Variable bits : Z.

Local Abbreviation channel := (bp_channel_t C).
Local Abbreviation tsize ch := (active_table_size (attributes ch)).
Local Abbreviation Inv := (table_invariant bits).

Lemma occupied_at_sids (ch : channel) (i : nat) :
  occupied_at ch i
  = match (sid <$> active_table ch) !! i with
    | Some s => negb (s =? BP_SID_VACANT)
    | None => false
    end.
Proof.
  unfold occupied_at. rewrite list_lookup_fmap.
  by destruct (active_table ch !! i).
Qed.

Lemma core_invariant (ch ch' : channel) :
  core ch' = core ch -> Inv ch -> Inv ch'.
Proof.
  unfold core. intros [= Hn Hs Ho Hc] [H1 H2 H3 H4 H5 H6].
  assert (Hl : length (active_table ch') = length (active_table ch)).
  { by rewrite <- (length_fmap sid), Hs, length_fmap. }
  constructor; rewrite ?Hn, ?Ho, ?Hc, ?Hl; try done.
  intros i Hi. rewrite occupied_at_sids, Hs, <- occupied_at_sids in Hi.
  destruct (H6 i Hi) as (c & Hc1 & Hc2). exists c. by rewrite Hn, Ho, Hc.
Qed.

(** Counting: the window is the occupied slots plus the CIDs of the
    window whose slot is vacant. *)
Lemma slot_injective (n o k1 k2 : Z) :
  0 < n -> 0 <= k1 < n -> 0 <= k2 < n ->
  (o + k1) mod n = (o + k2) mod n -> k1 = k2.
Proof.
  intros Hn H1 H2 H.
  assert (Hd : ((o + k1) - (o + k2)) mod n = 0).
  { rewrite Zminus_mod, H, Z.sub_diag. by apply Z.mod_0_l; lia. }
  replace (o + k1 - (o + k2)) with (k1 - k2) in Hd by lia.
  apply Z.mod_divide in Hd; [|lia]. destruct Hd as [q Hq].
  assert (q = 0) by nia. lia.
Qed.

Lemma invariant_counts (ch : channel) :
  Inv ch -> window bits ch = occupied ch + vacated bits ch.
Proof.
  intros [H1 H2 H3 H4 H5 H6].
  set (n := tsize ch) in *. set (o := oldest_active_cid ch) in *.
  set (c := current_active_cid ch) in *.
  assert (Hw : window bits ch = c - o).
  { unfold window, val. apply wrap_small. fold c o. lia. }
  unfold vacated, occupied. rewrite Hw.
  set (f := fun k : nat => Z.to_nat ((o + Z.of_nat k) mod n)).
  set (ks := seq 0 (Z.to_nat (c - o))).
  assert (Hvac : forall k, vacant_after ch k = negb (occupied_at ch (f k))).
  { intros k. unfold vacant_after. fold n o. unfold f. destruct n; [lia|done|lia]. }
  rewrite (List.filter_ext _ _ Hvac).
  pose proof (List.filter_length (fun k => occupied_at ch (f k)) ks) as Hpart.
  unfold ks in Hpart at 3. rewrite length_seq in Hpart.
  enough (Hperm : Permutation
                    (List.filter (occupied_at ch) (seq 0 (length (active_table ch))))
                    (map f (List.filter (fun k => occupied_at ch (f k)) ks))).
  { apply Permutation_length in Hperm. rewrite length_map in Hperm. lia. }
  apply NoDup_Permutation.
  - apply NoDup_ListNoDup, List.NoDup_filter, seq_NoDup.
  - apply NoDup_fmap_2_strong;
      [|apply NoDup_ListNoDup, List.NoDup_filter, seq_NoDup].
    intros k1 k2 Hk1 Hk2 Hf.
    apply list_elem_of_In, List.filter_In in Hk1 as [Hk1 _].
    apply list_elem_of_In, List.filter_In in Hk2 as [Hk2 _].
    apply in_seq in Hk1, Hk2. unfold f in Hf.
    apply Z2Nat.inj in Hf; [|apply Z.mod_pos_bound; lia..].
    apply slot_injective in Hf; lia.
  - intros i. rewrite !list_elem_of_In.
    rewrite List.filter_In, in_seq, in_map_iff. split.
    + intros [Hi Ho]. destruct (H6 i Ho) as (x & Hx1 & Hx2).
      exists (Z.to_nat (x - o)). split.
      * unfold f. rewrite Z2Nat.id by lia.
        replace (o + (x - o)) with x by lia. fold n in Hx2. rewrite Hx2. lia.
      * apply List.filter_In. split; [apply in_seq; lia|].
        unfold f. rewrite Z2Nat.id by lia.
        replace (o + (x - o)) with x by lia. fold n in Hx2.
        by rewrite Hx2, Nat2Z.id.
    + intros (k & <- & Hk). apply List.filter_In in Hk as [Hk Ho].
      split; [|done]. unfold f.
      pose proof (Z.mod_pos_bound (o + Z.of_nat k) n H1). lia.
Qed.


Ltac rsimpl :=
  cbn [current_active_cid oldest_active_cid attributes active_table
       active_table_signal stats bundle custody
       with_current with_table with_oldest with_stats with_custody
       with_bundle with_attributes bump_oldest] in *.

(** Reading and writing slots. *)
Lemma slot_index_spec (ch : channel) (c i : Z) :
  slot_index ch c = Some i -> 0 < tsize ch /\ i = c mod tsize ch.
Proof.
  unfold slot_index. destruct (Z.leb_spec (tsize ch) 0); [done|].
  intros [= <-]. done.
Qed.

Lemma slot_sid_spec (ch : channel) (i s : Z) :
  slot_sid ch i = Some s ->
  0 <= i /\ occupied_at ch (Z.to_nat i) = negb (s =? BP_SID_VACANT).
Proof.
  unfold slot_sid, rd, occupied_at. destruct (Z.ltb_spec i 0); [done|].
  destruct (active_table ch !! Z.to_nat i) as [e|]; [|done].
  intros [= <-]. done.
Qed.

Lemma set_slot_sid_spec (ch ch' : channel) (i s : Z) :
  set_slot_sid ch i s = Some ch' ->
  0 <= i
  /\ exists e, active_table ch !! Z.to_nat i = Some e
     /\ ch' = with_table ch (<[Z.to_nat i := mk_slot s (retx e)]>
                               (active_table ch)).
Proof.
  unfold set_slot_sid, rd, wr. destruct (Z.ltb_spec i 0); [done|].
  destruct (active_table ch !! Z.to_nat i) as [e|] eqn:He; [|done].
  cbn. destruct (Z.leb_spec (Z.of_nat (length (active_table ch))) i);
    cbn; [done|].
  intros [= <-]. split; [done|]. by exists e.
Qed.

Lemma set_slot_retx_core (ch ch' : channel) (i r : Z) :
  set_slot_retx ch i r = Some ch' ->
  core ch' = core ch /\ attributes ch' = attributes ch.
Proof.
  unfold set_slot_retx, rd, wr. destruct (Z.ltb_spec i 0); [done|].
  destruct (active_table ch !! Z.to_nat i) as [e|] eqn:He; [|done].
  cbn. destruct (Z.leb_spec (Z.of_nat (length (active_table ch))) i);
    cbn; [done|].
  intros [= <-]. split; [|done]. unfold core. cbn. do 3 f_equal.
  rewrite list_fmap_insert. cbn. apply list_insert_id.
  by rewrite list_lookup_fmap, He.
Qed.

Lemma occupied_at_insert (ch : channel) (i j : nat) (s r : Z) :
  (i < length (active_table ch))%nat ->
  occupied_at (with_table ch (<[i := mk_slot s r]> (active_table ch))) j
  = if decide (i = j) then negb (s =? BP_SID_VACANT) else occupied_at ch j.
Proof.
  intros Hi. unfold occupied_at. cbn. destruct (decide (i = j)) as [->|Hne].
  - by rewrite list_lookup_insert_eq.
  - by rewrite list_lookup_insert_ne.
Qed.

(** The moves of the table and the counters. *)

(** Slots are vacated, the counters stay. *)
Lemma shrink_invariant (ch ch' : channel) :
  Inv ch ->
  tsize ch' = tsize ch ->
  length (active_table ch') = length (active_table ch) ->
  oldest_active_cid ch' = oldest_active_cid ch ->
  current_active_cid ch' = current_active_cid ch ->
  (forall j, occupied_at ch' j = true -> occupied_at ch j = true) ->
  Inv ch'.
Proof.
  intros [H1 H2 H3 H4 H5 H6] Hn Hl Ho Hc Hocc.
  constructor; rewrite ?Hn, ?Hl, ?Ho, ?Hc; try done.
  intros j Hj. destruct (H6 j (Hocc j Hj)) as (c & Hc1 & Hc2).
  exists c. by rewrite Hn, Ho, Hc.
Qed.

(** The oldest CID is passed, its slot vacant afterwards. *)
Lemma advance_invariant (ch ch' : channel) :
  Inv ch ->
  oldest_active_cid ch <> current_active_cid ch ->
  tsize ch' = tsize ch ->
  length (active_table ch') = length (active_table ch) ->
  oldest_active_cid ch' = val bits (oldest_active_cid ch + 1) ->
  current_active_cid ch' = current_active_cid ch ->
  (forall j, occupied_at ch' j = true ->
             occupied_at ch j = true
             /\ j <> Z.to_nat (oldest_active_cid ch mod tsize ch)) ->
  Inv ch'
  /\ current_active_cid ch' - oldest_active_cid ch' < tsize ch'.
Proof.
  intros [H1 H2 H3 H4 H5 H6] Hne Hn Hl Ho Hc Hocc.
  assert (Hb : val bits (oldest_active_cid ch + 1) = oldest_active_cid ch + 1).
  { apply wrap_small. lia. }
  rewrite Hb in Ho. split; [|lia].
  constructor; rewrite ?Hn, ?Hl, ?Ho, ?Hc; try done; try lia.
  intros j Hj. destruct (Hocc j Hj) as [Hj1 Hj2].
  destruct (H6 j Hj1) as (c & Hc1 & Hc2).
  exists c. rewrite Hn, Ho, Hc. split; [|done].
  destruct (Z.eq_dec c (oldest_active_cid ch)) as [->|]; [|lia].
  rewrite Hc2, Nat2Z.id in Hj2. done.
Qed.

(** A new CID is issued and takes its slot. *)
Lemma install_invariant (ch ch' : channel) :
  Inv ch ->
  current_active_cid ch - oldest_active_cid ch < tsize ch ->
  current_active_cid ch + 1 < 2 ^ bits ->
  tsize ch' = tsize ch ->
  length (active_table ch') = length (active_table ch) ->
  oldest_active_cid ch' = oldest_active_cid ch ->
  current_active_cid ch' = val bits (current_active_cid ch + 1) ->
  (forall j, occupied_at ch' j = true ->
             occupied_at ch j = true
             \/ j = Z.to_nat (current_active_cid ch mod tsize ch)) ->
  Inv ch'.
Proof.
  intros [H1 H2 H3 H4 H5 H6] Hw Hr Hn Hl Ho Hc Hocc.
  assert (Hb : val bits (current_active_cid ch + 1) = current_active_cid ch + 1).
  { apply wrap_small. lia. }
  rewrite Hb in Hc.
  constructor; rewrite ?Hn, ?Hl, ?Ho, ?Hc; try done; try lia.
  intros j Hj. unfold in_window. rewrite Hn, Ho, Hc.
  destruct (Hocc j Hj) as [Hj1| ->].
  - destruct (H6 j Hj1) as (c & Hc1 & Hc2). exists c. split; [lia|done].
  - exists (current_active_cid ch). split; [lia|].
    rewrite Z2Nat.id; [done|]. apply Z.mod_pos_bound. lia.
Qed.

(** What [occupied_at] is after a slot was written. *)
Lemma set_slot_sid_occupied (ch ch' : channel) (i s : Z) :
  set_slot_sid ch i s = Some ch' ->
  attributes ch' = attributes ch
  /\ oldest_active_cid ch' = oldest_active_cid ch
  /\ current_active_cid ch' = current_active_cid ch
  /\ stats ch' = stats ch
  /\ length (active_table ch') = length (active_table ch)
  /\ forall j, occupied_at ch' j
               = if decide (Z.to_nat i = j) then negb (s =? BP_SID_VACANT)
                 else occupied_at ch j.
Proof.
  intros Hs. apply set_slot_sid_spec in Hs as (Hi & e & He & ->).
  rsimpl. rewrite length_insert. repeat split.
  intros j. apply occupied_at_insert. by apply lookup_lt_Some in He.
Qed.

Lemma full_table (ch : channel) :
  Inv ch ->
  occupied_at ch (Z.to_nat (current_active_cid ch mod tsize ch)) = true ->
  current_active_cid ch - oldest_active_cid ch = tsize ch
  /\ current_active_cid ch mod tsize ch = oldest_active_cid ch mod tsize ch.
Proof.
  intros [H1 H2 H3 H4 H5 H6] Ho.
  destruct (H6 _ Ho) as (c & Hc1 & Hc2).
  rewrite Z2Nat.id in Hc2 by (apply Z.mod_pos_bound; lia).
  assert (Hd : (current_active_cid ch - c) mod tsize ch = 0).
  { rewrite Zminus_mod, Hc2, Z.sub_diag. by apply Z.mod_0_l; lia. }
  apply Z.mod_divide in Hd; [|lia]. destruct Hd as [q Hq].
  assert (q = 1) by nia. subst q.
  assert (c = oldest_active_cid ch) by lia. subst c. split; [lia|done].
Qed.



Hypothesis retrieve_ok : retrieve_clean store.

Lemma occupied_oldest (ch : channel) (j : nat) (b : bool) :
  occupied_at ch (Z.to_nat (oldest_active_cid ch mod tsize ch)) = b ->
  occupied_at ch j = negb b ->
  j <> Z.to_nat (oldest_active_cid ch mod tsize ch).
Proof. intros H1 H2 ->. rewrite H1 in H2. by destruct b. Qed.

(** One turn of the scan keeps the invariant; when the turn selects a
    bundle or breaks, a slot is free for the CID to come. *)
Lemma scan_step_invariant (sysnow : Z) (ch ch' : channel) (l l' : locals)
      (w w' : W) (continue : bool) :
  Inv ch ->
  cid_reuse (attributes ch) = 0 ->
  wrap_response (attributes ch) = BP_WRAP_DROP ->
  oldest_active_cid ch <> current_active_cid ch ->
  newcid l = true -> data l = None ->
  scan_step store os bits sysnow ch l w = Some (continue, ch', l', w') ->
  Inv ch'
  /\ attributes ch' = attributes ch
  /\ current_active_cid ch' = current_active_cid ch
  /\ newcid l' = true
  /\ (data l' <> None \/ continue = false ->
      current_active_cid ch' - oldest_active_cid ch' < tsize ch').
Proof.
  intros HI Hreuse Hwrap Hne Hnew Hdata H.
  unfold scan_step in H.
  apply bind_Some in H as (i & Hi & H).
  apply slot_index_spec in Hi as [Hn ->].
  apply bind_Some in H as (s & Hs & H).
  apply slot_sid_spec in Hs as [_ Hocc].
  destruct (Z.eqb_spec s BP_SID_VACANT) as [Hs0|Hs0].
  - (* vacant *)
    injection H as <- <- <- <-. cbn in Hocc.
    destruct (advance_invariant ch (bump_oldest bits ch) HI Hne) as [HI' Hw];
      try reflexivity.
    { intros j Hj. split; [exact Hj|]. by apply (occupied_oldest ch j false). }
    split; [exact HI'|]. do 3 (split; [done|]).
    intros [Hd|Hd]; [by destruct Hd|done].
  - cbn in Hocc.
    destruct (retrieve store _ s BP_CHECK w) as [[st o] w1] eqn:Hr.
    apply bind_Some in H as (dopt & Hdopt & H).
    destruct (Z.eqb_spec st BP_SUCCESS) as [Hst|Hst].
    + apply bind_Some in H as (d & -> & H).
      destruct (is_expired d sysnow).
      * (* expired *)
        destruct (relinquish store _ s w1) as [rs w2].
        apply bind_Some in H as (ch1 & Hc1 & H).
        injection H as <- <- <- <-.
        apply set_slot_sid_occupied in Hc1 as (Ha & Ho & Hc & _ & Hl & Hoc).
        destruct (advance_invariant ch
                    (with_stats (bump_oldest bits ch1)
                       (incr_expired bits (stats (bump_oldest bits ch1))))
                    HI Hne) as [HI' Hw]; rsimpl; try congruence.
        { intros j Hj. change (occupied_at ch1 j = true) in Hj.
          rewrite Hoc in Hj. destruct (decide _) as [|Hd]; [done|]. split; [done|].
          intros ->. done. }
        split; [exact HI'|]. do 3 (split; [done|]).
    intros [Hd|Hd]; [by destruct Hd|done].
      * apply bind_Some in H as (e & He & H).
        destruct (negb (timeout (attributes ch) =? 0)
                  && (val bits (retx e + timeout (attributes ch)) <=? sysnow)).
        -- (* timed out: a new CID, the slot is cleared *)
           rewrite Hreuse in H. cbn in H.
           apply bind_Some in H as (ch3 & Hc3 & H).
           injection H as <- <- <- <-.
           apply set_slot_sid_occupied in Hc3 as (Ha & Ho & Hc & _ & Hl & Hoc).
           rsimpl.
           destruct (advance_invariant ch ch3 HI Hne) as [HI' Hw];
             rsimpl; try congruence.
           { intros j Hj. rewrite Hoc in Hj.
             destruct (decide _) as [|Hd]; [done|]. split; [done|].
             intros ->. done. }
           split; [exact HI'|]. do 3 (split; [done || congruence|]).
           intros _. exact Hw.
        -- (* still active *)
           apply bind_Some in H as (wi & Hwi & H).
           apply slot_index_spec in Hwi as [_ ->].
           apply bind_Some in H as (ws & Hws & H).
           apply slot_sid_spec in Hws as [_ Hwocc].
           destruct (Z.eqb_spec ws BP_SID_VACANT) as [Hws0|Hws0].
           ++ cbn in H, Hwocc. injection H as <- <- <- <-.
              split; [exact HI|]. do 3 (split; [done|]). intros _.
              destruct HI as [H1 H2 H3 H4 H5 H6].
              destruct (Z.eq_dec (current_active_cid ch - oldest_active_cid ch)
                          (tsize ch)) as [Hfull|]; [|lia].
              exfalso.
              assert (Hm : current_active_cid ch mod tsize ch
                           = oldest_active_cid ch mod tsize ch).
              { replace (current_active_cid ch)
                  with (oldest_active_cid ch + 1 * tsize ch) by lia.
                apply Z.mod_add. lia. }
              rewrite Hm in Hwocc. congruence.
           ++ cbn [negb] in H, Hwocc. rewrite Hwrap in H.
              change (BP_WRAP_DROP =? BP_WRAP_RESEND) with false in H.
              change (BP_WRAP_DROP =? BP_WRAP_BLOCK) with false in H.
              cbv iota in H.
              destruct (relinquish store _ ws w1) as [rs w2].
              apply bind_Some in H as (ch2 & Hc2 & H).
              injection H as <- <- <- <-.
              destruct (full_table _ HI Hwocc) as [Hfull Hm].
              apply set_slot_sid_occupied in Hc2 as (Ha & Ho & Hc & _ & Hl & Hoc).
              rsimpl.
              destruct (advance_invariant ch
                          (with_stats ch2 (incr_lost bits (stats ch2)))
                          HI Hne) as [HI' Hw]; rsimpl; try congruence.
              { intros j Hj. change (occupied_at ch2 j = true) in Hj.
                rewrite Hoc, Hm in Hj.
                destruct (decide _) as [|Hd]; [done|]. split; [done|].
                intros ->. done. }
              split; [exact HI'|]. do 3 (split; [done || congruence|]).
           intros _. exact Hw.
    + (* the bundle could not be retrieved *)
      pose proof (retrieve_ok (handle (with_sid (with_ati l (oldest_active_cid ch mod tsize ch)) s)) s BP_CHECK w) as Hclean.
      rewrite Hr in Hclean. cbn in Hclean. specialize (Hclean Hst). subst o.
      cbn in Hdopt. injection Hdopt as <-.
      destruct (relinquish store _ s w1) as [rs w2].
      apply bind_Some in H as (ch1 & Hc1 & H).
      injection H as <- <- <- <-.
      apply set_slot_sid_occupied in Hc1 as (Ha & Ho & Hc & _ & Hl & Hoc).
      split.
      { apply (shrink_invariant ch); rsimpl; try congruence.
        intros j Hj. change (occupied_at ch1 j = true) in Hj.
        rewrite Hoc in Hj. by destruct (decide _). }
      do 3 (split; [done || congruence|]).
      intros [Hd|Hd]; [by destruct Hd|done].
Qed.


Lemma scan_loop_invariant (fuel : nat) (sysnow : Z) :
  forall (ch ch' : channel) (l l' : locals) (w w' : W),
  Inv ch ->
  cid_reuse (attributes ch) = 0 ->
  wrap_response (attributes ch) = BP_WRAP_DROP ->
  newcid l = true -> data l = None ->
  scan_loop store os bits fuel sysnow ch l w = Some (ch', l', w') ->
  Inv ch'
  /\ attributes ch' = attributes ch
  /\ current_active_cid ch' = current_active_cid ch
  /\ newcid l' = true
  /\ current_active_cid ch' - oldest_active_cid ch' < tsize ch'.
Proof.
  induction fuel as [|fuel IH]; intros ch ch' l l' w w' HI Hr Hw Hn Hd H;
    [discriminate|].
  cbn [scan_loop] in H. rewrite Hd in H.
  destruct (Z.eqb_spec (oldest_active_cid ch) (current_active_cid ch))
    as [Heq|Hne].
  - injection H as <- <- <-. do 4 (split; [done|]).
    destruct HI as [H1 _ _ _ _ _]. lia.
  - apply bind_Some in H as ([[[continue ch1] l1] w1] & Hstep & H).
    destruct (scan_step_invariant _ _ _ _ _ _ _ _ HI Hr Hw Hne Hn Hd Hstep)
      as (HI1 & Ha1 & Hc1 & Hn1 & Hw1).
    destruct continue.
    + destruct (data l1) as [d|] eqn:Hd1.
      * destruct fuel; [discriminate|]. cbn [scan_loop] in H.
        rewrite Hd1 in H. injection H as <- <- <-.
        do 4 (split; [done|]). apply Hw1. by left.
      * destruct (IH _ _ _ _ _ _ HI1 ltac:(congruence) ltac:(congruence)
                     Hn1 Hd1 H) as (HI2 & Ha2 & Hc2 & Hn2 & Hw2).
        split; [done|]. split; [congruence|]. split; [congruence|]. done.
    + injection H as <- <- <-. do 4 (split; [done|]). apply Hw1. by right.
Qed.

Lemma dequeue_loop_invariant (fuel : nat) (sysnow tmo : Z) :
  forall (ch ch' : channel) (l l' : locals) (w w' : W),
  dequeue_loop store bits fuel sysnow tmo ch l w = Some (ch', l', w') ->
  core ch' = core ch
  /\ attributes ch' = attributes ch
  /\ newcid l' = newcid l
  /\ (forall d, data l = Some d -> data l' = Some d).
Proof.
  induction fuel as [|fuel IH]; intros ch ch' l l' w w' H; [discriminate|].
  cbn [dequeue_loop] in H. destruct (data l) as [d|] eqn:Hd.
  - injection H as <- <- <-. by rewrite Hd.
  - destruct (dequeue store _ tmo w) as [[[[dst o] sz] dsid] w1].
    apply bind_Some in H as (dopt & Hdopt & H).
    destruct (dst =? BP_SUCCESS).
    + apply bind_Some in H as (d & -> & H).
      destruct (is_expired d sysnow).
      * destruct (relinquish store _ dsid w1) as [rs w2].
        apply IH in H as (H1 & H2 & H3 & _). by repeat split.
      * apply IH in H as (H1 & H2 & H3 & _). by repeat split.
    + destruct (dst =? BP_TIMEOUT); injection H as <- <- <-; by repeat split.
Qed.

Lemma emit_invariant (sysnow size_ : Z) (buf : bool) (ch ch' : channel)
      (l l' : locals) (out : option (list Z)) (w w' : W) :
  Inv ch ->
  current_active_cid ch + 1 < 2 ^ bits ->
  (forall d, data l = Some d -> cteboffset d <> 0 ->
             newcid l = true
             /\ current_active_cid ch - oldest_active_cid ch < tsize ch) ->
  emit store os v6 bits sysnow size_ buf ch l w = Some (ch', l', out, w') ->
  Inv ch'.
Proof.
  intros HI Hr Hroom H. unfold emit in H.
  destruct (data l) as [d|] eqn:Hd; [|by injection H as <- <- <- <-].
  destruct (negb buf || (bundlesize d <=? size_)).
  - destruct (if negb buf then malloc os (bundlesize d) w else (true, w))
      as [mem w1].
    destruct mem.
    + apply bind_Some in H as ([[ch1 l1] d1] & Hinst & H).
      injection H as <- <- <- <-.
      apply (core_invariant ch1); [reflexivity|].
      destruct (Z.eqb_spec (cteboffset d) 0) as [Hc0|Hc0]; cbn [negb] in Hinst.
      * by injection Hinst as <- <- <-.
      * destruct (Hroom d eq_refl Hc0) as [Hn Hw]. rewrite Hn in Hinst.
        apply bind_Some in Hinst as ([[ch2 l2] d2] & Hi & Hinst).
        apply bind_Some in Hinst as (ch3 & Hretx & Hinst).
        injection Hinst as <- <- <-.
        apply set_slot_retx_core in Hretx as [Hcore _].
        apply (core_invariant ch2); [done|].
        apply bind_Some in Hi as (i & Hi & Hinst).
        apply slot_index_spec in Hi as [_ ->].
        apply bind_Some in Hinst as (ch4 & Hset & Hinst).
        destruct (v6_update v6 d _ _) as [d' fl'].
        injection Hinst as <- <- <-.
        apply set_slot_sid_occupied in Hset as (Ha & Ho & Hc & _ & Hl & Hoc).
        apply (install_invariant ch); rsimpl; try congruence.
        intros j Hj. change (occupied_at ch4 j = true) in Hj.
        rewrite Hoc in Hj. destruct (decide _) as [<-|]; [by right|by left].
    + destruct (relinquish store _ _ w1) as [rs w2].
      injection H as <- <- <- <-. by apply (core_invariant ch).
  - destruct (relinquish store _ _ w) as [rs w1].
    injection H as <- <- <- <-. by apply (core_invariant ch).
Qed.

Lemma start_load_core (fl : Z) (ch ch0 : channel) (l0 : locals)
      (w w0 : W) (sysnow : Z) :
  start_load store os v6 fl ch w = Some (sysnow, ch0, l0, w0) ->
  core ch0 = core ch /\ attributes ch0 = attributes ch /\ newcid l0 = true.
Proof.
  unfold start_load. destruct (bplib_os_systime os w) as [[ts now] w1].
  destruct (custody_send v6 _ _ _ _ _ _) as [[c' fl1] w2].
  destruct (dequeue store _ _ _) as [[[[dst o] sz] dsid] w3].
  intros H. apply bind_Some in H as (dopt & _ & H).
  by injection H as <- <- <- <-.
Qed.

Lemma load_invariant (fuel : nat) (ch ch' : channel) (buf : option bool)
      (size_ tmo fl : Z) (w w' : W) (st : Z) (out : option (list Z))
      (fl' : option Z) :
  Inv ch ->
  load_guard store os v6 bits fl ch w ->
  bplib_load store os v6 bits fuel (Some ch) buf size_ tmo (Some fl) w
  = Some (st, Some ch', out, fl', w') ->
  Inv ch'.
Proof.
  intros HI (Hreuse & Hwrap & Hrange & Hdacs) H. unfold bplib_load in H.
  destruct buf as [buf|]; [|by injection H as <- <- <- <- <-].
  apply bind_Some in H as ([[[sysnow ch0] l0] w0] & Hstart & H).
  pose proof (start_load_core _ _ _ _ _ _ _ Hstart) as (Hcore0 & Ha0 & Hn0).
  pose proof (core_invariant _ _ Hcore0 HI) as HI0.
  assert (Hc0 : current_active_cid ch0 = current_active_cid ch).
  { by injection Hcore0. }
  apply bind_Some in H as ([[ch1 l1] w1] & Hscan & H).
  apply bind_Some in H as ([[ch2 l2] w2] & Hdeq & H).
  apply bind_Some in H as ([[[ch3 l3] out3] w3] & Hemit & H).
  injection H as <- <- <- <- <-.
  apply dequeue_loop_invariant in Hdeq as (Hcore2 & Ha2 & Hn2 & Hd2).
  destruct (data l0) as [d|] eqn:Hd0.
  - (* a DACS bundle goes out *)
    injection Hscan as <- <- <-.
    pose proof (core_invariant _ _ Hcore2 HI0) as HI2.
    apply (emit_invariant _ _ _ _ _ _ _ _ _ _ HI2 ltac:(injection Hcore2; congruence))
      in Hemit; [done|].
    intros d' Hd' Hc'. rewrite (Hd2 d Hd0) in Hd'. injection Hd' as <-.
    destruct Hc'. by apply (Hdacs _ _ _ _ d Hstart).
  - apply scan_loop_invariant in Hscan as (HI1 & Ha1 & Hc1 & Hn1 & Hw1);
      [|done|congruence|congruence|done|done].
    pose proof (core_invariant _ _ Hcore2 HI1) as HI2.
    assert (current_active_cid ch2 = current_active_cid ch1
            /\ oldest_active_cid ch2 = oldest_active_cid ch1
            /\ tsize ch2 = tsize ch1) as (E1 & E2 & E3).
    { by injection Hcore2. }
    apply (emit_invariant _ _ _ _ _ _ _ _ _ _ HI2 ltac:(congruence))
      in Hemit; [done|].
    intros d' _ _. split; [congruence|]. rewrite E1, E2, E3. done.
Qed.

Lemma flush_loop_invariant (fuel : nat) :
  forall (ch ch' : channel) (w w' : W),
  Inv ch -> flush_loop store bits fuel ch w = Some (ch', w') -> Inv ch'.
Proof.
  induction fuel as [|fuel IH]; intros ch ch' w w' HI H; [discriminate|].
  cbn [flush_loop] in H.
  destruct (Z.eqb_spec (oldest_active_cid ch) (current_active_cid ch))
    as [Heq|Hne]; cbn [negb] in H; [by injection H as <- <-|].
  apply bind_Some in H as (i & Hi & H).
  apply slot_index_spec in Hi as [Hn ->].
  apply bind_Some in H as (s & Hs & H).
  apply slot_sid_spec in Hs as [_ Hocc].
  apply bind_Some in H as ([ch1 w1] & Hclr & H).
  apply (IH _ _ _ _) in H; [done|].
  destruct (Z.eqb_spec s BP_SID_VACANT) as [Hs0|Hs0]; cbn [negb] in Hclr, Hocc.
  - injection Hclr as <- <-.
    apply (advance_invariant ch); try done.
    intros j Hj. split; [exact Hj|]. by apply (occupied_oldest ch j false).
  - destruct (relinquish store _ s w) as [rs w2].
    apply bind_Some in Hclr as (ch2 & Hset & Hclr). injection Hclr as <- <-.
    apply set_slot_sid_occupied in Hset as (Ha & Ho & Hc & _ & Hl & Hoc).
    apply (advance_invariant ch); rsimpl; try congruence.
    intros j Hj. change (occupied_at ch2 j = true) in Hj.
    rewrite Hoc in Hj. destruct (decide _) as [|Hd]; [done|]. split; [done|].
    intros ->. done.
Qed.

Lemma set_attr_size (opt : bp_opt) (a : bp_attr_t) (x : Z) :
  active_table_size (set_attr opt a x) = active_table_size a.
Proof. by destruct opt. Qed.

(** The invariant holds in every state of the channel. *)
Lemma reachable_invariant (ch : channel) :
  reachable store os v6 bits ch -> Inv ch.
Proof.
  induction 1 as [a b c signal Hsize Hbits
                 | ch mode opt x len st ch' out _ IH H
                 | ch pay size_ tmo fl w st ch' fl' w' _ IH H
                 | ch w st ch' w' _ IH H
                 | ch cid w st ch' w' _ IH H
                 | ch fuel buf size_ tmo fl w st ch' out fl' w' _ IH Hg H].
  - constructor; cbn; try lia.
    + rewrite length_replicate. lia.
    + intros i Hi. unfold occupied_at in Hi. cbn in Hi.
      destruct (replicate _ _ !! i) as [e|] eqn:He; [|done].
      apply lookup_replicate in He as [-> _]. done.
  - unfold bplib_config in H. destruct x as [x|]; [|by injection H as <- <- <-].
    destruct opt; try (by injection H as <- <- <-);
      (destruct (negb (len =? 4)); [by injection H as <- <- <-|]);
      (destruct (_ && _); [by injection H as <- <- <-|]);
      injection H as <- <- <-;
      (destruct mode; [done|]);
      (apply (core_invariant ch); [reflexivity|done]).
  - unfold bplib_store in H. destruct pay as [pay|]; [|by injection H as <- <- <- <-].
    destruct fl as [fl|]; [|by injection H as <- <- <- <-].
    destruct (bundle_send v6 _ _ _ _ _ _) as [[[s1 b1] f1] w1].
    injection H as <- <- <- <-.
    destruct (s1 =? BP_SUCCESS); by apply (core_invariant ch).
  - unfold bplib_flush in H.
    apply bind_Some in H as ([ch1 w1] & Hf & H). injection H as <- <- <-.
    by apply flush_loop_invariant in Hf.
  - unfold acknowledge in H.
    apply bind_Some in H as (i & Hi & H).
    apply bind_Some in H as (s & Hs & H).
    destruct (negb (s =? BP_SID_VACANT)); [|by injection H as <- <- <-].
    destruct (relinquish store _ s w) as [rs w1].
    apply bind_Some in H as (ch1 & Hset & H). injection H as <- <- <-.
    apply set_slot_sid_occupied in Hset as (Ha & Ho & Hc & _ & Hl & Hoc).
    apply (shrink_invariant ch); try congruence.
    intros j Hj. rewrite Hoc in Hj. by destruct (decide _).
  - by apply load_invariant in H.
Qed.

(** C3 (amended): for a channel that drops on wrap and issues a new CID
    on retransmission (DACS bundles without CTEB, a storage service whose
    retrieve hands out data only on success, the CID counter short of its
    wrap-around), in every state current - oldest is the number of
    non-vacant slots plus the number of CIDs from oldest to current whose
    slot is vacant: an acknowledgment vacates a slot and moves neither
    counter, and the CID stays counted until a scan or a flush passes it. *)
Theorem window_counts_occupied_and_vacated (ch : channel) :
  reachable store os v6 bits ch ->
  current_active_cid ch - oldest_active_cid ch
  = occupied ch + vacated bits ch
  /\ occupied ch <= current_active_cid ch - oldest_active_cid ch.
Proof.
  intros Hreach.
  pose proof (reachable_invariant ch Hreach) as HI.
  pose proof (invariant_counts ch HI) as Hcount.
  destruct HI as [H1 H2 H3 H4 H5 H6].
  unfold window, val in Hcount. rewrite wrap_small in Hcount by lia.
  split; [exact Hcount|]. unfold vacated in Hcount. lia.
Qed.

End ActiveTable.

Import Channel Sim.

Lemma config_write_marks_template_built_witness :
  exists ch',
    bplib_config (Some (opened (attrs 4 BP_WRAP_RESEND 10 0)))
                 BP_OPT_MODE_WRITE BP_OPT_LIFETIME (Some 10) 4
    = (BP_SUCCESS, Some ch', Some 10)
    /\ lifetime (attributes ch') = 10
    /\ prebuilt (bundle ch') = true
    /\ log (snd (store_payload ch' [104] (empty_world true))) = [EvWrite].
Proof.
  eexists. split; [reflexivity|]. split; [reflexivity|].
  pose proof (config_write_marks_template_built sim_v6
                (opened (attrs 4 BP_WRAP_RESEND 10 0)) _ BP_OPT_LIFETIME
                10 4 (Some 10) [104] 1 0 0 (empty_world true) eq_refl)
    as [Hp Hs].
  split; [exact Hp|]. vm_compute. reflexivity.
Defined.

(** A payload of five bytes waiting on the payload handle, a caller
    buffer of four: the payload is refused, counted lost and gone from
    the store, and the next call finds the queue empty. *)
Lemma accept_relinquishes_undeliverable_payload_witness :
  let ch := opened (attrs 4 BP_WRAP_RESEND 10 0) in
  let w := sim_enqueue 2 (Payload [104; 101; 108; 108; 111])
                       (empty_world false) in
  exists ch' w',
    bplib_accept sim_store sim_os bits (Some ch) (Some true) 4 0 (Some 0) w
    = Some (BP_PAYLOADTOOLARGE, Some ch', None, w')
    /\ lost (stats ch') = 1
    /\ entries w' = []
    /\ EvRelinquish 2 1 ∈ log w'
    /\ bplib_accept sim_store sim_os bits (Some ch') (Some true) 4 0
                    (Some 0) w'
       = Some (BP_TIMEOUT, Some ch', None, logged w' (EvDequeue 2)).
Proof.
  intros ch w.
  destruct (accept_relinquishes_undeliverable_payload sim_store sim_os bits
              ch true 4 0 0 w
              (snd (sim_dequeue 2 0 w)) 1 5 1
              (Some (Payload [104; 101; 108; 108; 111]))
              eq_refl ltac:(lia) ltac:(left; split; [reflexivity|lia]))
    as (st & w2 & Hacc & Hbuf & _ & Hlost).
  destruct (Hbuf eq_refl) as [-> ->].
  eexists. eexists. split; [exact Hacc|].
  split; [vm_compute; reflexivity|].
  split; [vm_compute; reflexivity|].
  split; [vm_compute; repeat constructor|].
  vm_compute. reflexivity.
Defined.

(** C5 (as the code has it): with the two slots of the table taken by
    live bundles, the bundle store empty and the wrap response BLOCK, the
    third bplib_load raises the wrap flag and waits BP_WRAP_TIMEOUT on
    the table's condition variable, then goes on to the dequeue of the
    empty store and returns what that gives: TIMEOUT, not OVERFLOW. *)
Theorem load_on_full_table_with_block_returns_timeout :
  exists ch w ch' w',
    blocked_channel = Some (ch, w)
    /\ occupied ch = 2
    /\ sim_getcount 1 w = 0
    /\ load ch w
       = Some (BP_TIMEOUT, Some ch', None, Some BP_FLAG_ACTIVETABLEWRAP, w')
    /\ log w' = log w ++ [EvDequeue 3; EvRetrieve 1 1;
                          EvWaitOn 0 BP_WRAP_TIMEOUT; EvDequeue 1]
    /\ BP_TIMEOUT <> BP_OVERFLOW.
Proof.
  do 4 eexists. split; [vm_compute; reflexivity|].
  split; [vm_compute; reflexivity|].
  split; [vm_compute; reflexivity|].
  split; [vm_compute; reflexivity|].
  split; [vm_compute; reflexivity|]. discriminate.
Qed.

Lemma sim_retrieve_clean : retrieve_clean sim_store.
Proof.
  intros h s t w Hst. cbn in *. unfold sim_retrieve in *.
  destruct (find_entry h s _); [by destruct Hst|done].
Qed.

Lemma acknowledged_state_reachable :
  reachable sim_store sim_os sim_v6 bits (fst acknowledged_state).
Proof.
  apply (reach_acknowledge sim_store sim_os sim_v6 bits (fst loaded_state) 1
           (snd loaded_state) BP_SUCCESS (fst acknowledged_state)
           (snd acknowledged_state)); [|vm_compute; reflexivity].
  apply (reach_load sim_store sim_os sim_v6 bits (fst stored_state) 64
           (Some false) 0 0 0 (snd stored_state) 4 (fst loaded_state)
           (Some [6; 1; 0; 104]) (Some 0) (snd loaded_state)).
  - apply (reach_store sim_store sim_os sim_v6 bits
             (opened (attrs 4 BP_WRAP_DROP 10 0)) (Some [104]) 1 0 (Some 0)
             (empty_world true) BP_SUCCESS (fst stored_state) (Some 0)
             (snd stored_state)); [|vm_compute; reflexivity].
    apply reach_open; vm_compute; reflexivity.
  - split; [reflexivity|]. split; [reflexivity|].
    split; [vm_compute; reflexivity|].
    intros sysnow ch0 l0 w0 d Hs Hd. vm_compute in Hs.
    injection Hs as <- <- <- <-. discriminate Hd.
  - vm_compute. reflexivity.
Qed.

(** C3, as stated: after one custodial bundle was stored, loaded under
    CID 1 and acknowledged, current - oldest is still 1 and no slot of
    the table is occupied. *)
Lemma acknowledgment_leaves_counters :
  let ch := fst acknowledged_state in
  reachable sim_store sim_os sim_v6 bits ch
  /\ current_active_cid ch - oldest_active_cid ch = 1
  /\ occupied ch = 0
  /\ current_active_cid ch - oldest_active_cid ch <> occupied ch.
Proof.
  split; [exact acknowledged_state_reachable|].
  repeat split; vm_compute; congruence.
Qed.

Lemma window_counts_occupied_and_vacated_witness :
  let ch := fst acknowledged_state in
  current_active_cid ch - oldest_active_cid ch = occupied ch + vacated bits ch
  /\ occupied ch = 0 /\ vacated bits ch = 1.
Proof.
  split.
  - apply (window_counts_occupied_and_vacated sim_store sim_os sim_v6 bits
             sim_retrieve_clean (fst acknowledged_state)
             acknowledged_state_reachable).
  - split; vm_compute; reflexivity.
Defined.

(** * The coalescing of the ranges of the tree *)

Module RbProof.
Import RbTree RbHeap.

(** * Properties of the tree in the block *)


Lemma rep_plug blk k t :
  rep blk None (plug k t) <-> rep blk (cpar k) t /\ repc blk k (rootp t).
Proof.
  revert t. induction k as [|f k IH]; intros t; simpl.
  - tauto.
  - rewrite IH. destruct f; simpl; tauto.
Qed.

Lemma ids_plug k t : ids (plug k t) ≡ₚ ids t ++ idsc k.
Proof.
  revert t. induction k as [|f k IH]; intros t; simpl.
  - by rewrite app_nil_r.
  - rewrite IH. destruct f; simpl.
    + rewrite <- !app_assoc. by rewrite Permutation_middle.
    + rewrite <- Permutation_middle. constructor.
      rewrite !app_assoc. f_equiv. apply Permutation_app_comm.
Qed.

Lemma rootp_ids t i : rootp t = Some i -> i ∈ ids t.
Proof. destruct t; simpl; [done|]. intros [= ->]. set_solver. Qed.

Lemma rep_frame blk par t i n :
  i ∉ ids t -> rep blk par t -> rep (<[i := n]> blk) par t.
Proof.
  revert par. induction t as [|l IHl j c v o r IHr]; intros par Hi; simpl.
  - done.
  - intros (H1 & H2 & H3). simpl in Hi.
    split; [|split].
    + rewrite list_lookup_insert_ne; [done|]. set_solver.
    + apply IHl; [set_solver|done].
    + apply IHr; [set_solver|done].
Qed.

Lemma repc_frame blk k p i n :
  i ∉ idsc k -> repc blk k p -> repc (<[i := n]> blk) k p.
Proof.
  revert p. induction k as [|f k IH]; intros p Hi; simpl; [done|].
  simpl in Hi.
  destruct f; simpl in *; intros (H1 & H2 & H3).
  - split; [|split].
    + rewrite list_lookup_insert_ne; [done|]. set_solver.
    + apply rep_frame; [set_solver|done].
    + apply IH; [set_solver|done].
  - split; [|split].
    + rewrite list_lookup_insert_ne; [done|]. set_solver.
    + apply rep_frame; [set_solver|done].
    + apply IH; [set_solver|done].
Qed.

Lemma chain_frame blk fl i n :
  i ∉ fl -> chain blk fl -> chain (<[i := n]> blk) fl.
Proof.
  intros Hi Hc j a Ha. destruct (Hc j a Ha) as (m & Hm & Hl).
  exists m. split; [|done].
  rewrite list_lookup_insert_ne; [done|].
  intros ->. apply Hi. by eapply list_elem_of_lookup_2.
Qed.

Lemma rep_bound blk par t i : rep blk par t -> i ∈ ids t ->
  (i < length blk)%nat.
Proof.
  revert par. induction t as [|l IHl j c v o r IHr]; intros par; simpl.
  - set_solver.
  - intros (H1 & H2 & H3) Hi.
    apply elem_of_cons in Hi as [->|Hi].
    + by eapply lookup_lt_Some.
    + apply elem_of_app in Hi as [Hi|Hi]; eauto.
Qed.

(** Reading the tree off the block gives the term back. *)
Lemma shape_of_rep blk par t fuel :
  rep blk par t -> (height t < fuel)%nat ->
  shape_of fuel blk (rootp t) = erase t.
Proof.
  revert par fuel. induction t as [|l IHl j c v o r IHr]; intros par fuel.
  - destruct fuel; done.
  - simpl. intros (H1 & H2 & H3) Hf.
    destruct fuel as [|f]; [lia|]. simpl. rewrite H1. simpl.
    rewrite (IHl (Some j)), (IHr (Some j)); [done|done|lia|done|lia].
Qed.

Lemma height_ids t : (height t <= length (ids t))%nat.
Proof.
  induction t as [|l IHl j c v o r IHr]; simpl; [lia|].
  rewrite length_app. lia.
Qed.

Lemma wf_ranges {cap} h t fl : wf cap h t fl -> ranges h = inorder (erase t).
Proof.
  intros H. unfold ranges, tree_shape, fuel_of.
  rewrite (wf_root _ _ _ _ H).
  erewrite shape_of_rep; [done|apply (wf_rep _ _ _ _ H)|].
  pose proof (height_ids t). pose proof (wf_len _ _ _ _ H). lia.
Qed.

(** ** Single steps of the code *)

Lemma deref_lookup h i n :
  node_block h !! i = Some n -> deref (Some i) h = Some (n, h).
Proof. intros H. unfold deref. by rewrite H. Qed.

Lemma store_lookup h i n n' :
  node_block h !! i = Some n -> store (Some i) n' h = Some (tt, upd h i n').
Proof.
  intros H. unfold store.
  apply lookup_lt_Some in H. apply Nat.ltb_lt in H. by rewrite H.
Qed.

Lemma field_lookup {A} (f : rb_node -> A) h i n :
  node_block h !! i = Some n -> field f (Some i) h = Some (f n, h).
Proof.
  intros H. unfold field, bind. by rewrite (deref_lookup _ _ _ H).
Qed.

Lemma bind_eq {A B} (m : M A) (k : A -> M B) h a h' :
  m h = Some (a, h') -> bind m k h = k a h'.
Proof. intros H. unfold bind. by rewrite H. Qed.

Lemma lookup_upd h i n j :
  (i < length (node_block h))%nat ->
  node_block (upd h i n) !! j
  = if decide (i = j) then Some n else node_block h !! j.
Proof.
  intros Hi. unfold upd; simpl. destruct (decide (i = j)) as [->|Hne].
  - by rewrite list_lookup_insert_eq.
  - by rewrite list_lookup_insert_ne.
Qed.

Lemma upd_length h i n :
  length (node_block (upd h i n)) = length (node_block h).
Proof. unfold upd; simpl. by rewrite length_insert. Qed.

(** The assignments to the fields of a node of the block. *)
Lemma set_value_lookup h i n x :
  node_block h !! i = Some n ->
  set_value (Some i) x h
  = Some (tt, upd h i (mk_node x (offset n) (color n) (left n) (right n)
                               (parent n))).
Proof.
  intros H. unfold set_value, bind.
  by rewrite (deref_lookup _ _ _ H), (store_lookup _ _ _ _ H).
Qed.

Lemma set_offset_lookup h i n x :
  node_block h !! i = Some n ->
  set_offset (Some i) x h
  = Some (tt, upd h i (mk_node (value n) x (color n) (left n) (right n)
                               (parent n))).
Proof.
  intros H. unfold set_offset, bind.
  by rewrite (deref_lookup _ _ _ H), (store_lookup _ _ _ _ H).
Qed.

Lemma set_color_lookup h i n x :
  node_block h !! i = Some n ->
  set_color (Some i) x h
  = Some (tt, upd h i (mk_node (value n) (offset n) x (left n) (right n)
                               (parent n))).
Proof.
  intros H. unfold set_color, bind.
  by rewrite (deref_lookup _ _ _ H), (store_lookup _ _ _ _ H).
Qed.

Lemma set_left_lookup h i n x :
  node_block h !! i = Some n ->
  set_left (Some i) x h
  = Some (tt, upd h i (mk_node (value n) (offset n) (color n) x (right n)
                               (parent n))).
Proof.
  intros H. unfold set_left, bind.
  by rewrite (deref_lookup _ _ _ H), (store_lookup _ _ _ _ H).
Qed.

Lemma set_right_lookup h i n x :
  node_block h !! i = Some n ->
  set_right (Some i) x h
  = Some (tt, upd h i (mk_node (value n) (offset n) (color n) (left n) x
                               (parent n))).
Proof.
  intros H. unfold set_right, bind.
  by rewrite (deref_lookup _ _ _ H), (store_lookup _ _ _ _ H).
Qed.

Lemma set_parent_lookup h i n x :
  node_block h !! i = Some n ->
  set_parent (Some i) x h
  = Some (tt, upd h i (mk_node (value n) (offset n) (color n) (left n)
                               (right n) x)).
Proof.
  intros H. unfold set_parent, bind.
  by rewrite (deref_lookup _ _ _ H), (store_lookup _ _ _ _ H).
Qed.

(** ** Running the code on a block whose nodes are known

    The reads and the assignments of the code are run one by one on the
    nodes the term names; the nodes are distinct because the term and the
    list of free nodes have no node twice. *)

#[local] Arguments plug : simpl never.
#[local] Arguments ptr_eqb !p !q : simpl nomatch.

#[local] Opaque field set_value set_offset set_color set_left set_right
  set_parent.

Lemma lookup_ins (blk : list rb_node) i n j :
  (i < length blk)%nat ->
  <[i := n]> blk !! j = if decide (i = j) then Some n else blk !! j.
Proof.
  intros Hi. destruct (decide (i = j)) as [->|Hne].
  - by rewrite list_lookup_insert_eq.
  - by rewrite list_lookup_insert_ne.
Qed.

Ltac bound := rewrite ?length_insert; eapply lookup_lt_Some; eassumption.

Ltac neq :=
  solve [ assumption | congruence
        | simpl;
          rewrite ?not_elem_of_cons, ?not_elem_of_app, ?not_elem_of_nil;
          repeat split; first [assumption | congruence | exact I] ].

Ltac lookup :=
  simpl;
  repeat (rewrite lookup_ins by bound);
  repeat (match goal with
          | |- context [decide (?i = ?i)] =>
              rewrite (decide_True (P := i = i)) by reflexivity
          | |- context [decide (?i = ?j)] =>
              rewrite (decide_False (P := i = j)) by neq
          end);
  first [reflexivity | eassumption].

Lemma ptr_eqb_rootp x t : x ∉ ids t -> ptr_eqb (Some x) (rootp t) = false.
Proof.
  destruct t; simpl; [done|]. intros Hx. apply Nat.eqb_neq. set_solver.
Qed.

Ltac exec1 :=
  match goal with
  | |- context [Nat.eqb ?i ?i] => rewrite (Nat.eqb_refl i)
  | |- context [Nat.eqb ?i ?j] => rewrite (proj2 (Nat.eqb_neq i j)) by neq
  | |- context [ptr_eqb (Some ?i) (rootp ?t)] =>
      rewrite (ptr_eqb_rootp i t) by neq
  | |- context [field ?f (Some ?i) ?h] =>
      erewrite (field_lookup f h i) by lookup
  | |- context [set_value (Some ?i) ?x ?h] =>
      erewrite (set_value_lookup h i) by lookup
  | |- context [set_offset (Some ?i) ?x ?h] =>
      erewrite (set_offset_lookup h i) by lookup
  | |- context [set_color (Some ?i) ?x ?h] =>
      erewrite (set_color_lookup h i) by lookup
  | |- context [set_left (Some ?i) ?x ?h] =>
      erewrite (set_left_lookup h i) by lookup
  | |- context [set_right (Some ?i) ?x ?h] =>
      erewrite (set_right_lookup h i) by lookup
  | |- context [set_parent (Some ?i) ?x ?h] =>
      erewrite (set_parent_lookup h i) by lookup
  end; simpl.

Ltac exec := repeat exec1.

(** The reads only. *)
Ltac query1 :=
  match goal with
  | |- context [Nat.eqb ?i ?i] => rewrite (Nat.eqb_refl i)
  | |- context [Nat.eqb ?i ?j] => rewrite (proj2 (Nat.eqb_neq i j)) by neq
  | |- context [ptr_eqb (Some ?i) (rootp ?t)] =>
      rewrite (ptr_eqb_rootp i t) by neq
  | |- context [field ?f (Some ?i) ?h] =>
      erewrite (field_lookup f h i) by lookup
  end; simpl.

Ltac query := repeat query1.

(** Facts of distinctness out of [NoDup]: the single nodes first, then
    the lists of nodes left abstract. *)
Ltac singles l :=
  lazymatch l with
  | ?a ++ ?b =>
      let x := singles a in let y := singles b in constr:(x ++ y)
  | ?i :: ?r => let y := singles r in constr:(i :: y)
  | _ => constr:(@nil nat)
  end.

Ltac pieces l :=
  lazymatch l with
  | ?a ++ ?b =>
      let x := pieces a in let y := pieces b in constr:(x ++ y)
  | ?i :: ?r => pieces r
  | @nil _ => constr:(@nil nat)
  | _ => constr:(l)
  end.

Ltac nodup_split H :=
  lazymatch type of H with
  | NoDup ?l =>
      let s := singles l in
      let p := pieces l in
      let Hp := fresh "Hp" in
      assert (Hp : l ≡ₚ s ++ p) by solve_Permutation;
      rewrite Hp in H; clear Hp; simpl in H;
      repeat lazymatch type of H with
             | NoDup (?i :: ?r) =>
                 let Hi := fresh "Hi" in
                 apply NoDup_cons in H as [Hi H];
                 rewrite ?not_elem_of_cons, ?not_elem_of_app in Hi;
                 destruct_and? Hi
             end
  end.

Lemma ids_plug_perm k t t' : ids t' ≡ₚ ids t -> ids (plug k t') ≡ₚ ids (plug k t).
Proof. intros H. by rewrite !ids_plug, H. Qed.

(** A change of the tree that keeps its nodes and the free nodes. *)
Lemma wf_intro {cap} h h' t t' fl :
  wf cap h t fl ->
  root h' = rootp t' ->
  rep (node_block h') None t' ->
  ids t' ≡ₚ ids t ->
  chain (node_block h') fl ->
  free_node_tail h' = free_node_tail h ->
  free_node_head h' = free_node_head h ->
  size h' = size h ->
  max_size h' = max_size h ->
  length (node_block h') = length (node_block h) ->
  wf cap h' t' fl.
Proof.
  intros [] Hr Hrep Hp Hc Ht Hh Hs Hm Hl.
  split; try done.
  - by rewrite Hp.
  - congruence.
  - congruence.
  - by rewrite Hs, Hp.
  - by rewrite Hl, Hp.
  - congruence.
  - congruence.
  - congruence.
Qed.

Lemma plug_nil t : plug [] t = t.
Proof. done. Qed.

Lemma plug_cons f k t : plug (f :: k) t = plug k (fill f t).
Proof. done. Qed.

Lemma rootp_plug k t t' : rootp t = rootp t' -> rootp (plug k t) = rootp (plug k t').
Proof.
  revert t t'. induction k as [|f k IH]; intros t t' H; [done|].
  rewrite !plug_cons. apply IH. by destruct f.
Qed.

Ltac root_goal H :=
  first [ rewrite !plug_nil; reflexivity
        | simpl; rewrite (wf_root _ _ _ _ H); rewrite ?plug_cons;
          apply rootp_plug; simpl; reflexivity ].

Ltac frames :=
  simpl;
  repeat first [ apply rep_frame; [neq|]
               | apply repc_frame; [neq|]
               | apply chain_frame; [neq|] ];
  assumption.

Ltac heap_goal :=
  match goal with
  | |- _ !! _ = Some _ => lookup
  | |- rep _ _ _ => frames
  | |- repc _ _ _ => frames
  | |- chain _ _ => frames
  | |- True => exact I
  end.

Ltac wf_tac H :=
  eapply (wf_intro _ _ _ _ _ H);
  [ root_goal H
  | apply rep_plug; simpl; repeat split; heap_goal
  | apply ids_plug_perm; simpl; solve_Permutation
  | frames
  | reflexivity | reflexivity | reflexivity | reflexivity
  | simpl; rewrite ?length_insert; reflexivity ].

Ltac wf_open H :=
  let Hroot := fresh "Hroot" in
  let Hrep := fresh "Hrep" in
  let Hnd := fresh "Hnd" in
  let Hch := fresh "Hch" in
  let Htl := fresh "Htl" in
  let Hhd := fresh "Hhd" in
  let Hsz := fresh "Hsz" in
  let Hlen := fresh "Hlen" in
  let Hmax := fresh "Hmax" in
  let Hu := fresh "Hu" in
  let Hcap := fresh "Hcap" in
  pose proof H as [Hroot Hrep Hnd Hch Htl Hhd Hsz Hlen Hmax Hu Hcap];
  apply rep_plug in Hrep; simpl in Hrep; destruct_and? Hrep;
  rewrite ids_plug in Hnd; simpl in Hnd; nodup_split Hnd.

(** ** The rotations, on the term *)

Lemma rotate_left_wf {cap} h k a x cx vx ox b y cy vy oy c fl :
  wf cap h (plug k (T a x cx vx ox (T b y cy vy oy c))) fl ->
  exists h', rotate_left (Some x) h = Some (tt, h')
    /\ wf cap h' (plug k (T (T a x cx vx ox b) y cy vy oy c)) fl.
Proof.
  intros H.
  unfold rotate_left, has_right_child, swap_parents, is_root,
    is_left_child, is_root, bind, ret.
  destruct b as [|bl rb cb vb ob br];
    destruct k as [|[g cg vg og s|s g cg vg og] k];
    wf_open H; simpl; exec; (eexists; split; [reflexivity|]); wf_tac H.
Qed.

Lemma rotate_right_wf {cap} h k a x cx vx ox b y cy vy oy c fl :
  wf cap h (plug k (T (T a x cx vx ox b) y cy vy oy c)) fl ->
  exists h', rotate_right (Some y) h = Some (tt, h')
    /\ wf cap h' (plug k (T a x cx vx ox (T b y cy vy oy c))) fl.
Proof.
  intros H.
  unfold rotate_right, has_left_child, swap_parents, is_root,
    is_left_child, is_root, bind, ret.
  destruct b as [|bl rb cb vb ob br];
    destruct k as [|[g cg vg og s|s g cg vg og] k];
    wf_open H; simpl; exec; (eexists; split; [reflexivity|]); wf_tac H.
Qed.

(** The nodes of the block only. *)
Ltac rep_open H :=
  let Hrep := fresh "Hrep" in
  pose proof (wf_rep _ _ _ _ H) as Hrep;
  apply rep_plug in Hrep; simpl in Hrep; destruct_and? Hrep.

(** ** The assignments of a colour, a value and an offset *)

Lemma set_color_wf {cap} c' h k l x c v o r fl :
  wf cap h (plug k (T l x c v o r)) fl ->
  exists h', set_color (Some x) c' h = Some (tt, h')
    /\ wf cap h' (plug k (T l x c' v o r)) fl.
Proof.
  intros H. wf_open H. exec. eexists; split; [reflexivity|]. wf_tac H.
Qed.

Lemma set_value_wf {cap} v' h k l x c v o r fl :
  wf cap h (plug k (T l x c v o r)) fl ->
  exists h', set_value (Some x) v' h = Some (tt, h')
    /\ wf cap h' (plug k (T l x c v' o r)) fl.
Proof.
  intros H. wf_open H. exec. eexists; split; [reflexivity|]. wf_tac H.
Qed.

Lemma set_offset_wf {cap} o' h k l x c v o r fl :
  wf cap h (plug k (T l x c v o r)) fl ->
  exists h', set_offset (Some x) o' h = Some (tt, h')
    /\ wf cap h' (plug k (T l x c v o' r)) fl.
Proof.
  intros H. wf_open H. exec. eexists; split; [reflexivity|]. wf_tac H.
Qed.

Arguments rotate_left_wf {cap} {h k a x cx vx ox b y cy vy oy c fl}.
Arguments rotate_right_wf {cap} {h k a x cx vx ox b y cy vy oy c fl}.
Arguments set_color_wf {cap} c' {h k l x c v o r fl}.
Arguments set_value_wf {cap} v' {h k l x c v o r fl}.
Arguments set_offset_wf {cap} o' {h k l x c v o r fl}.

Local Open Scope rb_scope.

(** ** Nodes taken from the free nodes and given back to them *)

Lemma length_ids_plug k t :
  length (ids (plug k t)) = (length (ids t) + length (idsc k))%nat.
Proof. by rewrite ids_plug, length_app. Qed.

Lemma chain_tail blk j fl : chain blk (j :: fl) -> chain blk fl.
Proof. intros H i a Ha. apply (H (S i) a Ha). Qed.

Lemma u32_small x : 0 <= x < 2 ^ 32 -> u32 x = x.
Proof. intros H. unfold u32, wrap. by rewrite Z.mod_small. Qed.

(** [create_red_node] and [insert_child], as try_binary_insert_or_merge
    calls them on a node without a child on that side. *)
Lemma new_left_wf {cap} v h k x c vx ox r j fl :
  wf cap h (plug k (T E x c vx ox r)) (j :: fl) ->
  exists h',
    (new_node <- create_red_node v ;;
     match new_node with
     | None => ret None
     | Some _ => insert_child_left new_node (Some x) ;;; ret new_node
     end) h = Some (Some j, h')
    /\ wf cap h' (plug k (T (T E j true v 1 E) x c vx ox r)) fl.
Proof.
  intros H. wf_open H.
  destruct (Hch O j eq_refl) as ([jv jo jc jl jr jp] & Hj & Hjl).
  simpl in Hjl. subst jl.
  unfold create_red_node, pop_free_node, populate_rb_node, set_red,
    insert_child_left, get, set_free_node_tail, set_free_node_head,
    set_size, bind, ret.
  rewrite Htl.
  assert (Hperm : ids (plug k (T (T E j true v 1 E) x c vx ox r)) ++ fl
                  ≡ₚ ids (plug k (T E x c vx ox r)) ++ j :: fl)
    by (rewrite !ids_plug; simpl; solve_Permutation).
  pose proof (length_ids_plug k (T (T E j true v 1 E) x c vx ox r)) as Hl1.
  pose proof (length_ids_plug k (T E x c vx ox r)) as Hl2.
  simpl in Hl1, Hl2.
  destruct fl as [|j2 fl2]; simpl; exec;
    (eexists; split; [reflexivity|]); split; simpl.
  all: try (rewrite (wf_root _ _ _ _ H); apply rootp_plug; reflexivity).
  all: try (apply rep_plug; simpl; repeat split; heap_goal).
  all: try (rewrite Hperm; apply (wf_nodup _ _ _ _ H)).
  all: try (apply chain_tail in Hch; frames).
  all: try done.
  all: rewrite ?length_insert; simpl in *; try lia.
  all: try (rewrite u32_small; lia).
Qed.

Lemma new_right_wf {cap} v h k x c vx ox l j fl :
  wf cap h (plug k (T l x c vx ox E)) (j :: fl) ->
  exists h',
    (new_node <- create_red_node v ;;
     match new_node with
     | None => ret None
     | Some _ => insert_child_right new_node (Some x) ;;; ret new_node
     end) h = Some (Some j, h')
    /\ wf cap h' (plug k (T l x c vx ox (T E j true v 1 E))) fl.
Proof.
  intros H. wf_open H.
  destruct (Hch O j eq_refl) as ([jv jo jc jl jr jp] & Hj & Hjl).
  simpl in Hjl. subst jl.
  unfold create_red_node, pop_free_node, populate_rb_node, set_red,
    insert_child_right, get, set_free_node_tail, set_free_node_head,
    set_size, bind, ret.
  rewrite Htl.
  assert (Hperm : ids (plug k (T l x c vx ox (T E j true v 1 E))) ++ fl
                  ≡ₚ ids (plug k (T l x c vx ox E)) ++ j :: fl)
    by (rewrite !ids_plug; simpl; solve_Permutation).
  pose proof (length_ids_plug k (T l x c vx ox (T E j true v 1 E))) as Hl1.
  pose proof (length_ids_plug k (T l x c vx ox E)) as Hl2.
  simpl in Hl1, Hl2. rewrite !length_app in Hl1, Hl2. simpl in Hl1, Hl2.
  destruct fl as [|j2 fl2]; simpl; exec;
    (eexists; split; [reflexivity|]); split; simpl.
  all: try (rewrite (wf_root _ _ _ _ H); apply rootp_plug; reflexivity).
  all: try (apply rep_plug; simpl; repeat split; heap_goal).
  all: try (rewrite Hperm; apply (wf_nodup _ _ _ _ H)).
  all: try (apply chain_tail in Hch; frames).
  all: try done.
  all: rewrite ?length_insert; simpl in *; try lia.
  all: try (rewrite u32_small; lia).
Qed.

(** The first node of the tree. *)
Lemma new_root_wf {cap} v h j fl :
  wf cap h E (j :: fl) ->
  exists h',
    (full <- is_full ;;
     if full then ret None
     else r <- create_black_node v ;; set_root r ;;; ret r) h
    = Some (Some j, h')
    /\ wf cap h' (T E j false v 1 E) fl.
Proof.
  intros H. pose proof H as [Hroot Hrep Hnd Hch Htl Hhd Hsz Hlen Hmax Hu Hcap].
  simpl in *. nodup_split Hnd.
  destruct (Hch O j eq_refl) as ([jv jo jc jl jr jp] & Hj & Hjl).
  simpl in Hjl. subst jl.
  unfold is_full, create_black_node, pop_free_node, populate_rb_node,
    set_black, get, set_free_node_tail, set_free_node_head, set_root,
    set_size, bind, ret.
  rewrite Hsz, Hmax, Hlen.
  replace (0 =? Z.of_nat (S (length fl))) with false
    by (symmetry; apply Z.eqb_neq; lia).
  simpl. rewrite Htl.
  destruct fl as [|j2 fl2]; simpl; exec;
    (eexists; split; [reflexivity|]); split; simpl.
  all: try (repeat split; heap_goal).
  all: try (apply chain_tail in Hch; frames).
  all: try done.
  all: rewrite ?length_insert; simpl in *; try lia.
  all: try (apply NoDup_cons; split; [neq|done]).
  all: rewrite Hsz; reflexivity.
Qed.

(** [swap_values] and [swap_offsets] on a node and its child. *)
Lemma swap_left_wf {cap} h k a y cy vy oy b x cx vx ox r fl :
  wf cap h (plug k (T (T a y cy vy oy b) x cx vx ox r)) fl ->
  exists h',
    (swap_values (Some x) (Some y) ;;; swap_offsets (Some x) (Some y)) h
    = Some (tt, h')
    /\ wf cap h' (plug k (T (T a y cy vx ox b) x cx vy oy r)) fl.
Proof.
  intros H. wf_open H.
  unfold swap_values, swap_offsets, bind, ret. exec.
  eexists; split; [reflexivity|]. wf_tac H.
Qed.

Lemma swap_right_wf {cap} h k l x cx vx ox a y cy vy oy b fl :
  wf cap h (plug k (T l x cx vx ox (T a y cy vy oy b))) fl ->
  exists h',
    (swap_values (Some x) (Some y) ;;; swap_offsets (Some x) (Some y)) h
    = Some (tt, h')
    /\ wf cap h' (plug k (T l x cx vy oy (T a y cy vx ox b))) fl.
Proof.
  intros H. wf_open H.
  unfold swap_values, swap_offsets, bind, ret. exec.
  eexists; split; [reflexivity|]. wf_tac H.
Qed.

Lemma chain_snoc blk blk' fl x nx :
  chain blk fl -> NoDup fl ->
  blk' !! x = Some nx -> left nx = None ->
  (forall a n, a ∈ fl -> blk !! a = Some n ->
     exists n', blk' !! a = Some n'
       /\ left n' = if decide (last fl = Some a) then Some x else left n) ->
  chain blk' (fl ++ [x]).
Proof.
  intros Hc Hnd Hx Hxl Hfl j a Ha.
  apply lookup_app_Some in Ha as [Ha|[Hj Ha]].
  - destruct (Hc j a Ha) as (n & Hn & Hl).
    destruct (Hfl a n) as (n' & Hn' & Hl'); [by eapply list_elem_of_lookup_2|done|].
    exists n'. split; [done|]. rewrite Hl'.
    destruct (decide (last fl = Some a)) as [Hlast|Hlast].
    + rewrite last_lookup in Hlast.
      assert (j = pred (length fl)) as -> by (eapply NoDup_lookup; eauto).
      apply lookup_lt_Some in Ha.
      rewrite lookup_app_r by lia.
      replace (S (pred (length fl)) - length fl)%nat with O by lia. done.
    + rewrite Hl. rewrite last_lookup in Hlast.
      assert (j <> pred (length fl)) by congruence.
      apply lookup_lt_Some in Ha.
      rewrite lookup_app_l by lia. done.
  - apply list_lookup_singleton_Some in Ha as [Hj' <-].
    exists nx. split; [done|]. rewrite Hxl.
    symmetry. apply lookup_ge_None. rewrite length_app. simpl. lia.
Qed.

(** [replace_node] and [push_free_node] on a leaf that is not the root. *)
Lemma remove_leaf_wf {cap} h f k x c v o fl :
  wf cap h (plug (f :: k) (T E x c v o E)) fl ->
  exists h',
    (replace_node (Some x) None ;;; push_free_node (Some x)) h
    = Some (tt, h')
    /\ wf cap h' (plug (f :: k) E) (fl ++ [x]).
Proof.
  intros H.
  assert (Hperm : ids (plug (f :: k) E) ++ fl ++ [x]
                  ≡ₚ ids (plug (f :: k) (T E x c v o E)) ++ fl)
    by (rewrite !ids_plug; simpl; solve_Permutation).
  pose proof (length_ids_plug (f :: k) (T E x c v o E)) as Hl1.
  pose proof (length_ids_plug (f :: k) E) as Hl2.
  simpl in Hl1, Hl2.
  unfold replace_node, is_left_child, is_root, push_free_node, get,
    set_free_node_tail, set_free_node_head, set_size, bind, ret.
  destruct fl as [|hd fl0 _] using rev_ind;
    destruct f as [p cp vp op s|s p cp vp op]; wf_open H; simpl.
  all: try (rewrite last_snoc in Hhd;
            destruct (Hch (length fl0) hd) as ([hv ho hc hl hr hp] & Hhd' & Hhl);
            [by rewrite lookup_app_r, Nat.sub_diag by lia|]; simpl in Hhl).
  all: exec; rewrite Hhd; simpl; exec.
  all: (eexists; split; [reflexivity|]); split.
  all: try (simpl; rewrite (wf_root _ _ _ _ H); rewrite !plug_cons;
            apply rootp_plug; reflexivity).
  all: try (apply rep_plug; simpl; repeat split; heap_goal).
  all: try (rewrite Hperm; apply (wf_nodup _ _ _ _ H)).
  all: try (simpl; rewrite ?length_insert; done).
  all: try (simpl; by rewrite ?last_snoc).
  all: try (simpl; rewrite Hl2; rewrite Hsz, Hl1; rewrite u32_small; lia).
  all: try (simpl; rewrite ?length_insert, Hlen, Hl1, Hl2, ?length_app;
            simpl; lia).
  all: try (simpl; rewrite Htl; by destruct fl0).
  all: try (eapply chain_snoc;
            [exact Hch
            | pose proof (wf_nodup _ _ _ _ H) as Hn;
              apply NoDup_app in Hn as (_ & _ & Hn); exact Hn
            | lookup | reflexivity | ]).
  all: try (intros a n Ha Hn; rewrite last_snoc;
            destruct (decide (a = hd)) as [->|Hne];
            [ eexists; split; [lookup|];
              by rewrite decide_True by done
            | apply elem_of_app in Ha as [Ha|Ha];
              [|apply list_elem_of_singleton in Ha; congruence];
              assert (a <> x) by (intros ->; contradiction);
              assert (a <> p) by (intros ->; contradiction);
              exists n; split; [lookup|];
              rewrite decide_False by congruence; done ]).
  all: eapply (chain_snoc _ _ [] x);
    [exact Hch | apply NoDup_nil_2 | lookup | reflexivity
    | intros a n Ha; by apply elem_of_nil in Ha].
Qed.

Arguments new_left_wf {cap} v {h k x c vx ox r j fl}.
Arguments new_right_wf {cap} v {h k x c vx ox l j fl}.
Arguments swap_left_wf {cap} {h k a y cy vy oy b x cx vx ox r fl}.
Arguments swap_right_wf {cap} {h k l x cx vx ox a y cy vy oy b fl}.
Arguments remove_leaf_wf {cap} {h f k x c v o fl}.

(** ** The red-black conditions along a path *)

Lemma ino_erase t : inorder (erase t) = ino t.
Proof. induction t; simpl; congruence. Qed.

Lemma ino_plug k t : ino (plug k t) = lft k ++ ino t ++ rgt k.
Proof.
  revert t. induction k as [|f k IH]; intros t.
  - simpl. by rewrite plug_nil, app_nil_r.
  - rewrite plug_cons, IH. destruct f; simpl.
    + by rewrite <- !app_assoc.
    + by rewrite <- !app_assoc.
Qed.

Lemma bhl_fill f t :
  bal (fill f t) -> bhl (fill f t) = bh_add (fcol f) (bhl t).
Proof. destruct f; simpl; [done|]. intros (-> & _). done. Qed.

(** A tree is red-black when the subtree is, and the path takes it. *)
Lemma rbt_plug k t :
  rbt (plug k t) <->
  okc k (bhl t) /\ bal t /\ nrr t /\ (col t = true -> pblack k).
Proof.
  revert t. induction k as [|f k IH]; intros t.
  - rewrite plug_nil. unfold rbt. simpl. split.
    + intros (Hc & Hb & Hn). repeat split; try done. congruence.
    + intros (_ & Hb & Hn & Hc). repeat split; try done.
      destruct (col t); [by destruct Hc|done].
  - rewrite plug_cons, IH. split.
    + intros (Hk & Hb & Hn & Hc).
      rewrite (bhl_fill _ _ Hb) in Hk.
      destruct f; simpl in *; destruct c, (col t) eqn:Ht;
        intuition (congruence || lia).
    + intros ((Hs & Hbs & Hns & Hcs & Hk) & Hb & Hn & Hc).
      assert (Hbf : bal (fill f t)) by (destruct f; simpl in *; done).
      rewrite (bhl_fill _ _ Hbf).
      destruct f; simpl in *; destruct c, (col t) eqn:Ht;
        intuition (congruence || lia).
Qed.

Ltac list_eq :=
  simpl; repeat (rewrite <- app_assoc; simpl); try reflexivity.

Ltac unfold_queries :=
  unfold get_uncle, get_grandparent, get_sibling, is_left_child, is_root,
    is_black, is_red, has_left_child, has_right_child, and_then, bind, ret.

(** ** try_insert_rebalance

    From a red node with black children, below a path that takes its
    subtree, the loop returns a red-black tree with the same ranges. *)

Lemma ins_fix {cap} fuel : forall h k l x v o r fl,
  wf cap h (plug k (T l x true v o r)) fl ->
  (length k < fuel)%nat ->
  bal (T l x true v o r) -> nrr (T l x true v o r) ->
  okc k (bhl (T l x true v o r)) ->
  exists h' t',
    try_insert_rebalance fuel (Some x) h = Some (tt, h')
    /\ wf cap h' t' fl /\ rbt t'
    /\ ino t' = ino (plug k (T l x true v o r)).
Proof.
  induction fuel as [|fuel IH]; intros h k l x v o r fl H Hf Hb Hn Hk; [lia|].
  simpl try_insert_rebalance.
  destruct k as [|f1 k1].
  - (* the node is the root *)
    unfold_queries. wf_open H. simpl. query.
    destruct (set_color_wf false H) as (h1 & E1 & W1).
    unfold set_black. rewrite E1.
    exists h1, (T l x false v o r). split; [done|]. split; [by rewrite plug_nil in W1|].
    split; [|by rewrite ?plug_nil].
    unfold rbt. simpl in *. tauto.
  - destruct (fcol f1) eqn:Hc1.
    2:{ (* black parent *)
      eexists _, _. split; [|split; [exact H|split; [|done]]].
      - unfold_queries.
        destruct f1 as [p cp vp op s|s p cp vp op]; simpl in Hc1; subst cp.
        all: destruct k1 as [|[g cg vg og u|u g cg vg og] k2].
        all: wf_open H; simpl; query; reflexivity.
      - apply rbt_plug. simpl in *. intuition (congruence || lia). }
    (* red parent: it has a black parent *)
    pose proof Hk as Hk'. simpl in Hk'.
    destruct Hk' as (Hs1 & Hbs1 & Hns1 & Hcs1 & Hk1).
    destruct (Hcs1 Hc1) as (Hcs & Hpb).
    destruct k1 as [|f2 k2]; [done|]. simpl in Hpb.
    simpl in Hk1. rewrite Hc1 in Hk1. simpl in Hk1.
    destruct Hk1 as (Hs2 & Hbs2 & Hns2 & _ & Hk2). rewrite Hpb in Hk2.
    simpl in Hk2.
    destruct (col (fsib f2)) eqn:Hcu.
    + (* red uncle *)
      destruct f1 as [p cp vp op s|s p cp vp op]; simpl in Hc1; subst cp;
        destruct f2 as [g cg vg og u|u g cg vg og]; simpl in Hpb; subst cg;
        destruct u as [|ul u cu vu ou ur]; simpl in Hcu; try done; subst cu.
      all: unfold_queries; wf_open H; simpl; query.
      all: first
        [ destruct (set_color_wf false (k := FL g _ _ _ _ :: k2) (x := p) H)
            as (h1 & E1 & W1)
        | destruct (set_color_wf false (k := FR _ g _ _ _ :: k2) (x := p) H)
            as (h1 & E1 & W1) ].
      all: unfold set_black, set_red; rewrite E1.
      all: first
        [ destruct (set_color_wf false (k := FL g _ _ _ _ :: k2) (x := u) W1)
            as (h2 & E2 & W2)
        | destruct (set_color_wf false (k := FR _ g _ _ _ :: k2) (x := u) W1)
            as (h2 & E2 & W2) ].
      all: rewrite E2; rep_open W2; query.
      all: destruct (set_color_wf true (k := k2) (x := g) W2)
             as (h3 & E3 & W3).
      all: rewrite E3.
      all: destruct (IH _ _ _ _ _ _ _ _ W3) as (h4 & t4 & E4 & W4 & R4 & I4);
        [ simpl in Hf; lia
        | simpl in *; intuition (congruence || lia)
        | simpl in *; intuition (congruence || lia)
        | simpl in *; intuition (congruence || lia)
        | ].
      all: rewrite E4; exists h4, t4; split; [done|]; split; [done|];
        split; [done|].
      all: rewrite I4, !ino_plug; list_eq.
    + (* black uncle *)
      destruct f1 as [p cp vp op s|s p cp vp op]; simpl in Hc1; subst cp;
        destruct f2 as [g cg vg og u|u g cg vg og]; simpl in Hpb; subst cg.
      * (* left, left *)
        unfold_queries. simpl in Hcu.
        destruct (rotate_right_wf (k := k2) (x := p) (y := g) H)
          as (h1 & E1 & W1).
        destruct (set_color_wf false (k := k2) (x := p) W1)
          as (h2 & E2 & W2).
        destruct (set_color_wf true (k := FR _ p _ _ _ :: k2) (x := g) W2)
          as (h3 & E3 & W3).
        exists h3, (plug k2 (T (T l x true v o r) p false vp op
                               (T s g true vg og u))).
        split; [|split; [exact W3|split]].
        -- destruct u as [|ul u cu vu ou ur]; simpl in Hcu; subst;
             wf_open H; simpl; query; rewrite E1; simpl;
             unfold set_black, set_red; rewrite E2; simpl; rewrite E3; done.
        -- apply rbt_plug. simpl in *. intuition (congruence || lia).
        -- rewrite !ino_plug. list_eq.
      * (* right, left *)
        unfold_queries. simpl in Hcu.
        destruct (rotate_right_wf (k := FR _ g _ _ _ :: k2) (x := x) (y := p) H)
          as (h1 & E1 & W1).
        destruct (rotate_left_wf (k := k2) (x := g) (y := x) W1)
          as (h2 & E2 & W2).
        destruct (set_color_wf false (k := k2) (x := x) W2)
          as (h3 & E3 & W3).
        destruct (set_color_wf true (k := FL x _ _ _ _ :: k2) (x := g) W3)
          as (h4 & E4 & W4).
        exists h4, (plug k2 (T (T u g true vg og l) x false v o
                               (T r p true vp op s))).
        split; [|split; [exact W4|split]].
        -- destruct u as [|ul u cu vu ou ur]; simpl in Hcu; subst;
             wf_open H; simpl; query; rewrite E1; simpl;
             rep_open W1; query; rewrite E2; simpl;
             unfold set_black, set_red; rewrite E3; simpl; rewrite E4; done.
        -- apply rbt_plug. simpl in *. intuition (congruence || lia).
        -- rewrite !ino_plug. list_eq.
      * (* left, right *)
        unfold_queries. simpl in Hcu.
        destruct (rotate_left_wf (k := FL g _ _ _ _ :: k2) (x := p) (y := x) H)
          as (h1 & E1 & W1).
        destruct (rotate_right_wf (k := k2) (x := x) (y := g) W1)
          as (h2 & E2 & W2).
        destruct (set_color_wf false (k := k2) (x := x) W2)
          as (h3 & E3 & W3).
        destruct (set_color_wf true (k := FR _ x _ _ _ :: k2) (x := g) W3)
          as (h4 & E4 & W4).
        exists h4, (plug k2 (T (T s p true vp op l) x false v o
                               (T r g true vg og u))).
        split; [|split; [exact W4|split]].
        -- destruct u as [|ul u cu vu ou ur]; simpl in Hcu; subst;
             wf_open H; simpl; query; rewrite E1; simpl;
             rep_open W1; query; rewrite E2; simpl;
             unfold set_black, set_red; rewrite E3; simpl; rewrite E4; done.
        -- apply rbt_plug. simpl in *. intuition (congruence || lia).
        -- rewrite !ino_plug. list_eq.
      * (* right, right *)
        unfold_queries. simpl in Hcu.
        destruct (rotate_left_wf (k := k2) (x := g) (y := p) H)
          as (h1 & E1 & W1).
        destruct (set_color_wf false (k := k2) (x := p) W1)
          as (h2 & E2 & W2).
        destruct (set_color_wf true (k := FL p _ _ _ _ :: k2) (x := g) W2)
          as (h3 & E3 & W3).
        exists h3, (plug k2 (T (T u g true vg og s) p false vp op
                               (T l x true v o r))).
        split; [|split; [exact W3|split]].
        -- destruct u as [|ul u cu vu ou ur]; simpl in Hcu; subst;
             wf_open H; simpl; query; rewrite E1; simpl;
             unfold set_black, set_red; rewrite E2; simpl; rewrite E3; done.
        -- apply rbt_plug. simpl in *. intuition (congruence || lia).
        -- rewrite !ino_plug. list_eq.
Qed.

(** ** delete_case_1 to delete_case_6

    From a node below a path that takes a subtree one black node higher
    than what the node will leave, the cases return a path that takes it,
    with the same ranges before and after it; the node and its subtree
    are left as they are. *)

Ltac pure_tac := simpl in *; intuition (congruence || lia).

Ltac go E W := rewrite E; simpl; rep_open W; query.

Ltac post_tac :=
  split; [pure_tac
         | split; [simpl; congruence || list_eq
                  | split; [simpl; congruence || list_eq
                           | right; discriminate]]].

Lemma delete_case_3_repairs {cap} rec fuel :
  repairs cap rec fuel ->
  forall h f k1 l x c v o r b fl,
    wf cap h (plug (f :: k1) (T l x c v o r)) fl ->
    (fcol f = false -> (length k1 < fuel)%nat) ->
    okc (f :: k1) (S b) ->
    col (fsib f) = false ->
    exists h' k',
      delete_case_3 rec (Some x) h = Some (tt, h')
      /\ repaired cap h' k' (f :: k1) (T l x c v o r) b fl.
Proof.
  intros IH h f k1 l x c v o r b fl H Hf Hk Hcs.
  destruct f as [p cp vp op s|s p cp vp op]; simpl in Hcs.
  - (* the node is a left child *)
    destruct s as [|sl s cs vs os sr]; [simpl in Hk; lia|].
    simpl in Hcs. subst cs.
    destruct (col sr) eqn:Hcr.
    + (* case 6 *)
      destruct sr as [|srl sr csr vsr osr srr]; simpl in Hcr; [done|subst csr].
      destruct (set_color_wf cp (k := FR _ p _ _ _ :: k1) (x := s) H)
        as (h1 & E1 & W1).
      destruct (set_color_wf false (k := k1) (x := p) W1) as (h2 & E2 & W2).
      destruct (set_color_wf false
                  (k := FR _ s _ _ _ :: FR _ p _ _ _ :: k1) (x := sr) W2)
        as (h3 & E3 & W3).
      destruct (rotate_left_wf (k := k1) (x := p) (y := s) W3)
        as (h4 & E4 & W4).
      exists h4, (FL p false vp op sl
                  :: FL s cp vs os (T srl sr false vsr osr srr) :: k1).
      split; [|split; [exact W4|]].
      * unfold delete_case_3, delete_case_4, delete_case_5, delete_case_6,
          set_black, set_red.
        unfold_queries.
        destruct cp; destruct sl as [|sll sl [|] vsl osl slr].
        all: wf_open H; simpl; query; go E1 W1; go E2 W2; go E3 W3;
          rewrite E4; done.
      * post_tac.
    + destruct (col sl) eqn:Hcl.
      * (* case 5 *)
        destruct sl as [|sll sl csl vsl osl slr]; simpl in Hcl; [done|subst csl].
        destruct (set_color_wf true (k := FR _ p _ _ _ :: k1) (x := s) H)
          as (h1 & E1 & W1).
        destruct (set_color_wf false
                    (k := FL s _ _ _ _ :: FR _ p _ _ _ :: k1) (x := sl) W1)
          as (h2 & E2 & W2).
        destruct (rotate_right_wf (k := FR _ p _ _ _ :: k1) (x := sl) (y := s)
                    W2) as (h3 & E3 & W3).
        destruct (set_color_wf cp (k := FR _ p _ _ _ :: k1) (x := sl) W3)
          as (h4 & E4 & W4).
        destruct (set_color_wf false (k := k1) (x := p) W4)
          as (h5 & E5 & W5).
        destruct (set_color_wf false
                    (k := FR _ sl _ _ _ :: FR _ p _ _ _ :: k1) (x := s) W5)
          as (h6 & E6 & W6).
        destruct (rotate_left_wf (k := k1) (x := p) (y := sl) W6)
          as (h7 & E7 & W7).
        exists h7, (FL p false vp op sll
                    :: FL sl cp vsl osl (T slr s false vs os sr) :: k1).
        split; [|split; [exact W7|]].
        -- unfold delete_case_3, delete_case_4, delete_case_5, delete_case_6,
             set_black, set_red.
           unfold_queries.
           destruct cp; destruct sr as [|srl sr csr vsr osr srr];
             simpl in Hcr; subst.
           all: wf_open H; simpl; query; go E1 W1; go E2 W2; go E3 W3;
             go E4 W4; go E5 W5; go E6 W6; rewrite E7; done.
        -- post_tac.
      * destruct cp.
        -- (* case 4 *)
           destruct (set_color_wf true (k := FR _ p _ _ _ :: k1) (x := s) H)
             as (h1 & E1 & W1).
           destruct (set_color_wf false (k := k1) (x := p) W1)
             as (h2 & E2 & W2).
           exists h2, (FL p false vp op (T sl s true vs os sr) :: k1).
           split; [|split; [exact W2|]].
           ++ unfold delete_case_3, delete_case_4, set_black, set_red.
              unfold_queries.
              destruct sl as [|sll sl csl vsl osl slr];
              destruct sr as [|srl sr csr vsr osr srr]; simpl in Hcl, Hcr; subst.
              all: wf_open H; simpl; query; go E1 W1; rewrite E2; done.
           ++ post_tac.
        -- (* case 3 *)
           destruct (set_color_wf true (k := FR _ p _ _ _ :: k1) (x := s) H)
             as (h1 & E1 & W1).
           destruct (IH h1 k1 (T l x c v o r) p false vp op (T sl s true vs os sr)
                         (S b) fl W1) as (h2 & k2 & E2 & W2 & K2 & L2 & R2 & N2);
             [apply Hf; done|pure_tac|].
           exists h2, (FL p false vp op (T sl s true vs os sr) :: k2).
           split; [|split; [exact W2|]].
           ++ unfold delete_case_3. unfold_queries.
              destruct sl as [|sll sl csl vsl osl slr];
              destruct sr as [|srl sr csr vsr osr srr]; simpl in Hcl, Hcr; subst.
              all: wf_open H; simpl; query.
              all: unfold set_red; rewrite E1; simpl; done.
           ++ post_tac.
  - (* the node is a right child *)
    destruct s as [|sl s cs vs os sr]; [simpl in Hk; lia|].
    simpl in Hcs. subst cs.
    destruct (col sl) eqn:Hcl.
    + (* case 6 *)
      destruct sl as [|sll sl csl vsl osl slr]; simpl in Hcl; [done|subst csl].
      destruct (set_color_wf cp (k := FL p _ _ _ _ :: k1) (x := s) H)
        as (h1 & E1 & W1).
      destruct (set_color_wf false (k := k1) (x := p) W1) as (h2 & E2 & W2).
      destruct (set_color_wf false
                  (k := FL s _ _ _ _ :: FL p _ _ _ _ :: k1) (x := sl) W2)
        as (h3 & E3 & W3).
      destruct (rotate_right_wf (k := k1) (x := s) (y := p) W3)
        as (h4 & E4 & W4).
      exists h4, (FR sr p false vp op
                  :: FR (T sll sl false vsl osl slr) s cp vs os :: k1).
      split; [|split; [exact W4|]].
      * unfold delete_case_3, delete_case_4, delete_case_5, delete_case_6,
          set_black, set_red.
        unfold_queries.
        destruct cp; destruct sr as [|srl sr [|] vsr osr srr].
        all: wf_open H; simpl; query; go E1 W1; go E2 W2; go E3 W3;
          rewrite E4; done.
      * post_tac.
    + destruct (col sr) eqn:Hcr.
      * (* case 5 *)
        destruct sr as [|srl sr csr vsr osr srr]; simpl in Hcr; [done|subst csr].
        destruct (rotate_left_wf (k := FL p _ _ _ _ :: k1) (x := s) (y := sr)
                    H) as (h1 & E1 & W1).
        destruct (set_color_wf cp (k := FL p _ _ _ _ :: k1) (x := sr) W1)
          as (h2 & E2 & W2).
        destruct (set_color_wf false (k := k1) (x := p) W2)
          as (h3 & E3 & W3).
        destruct (set_color_wf false
                    (k := FL sr _ _ _ _ :: FL p _ _ _ _ :: k1) (x := s) W3)
          as (h4 & E4 & W4).
        destruct (rotate_right_wf (k := k1) (x := sr) (y := p) W4)
          as (h5 & E5 & W5).
        exists h5, (FR srr p false vp op
                    :: FR (T sl s false vs os srl) sr cp vsr osr :: k1).
        split; [|split; [exact W5|]].
        -- unfold delete_case_3, delete_case_4, delete_case_5, delete_case_6,
             set_black, set_red.
           unfold_queries.
           destruct cp; destruct sl as [|sll sl csl vsl osl slr];
             simpl in Hcl; subst.
           all: wf_open H; simpl; query; go E1 W1; go E2 W2; go E3 W3;
             go E4 W4; rewrite E5; done.
        -- post_tac.
      * destruct cp.
        -- (* case 4 *)
           destruct (set_color_wf true (k := FL p _ _ _ _ :: k1) (x := s) H)
             as (h1 & E1 & W1).
           destruct (set_color_wf false (k := k1) (x := p) W1)
             as (h2 & E2 & W2).
           exists h2, (FR (T sl s true vs os sr) p false vp op :: k1).
           split; [|split; [exact W2|]].
           ++ unfold delete_case_3, delete_case_4, set_black, set_red.
              unfold_queries.
              destruct sl as [|sll sl csl vsl osl slr];
              destruct sr as [|srl sr csr vsr osr srr]; simpl in Hcl, Hcr; subst.
              all: wf_open H; simpl; query; go E1 W1; rewrite E2; done.
           ++ post_tac.
        -- (* case 3 *)
           destruct (set_color_wf true (k := FL p _ _ _ _ :: k1) (x := s) H)
             as (h1 & E1 & W1).
           destruct (IH h1 k1 (T sl s true vs os sr) p false vp op (T l x c v o r)
                         (S b) fl W1) as (h2 & k2 & E2 & W2 & K2 & L2 & R2 & N2);
             [apply Hf; done|pure_tac|].
           exists h2, (FR (T sl s true vs os sr) p false vp op :: k2).
           split; [|split; [exact W2|]].
           ++ unfold delete_case_3. unfold_queries.
              destruct sl as [|sll sl csl vsl osl slr];
              destruct sr as [|srl sr csr vsr osr srr]; simpl in Hcl, Hcr; subst.
              all: wf_open H; simpl; query.
              all: unfold set_red; rewrite E1; simpl; done.
           ++ post_tac.
Qed.

Lemma delete_case_2_repairs {cap} rec fuel :
  repairs cap rec fuel ->
  forall h f k1 l x c v o r b fl,
    wf cap h (plug (f :: k1) (T l x c v o r)) fl ->
    (length k1 < fuel)%nat ->
    okc (f :: k1) (S b) ->
    exists h' k',
      delete_case_2 rec (Some x) h = Some (tt, h')
      /\ repaired cap h' k' (f :: k1) (T l x c v o r) b fl.
Proof.
  intros IH h f k1 l x c v o r b fl H Hf Hk.
  destruct (col (fsib f)) eqn:Hcs.
  2:{ (* black sibling *)
    destruct (delete_case_3_repairs rec fuel IH _ _ _ _ _ _ _ _ _ _ _ H
                (fun _ => Hf) Hk Hcs) as (h' & k' & E & R).
    exists h', k'. split; [|done].
    unfold delete_case_2. unfold_queries.
    destruct f as [p cp vp op s|s p cp vp op];
      (destruct s as [|sl s cs vs os sr]; [simpl in Hk; lia|]);
      simpl in Hcs; subst cs.
    all: wf_open H; simpl; query; exact E. }
  destruct f as [p cp vp op s|s p cp vp op];
    (destruct s as [|sl s cs vs os sr]; [simpl in Hk; lia|]);
    simpl in Hcs; subst cs;
    (destruct cp; [simpl in Hk; intuition congruence|]).
  - destruct (set_color_wf true (k := k1) (x := p) H) as (h1 & E1 & W1).
    destruct (set_color_wf false (k := FR _ p _ _ _ :: k1) (x := s) W1)
      as (h2 & E2 & W2).
    destruct (rotate_left_wf (k := k1) (x := p) (y := s) W2)
      as (h3 & E3 & W3).
    destruct (delete_case_3_repairs rec fuel IH h3 (FL p true vp op sl)
                (FL s false vs os sr :: k1) l x c v o r b fl W3)
      as (h' & k' & E & W' & K' & L' & R' & N'); [done|pure_tac|pure_tac|].
    exists h', k'. split.
    + unfold delete_case_2, set_red, set_black. unfold_queries.
      wf_open H; simpl; query; go E1 W1; go E2 W2; rewrite E3; exact E.
    + split; [exact W'|]. split; [done|].
      split; [rewrite L'; list_eq|]. split; [rewrite R'; list_eq|].
      destruct N' as [N'|N']; [done|by right].
  - destruct (set_color_wf true (k := k1) (x := p) H) as (h1 & E1 & W1).
    destruct (set_color_wf false (k := FL p _ _ _ _ :: k1) (x := s) W1)
      as (h2 & E2 & W2).
    destruct (rotate_right_wf (k := k1) (x := s) (y := p) W2)
      as (h3 & E3 & W3).
    destruct (delete_case_3_repairs rec fuel IH h3 (FR sr p true vp op)
                (FR sl s false vs os :: k1) l x c v o r b fl W3)
      as (h' & k' & E & W' & K' & L' & R' & N'); [done|pure_tac|pure_tac|].
    exists h', k'. split.
    + unfold delete_case_2, set_red, set_black. unfold_queries.
      wf_open H; simpl; query; go E1 W1; go E2 W2; rewrite E3; exact E.
    + split; [exact W'|]. split; [done|].
      split; [rewrite L'; list_eq|]. split; [rewrite R'; list_eq|].
      destruct N' as [N'|N']; [done|by right].
Qed.

Lemma delete_case_1_repairs {cap} fuel : repairs cap (delete_case_1 fuel) fuel.
Proof.
  induction fuel as [|fuel IH]; intros h k l x c v o r b fl H Hf Hk; [lia|].
  simpl delete_case_1.
  destruct k as [|f k1].
  - exists h, []. split.
    + unfold_queries. wf_open H; simpl; query. done.
    + split; [done|]. split; [done|]. split; [done|]. split; [done|].
      by left.
  - destruct (delete_case_2_repairs _ _ IH h f k1 l x c v o r b fl H)
      as (h' & k' & E & R); [simpl in Hf; lia|done|].
    exists h', k'. split; [|done].
    unfold_queries. wf_open H; simpl; query. exact E.
Qed.

(** ** delete_node on a neighbour in order *)

Lemma plug_app k1 k2 t : plug (k1 ++ k2) t = plug k2 (plug k1 t).
Proof.
  revert t. induction k1 as [|f k1 IH]; intros t; [done|].
  simpl. rewrite !plug_cons. apply IH.
Qed.

Lemma lft_app k1 k2 : lft (k1 ++ k2) = lft k2 ++ lft k1.
Proof.
  induction k1 as [|f k1 IH]; simpl.
  - by rewrite app_nil_r.
  - destruct f; [done|]. rewrite IH. by rewrite <- !app_assoc.
Qed.

Lemma rgt_app k1 k2 : rgt (k1 ++ k2) = rgt k1 ++ rgt k2.
Proof.
  induction k1 as [|f k1 IH]; simpl; [done|].
  destruct f; [|done]. rewrite IH. simpl. by rewrite <- !app_assoc.
Qed.

Lemma length_idsc k : (length k <= length (idsc k))%nat.
Proof.
  induction k as [|f k IH]; simpl; [lia|]. rewrite length_app. lia.
Qed.

Lemma wf_depth {cap} h k t fl :
  wf cap h (plug k t) fl -> (length k + height t <= length (node_block h))%nat.
Proof.
  intros H. pose proof (wf_len _ _ _ _ H) as Hl.
  rewrite length_ids_plug in Hl.
  pose proof (length_idsc k). pose proof (height_ids t). lia.
Qed.

(** The walks to the neighbours in order. *)
Lemma rightmost_spec {cap} t : forall fuel h k fl,
  wf cap h (plug k t) fl -> t <> E -> (height t <= fuel)%nat ->
  exists kr yl y cy vy oy,
    t = plug kr (T yl y cy vy oy E) /\ rgt kr = []
    /\ rightmost fuel (rootp t) h = Some (Some y, h).
Proof.
  induction t as [|l _ n c v o r IHr]; intros fuel h k fl H Hne Hf; [done|].
  destruct fuel as [|fuel]; [simpl in Hf; lia|].
  simpl rightmost. unfold_queries.
  destruct r as [|rl rn rc rv ro rr].
  - exists [], l, n, c, v, o. split; [done|]. split; [done|].
    rep_open H. simpl. query. done.
  - destruct (IHr fuel h (FR l n c v o :: k) fl) as
      (kr & yl & y & cy & vy & oy & Et & Er & Ew); [exact H|done| |].
    { simpl in Hf |- *. lia. }
    exists (kr ++ [FR l n c v o]), yl, y, cy, vy, oy.
    split; [|split].
    + rewrite plug_app, <- Et. done.
    + rewrite rgt_app, Er. done.
    + rep_open H. simpl. query. exact Ew.
Qed.

Lemma leftmost_spec {cap} t : forall fuel h k fl,
  wf cap h (plug k t) fl -> t <> E -> (height t <= fuel)%nat ->
  exists kl y cy vy oy yr,
    t = plug kl (T E y cy vy oy yr) /\ lft kl = []
    /\ leftmost fuel (rootp t) h = Some (Some y, h).
Proof.
  induction t as [|l IHl n c v o r _]; intros fuel h k fl H Hne Hf; [done|].
  destruct fuel as [|fuel]; [simpl in Hf; lia|].
  simpl leftmost. unfold_queries.
  destruct l as [|ll ln lc lv lo lr].
  - exists [], n, c, v, o, r. split; [done|]. split; [done|].
    rep_open H. simpl. query. done.
  - destruct (IHl fuel h (FL n c v o r :: k) fl) as
      (kl & y & cy & vy & oy & yr & Et & El & Ew); [exact H|done| |].
    { simpl in Hf |- *. lia. }
    exists (kl ++ [FL n c v o r]), y, cy, vy, oy, yr.
    split; [|split].
    + rewrite plug_app, <- Et. done.
    + rewrite lft_app, El. done.
    + rep_open H. simpl. query. exact Ew.
Qed.

(** A node of a red-black tree with an empty side. *)
Lemma one_child_shape l s c v o r :
  bal (T l s c v o r) -> nrr (T l s c v o r) -> l = E \/ r = E ->
  (l = E /\ r = E)
  \/ (exists y vy oy, l = T E y true vy oy E /\ r = E /\ c = false)
  \/ (exists y vy oy, l = E /\ r = T E y true vy oy E /\ c = false).
Proof.
  intros Hb Hn [->| ->].
  - destruct r as [|[|? ? [|] ? ? ?] y [|] vy oy [|? ? [|] ? ? ?]];
      simpl in *; try (intuition (congruence || lia)).
    right. right. exists y, vy, oy. destruct c; intuition congruence.
  - destruct l as [|[|? ? [|] ? ? ?] y [|] vy oy [|? ? [|] ? ? ?]];
      simpl in *; try (intuition (congruence || lia)).
    right. left. exists y, vy, oy. destruct c; intuition congruence.
Qed.

Lemma remove_leaf_steps {cap} h f k x c v o fl :
  wf cap h (plug (f :: k) (T E x c v o E)) fl ->
  exists h1 h',
    replace_node (Some x) None h = Some (tt, h1)
    /\ push_free_node (Some x) h1 = Some (tt, h')
    /\ wf cap h' (plug (f :: k) E) (fl ++ [x]).
Proof.
  intros H. destruct (remove_leaf_wf H) as (h' & Eq & W).
  unfold bind in Eq.
  destruct (replace_node (Some x) None h) as [[[] h1]|] eqn:E1; [|done].
  by exists h1, h'.
Qed.

Lemma swap_steps h n1 n2 h' :
  (swap_values n1 n2 ;;; swap_offsets n1 n2)%rb h = Some (tt, h') ->
  exists h1, swap_values n1 n2 h = Some (tt, h1)
    /\ swap_offsets n1 n2 h1 = Some (tt, h').
Proof.
  unfold bind. intros Eq.
  destruct (swap_values n1 n2 h) as [[[] h1]|] eqn:E1; [|done].
  by exists h1.
Qed.

(** The neighbour has an empty side: it is a leaf, or has one red leaf,
    whose range it takes before the leaf goes. *)
Lemma delete_node_spec {cap} fuel h f k l s c v o r fl :
  wf cap h (plug (f :: k) (T l s c v o r)) fl ->
  rbt (plug (f :: k) (T l s c v o r)) ->
  l = E \/ r = E ->
  (length (f :: k) < fuel)%nat ->
  exists h' t' z,
    delete_node fuel (Some s) h = Some (tt, h')
    /\ wf cap h' t' (fl ++ [z]) /\ rbt t'
    /\ ino t' = lft (f :: k) ++ ino l ++ ino r ++ rgt (f :: k).
Proof.
  intros H Hrb Hone Hf.
  pose proof Hrb as Hrb'. apply rbt_plug in Hrb' as (Hk & Hb & Hn & Hc).
  destruct (one_child_shape _ _ _ _ _ _ Hb Hn Hone)
    as [[-> ->]|[(y & vy & oy & -> & -> & ->)|(y & vy & oy & -> & -> & ->)]].
  - (* a leaf *)
    destruct c.
    + destruct (remove_leaf_steps _ _ _ _ _ _ _ _ H) as (h1 & h2 & E1 & E2 & W2).
      exists h2, (plug (f :: k) E), s. split; [|split; [done|split]].
      * unfold delete_node, get_sucessor, get_left_sucessor,
          get_right_sucessor, delete_one_child.
        unfold_queries. destruct f; wf_open H; simpl; query.
        all: rewrite E1; simpl; exact E2.
      * apply rbt_plug. pure_tac.
      * rewrite ino_plug. done.
    + destruct (delete_case_1_repairs fuel h (f :: k) E s false v o E O fl H)
        as (h1 & k' & E1 & W1 & K1 & L1 & R1 & N1); [done|pure_tac|].
      destruct N1 as [N1|N1]; [done|].
      destruct k' as [|f' k']; [done|].
      destruct (remove_leaf_steps _ _ _ _ _ _ _ _ W1)
        as (h2 & h3 & E2 & E3 & W3).
      exists h3, (plug (f' :: k') E), s. split; [|split; [done|split]].
      * unfold delete_node, get_sucessor, get_left_sucessor,
          get_right_sucessor, delete_one_child.
        unfold_queries. destruct f; wf_open H; simpl; query.
        all: rewrite E1; simpl; rewrite E2; simpl; exact E3.
      * apply rbt_plug. pure_tac.
      * rewrite ino_plug, L1, R1. done.
  - (* a red leaf on the left *)
    destruct (swap_left_wf H) as (h1 & E1 & W1).
    destruct (swap_steps _ _ _ _ E1) as (h0 & E0 & E0').
    destruct (remove_leaf_steps h1 (FL s false vy oy E) (f :: k) y true v o fl W1)
      as (h2 & h3 & E2 & E3 & W3).
    exists h3, (plug (f :: k) (T E s false vy oy E)), y.
    split; [|split; [done|split]].
    + destruct fuel as [|fuel]; [lia|].
      unfold delete_node, get_sucessor, get_left_sucessor,
        get_right_sucessor, delete_one_child. simpl rightmost.
      unfold_queries. wf_open H; simpl; query.
      rewrite E0; simpl. rewrite E0'; simpl.
      rep_open W1; query. rewrite E2; simpl; exact E3.
    + apply rbt_plug. pure_tac.
    + rewrite ino_plug. list_eq.
  - (* a red leaf on the right *)
    destruct (swap_right_wf H) as (h1 & E1 & W1).
    destruct (swap_steps _ _ _ _ E1) as (h0 & E0 & E0').
    destruct (remove_leaf_steps h1 (FR E s false vy oy) (f :: k) y true v o fl W1)
      as (h2 & h3 & E2 & E3 & W3).
    exists h3, (plug (f :: k) (T E s false vy oy E)), y.
    split; [|split; [done|split]].
    + destruct fuel as [|fuel]; [lia|].
      unfold delete_node, get_sucessor, get_left_sucessor,
        get_right_sucessor, delete_one_child. simpl leftmost.
      unfold_queries. wf_open H; simpl; query.
      rewrite E0; simpl. rewrite E0'; simpl.
      rep_open W1; query. rewrite E2; simpl; exact E3.
    + apply rbt_plug. pure_tac.
    + rewrite ino_plug. list_eq.
Qed.

(** ** The ranges as a list *)

Lemma separated_cons a rs :
  separated (a :: rs) = true <->
  match rs with [] => True | b :: _ => fst a + snd a < fst b end
  /\ separated rs = true.
Proof.
  destruct rs as [|b rs]; simpl separated.
  - tauto.
  - rewrite andb_true_iff, Z.ltb_lt. tauto.
Qed.

Lemma separated_app_inv xs ys :
  separated (xs ++ ys) = true -> separated xs = true /\ separated ys = true.
Proof.
  induction xs as [|a xs IH]; [done|].
  rewrite <- app_comm_cons. rewrite !separated_cons.
  intros [H1 H2]. apply IH in H2 as [H2 H3].
  split; [|done]. split; [|done].
  destruct xs; [done|]. done.
Qed.

(** In separated ranges with positive lengths every later range starts
    after the end of an earlier one. *)
Lemma separated_later n a rs :
  separated (a :: rs) = true -> Forall (range_ok n) (a :: rs) ->
  Forall (fun b => fst a + snd a < fst b) rs.
Proof.
  revert a. induction rs as [|b rs IH]; intros a Hs Hok; [constructor|].
  apply separated_cons in Hs as [Hab Hs].
  apply Forall_cons in Hok as [Ha Hok'].
  constructor; [done|].
  specialize (IH b Hs Hok').
  apply Forall_cons in Hok' as [Hb _]. destruct Hb as (? & ? & ?).
  eapply Forall_impl; [exact IH|]. simpl. intros c Hc. lia.
Qed.

Lemma ins_list_skip v xs ys :
  Forall (ends_before v) xs -> Forall (fun r => 1 <= snd r) xs ->
  ins_list v (xs ++ ys) = xs ++ ins_list v ys.
Proof.
  induction xs as [|[a o] xs IH]; [done|].
  intros Hb Hp. apply Forall_cons in Hb as [Ha Hb'].
  apply Forall_cons in Hp as [Ho Hp'].
  unfold ends_before in Ha. simpl in *.
  destruct (Z.ltb_spec (v + 1) a); [lia|].
  destruct (Z.eqb_spec (v + 1) a); [lia|].
  destruct (Z.eqb_spec (a + o) v); [lia|].
  by rewrite IH.
Qed.

Ltac cov_tac :=
  intros x; rewrite ?Exists_cons, ?Exists_nil; unfold in_range; simpl;
  intuition lia.


(** An insertion keeps the ranges separated and within bounds, and adds
    the value to what they cover. *)
Lemma ins_list_ok n v rs : forall lo,
  ranges_ok n rs -> 0 <= v < n -> ~ covered rs v ->
  lo < v -> starts_above lo rs ->
  ranges_ok n (ins_list v rs)
  /\ starts_above lo (ins_list v rs)
  /\ (forall x, covered (ins_list v rs) x <-> x = v \/ covered rs x).
Proof.
  unfold ranges_ok, covered.
  induction rs as [|[a o] rs IH]; intros lo [Hs Hok] Hv Hnc Hlo Hab.
  - simpl. split; [|split; [done|]].
    + split; [done|]. constructor; [|done]. unfold range_ok; simpl. lia.
    + cov_tac.
  - pose proof (separated_later _ _ _ Hs Hok) as Hlater.
    apply separated_cons in Hs as [Hab' Hs].
    pose proof Hok as Hok0.
    apply Forall_cons in Hok as [Ha Hok'].
    pose proof Hok' as Hok1.
    destruct Ha as (Ha1 & Ha2 & Ha3). simpl in Ha1, Ha2, Ha3.
    assert (Hna : ~ in_range v (a, o))
      by (intros ?; apply Hnc; by constructor).
    assert (Hnr : ~ Exists (in_range v) rs)
      by (intros ?; apply Hnc; by constructor 2).
    unfold in_range in Hna. simpl in Hna, Hab.
    simpl ins_list.
    destruct (Z.ltb_spec (v + 1) a).
    { split; [|split; [done|]].
      - split.
        + apply separated_cons. split; [simpl; lia|].
          apply separated_cons. done.
        + constructor; [unfold range_ok; simpl; lia|done].
      - cov_tac. }
    destruct (Z.eqb_spec (v + 1) a).
    { split; [|split; [done|]].
      - split.
        + apply separated_cons. split; [|done].
          destruct rs as [|b rs]; [done|]. simpl in *. lia.
        + constructor; [unfold range_ok; simpl; lia|done].
      - cov_tac. }
    destruct (Z.eqb_spec (a + o) v).
    { destruct rs as [|[a2 o2] rs].
      - split; [|split; [done|]].
        + split; [done|]. constructor; [unfold range_ok; simpl; lia|done].
        + cov_tac.
      - simpl in Hab'.
        apply Forall_cons in Hok' as [Hb Hok''].
        destruct Hb as (Hb1 & Hb2 & Hb3). simpl in Hb1, Hb2, Hb3.
        apply separated_cons in Hs as [Hb' Hs].
        destruct (Z.eqb_spec (v + 1) a2).
        + split; [|split; [done|]].
          * split.
            -- apply separated_cons. split; [|done].
               destruct rs as [|c rs]; [done|]. simpl in *. lia.
            -- constructor; [unfold range_ok; simpl; lia|done].
          * cov_tac.
        + split; [|split; [done|]].
          * split.
            -- apply separated_cons. split; [simpl; lia|].
               apply separated_cons. done.
            -- constructor; [unfold range_ok; simpl; lia|done].
          * cov_tac. }
    assert (Hlo' : a + o < v) by lia.
    assert (Hab2 : starts_above (a + o) rs)
      by (destruct rs as [|b rs]; [done|]; simpl in *; lia).
    destruct (IH (a + o) (conj Hs Hok') Hv Hnr Hlo' Hab2)
      as ((Hs' & Hok'') & Hab'' & Hcov).
    split; [|split; [done|]].
    + split.
      * apply separated_cons. split; [|done].
        destruct (ins_list v rs) as [|b rs']; [done|]. done.
      * constructor; [unfold range_ok; simpl; lia|done].
    + intros x. rewrite !Exists_cons. rewrite Hcov. tauto.
Qed.

(** Ranges that cover exactly [0, n) are one range. *)
Lemma covering_ranges n rs :
  ranges_ok n rs -> 0 < n ->
  (forall x, covered rs x <-> 0 <= x < n) ->
  rs = [(0, n)].
Proof.
  intros [Hs Hok] Hn Hcov.
  destruct rs as [|[a o] rs].
  - assert (H0 : covered [] 0) by (apply Hcov; lia).
    by apply Exists_nil in H0.
  - pose proof (separated_later _ _ _ Hs Hok) as Hlater.
    apply Forall_cons in Hok as [Ha Hok'].
    destruct Ha as (Ha1 & Ha2 & Ha3). simpl in Ha1, Ha2, Ha3.
    assert (Hlater' : forall x, Exists (in_range x) rs -> a + o < x).
    { intros x Hx. apply Exists_exists in Hx as (b & Hb & Hx).
      rewrite Forall_forall in Hlater. specialize (Hlater b).
      simpl in Hlater. unfold in_range in Hx.
      assert (a + o < fst b) by (by apply Hlater).
      lia. }
    assert (a = 0) as ->.
    { assert (H0 : covered ((a, o) :: rs) 0) by (apply Hcov; lia).
      apply Exists_cons in H0 as [H0|H0].
      - unfold in_range in H0; simpl in H0. lia.
      - apply Hlater' in H0. lia. }
    assert (rs = []) as ->.
    { destruct rs as [|[a2 o2] rs]; [done|]. exfalso.
      apply Forall_cons in Hlater as [Hb _]. simpl in Hb.
      apply Forall_cons in Hok' as [Hb' _].
      destruct Hb' as (Hb1 & Hb2 & Hb3). simpl in Hb1, Hb2, Hb3.
      assert (H0 : covered ((0, o) :: (a2, o2) :: rs) (0 + o))
        by (apply Hcov; lia).
      apply Exists_cons in H0 as [H0|H0].
      - unfold in_range in H0; simpl in H0. lia.
      - apply Hlater' in H0. lia. }
    f_equal. f_equal.
    assert (H1 : covered [(0, o)] (n - 1)) by (apply Hcov; lia).
    apply Exists_cons in H1 as [H1|H1]; [|by apply Exists_nil in H1].
    unfold in_range in H1; simpl in H1.
    assert (H2 : covered [(0, o)] (o - 1)).
    { constructor. unfold in_range; simpl. lia. }
    apply Hcov in H2. lia.
Qed.

(** ** try_binary_insert_or_merge *)

#[local] Arguments are_consecutive : simpl never.
#[local] Arguments u32 : simpl never.

Lemma consec_small a b :
  0 <= a -> a + 1 < 2 ^ 32 -> are_consecutive a b = (a + 1 =? b).
Proof. intros. unfold are_consecutive. by rewrite u32_small by lia. Qed.

Lemma consec_end a o v :
  0 <= a -> 1 <= o -> a + o < 2 ^ 32 ->
  are_consecutive (u32 (u32 (a + o) - 1)) v = (a + o =? v).
Proof.
  intros. unfold are_consecutive.
  rewrite (u32_small (a + o)) by lia.
  rewrite (u32_small (a + o - 1)) by lia.
  rewrite u32_small by lia. f_equal. lia.
Qed.

(** The ranges around one of them. *)
Lemma ranges_around n xs b ys :
  ranges_ok n (xs ++ b :: ys) ->
  Forall (fun a => fst a + snd a < fst b) xs
  /\ Forall (fun c => fst b + snd b < fst c) ys
  /\ range_ok n b /\ Forall (range_ok n) xs /\ Forall (range_ok n) ys.
Proof.
  induction xs as [|a xs IH]; intros [Hs Hok].
  - simpl in *. split; [constructor|].
    split; [by eapply separated_later|].
    apply Forall_cons in Hok as [? ?]. done.
  - rewrite <- app_comm_cons in *.
    pose proof (separated_later _ _ _ Hs Hok) as Hl.
    apply separated_cons in Hs as [_ Hs].
    apply Forall_cons in Hok as [Ha Hok].
    destruct (IH (conj Hs Hok)) as (H1 & H2 & H3 & H4 & H5).
    apply Forall_app in Hl as [_ Hl]. apply Forall_cons in Hl as [Hab _].
    split; [by constructor|]. split; [done|]. split; [done|].
    split; [by constructor|done].
Qed.

Lemma ins_head_before v a o rest :
  v + 1 < a -> ins_list v ((a, o) :: rest) = (v, 1) :: (a, o) :: rest.
Proof. intros. simpl. destruct (Z.ltb_spec (v + 1) a); [done|lia]. Qed.

Lemma ins_head_down v a o rest :
  v + 1 = a -> ins_list v ((a, o) :: rest) = (v, o + 1) :: rest.
Proof.
  intros. simpl. destruct (Z.ltb_spec (v + 1) a); [lia|].
  destruct (Z.eqb_spec (v + 1) a); [done|lia].
Qed.

Lemma ins_head_up v a o rest :
  a + o = v -> 1 <= o -> starts_above (v + 1) rest ->
  ins_list v ((a, o) :: rest) = (a, o + 1) :: rest.
Proof.
  intros Hv Ho Hr. simpl. destruct (Z.ltb_spec (v + 1) a); [lia|].
  destruct (Z.eqb_spec (v + 1) a); [lia|].
  destruct (Z.eqb_spec (a + o) v); [|lia].
  destruct rest as [|[a2 o2] rest]; [done|]. simpl in Hr.
  destruct (Z.eqb_spec (v + 1) a2); [lia|done].
Qed.

Lemma ins_head_merge v a o a2 o2 rest :
  a + o = v -> 1 <= o -> v + 1 = a2 ->
  ins_list v ((a, o) :: (a2, o2) :: rest) = (a, o + (o2 + 1)) :: rest.
Proof.
  intros Hv Ho Hr. simpl. destruct (Z.ltb_spec (v + 1) a); [lia|].
  destruct (Z.eqb_spec (v + 1) a); [lia|].
  destruct (Z.eqb_spec (a + o) v); [|lia].
  destruct (Z.eqb_spec (v + 1) a2); [done|lia].
Qed.

Lemma ins_end v rest :
  starts_above (v + 1) rest -> ins_list v rest = (v, 1) :: rest.
Proof.
  destruct rest as [|[a o] rest]; [done|]. simpl starts_above.
  intros. by apply ins_head_before.
Qed.

Lemma starts_above_after v rs :
  Forall (starts_after v) rs -> starts_above (v + 1) rs.
Proof. destruct rs as [|b rs]; [done|]. intros H. by apply Forall_cons in H as [? _]. Qed.

Lemma rbt_payload k l x c v o r v' o' :
  rbt (plug k (T l x c v o r)) -> rbt (plug k (T l x c v' o' r)).
Proof. intros H. apply rbt_plug in H. apply rbt_plug. done. Qed.

Lemma delete_node_at {cap} fuel h K l s c v o r fl :
  wf cap h (plug K (T l s c v o r)) fl ->
  rbt (plug K (T l s c v o r)) ->
  K <> [] -> l = E \/ r = E ->
  (cap < fuel)%nat ->
  exists h' t' z,
    delete_node fuel (Some s) h = Some (tt, h')
    /\ wf cap h' t' (fl ++ [z]) /\ rbt t'
    /\ ino t' = lft K ++ ino l ++ ino r ++ rgt K.
Proof.
  intros H Hrb HK Hone Hf. destruct K as [|f k]; [done|].
  apply (delete_node_spec fuel h f k l s c v o r fl); try done.
  pose proof (wf_depth _ _ _ _ H). pose proof (wf_cap _ _ _ _ H). lia.
Qed.


Ltac unfold_loop :=
  unfold get_left_sucessor, get_right_sucessor; unfold_queries.

Lemma wf_refocus_left {cap} h k l kr Y nd c v o r fl :
  l = plug kr Y ->
  wf cap h (plug k (T l nd c v o r)) fl ->
  wf cap h (plug (kr ++ FL nd c v o r :: k) Y) fl.
Proof. intros ->. by rewrite plug_app, plug_cons. Qed.

Lemma wf_refocus_right {cap} h k r kl Y nd c v o l fl :
  r = plug kl Y ->
  wf cap h (plug k (T l nd c v o r)) fl ->
  wf cap h (plug (kl ++ FR l nd c v o :: k) Y) fl.
Proof. intros ->. by rewrite plug_app, plug_cons. Qed.

Lemma ends_before_weaken v w rs :
  Forall (fun a => fst a + snd a < w) rs -> w <= v ->
  Forall (ends_before v) rs.
Proof.
  intros H Hw. eapply Forall_impl; [exact H|].
  unfold ends_before. simpl. intros. lia.
Qed.

Lemma starts_after_weaken v w rs :
  Forall (fun a => w < fst a) rs -> v + 1 <= w ->
  Forall (starts_after v) rs.
Proof.
  intros H Hw. eapply Forall_impl; [exact H|].
  unfold starts_after. simpl. intros. lia.
Qed.

Lemma range_ok_pos n rs :
  Forall (range_ok n) rs -> Forall (fun r => 1 <= snd r) rs.
Proof. intros H. eapply Forall_impl; [exact H|]. by intros ? (? & ? & ?). Qed.

(** The search from a node: the ranges before the node end below the
    value, and those after the node start above its successor. *)
Lemma loop_spec {cap} n v walk : forall t fuel h k fl,
  t <> E ->
  wf cap h (plug k t) fl ->
  rbt (plug k t) ->
  ranges_ok n (ino (plug k t)) -> n < 2 ^ 32 -> 0 <= v < n ->
  ~ covered (ino (plug k t)) v ->
  Forall (ends_before v) (lft k) -> Forall (starts_after v) (rgt k) ->
  fl <> [] ->
  (height t <= fuel)%nat -> (cap < walk)%nat ->
  exists h' res,
    insert_or_merge_loop walk fuel v (rootp t) h = Some (res, h')
    /\ searched cap v (ino (plug k t)) res h'.
Proof.
  induction t as [|l IHl nd c nv no r IHr];
    intros fuel h k fl Hne H Hrb Hok Hn Hv Hnc Hlft Hrgt Hfl Hfuel Hwalk;
    [done|].
  destruct fuel as [|fuel]; [simpl in Hfuel; lia|].
  assert (Ers : ino (plug k (T l nd c nv no r))
                = (lft k ++ ino l) ++ (nv, no) :: ino r ++ rgt k)
    by (rewrite ino_plug; list_eq).
  pose proof Hok as Hok'. pose proof Hnc as Hnc'. rewrite Ers in Hok', Hnc'.
  destruct (ranges_around _ _ _ _ Hok') as (Hbef & Haft & Hnd & Hxs & Hys).
  destruct Hnd as (Hnd1 & Hnd2 & Hnd3). simpl in Hnd1, Hnd2, Hnd3.
  assert (Hnin : ~ (nv <= v < nv + no)).
  { intros Hin. apply Hnc'. apply Exists_app. right. by constructor. }
  apply Forall_app in Hbef as [_ Hbl]. apply Forall_app in Haft as [Har _].
  apply Forall_app in Hxs as [Hxk Hxl]. apply Forall_app in Hys as [Hyr Hyk].
  simpl in Hbl, Har.
  pose proof (wf_depth _ _ _ _ H) as Hdepth.
  pose proof (wf_cap _ _ _ _ H) as Hcap. simpl in Hdepth.
  simpl insert_or_merge_loop.
  destruct (Z.eqb_spec (v + 1) nv) as [Hc1|Hc1].
  - (* the value is just below the range of the node *)
    destruct l as [|ll ln lc lv lo lr].
    + destruct (set_value_wf v H) as (h1 & E1 & W1).
      destruct (set_offset_wf (no + 1) W1) as (h2 & E2 & W2).
      exists h2, None. split.
      * unfold_loop. rep_open H; simpl; query.
        rewrite consec_small by lia.
        rewrite (proj2 (Z.eqb_eq _ _) Hc1). query.
        rewrite E1. simpl. rep_open W1; query.
        rewrite u32_small by lia. rewrite E2. done.
      * exists (plug k (T E nd c v (no + 1) r)), fl.
        split; [exact W2|]. split; [by eapply rbt_payload|].
        rewrite !ino_plug. simpl.
        rewrite ins_list_skip; [|done|by apply (range_ok_pos n)].
        f_equal. by rewrite ins_head_down.
    + destruct (rightmost_spec (T ll ln lc lv lo lr) walk h
                  (FL nd c nv no r :: k) fl H)
        as (kr & yl & y & cy & sv & so & El & Er & Ew); [done|lia|].
      pose proof (wf_refocus_left _ _ _ _ _ _ _ _ _ _ _ El H) as WY.
      assert (Ers2 : ino (plug k (T (T ll ln lc lv lo lr) nd c nv no r))
                = (lft k ++ lft kr ++ ino yl)
                  ++ (sv, so) :: (nv, no) :: ino r ++ rgt k).
      { rewrite El, !ino_plug. simpl ino. rewrite ino_plug, Er. list_eq. }
      pose proof Hok as Hok2. rewrite Ers2 in Hok2.
      destruct (ranges_around _ _ _ _ Hok2) as (Hbs & Has & Hsd & Hxs2 & _).
      destruct Hsd as (Hsd1 & Hsd2 & Hsd3). simpl in Hsd1, Hsd2, Hsd3.
      apply Forall_cons in Has as [Hsn _]. simpl in Hsn, Hbs.
      destruct (Z.eqb_spec (sv + so) v) as [Hm|Hm].
      * (* merged with the range below *)
        destruct (set_value_wf sv H) as (h1 & E1 & W1).
        destruct (set_offset_wf (no + (so + 1)) W1) as (h2 & E2 & W2).
        pose proof (wf_refocus_left _ _ _ _ _ _ _ _ _ _ _ El W1) as WY1.
        pose proof (wf_refocus_left _ _ _ _ _ _ _ _ _ _ _ El W2) as WY2.
        destruct (delete_node_at walk _ _ _ _ _ _ _ _ _ WY2)
          as (h3 & t3 & z & E3 & W3 & R3 & I3).
        { rewrite plug_app, plug_cons, <- El. simpl fill.
          eapply rbt_payload. exact Hrb. }
        { by destruct kr. }
        { by right. }
        { done. }
        exists h3, None. split.
        -- unfold_loop. rep_open H; simpl; query.
           rewrite consec_small by lia.
           rewrite (proj2 (Z.eqb_eq _ _) Hc1). query.
           simpl in Ew. rewrite Ew. simpl.
           rep_open WY; query.
           rewrite consec_end by lia.
           rewrite (proj2 (Z.eqb_eq _ _) Hm). query.
           rewrite E1. simpl. rep_open W1; rep_open WY1; query.
           rewrite (u32_small (so + 1)) by lia.
           rewrite u32_small by lia. rewrite E2. simpl.
           rewrite E3. done.
        -- exists t3, (fl ++ [z]). split; [done|]. split; [done|].
           rewrite I3, Ers2.
           rewrite ins_list_skip;
             [|eapply ends_before_weaken; [exact Hbs|simpl; lia]
              |by apply (range_ok_pos n)].
           rewrite ins_head_merge by lia.
           rewrite lft_app, rgt_app, Er. simpl.
           replace (no + (so + 1)) with (so + (no + 1)) by lia.
           list_eq.
      * (* the range of the node grows downwards *)
        destruct (set_value_wf v H) as (h1 & E1 & W1).
        destruct (set_offset_wf (no + 1) W1) as (h2 & E2 & W2).
        exists h2, None. split.
        -- unfold_loop. rep_open H; simpl; query.
           rewrite consec_small by lia.
           rewrite (proj2 (Z.eqb_eq _ _) Hc1). query.
           simpl in Ew. rewrite Ew. simpl.
           rep_open WY; query.
           rewrite consec_end by lia.
           rewrite (proj2 (Z.eqb_neq _ _) Hm). query.
           rewrite E1. simpl. rep_open W1; query.
           rewrite u32_small by lia. rewrite E2. done.
        -- exists (plug k (T (T ll ln lc lv lo lr) nd c v (no + 1) r)), fl.
           split; [exact W2|]. split; [by eapply rbt_payload|].
           assert (EL : ino (T ll ln lc lv lo lr)
                        = lft kr ++ ino yl ++ [(sv, so)])
             by (rewrite El, ino_plug, Er; list_eq).
           simpl ino in EL, Hbl, Hxl. rewrite EL in Hbl, Hxl.
           rewrite Ers. rewrite ino_plug. simpl ino. rewrite EL.
           rewrite ins_list_skip.
           ++ rewrite ins_head_down by done. list_eq.
           ++ apply Forall_app. split; [done|].
              rewrite !app_assoc. apply Forall_app. split.
              ** apply Forall_app in Hbs as [_ Hbs].
                 eapply ends_before_weaken; [exact Hbs|lia].
              ** constructor; [|done]. unfold ends_before. simpl. lia.
           ++ apply (range_ok_pos n). apply Forall_app. done.
  - destruct (Z.ltb_spec v nv) as [Hc2|Hc2].
    + (* below the range of the node *)
      destruct l as [|ll ln lc lv lo lr].
      * destruct fl as [|j fl]; [done|].
        destruct (new_left_wf v H) as (h1 & E1 & W1).
        exists h1, (Some j). split.
        -- unfold_loop. rep_open H; simpl; query.
           rewrite consec_small by lia.
           rewrite (proj2 (Z.eqb_neq _ _) Hc1).
           rewrite (proj2 (Z.ltb_lt _ _) Hc2).
           query. exact E1.
        -- exists (FL nd c nv no r :: k), fl. split; [exact W1|]. split.
           ++ apply rbt_plug in Hrb. pure_tac.
           ++ rewrite !ino_plug. simpl.
              symmetry. rewrite ins_list_skip; [|done|by apply (range_ok_pos n)].
              f_equal. rewrite ins_head_before by lia. done.
      * destruct (IHl fuel h (FL nd c nv no r :: k) fl)
          as (h' & res & E' & S'); try done.
        { simpl. constructor; [unfold starts_after; simpl; lia|].
          apply Forall_app. split; [|done].
          eapply starts_after_weaken; [exact Har|simpl; lia]. }
        { simpl in Hfuel |- *. lia. }
        exists h', res. split; [|exact S'].
        unfold_loop. rep_open H; simpl; query.
        rewrite consec_small by lia.
        rewrite (proj2 (Z.eqb_neq _ _) Hc1).
        rewrite (proj2 (Z.ltb_lt _ _) Hc2).
        query. exact E'.
    + assert (Hv2 : nv + no <= v) by lia.
      destruct (Z.eqb_spec (nv + no) v) as [Hc3|Hc3].
      * (* the value is just above the range of the node *)
        assert (Hpre : Forall (ends_before v) (lft k ++ ino l)).
        { apply Forall_app. split; [done|].
          eapply ends_before_weaken; [exact Hbl|simpl; lia]. }
        assert (Hpos : Forall (fun r => 1 <= snd r) (lft k ++ ino l))
          by (apply (range_ok_pos n); by apply Forall_app).
        destruct r as [|rl rn rc rv ro rr].
        -- destruct (set_offset_wf (no + 1) H) as (h1 & E1 & W1).
           exists h1, None. split.
           ++ unfold_loop. rep_open H; simpl; query.
              rewrite consec_small by lia.
              rewrite (proj2 (Z.eqb_neq _ _) Hc1).
              rewrite (proj2 (Z.ltb_ge _ _) Hc2).
              query. rewrite consec_end by lia.
              rewrite (proj2 (Z.eqb_eq _ _) Hc3). query.
              rewrite u32_small by lia. rewrite E1. done.
           ++ exists (plug k (T l nd c nv (no + 1) E)), fl.
              split; [exact W1|]. split; [by eapply rbt_payload|].
              rewrite Ers. rewrite ino_plug. simpl.
              rewrite ins_list_skip by done.
              rewrite ins_head_up;
                [|done|done|by apply starts_above_after].
              list_eq.
        -- destruct (leftmost_spec (T rl rn rc rv ro rr) walk h
                       (FR l nd c nv no :: k) fl H)
             as (kl & y & cy & sv & so & yr & Er & El & Ew); [done|lia|].
           pose proof (wf_refocus_right _ _ _ _ _ _ _ _ _ _ _ Er H) as WY.
           assert (ER : ino (T rl rn rc rv ro rr)
                        = (sv, so) :: ino yr ++ rgt kl)
             by (rewrite Er, ino_plug, El; list_eq).
           pose proof Har as Har'. pose proof Hyr as Hyr'.
           rewrite ER in Har', Hyr'.
           apply Forall_cons in Har' as [Hsn _].
           apply Forall_cons in Hyr' as [(Hsd1 & Hsd2 & Hsd3) _].
           simpl in Hsn, Hsd1, Hsd2, Hsd3.
           assert (Ers2 : ino (plug k (T l nd c nv no (T rl rn rc rv ro rr)))
                          = (lft k ++ ino l)
                            ++ (nv, no) :: (sv, so) :: ino yr ++ rgt kl
                                 ++ rgt k).
           { rewrite Ers, ER. list_eq. }
           destruct (Z.eqb_spec (v + 1) sv) as [Hm|Hm].
           ++ (* merged with the range above *)
              destruct (set_offset_wf (no + (so + 1)) H) as (h1 & E1 & W1).
              pose proof (wf_refocus_right _ _ _ _ _ _ _ _ _ _ _ Er W1)
                as WY1.
              destruct (delete_node_at walk _ _ _ _ _ _ _ _ _ WY1)
                as (h3 & t3 & z & E3 & W3 & R3 & I3).
              { rewrite plug_app, plug_cons, <- Er. simpl fill.
                eapply rbt_payload. exact Hrb. }
              { by destruct kl. }
              { by left. }
              { done. }
              exists h3, None. split.
              ** unfold_loop. rep_open H; simpl; query.
                 rewrite consec_small by lia.
                 rewrite (proj2 (Z.eqb_neq _ _) Hc1).
                 rewrite (proj2 (Z.ltb_ge _ _) Hc2).
                 query. rewrite consec_end by lia.
                 rewrite (proj2 (Z.eqb_eq _ _) Hc3). query.
                 simpl in Ew. rewrite Ew. simpl.
                 rep_open WY; query.
                 rewrite consec_small by lia.
                 rewrite (proj2 (Z.eqb_eq _ _) Hm). query.
                 rewrite (u32_small (so + 1)) by lia.
                 rewrite u32_small by lia. rewrite E1. simpl.
                 rewrite E3. done.
              ** exists t3, (fl ++ [z]). split; [done|]. split; [done|].
                 rewrite I3, Ers2.
                 rewrite ins_list_skip by done.
                 rewrite ins_head_merge by lia.
                 rewrite lft_app, rgt_app, El. simpl. list_eq.
           ++ (* the range of the node grows upwards *)
              destruct (set_offset_wf (no + 1) H) as (h1 & E1 & W1).
              exists h1, None. split.
              ** unfold_loop. rep_open H; simpl; query.
                 rewrite consec_small by lia.
                 rewrite (proj2 (Z.eqb_neq _ _) Hc1).
                 rewrite (proj2 (Z.ltb_ge _ _) Hc2).
                 query. rewrite consec_end by lia.
                 rewrite (proj2 (Z.eqb_eq _ _) Hc3). query.
                 simpl in Ew. rewrite Ew. simpl.
                 rep_open WY; query.
                 rewrite consec_small by lia.
                 rewrite (proj2 (Z.eqb_neq _ _) Hm). query.
                 rewrite u32_small by lia. rewrite E1. done.
              ** exists (plug k (T l nd c nv (no + 1) (T rl rn rc rv ro rr))),
                   fl.
                 split; [exact W1|]. split; [by eapply rbt_payload|].
                 rewrite Ers2. rewrite ino_plug.
                 change (ino (T l nd c nv (no + 1) (T rl rn rc rv ro rr)))
                   with (ino l ++ (nv, no + 1) :: ino (T rl rn rc rv ro rr)).
                 rewrite ER.
                 rewrite ins_list_skip by done.
                 rewrite ins_head_up; [|done|done|simpl; lia].
                 list_eq.
      * (* above the range of the node *)
        assert (Hc4 : nv < v) by lia.
        assert (Hpre : Forall (ends_before v) (lft k ++ ino l ++ [(nv, no)])).
        { apply Forall_app. split; [done|]. apply Forall_app. split.
          - eapply ends_before_weaken; [exact Hbl|simpl; lia].
          - constructor; [|done]. unfold ends_before. simpl. lia. }
        destruct r as [|rl rn rc rv ro rr].
        -- destruct fl as [|j fl]; [done|].
           destruct (new_right_wf v H) as (h1 & E1 & W1).
           exists h1, (Some j). split.
           ++ unfold_loop. rep_open H; simpl; query.
              rewrite consec_small by lia.
              rewrite (proj2 (Z.eqb_neq _ _) Hc1).
              rewrite (proj2 (Z.ltb_ge _ _) Hc2).
              query. rewrite consec_end by lia.
              rewrite (proj2 (Z.eqb_neq _ _) Hc3).
              rewrite (proj2 (Z.ltb_lt _ _) Hc4).
              query. exact E1.
           ++ exists (FR l nd c nv no :: k), fl. split; [exact W1|]. split.
              ** apply rbt_plug in Hrb. destruct c; pure_tac.
              ** rewrite !ino_plug. simpl.
                 replace (lft k ++ (ino l ++ [(nv, no)]) ++ rgt k)
                   with ((lft k ++ ino l ++ [(nv, no)]) ++ rgt k)
                   by list_eq.
                 rewrite ins_list_skip; [|done|].
                 --- rewrite ins_end by (by apply starts_above_after).
                     list_eq.
                 --- apply (range_ok_pos n). apply Forall_app. split; [done|].
                     apply Forall_app. split; [done|].
                     constructor; [|done]. unfold range_ok. simpl. lia.
        -- destruct (IHr fuel h (FR l nd c nv no :: k) fl)
             as (h' & res & E' & S'); try done.
           { simpl in Hfuel |- *. lia. }
           exists h', res. split; [|exact S'].
           unfold_loop. rep_open H; simpl; query.
           rewrite consec_small by lia.
           rewrite (proj2 (Z.eqb_neq _ _) Hc1).
           rewrite (proj2 (Z.ltb_ge _ _) Hc2).
           query. rewrite consec_end by lia.
           rewrite (proj2 (Z.eqb_neq _ _) Hc3).
           rewrite (proj2 (Z.ltb_lt _ _) Hc4).
           query. exact E'.
Qed.

(** ** The number of values and of nodes *)

Lemma total_ins_list v rs : total (ins_list v rs) = total rs + 1.
Proof.
  induction rs as [|[a o] rs IH]; [done|]. simpl ins_list.
  destruct (v + 1 <? a); [simpl; lia|].
  destruct (v + 1 =? a); [simpl; lia|].
  destruct (a + o =? v).
  - destruct rs as [|[a2 o2] rs]; [simpl; lia|].
    destruct (v + 1 =? a2); simpl; lia.
  - simpl in *. lia.
Qed.

Lemma length_total rs :
  Forall (fun r => 1 <= snd r) rs -> Z.of_nat (length rs) <= total rs.
Proof.
  induction 1 as [|r rs Hr _ IH]; simpl; [lia|]. simpl in IH. lia.
Qed.

Lemma length_ino t : length (ino t) = length (ids t).
Proof.
  induction t as [|l IHl i c v o r IHr]; [done|].
  simpl. rewrite !length_app. simpl. lia.
Qed.

(** ** [create_rb_tree] *)

Lemma push_building cap m h :
  building cap m h -> (m < cap)%nat ->
  exists h', push_free_node (Some m) h = Some (tt, h')
    /\ building cap (S m) h'.
Proof.
  intros (Hroot & Hch & Htl & Hhd & Hsz & Hlen & Hmax & Hu) Hm.
  assert (Hm' : is_Some (node_block h !! m))
    by (apply lookup_lt_is_Some; lia).
  destruct Hm' as ([mv mo mc ml mr mp] & Hmn).
  unfold building. rewrite seq_S. simpl "+"%nat.
  assert (Hnd : NoDup (seq 0 m)) by apply NoDup_seq.
  assert (Hlt : forall a, a ∈ seq 0 m -> a <> m)
    by (intros a Ha; apply elem_of_seq in Ha; lia).
  revert Hch Htl Hhd Hnd Hlt. generalize (seq 0 m). intros fl.
  intros Hch Htl Hhd Hnd Hlt.
  unfold push_free_node, get, set_size, set_free_node_head,
    set_free_node_tail, bind, ret.
  rewrite Hhd.
  destruct fl as [|hd fl0 _] using rev_ind.
  - simpl. exec. eexists. split; [reflexivity|].
    repeat split; simpl; try done.
    + eapply (chain_snoc (node_block h) _ [] m);
        [by intros ? ? ?|apply NoDup_nil_2|lookup|reflexivity
        |intros a n Ha; by apply elem_of_nil in Ha].
    + rewrite Hsz. rewrite u32_small; lia.
    + by rewrite !length_insert.
  - rewrite last_snoc.
    destruct (Hch (length fl0) hd) as ([hv ho hc hl hr hp] & Hhn & Hhl);
      [by rewrite lookup_app_r, Nat.sub_diag by lia|].
    simpl in Hhl.
    assert (hd <> m) by (apply Hlt; set_solver).
    simpl. exec. eexists. split; [reflexivity|].
    split; [done|]. split; [|split; [|split; [|split; [|split]]]]; simpl.
    + eapply chain_snoc; [exact Hch|done|lookup|reflexivity|].
      intros a n Ha Hn. rewrite last_snoc.
      destruct (decide (a = hd)) as [->|Hne].
      * eexists. split; [lookup|]. by rewrite decide_True.
      * assert (a <> m) by (by apply Hlt).
        exists n. split; [lookup|]. rewrite decide_False by congruence. done.
    + rewrite Htl. by destruct fl0.
    + by rewrite last_snoc.
    + rewrite Hsz. rewrite u32_small; lia.
    + by rewrite !length_insert.
    + done.
Qed.

Lemma push_all_building cap n : forall m h,
  building cap m h -> (m + n = cap)%nat ->
  exists h', push_all n m h = Some (tt, h') /\ building cap cap h'.
Proof.
  induction n as [|n IH]; intros m h Hb Hm; simpl.
  - exists h. split; [done|]. assert (m = cap) as <- by lia. done.
  - destruct (push_building _ _ _ Hb) as (h1 & E1 & B1); [lia|].
    destruct (IH (S m) h1 B1) as (h2 & E2 & B2); [lia|].
    exists h2. split; [|done]. unfold bind. by rewrite E1.
Qed.

Lemma create_rb_tree_wf cap :
  Z.of_nat cap < 2 ^ 32 ->
  exists h, create_rb_tree (Z.of_nat cap) = Some h /\ wf cap h E (seq 0 cap).
Proof.
  intros Hu. unfold create_rb_tree. rewrite Nat2Z.id.
  assert (Hb : building cap O
                 (mk_tree (Z.of_nat cap) (Z.of_nat cap) None None None
                          (replicate cap zero_node))).
  { unfold building. simpl.
    split; [done|]. split; [by intros ? ? ?|]. split; [done|].
    split; [done|]. split; [lia|]. split; [by rewrite length_replicate|].
    done. }
  destruct (push_all_building cap cap O _ Hb)
    as (h & Eh & Hroot & Hch & Htl & Hhd & Hsz & Hlen & Hmax & _); [lia|].
  exists h. rewrite Eh. split; [done|].
  split; simpl; try done.
  - apply NoDup_seq.
  - rewrite Hsz. lia.
  - by rewrite length_seq.
  - by rewrite Hlen.
  - lia.
Qed.

(** ** [insert] *)

(** An insertion of a value that is not in the tree. *)
Lemma insert_holds cap n vs v h :
  holds cap n vs h ->
  n < 2 ^ 32 -> 0 <= v < n -> v ∉ vs -> (length vs < cap)%nat ->
  exists b h', insert v h = Some (b, h') /\ holds cap n (vs ++ [v]) h'.
Proof.
  intros (t & fl & W & R & Hok & Hcov & Htot) Hn Hv Hnv Hlen.
  pose proof (wf_cap _ _ _ _ W) as Hcap.
  pose proof (wf_len _ _ _ _ W) as Hl.
  assert (Hnc : ~ covered (ino t) v) by (by rewrite Hcov).
  assert (Hfl : fl <> []).
  { intros ->. simpl in Hl. destruct Hok as [_ Hok].
    pose proof (length_total _ (range_ok_pos _ _ Hok)) as Hlt.
    rewrite length_ino in Hlt. lia. }
  assert (Hnew : ranges_ok n (ins_list v (ino t))
                 /\ (forall x, covered (ins_list v (ino t)) x
                               <-> x ∈ vs ++ [v])
                 /\ total (ins_list v (ino t))
                    = Z.of_nat (length (vs ++ [v]))).
  { destruct (ins_list_ok n v (ino t) (-1) Hok Hv Hnc) as (H1 & _ & H2).
    - lia.
    - destruct Hok as [_ Hok]. destruct (ino t) as [|b rs]; [done|].
      apply Forall_cons in Hok as [(? & ? & ?) _]. simpl. lia.
    - split; [done|]. split.
      + intros x. rewrite H2, Hcov, elem_of_app, list_elem_of_singleton.
        tauto.
      + rewrite total_ins_list, Htot, length_app. simpl. lia. }
  destruct Hnew as (Hok' & Hcov' & Htot').
  unfold insert, fuel_of, try_binary_insert_or_merge. rewrite Hcap.
  destruct t as [|l nd c nv no r].
  - (* the first node *)
    destruct fl as [|j fl]; [done|].
    destruct (new_root_wf v _ _ _ W) as (h1 & E1 & W1).
    change (T E j false v 1 E) with (plug [] (T E j false v 1 E)) in W1.
    destruct (set_color_wf false W1) as (h2 & E2 & W2).
    exists true, h2. split.
    + unfold bind in E1 |- *. unfold get.
      rewrite (wf_root _ _ _ _ W). unfold rootp. cbv iota beta.
      rewrite E1. simpl try_insert_rebalance.
      unfold_queries. rep_open W1. query.
      unfold set_black. rewrite E2. done.
    + exists (T E j false v 1 E), fl. split; [exact W2|].
      split; [unfold rbt; simpl; tauto|]. done.
  - destruct (loop_spec (cap := cap) n v (S cap) (T l nd c nv no r) (S cap)
                h [] fl)
      as (h1 & res & E1 & S1); try done.
    { pose proof (wf_depth _ [] _ _ W). simpl in *. lia. }
    { lia. }
    rewrite plug_nil in S1.
    destruct res as [j|].
    + destruct S1 as (k' & fl' & W1 & K1 & I1).
      destruct (ins_fix (cap := cap) (S cap) h1 k' E j v 1 E fl' W1)
        as (h2 & t2 & E2 & W2 & R2 & I2); try done.
      { pose proof (wf_depth _ _ _ _ W1).
        pose proof (wf_cap _ _ _ _ W1). lia. }
      exists true, h2. split.
      * unfold bind. unfold get.
        rewrite (wf_root _ _ _ _ W). unfold rootp.
        cbv iota beta. unfold rootp in E1. rewrite E1.
        rewrite E2. done.
      * exists t2, fl'. split; [done|]. split; [done|].
        rewrite I2, I1. done.
    + destruct S1 as (t1 & fl' & W1 & R1 & I1).
      exists false, h1. split.
      * unfold bind. unfold get.
        rewrite (wf_root _ _ _ _ W). unfold rootp.
        cbv iota beta. unfold rootp in E1. rewrite E1. done.
      * exists t1, fl'. split; [done|]. split; [done|]. rewrite I1. done.
Qed.

Lemma inserts_hold cap n : forall todo vs h,
  holds cap n vs h -> n < 2 ^ 32 ->
  NoDup (vs ++ todo) -> (forall x, x ∈ todo -> 0 <= x < n) ->
  (length (vs ++ todo) <= cap)%nat ->
  exists h', inserts todo h = Some h' /\ holds cap n (vs ++ todo) h'.
Proof.
  induction todo as [|v todo IH]; intros vs h Hh Hn Hnd Hin Hlen.
  - exists h. by rewrite app_nil_r.
  - rewrite cons_middle, app_assoc in Hnd, Hlen |- *.
    destruct (insert_holds cap n vs v h Hh) as (b & h1 & E1 & H1);
      try done.
    + apply Hin. rewrite elem_of_cons. by left.
    + apply NoDup_app in Hnd as (Hnd & _ & _).
      apply NoDup_app in Hnd as (_ & Hnd & _).
      intros Hv. apply (Hnd v Hv). by apply list_elem_of_singleton.
    + rewrite !length_app in Hlen. simpl in Hlen. lia.
    + destruct (IH (vs ++ [v]) h1 H1) as (h2 & E2 & H2); try done.
      * intros x Hx. apply Hin. rewrite elem_of_cons. by right.
      * exists h2. split; [|done]. simpl. by rewrite E1.
Qed.

Lemma holds_created cap n h :
  wf cap h E (seq 0 cap) -> holds cap n [] h.
Proof.
  intros W. exists E, (seq 0 cap). split; [done|].
  split; [unfold rbt; simpl; tauto|]. split; [by split|].
  split; [|done]. intros x. unfold covered. simpl.
  rewrite Exists_nil. set_solver.
Qed.

End RbProof.

Import RbTree.



(** C7: for a tree of a capacity of [m] nodes ([m] below 2^32, as a
    uint32_t is) and 1 <= [n] <= [m]: create_rb_tree and the inserts of any
    permutation of the values 0..n-1 all return, and they leave a tree of
    one node, whose value is 0 and whose offset is [n]. *)
Theorem permutation_coalesces_to_one_range (m n : Z) (p : list Z) :
  0 < n <= m -> m < 2 ^ 32 -> Permutation p (seqZ 0 n) ->
  exists t0 t,
    create_rb_tree m = Some t0 /\ inserts p t0 = Some t
    /\ ranges t = [(0, n)] /\ size t = 1.
Proof.
  intros Hn Hm Hp.
  destruct (RbProof.create_rb_tree_wf (Z.to_nat m)) as (h0 & E0 & W0);
    [lia|].
  rewrite Z2Nat.id in E0 by lia.
  destruct (RbProof.inserts_hold (Z.to_nat m) n p [] h0)
    as (h & Eh & t & fl & W & R & Hok & Hcov & Htot).
  - by apply RbProof.holds_created.
  - lia.
  - simpl. rewrite Hp. apply NoDup_seqZ.
  - intros x Hx. rewrite Hp in Hx. apply elem_of_seqZ in Hx. lia.
  - simpl. rewrite Hp, length_seqZ. lia.
  - simpl in Hcov.
    assert (Hino : RbHeap.ino t = [(0, n)]).
    { apply (RbProof.covering_ranges n); [done|lia|].
      intros x. rewrite Hcov, Hp, elem_of_seqZ. lia. }
    exists h0, h. split; [done|]. split; [done|]. split.
    + rewrite (RbProof.wf_ranges _ _ _ W), RbProof.ino_erase. done.
    + rewrite (RbHeap.wf_size _ _ _ _ W), <- RbProof.length_ino, Hino. done.
Qed.

Lemma permutation_coalesces_to_one_range_witness :
  exists t0 t,
    create_rb_tree 3 = Some t0 /\ inserts [2; 0; 1] t0 = Some t
    /\ ranges t = [(0, 3)] /\ size t = 1.
Proof.
  apply (permutation_coalesces_to_one_range 3 3 [2; 0; 1]).
  - lia.
  - reflexivity.
  - change (seqZ 0 3) with [0; 1; 2].
    eapply perm_trans; [apply perm_swap|]. apply perm_skip, perm_swap.
Defined.

(* ================================================================== *)
(** * Further properties of the code *)
(* ================================================================== *)

(** ** SDNV codec: the reader and the writer on their own *)

Lemma drop_lookup_head {A} (l : list A) (i : nat) (b : A) (r : list A) :
  drop i l = b :: r -> l !! i = Some b /\ drop (S i) l = r.
Proof.
  revert i. induction l as [|a l IH]; intros i H.
  - by rewrite drop_nil in H.
  - destruct i as [|i]; simpl in *.
    + by injection H as -> ->.
    + by apply IH.
Qed.

Lemma read_loop_decodes (block : list Z) (size idx : Z) :
  forall (bytes : list Z) (k : nat) (i acc : Z) (n0 : nat) (v : Z) (m : nat)
         (flags : Z),
  0 <= i -> drop (Z.to_nat i) block = bytes -> 0 <= acc ->
  Dacs.sdnv_decode_from bytes acc n0 = Some (v, m) -> v < 2 ^ 64 ->
  (m - n0 <= k)%nat -> i + (Z.of_nat m - Z.of_nat n0) <= size ->
  Sdnv.read_loop k block size idx i acc flags
  = Some (i + (Z.of_nat m - Z.of_nat n0) - idx, v, flags).
Proof.
  induction bytes as [|b r IH];
    intros k i acc n0 v m flags Hi Hd Hacc H Hv Hk Hsz; [discriminate|].
  pose proof (sdnv_decode_from_grows _ _ _ _ _ Hacc H) as [Hle Hnm].
  destruct k as [|k]; [lia|].
  apply drop_lookup_head in Hd as [Hb Hr].
  cbn [Sdnv.read_loop]. unfold rd.
  destruct (Z.ltb_spec i 0) as [|_]; [lia|]. rewrite Hb.
  cbn [mbind option_bind]. cbn in H.
  assert (Hd7 : 0 <= Z.land b 127) by (apply Z.land_nonneg; lia).
  assert (Hw : u64 (Z.shiftl acc 7) = Z.shiftl acc 7).
  { apply wrap_small. rewrite Z.shiftl_mul_pow2 by lia. change (2 ^ 7) with 128.
    destruct (Z.land b 128 =? 0).
    - injection H as <- <-. lia.
    - apply sdnv_decode_from_grows in H; lia. }
  rewrite Hw, lor_group by lia.
  destruct (Z.land b 128 =? 0) eqn:Hterm.
  - injection H as <- <-. do 3 f_equal. lia.
  - pose proof H as H'.
    apply sdnv_decode_from_grows in H' as [_ Hnm']; [|lia].
    destruct (Z.ltb_spec size (i + 2)) as [|_]; [lia|].
    rewrite (IH k (i + 1) _ (S n0) v m); [do 3 f_equal; lia|lia| |lia|done|done|lia|lia].
    replace (Z.to_nat (i + 1)) with (S (Z.to_nat i)) by lia. done.
Qed.

(** X1: The reader on an encoded value: for a block that holds at the index of
    the field an SDNV of [n] bytes and of a value [v] below 2^64 (the low
    seven bits of each byte, most significant group first, the last byte
    the first one with its high bit clear), the SDNV ending within [size]
    and within the width of the field when one is given, bplib_sdnv_read
    returns [n], stores [v] and leaves the flags as they are. *)
Theorem sdnv_read_decodes_encoded_value
  (block : list Z) (size : Z) (s : Sdnv.bp_sdnv_t) (flags v : Z) (n : nat) :
  0 <= Sdnv.index s ->
  Dacs.sdnv_decode (drop (Z.to_nat (Sdnv.index s)) block) = Some (v, n) ->
  v < 2 ^ 64 ->
  Sdnv.index s + Z.of_nat n <= size ->
  (Sdnv.width s < 0 \/ Sdnv.index s + Z.of_nat n <= Sdnv.width s) ->
  Sdnv.bplib_sdnv_read block size s flags
  = Some (Z.of_nat n, Sdnv.mk_sdnv v (Sdnv.index s) (Sdnv.width s), flags).
Proof.
  intros Hi Hd Hv Hsz Hw. unfold Sdnv.bplib_sdnv_read.
  unfold Dacs.sdnv_decode in Hd.
  rewrite (read_loop_decodes block size (Sdnv.index s) _ _ _ 0 O v n flags
             Hi eq_refl ltac:(lia) Hd Hv).
  - cbn. do 3 f_equal. lia.
  - destruct (Z.ltb_spec (Sdnv.width s) 0); lia.
  - lia.
Qed.

Lemma sdnv_read_decodes_encoded_value_witness :
  Sdnv.bplib_sdnv_read [7; 0x81; 0x00; 9] 4 (Sdnv.mk_sdnv 0 1 (-1)) 0
  = Some (2, Sdnv.mk_sdnv 128 1 (-1), 0).
Proof.
  apply (sdnv_read_decodes_encoded_value [7; 0x81; 0x00; 9] 4
           (Sdnv.mk_sdnv 0 1 (-1)) 0 128 2).
  - simpl. lia.
  - reflexivity.
  - reflexivity.
  - simpl. lia.
  - left. simpl. lia.
Defined.

(** The reader where no byte ends the SDNV. *)
Lemma read_loop_unterminated (block : list Z) (size idx lim : Z) :
  forall (k : nat) (i acc flags : Z),
  0 <= i -> i + Z.of_nat k = lim -> lim <= size ->
  lim <= Z.of_nat (length block) ->
  (forall j b, i <= j < lim -> block !! Z.to_nat j = Some b ->
               Z.land b 0x80 <> 0) ->
  exists v,
    Sdnv.read_loop k block size idx i acc flags
    = Some (lim - idx, v,
            Z.lor (if (0 <? Z.of_nat k) && (size <=? lim)
                   then Z.lor flags Sdnv.BP_SDNV_INCOMPLETE else flags)
                  Sdnv.BP_SDNV_OVERFLOW).
Proof.
  induction k as [|k IH]; intros i acc flags Hi Hk Hlim Hlen Hall.
  - exists acc. cbn. do 3 f_equal. lia.
  - cbn [Sdnv.read_loop]. unfold rd.
    destruct (Z.ltb_spec i 0) as [|_]; [lia|].
    destruct (lookup_lt_is_Some_2 block (Z.to_nat i)) as [b Hb]; [lia|].
    rewrite Hb. cbn [mbind option_bind].
    destruct (Z.eqb_spec (Z.land b 128) 0) as [E|_].
    { exfalso. by apply (Hall i b ltac:(lia) Hb). }
    set (acc' := Z.lor _ _).
    set (flags' := if size <? i + 2 then _ else _).
    destruct (IH (i + 1) acc' flags') as (v & Hv); try lia.
    { intros j b' Hj. apply Hall. lia. }
    exists v. rewrite Hv. do 2 f_equal. subst flags'.
    change (0 <? Z.of_nat (S k)) with true. cbn [andb].
    destruct (Z.ltb_spec 0 (Z.of_nat k)), (Z.leb_spec size lim),
      (Z.ltb_spec size (i + 2)); cbn [andb]; try lia; reflexivity.
Qed.

(** X2: The reader without a last byte: when every byte from the index of the
    field up to the bound of the loop (the width, or the size when there
    is no width or the size is smaller) has its high bit set, the reader
    returns the number of bytes up to the bound, raises the overflow flag,
    and raises the incomplete flag as well when it read up to the size. *)
Theorem sdnv_read_flags_missing_end
  (block : list Z) (size : Z) (s : Sdnv.bp_sdnv_t) (flags : Z) :
  let lim := Z.min (if Sdnv.width s <? 0 then size else Sdnv.width s) size in
  0 <= Sdnv.index s -> lim <= Z.of_nat (length block) ->
  (forall j b, Sdnv.index s <= j < lim -> block !! Z.to_nat j = Some b ->
               Z.land b 0x80 <> 0) ->
  exists v,
    Sdnv.bplib_sdnv_read block size s flags
    = Some (Z.max 0 (lim - Sdnv.index s),
            Sdnv.mk_sdnv v (Sdnv.index s) (Sdnv.width s),
            Z.lor (if (Sdnv.index s <? lim) && (size <=? lim)
                   then Z.lor flags Sdnv.BP_SDNV_INCOMPLETE else flags)
                  Sdnv.BP_SDNV_OVERFLOW).
Proof.
  intros lim Hi Hlen Hall. unfold Sdnv.bplib_sdnv_read. fold lim.
  destruct (Z.le_gt_cases lim (Sdnv.index s)) as [Hle|Hgt].
  - replace (Z.to_nat (lim - Sdnv.index s)) with O by lia.
    exists 0. cbn. destruct (Z.ltb_spec (Sdnv.index s) lim); [lia|].
    cbn. do 3 f_equal. lia.
  - destruct (read_loop_unterminated block size (Sdnv.index s) lim
                (Z.to_nat (lim - Sdnv.index s)) (Sdnv.index s) 0 flags)
      as (v & Hv); try lia; [done|].
    exists v. rewrite Hv. cbn.
    destruct (Z.ltb_spec 0 (Z.of_nat (Z.to_nat (lim - Sdnv.index s))));
      [|lia].
    destruct (Z.ltb_spec (Sdnv.index s) lim); [|lia].
    do 3 f_equal. lia.
Qed.

Lemma sdnv_read_flags_missing_end_witness :
  exists v,
    Sdnv.bplib_sdnv_read [0x81; 0x82; 0x83] 3 (Sdnv.mk_sdnv 0 1 (-1)) 0
    = Some (2, Sdnv.mk_sdnv v 1 (-1), 3).
Proof.
  apply (sdnv_read_flags_missing_end [0x81; 0x82; 0x83] 3
           (Sdnv.mk_sdnv 0 1 (-1)) 0).
  - simpl. lia.
  - simpl. lia.
  - simpl. intros j b Hj.
    assert (j = 1 \/ j = 2) as [-> | ->] by lia; simpl; intros [= <-]; done.
Defined.

(** The bytes the write loop leaves: [n] bytes from index [i] down, each
    one but the byte at index 0 with its high bit set. *)
Lemma land_continuation (v : Z) : Z.land (u8 (Z.lor v 0x80)) 0x80 = 0x80.
Proof.
  unfold u8, wrap. apply Z.bits_inj'. intros i Hi.
  rewrite Z.land_spec. change 128 with (2 ^ 7).
  rewrite Z.pow2_bits_eqb by lia.
  destruct (Z.eqb_spec 7 i) as [<-|Hne]; [|by rewrite andb_false_r].
  rewrite Z.mod_pow2_bits_low by lia. rewrite Z.lor_spec.
  rewrite Z.pow2_bits_true by lia. by rewrite orb_true_r.
Qed.

Lemma write_loop_bytes : forall (n : nat) (block : list Z) (i v : Z),
  Z.of_nat n <= i + 1 -> i < Z.of_nat (length block) ->
  exists block',
    Sdnv.write_loop n block i v
    = Some (block', Z.shiftr v (7 * Z.of_nat n))
    /\ length block' = length block
    /\ (forall j : nat, i < Z.of_nat j \/ Z.of_nat j < i - Z.of_nat n + 1 ->
          block' !! j = block !! j)
    /\ (forall j : nat, i - Z.of_nat n + 1 <= Z.of_nat j <= i -> j <> O ->
          exists b, block' !! j = Some b /\ Z.land b 0x80 = 0x80).
Proof.
  induction n as [|n IH]; intros block i v Hn Hi.
  - exists block. cbn [Sdnv.write_loop].
    split; [by rewrite Z.mul_0_r, Z.shiftr_0_r|].
    split; [done|]. split; [done|]. intros j Hj. lia.
  - cbn [Sdnv.write_loop].
    set (byte := if i =? 0 then _ else _).
    assert (Hwr : wr block i byte = Some (<[Z.to_nat i := byte]> block)).
    { unfold wr. destruct (Z.ltb_spec i 0); [lia|].
      by destruct (Z.leb_spec (Z.of_nat (length block)) i); [lia|]. }
    rewrite Hwr. cbn [mbind option_bind].
    destruct (IH (<[Z.to_nat i := byte]> block) (i - 1) (Z.shiftr v 7))
      as (b' & H1 & H2 & H3 & H4); [lia|rewrite length_insert; lia|].
    exists b'. rewrite H1, Z.shiftr_shiftr by lia.
    split; [do 3 f_equal; lia|]. split; [by rewrite H2, length_insert|].
    split.
    + intros j Hj. rewrite H3 by lia.
      apply list_lookup_insert_ne. lia.
    + intros j Hj Hj0. destruct (Z.eq_dec (Z.of_nat j) i) as [Hji|Hji].
      * rewrite H3 by lia. exists byte. split.
        -- replace (Z.to_nat i) with j by lia.
           apply list_lookup_insert_eq. lia.
        -- subst byte. destruct (Z.eqb_spec i 0); [lia|].
           apply land_continuation.
      * apply H4; [lia|done].
Qed.

Lemma shiftr_pos (v n : Z) :
  0 <= v -> 0 <= n -> (0 <? Z.shiftr v n) = (2 ^ n <=? v).
Proof.
  intros Hv Hn. rewrite Z.shiftr_div_pow2 by lia.
  assert (0 < 2 ^ n) by (apply Z.pow_pos_nonneg; lia).
  destruct (Z.leb_spec (2 ^ n) v) as [Hle|Hlt].
  - apply Z.ltb_lt. apply Z.div_str_pos. lia.
  - rewrite Z.div_small by lia. done.
Qed.

(** X3: The writer at a fixed width: for a field of width [w >= 1] that fits
    the size, the writer returns [w] and writes the [w + 1] bytes from the
    index of the field on, whatever the block held there: the byte after
    the field is written as well.  Every byte it writes but the byte at
    index 0 has its high bit set, the other bytes of the block are left
    alone, and the overflow flag is raised when the value has more than
    [7 (w + 1)] bits. *)
Theorem sdnv_write_fixed_width_writes_one_more
  (block : list Z) (size : Z) (s : Sdnv.bp_sdnv_t) (flags : Z) :
  0 <= Sdnv.index s -> 1 <= Sdnv.width s <= size - Sdnv.index s ->
  Sdnv.index s + Sdnv.width s < Z.of_nat (length block) ->
  0 <= Sdnv.value s ->
  exists block',
    Sdnv.bplib_sdnv_write block size s flags
    = Some (Sdnv.width s, block',
            if 2 ^ (7 * (Sdnv.width s + 1)) <=? Sdnv.value s
            then Z.lor flags Sdnv.BP_SDNV_OVERFLOW else flags)
    /\ length block' = length block
    /\ (forall j : nat,
          Z.of_nat j < Sdnv.index s
          \/ Sdnv.index s + Sdnv.width s < Z.of_nat j ->
          block' !! j = block !! j)
    /\ (forall j : nat,
          Sdnv.index s <= Z.of_nat j <= Sdnv.index s + Sdnv.width s ->
          j <> O ->
          exists b, block' !! j = Some b /\ Z.land b 0x80 = 0x80).
Proof.
  intros Hi Hw Hlen Hv. unfold Sdnv.bplib_sdnv_write.
  destruct (Z.leb_spec (Sdnv.width s) 0) as [|_]; [lia|].
  destruct (Z.leb_spec (Sdnv.width s) (size - Sdnv.index s)) as [_|]; [|lia].
  destruct (write_loop_bytes (Z.to_nat (Sdnv.width s + 1)) block
              (Sdnv.width s + Sdnv.index s) (Sdnv.value s))
    as (b' & H1 & H2 & H3 & H4); [lia|lia|].
  exists b'. rewrite H1. cbn [mbind option_bind].
  rewrite shiftr_pos by lia. rewrite Z2Nat.id by lia.
  split; [done|]. split; [done|]. split.
  - intros j Hj. apply H3. lia.
  - intros j Hj Hj0. apply H4; [lia|done].
Qed.

Lemma sdnv_write_fixed_width_writes_one_more_witness :
  exists block',
    Sdnv.bplib_sdnv_write [9; 9; 9; 9; 9] 4 (Sdnv.mk_sdnv 5 1 2) 0
    = Some (2, block', 0)
    /\ length block' = 5%nat
    /\ (forall j : nat, Z.of_nat j < 1 \/ 1 + 2 < Z.of_nat j ->
          block' !! j = [9; 9; 9; 9; 9] !! j)
    /\ (forall j : nat, 1 <= Z.of_nat j <= 1 + 2 -> j <> O ->
          exists b, block' !! j = Some b /\ Z.land b 0x80 = 0x80).
Proof.
  apply (sdnv_write_fixed_width_writes_one_more [9; 9; 9; 9; 9] 4
           (Sdnv.mk_sdnv 5 1 2) 0); simpl; lia.
Defined.

(** X4: The writer at the end of the block: a field of fixed width that
    reaches the size or lies across it, in a block of [size] bytes, is
    written from the byte at index [size] down, which is outside the
    block. *)
Theorem sdnv_write_at_end_is_out_of_bounds
  (block : list Z) (size : Z) (s : Sdnv.bp_sdnv_t) (flags : Z) :
  Z.of_nat (length block) <= size -> 0 <= Sdnv.index s <= size ->
  0 < Sdnv.width s -> size - Sdnv.index s <= Sdnv.width s ->
  Sdnv.bplib_sdnv_write block size s flags = None.
Proof.
  intros Hlen Hi Hw Hend. unfold Sdnv.bplib_sdnv_write.
  destruct (Z.leb_spec (Sdnv.width s) 0) as [|_]; [lia|].
  assert (Hmb : forall mb fl, mb = size - Sdnv.index s ->
            ('(block', v') ← Sdnv.write_loop (Z.to_nat (mb + 1)) block
                                (mb + Sdnv.index s) (Sdnv.value s);
             Some (mb, block', if 0 <? v' then Z.lor fl Sdnv.BP_SDNV_OVERFLOW
                               else fl)) = None).
  { intros mb fl ->.
    replace (Z.to_nat (size - Sdnv.index s + 1))
      with (S (Z.to_nat (size - Sdnv.index s))) by lia.
    cbn [Sdnv.write_loop]. unfold wr.
    destruct (Z.leb_spec (Z.of_nat (length block))
                (size - Sdnv.index s + Sdnv.index s)) as [_|]; [|lia].
    by rewrite orb_true_r. }
  destruct (Z.leb_spec (Sdnv.width s) (size - Sdnv.index s)).
  - apply Hmb. lia.
  - by apply Hmb.
Qed.

Lemma sdnv_write_at_end_is_out_of_bounds_witness :
  Sdnv.bplib_sdnv_write [0; 0; 0; 0] 4 (Sdnv.mk_sdnv 5 2 2) 0 = None.
Proof.
  apply sdnv_write_at_end_is_out_of_bounds; simpl; lia.
Defined.

Lemma land_lor_flag (x f : Z) : Z.land (Z.lor x f) f = f.
Proof.
  apply Z.bits_inj'. intros i _. rewrite Z.land_spec, Z.lor_spec.
  by destruct (Z.testbit x i), (Z.testbit f i).
Qed.

(** X5: Writing a field and reading it back, away from the start of the
    block: for a field at an index of 1 or more, of width [w >= 1] within
    the size, in a block with room for the [w + 1] bytes written, the
    writer returns and the reader, given the block written and the same
    field, returns with the overflow flag raised: no byte of the field
    ends the SDNV. *)
Theorem sdnv_field_past_start_reads_back_overflow
  (block : list Z) (size : Z) (s : Sdnv.bp_sdnv_t) (flags : Z) :
  1 <= Sdnv.index s -> 1 <= Sdnv.width s <= size - Sdnv.index s ->
  Sdnv.index s + Sdnv.width s < Z.of_nat (length block) ->
  0 <= Sdnv.value s ->
  exists block' wflags ret s' rflags,
    Sdnv.bplib_sdnv_write block size s flags
    = Some (Sdnv.width s, block', wflags)
    /\ Sdnv.bplib_sdnv_read block' size s wflags = Some (ret, s', rflags)
    /\ Z.land rflags Sdnv.BP_SDNV_OVERFLOW = Sdnv.BP_SDNV_OVERFLOW.
Proof.
  intros Hi Hw Hlen Hv. unfold Sdnv.bplib_sdnv_write.
  destruct (Z.leb_spec (Sdnv.width s) 0) as [|_]; [lia|].
  destruct (Z.leb_spec (Sdnv.width s) (size - Sdnv.index s)) as [_|]; [|lia].
  destruct (write_loop_bytes (Z.to_nat (Sdnv.width s + 1)) block
              (Sdnv.width s + Sdnv.index s) (Sdnv.value s))
    as (b' & H1 & H2 & H3 & H4); [lia|lia|].
  rewrite H1. cbn [mbind option_bind].
  set (wflags := if 0 <? _ then _ else _).
  exists b', wflags. unfold Sdnv.bplib_sdnv_read.
  destruct (Z.ltb_spec (Sdnv.width s) 0) as [|_]; [lia|].
  set (lim := Z.min (Sdnv.width s) size).
  destruct (read_loop_unterminated b' size (Sdnv.index s)
              (Z.max lim (Sdnv.index s))
              (Z.to_nat (lim - Sdnv.index s)) (Sdnv.index s) 0 wflags)
    as (v & Hv'); try lia.
  { intros j b Hj Hb. destruct (H4 (Z.to_nat j)) as (b0 & Hb0 & Hc);
      [lia|lia|]. rewrite Hb in Hb0. injection Hb0 as <-. rewrite Hc. done. }
  rewrite Hv'. cbn [mbind option_bind].
  eexists _, _, _. split; [reflexivity|]. split; [reflexivity|].
  apply land_lor_flag.
Qed.

Lemma sdnv_field_past_start_reads_back_overflow_witness :
  exists block' wflags ret s' rflags,
    Sdnv.bplib_sdnv_write [0; 0; 0; 0; 0] 5 (Sdnv.mk_sdnv 5 1 2) 0
    = Some (2, block', wflags)
    /\ Sdnv.bplib_sdnv_read block' 5 (Sdnv.mk_sdnv 5 1 2) wflags
       = Some (ret, s', rflags)
    /\ Z.land rflags Sdnv.BP_SDNV_OVERFLOW = Sdnv.BP_SDNV_OVERFLOW.
Proof.
  apply (sdnv_field_past_start_reads_back_overflow [0; 0; 0; 0; 0] 5
           (Sdnv.mk_sdnv 5 1 2) 0); simpl; lia.
Defined.

(** ** Aggregate custody signal reader: a record that acknowledges nothing *)

Section DacsReadWithoutAck.

Variable bits : Z.
Variable sdnv_read :
  list Z -> Z -> Dacs.bp_sdnv_t -> Z -> Z * Dacs.bp_sdnv_t * Z.
Context {A : Type}.
Variable ack : A -> Z -> Z * A.

(** Without the acknowledgment bit the fill loop, when it ends, hands back
    the count and the object of the callback it was given. *)
Lemma fill_loop_skips (fuel : nat) (rec : list Z) (rec_size : Z) :
  forall cid fill cidin (parm : A) count flags,
    Dacs.fill_loop bits sdnv_read ack fuel rec rec_size cid fill cidin
                   false parm count flags = None
    \/ Dacs.fill_loop bits sdnv_read ack fuel rec rec_size cid fill cidin
                      false parm count flags = Some (count, parm)
    \/ Dacs.fill_loop bits sdnv_read ack fuel rec rec_size cid fill cidin
                      false parm count flags
       = Some (BP_BUNDLEPARSEERR, parm).
Proof.
  induction fuel as [|fuel IH]; intros cid fill cidin parm count flags;
    [by left|].
  cbn [Dacs.fill_loop].
  destruct (Dacs.index fill <? rec_size).
  - destruct (sdnv_read rec rec_size fill flags) as [[next fill1] flags1].
    destruct (negb (flags1 =? 0)); [by right; right|].
    rewrite andb_false_r. cbn [mbind option_bind]. apply IH.
  - destruct (negb (flags =? 0)); [by right; right|by right; left].
Qed.

Lemma land_no_ack (status : Z) :
  Z.testbit status 0 = false -> Z.land status 0x01 = 0.
Proof.
  intros Hb. apply Z.bits_inj'. intros i Hi.
  rewrite Z.land_spec, Z.bits_0.
  destruct (Z.eq_dec i 0) as [->|Hne]; [by rewrite Hb|].
  change 1 with (2 ^ 0). rewrite Z.pow2_bits_false by lia.
  apply andb_false_r.
Qed.

(** X6: a record without the acknowledgment bit acknowledges nothing,
    whatever the record holds and whatever sdnv_read makes of it: when
    bit 0 of the status byte is clear, dacs_read never calls the
    callback; a call that returns hands back the object of the callback
    as it was given, with the result 0 or the parse error.  ([None]: the
    fill loop has not ended within [fuel] turns.) *)
Theorem dacs_read_without_ack_bit_acknowledges_nothing
        (rec : list Z) (rec_size status : Z) (parm : A) (fuel : nat) :
  rd rec Dacs.BP_ACS_REC_STATUS_INDEX = Some status ->
  Z.testbit status 0 = false ->
  Dacs.dacs_read bits sdnv_read ack fuel rec rec_size parm = None
  \/ Dacs.dacs_read bits sdnv_read ack fuel rec rec_size parm
     = Some (0, parm)
  \/ Dacs.dacs_read bits sdnv_read ack fuel rec rec_size parm
     = Some (BP_BUNDLEPARSEERR, parm).
Proof.
  intros Hrd Hbit. unfold Dacs.dacs_read. rewrite Hrd.
  cbn [mbind option_bind]. unfold Dacs.BP_ACS_ACK_MASK.
  rewrite land_no_ack by done. change (0 =? 1) with false.
  destruct (sdnv_read rec rec_size _ 0) as [[next cid1] flags].
  destruct (negb (flags =? 0)); [by right; right|].
  apply fill_loop_skips.
Qed.

End DacsReadWithoutAck.

Lemma dacs_read_without_ack_bit_acknowledges_nothing_witness :
  let ack := fun (log : list Z) (cid : Z) => (BP_SUCCESS, log ++ [cid]) in
  let rec := [0x40; 0x00; 1; 3; 3; 2; 1; 1] in
  Dacs.dacs_read 32 (Dacs.sdnv_read_next 32) ack 8 rec 8 [] = None
  \/ Dacs.dacs_read 32 (Dacs.sdnv_read_next 32) ack 8 rec 8 [] = Some (0, [])
  \/ Dacs.dacs_read 32 (Dacs.sdnv_read_next 32) ack 8 rec 8 []
     = Some (BP_BUNDLEPARSEERR, []).
Proof.
  apply (dacs_read_without_ack_bit_acknowledges_nothing 32
           (Dacs.sdnv_read_next 32)
           (fun (log : list Z) (cid : Z) => (BP_SUCCESS, log ++ [cid]))
           [0x40; 0x00; 1; 3; 3; 2; 1; 1] 8 0x00 [] 8).
  - reflexivity.
  - reflexivity.
Defined.

(** ** EID writer and parser together *)

Lemma digit_bounds (c : ascii) (d : Z) :
  Eid.digit c = Some d -> (48 <= nat_of_ascii c <= 57)%nat.
Proof.
  unfold Eid.digit.
  destruct (Nat.leb_spec 48 (nat_of_ascii c)),
    (Nat.leb_spec (nat_of_ascii c) 57); cbn; intros; try discriminate; lia.
Qed.

Lemma digit_ascii (d : Z) :
  0 <= d < 10 -> Eid.digit (ascii_of_nat (48 + Z.to_nat d)) = Some d.
Proof.
  intros Hd. unfold Eid.digit.
  rewrite nat_ascii_embedding by lia.
  destruct (Nat.leb_spec 48 (48 + Z.to_nat d)); [|lia].
  destruct (Nat.leb_spec (48 + Z.to_nat d) 57); [|lia].
  cbn. f_equal. lia.
Qed.

Lemma utoa_loop_digits (f : nat) : forall (n : Z) (acc : list ascii),
  0 <= n < 10 ^ Z.of_nat f -> (0 < f)%nat ->
  exists ds,
    Eid.utoa_loop f n acc = ds ++ acc /\ ds <> []
    /\ Forall (fun c => is_Some (Eid.digit c)) ds
    /\ (forall s a k,
          Eid.digits (ds ++ s) a k
          = Eid.digits s (a * 10 ^ Z.of_nat (length ds) + n)
                       (k + length ds)%nat).
Proof.
  induction f as [|f IH]; intros n acc Hn Hf; [lia|].
  cbn [Eid.utoa_loop].
  assert (Hm : 0 <= n mod 10 < 10) by (apply Z.mod_pos_bound; lia).
  set (c := ascii_of_nat (48 + Z.to_nat (n mod 10))).
  assert (Hc : Eid.digit c = Some (n mod 10)) by (by apply digit_ascii).
  destruct (Z.ltb_spec n 10) as [Hlt|Hge].
  - exists [c]. split; [done|]. split; [done|]. split.
    + constructor; [by rewrite Hc|constructor].
    + intros s a k. cbn. rewrite Hc. rewrite Z.mod_small in * by lia.
      f_equal; lia.
  - destruct f as [|f']; [simpl in Hn; lia|].
    destruct (IH (n / 10) (c :: acc)) as (ds & E & Hne & Hall & Hd).
    { split; [apply Z.div_pos; lia|].
      apply Z.div_lt_upper_bound; [lia|].
      rewrite Nat2Z.inj_succ, Z.pow_succ_r in Hn by lia. lia. }
    { lia. }
    exists (ds ++ [c]). split; [by rewrite E, <- app_assoc|].
    split; [by destruct ds|]. split.
    + apply Forall_app. split; [done|]. constructor; [by rewrite Hc|constructor].
    + intros s a k. rewrite <- app_assoc. rewrite Hd. cbn. rewrite Hc.
      rewrite length_app. cbn [length].
      f_equal; [|lia].
      replace (Z.of_nat (length ds + 1)) with (Z.succ (Z.of_nat (length ds)))
        by lia.
      rewrite Z.pow_succ_r by lia.
      pose proof (Z.div_mod n 10 ltac:(lia)). lia.
Qed.

Lemma utoa_digits (n : Z) :
  0 <= n <= Eid.ULONG_MAX ->
  Eid.utoa n <> []
  /\ Forall (fun c => is_Some (Eid.digit c)) (Eid.utoa n)
  /\ (forall s, Eid.no_digit_ahead s ->
        Eid.digits (Eid.utoa n ++ s) 0 O = (n, length (Eid.utoa n))).
Proof.
  intros Hn. unfold Eid.utoa.
  destruct (utoa_loop_digits 20 n []) as (ds & E & Hne & Hall & Hd).
  { unfold Eid.ULONG_MAX in Hn. split; [lia|].
    eapply Z.le_lt_trans; [apply Hn|]. reflexivity. }
  { lia. }
  rewrite E, app_nil_r. split; [done|]. split; [done|].
  intros s Hs. rewrite Hd. cbn.
  destruct s as [|c s]; cbn; [done|]. simpl in Hs. by rewrite Hs.
Qed.

Lemma digit_char_facts (c : ascii) :
  is_Some (Eid.digit c) ->
  Ascii.eqb c Eid.NUL = false /\ Ascii.eqb c "."%char = false
  /\ Eid.isspace c = false /\ Ascii.eqb c "-"%char = false
  /\ Ascii.eqb c "+"%char = false.
Proof.
  intros [d Hd]. apply digit_bounds in Hd.
  assert (Hne : forall (x : ascii) (k : nat),
            nat_of_ascii x = k -> (k < 48 \/ 57 < k)%nat ->
            Ascii.eqb c x = false).
  { intros x k Hx Hk. destruct (Ascii.eqb_spec c x) as [->|]; [lia|done]. }
  split; [apply (Hne _ 0%nat); [done|lia]|].
  split; [apply (Hne _ 46%nat); [done|lia]|].
  split; [|split; [apply (Hne _ 45%nat); [done|lia]
                  |apply (Hne _ 43%nat); [done|lia]]].
  unfold Eid.isspace.
  destruct (Nat.eqb_spec (nat_of_ascii c) 32); [lia|].
  destruct (Nat.leb_spec 9 (nat_of_ascii c)),
    (Nat.leb_spec (nat_of_ascii c) 13); cbn; try done; lia.
Qed.

Lemma cstring_app (xs ys : list ascii) :
  Eid.NUL ∉ xs -> Eid.cstring (xs ++ Eid.NUL :: ys) = xs.
Proof.
  induction xs as [|c r IH]; intros H; cbn.
  - done.
  - destruct (Ascii.eqb_spec c Eid.NUL) as [->|Hne].
    + exfalso. apply H. left.
    + f_equal. apply IH. intros Hin. apply H. by right.
Qed.

Lemma strchr_app (xs ys : list ascii) (ch : ascii) :
  Eid.NUL ∉ xs -> ch ∉ xs -> ch <> Eid.NUL ->
  Eid.strchr (xs ++ ch :: ys) ch = Some (length xs).
Proof.
  induction xs as [|c r IH]; intros H0 Hch Hne; cbn.
  - destruct (Ascii.eqb_spec ch Eid.NUL); [done|].
    by rewrite Ascii.eqb_refl.
  - destruct (Ascii.eqb_spec c Eid.NUL) as [->|].
    { exfalso. apply H0. left. }
    destruct (Ascii.eqb_spec c ch) as [->|].
    { exfalso. apply Hch. left. }
    rewrite IH; [done| | |done].
    + intros Hin. apply H0. by right.
    + intros Hin. apply Hch. by right.
Qed.

Lemma drop_past {A} (xs : list A) (c : A) (rest : list A) :
  drop (S (length xs)) (xs ++ c :: rest) = rest.
Proof. induction xs as [|x xs IH]; [done|]. exact IH. Qed.

Lemma digits_no_char (ds : list ascii) (x : ascii) :
  Forall (fun c => is_Some (Eid.digit c)) ds -> Eid.digit x = None ->
  x ∉ ds.
Proof.
  intros Hall Hx Hin. rewrite Forall_forall in Hall.
  destruct (Hall x Hin) as [d Hd]. congruence.
Qed.

(** [strtoul] on the digits of a number followed by no digit. *)
Lemma strtoul_utoa (n : Z) (s : list ascii) :
  0 <= n <= Eid.ULONG_MAX -> Eid.no_digit_ahead s ->
  Eid.strtoul (Eid.utoa n ++ s) = (n, length (Eid.utoa n), false).
Proof.
  intros Hn Hs. destruct (utoa_digits n Hn) as (Hne & Hall & Hd).
  specialize (Hd s Hs). unfold Eid.strtoul.
  destruct (Eid.utoa n) as [|c ds] eqn:E; [done|].
  apply Forall_cons in Hall as [Hc Hall].
  destruct (digit_char_facts c Hc) as (_ & _ & Hsp & Hmi & Hpl).
  cbn [app Eid.skip_spaces]. rewrite Hsp, Hmi, Hpl.
  cbn [app] in Hd. rewrite Hd. cbn [length].
  destruct (Z.ltb_spec Eid.ULONG_MAX n); [lia|]. done.
Qed.

Lemma eid2ipn_numbers (max bits n s : Z) (j1 j2 : list ascii) :
  0 <= n <= Eid.ULONG_MAX -> 0 <= s <= Eid.ULONG_MAX ->
  Eid.junk j1 -> ("."%char ∉ j1) -> Eid.junk j2 ->
  let eid := Eid.chars "ipn:" ++ Eid.utoa n ++ j1
             ++ Eid.chars "." ++ Eid.utoa s ++ j2 in
  Z.of_nat (length eid) <= max ->
  Eid.bplib_eid2ipn max bits (Some eid) (Z.of_nat (length eid))
  = Some (BP_SUCCESS, Some (wrap bits n, wrap bits s)).
Proof.
  intros Hn Hs [H01 Hj1] Hdot [H02 Hj2] eid Hmax.
  destruct (utoa_digits n Hn) as (Hnne & Hnall & _).
  destruct (utoa_digits s Hs) as (Hsne & Hsall & _).
  assert (Hln : (1 <= length (Eid.utoa n))%nat)
    by (destruct (Eid.utoa n); [done|simpl; lia]).
  assert (Hls : (1 <= length (Eid.utoa s))%nat)
    by (destruct (Eid.utoa s); [done|simpl; lia]).
  set (body := Eid.utoa n ++ j1 ++ Eid.chars "." ++ Eid.utoa s ++ j2).
  assert (Heid : eid = Eid.chars "ipn:" ++ body) by done.
  assert (Hlen : length eid = (4 + length body)%nat)
    by (rewrite Heid, length_app; done).
  assert (Hbody : (3 <= length body)%nat).
  { unfold body. rewrite !length_app. cbn [Eid.chars length list_ascii_of_string]. lia. }
  unfold Eid.bplib_eid2ipn.
  destruct (Z.ltb_spec (Z.of_nat (length eid)) 7); [lia|].
  destruct (Z.ltb_spec max (Z.of_nat (length eid))); [lia|].
  rewrite Heid at 1. cbn [Eid.chars list_ascii_of_string app Eid.bad_scheme].
  cbn [Ascii.eqb Bool.eqb negb orb].
  unfold Eid.copy_tail.
  destruct (Z.ltb_spec (Z.of_nat (length eid) + 1)
              (4 + (Z.of_nat (length eid) - 4))); [lia|].
  cbn [mbind option_bind].
  assert (Hcopy : take (Z.to_nat (Z.of_nat (length eid) - 4))
                    (drop 4 (eid ++ [Eid.NUL])) = body).
  { replace (Z.to_nat (Z.of_nat (length eid) - 4)) with (length body) by lia.
    rewrite Heid, <- app_assoc. cbn [Eid.chars list_ascii_of_string app drop].
    by rewrite drop_0, take_app_length. }
  rewrite Hcopy.
  assert (Hnod : forall x, Eid.digit x = None -> x ∉ Eid.utoa n)
    by (intros; by apply digits_no_char).
  assert (Hsod : forall x, Eid.digit x = None -> x ∉ Eid.utoa s)
    by (intros; by apply digits_no_char).
  assert (Hpre0 : Eid.NUL ∉ Eid.utoa n ++ j1).
  { intros Hin. apply elem_of_app in Hin as [Hin|Hin]; [|done].
    by apply (Hnod Eid.NUL). }
  assert (Hpred : "."%char ∉ Eid.utoa n ++ j1).
  { intros Hin. apply elem_of_app in Hin as [Hin|Hin]; [|done].
    by apply (Hnod "."%char). }
  assert (Etmp : body ++ [Eid.NUL]
                 = (Eid.utoa n ++ j1) ++ "."%char
                   :: (Eid.utoa s ++ j2 ++ [Eid.NUL])).
  { unfold body. cbn [Eid.chars list_ascii_of_string].
    rewrite <- !app_assoc. done. }
  rewrite Etmp, strchr_app by done.
  rewrite take_app_length.
  rewrite cstring_app by done.
  rewrite strtoul_utoa by done.
  destruct (Nat.eqb_spec (length (Eid.utoa n)) 0) as [|_]; [lia|].
  unfold Eid.range_error. rewrite andb_false_r. cbn [orb].
  rewrite drop_past.
  rewrite (app_assoc (Eid.utoa s) j2 [Eid.NUL]).
  rewrite cstring_app.
  2:{ intros Hin. apply elem_of_app in Hin as [Hin|Hin]; [|done].
      by apply (Hsod Eid.NUL). }
  rewrite strtoul_utoa by done.
  destruct (Nat.eqb_spec (length (Eid.utoa s)) 0) as [|_]; [lia|].
  by rewrite andb_false_r.
Qed.

Lemma ipn_text_no_nul (node service : Z) :
  0 <= node <= Eid.ULONG_MAX -> 0 <= service <= Eid.ULONG_MAX ->
  Eid.NUL ∉ Eid.ipn_text node service.
Proof.
  intros Hn Hs.
  destruct (utoa_digits node Hn) as (_ & Hnall & _).
  destruct (utoa_digits service Hs) as (_ & Hsall & _).
  unfold Eid.ipn_text. cbn [Eid.chars list_ascii_of_string app].
  intros Hin.
  repeat (apply elem_of_cons in Hin as [Hin|Hin]; [discriminate Hin|]).
  apply elem_of_app in Hin as [Hin|Hin];
    [by apply (digits_no_char _ Eid.NUL Hnall)|].
  apply elem_of_cons in Hin as [Hin|Hin]; [discriminate Hin|].
  by apply (digits_no_char _ Eid.NUL Hsall).
Qed.

(** What bplib_ipn2eid leaves in the buffer. *)
Lemma ipn2eid_buffer (max node service len : Z) (buf : list ascii) :
  0 <= node <= Eid.ULONG_MAX -> 0 <= service <= Eid.ULONG_MAX ->
  7 <= len <= max -> len <= Z.of_nat (length buf) ->
  exists buf',
    Eid.bplib_ipn2eid max (Some buf) len node service
    = Some (BP_SUCCESS, Some buf')
    /\ length buf' = length buf
    /\ Eid.cstring buf'
       = take (Z.to_nat (len - 1)) (Eid.ipn_text node service)
    /\ drop (Z.to_nat len) buf' = drop (Z.to_nat len) buf.
Proof.
  intros Hn Hs Hlen Hbuf. unfold Eid.bplib_ipn2eid, Eid.bplib_os_format.
  destruct (Z.ltb_spec len 7); [lia|]. destruct (Z.ltb_spec max len); [lia|].
  destruct (Z.leb_spec len 0); [lia|].
  set (text := Eid.ipn_text node service).
  set (cut := take (Z.to_nat (len - 1)) text).
  assert (Hcut : (length cut <= Z.to_nat (len - 1))%nat)
    by (unfold cut; rewrite length_take; lia).
  assert (Hout : length (cut ++ [Eid.NUL]) = S (length cut))
    by (rewrite length_app; simpl; lia).
  rewrite Hout.
  destruct (Nat.ltb_spec (length buf) (S (length cut))); [lia|].
  cbn [mbind option_bind]. eexists. split; [reflexivity|].
  split; [|split].
  - rewrite !length_app, length_drop. simpl. lia.
  - rewrite <- app_assoc. cbn [app]. apply cstring_app.
    intros Hin. apply elem_of_take in Hin as (i & Hi & _).
    apply list_elem_of_lookup_2 in Hi. by apply (ipn_text_no_nul node service).
  - rewrite drop_app_ge by lia. rewrite drop_drop. f_equal. lia.
Qed.

(** X9: bplib_ipn2eid reports success for every buffer length from 7 to the
    maximum, whether the EID fits or not: the buffer then holds the first
    [len - 1] characters of "ipn:<node>.<service>" and a terminator, and
    the bytes from index [len] on are left alone. *)
Theorem ipn2eid_cuts_eid_to_buffer
  (max node service len : Z) (buf : list ascii) :
  0 <= node <= Eid.ULONG_MAX -> 0 <= service <= Eid.ULONG_MAX ->
  7 <= len <= max -> len <= Z.of_nat (length buf) ->
  exists buf',
    Eid.bplib_ipn2eid max (Some buf) len node service
    = Some (BP_SUCCESS, Some buf')
    /\ length buf' = length buf
    /\ Eid.cstring buf'
       = take (Z.to_nat (len - 1)) (Eid.ipn_text node service)
    /\ drop (Z.to_nat len) buf' = drop (Z.to_nat len) buf.
Proof. apply ipn2eid_buffer. Qed.

Lemma ipn2eid_cuts_eid_to_buffer_witness :
  exists buf',
    Eid.bplib_ipn2eid 128 (Some (replicate 8 "x"%char)) 7 12345 6
    = Some (BP_SUCCESS, Some buf')
    /\ length buf' = 8%nat
    /\ Eid.cstring buf' = Eid.chars "ipn:12"
    /\ drop 7 buf' = ["x"%char].
Proof.
  apply (ipn2eid_cuts_eid_to_buffer 128 12345 6 7 (replicate 8 "x"%char));
    unfold Eid.ULONG_MAX; simpl; lia.
Defined.

(** X7: an EID written by bplib_ipn2eid into a buffer with room for it is
    read back by bplib_eid2ipn: the text in the buffer is
    "ipn:<node>.<service>" and parsing it gives the node and the service
    number again, whatever they are (zero as well). *)
Theorem ipn2eid_then_eid2ipn_gives_numbers_back
  (max bits node service len : Z) (buf : list ascii) :
  0 <= node < 2 ^ bits -> 0 <= service < 2 ^ bits -> bits <= 64 ->
  7 <= len <= max -> len <= Z.of_nat (length buf) ->
  Z.of_nat (length (Eid.ipn_text node service)) < len ->
  exists buf',
    Eid.bplib_ipn2eid max (Some buf) len node service
    = Some (BP_SUCCESS, Some buf')
    /\ Eid.cstring buf' = Eid.ipn_text node service
    /\ Eid.bplib_eid2ipn max bits (Some (Eid.cstring buf'))
         (Z.of_nat (length (Eid.cstring buf')))
       = Some (BP_SUCCESS, Some (node, service)).
Proof.
  intros Hn Hs Hbits Hlen Hbuf Hfit.
  assert (Hb : 2 ^ bits <= 2 ^ 64) by (apply Z.pow_le_mono_r; lia).
  assert (Hn' : 0 <= node <= Eid.ULONG_MAX) by (unfold Eid.ULONG_MAX; lia).
  assert (Hs' : 0 <= service <= Eid.ULONG_MAX) by (unfold Eid.ULONG_MAX; lia).
  destruct (ipn2eid_buffer max node service len buf Hn' Hs' Hlen Hbuf)
    as (buf' & E & _ & Hc & _).
  exists buf'. split; [exact E|].
  rewrite take_ge in Hc by lia. split; [exact Hc|]. rewrite Hc.
  pose proof (eid2ipn_numbers max bits node service [] [] Hn' Hs') as H.
  cbn zeta in H. rewrite !app_nil_r, !app_nil_l in H.
  unfold Eid.ipn_text. rewrite H.
  - by rewrite !wrap_small.
  - split; [apply not_elem_of_nil|done].
  - apply not_elem_of_nil.
  - split; [apply not_elem_of_nil|done].
  - unfold Eid.ipn_text in Hfit. lia.
Qed.

Lemma ipn2eid_then_eid2ipn_gives_numbers_back_witness :
  exists buf',
    Eid.bplib_ipn2eid 128 (Some (replicate 16 "x"%char)) 16 12 0
    = Some (BP_SUCCESS, Some buf')
    /\ Eid.cstring buf' = Eid.ipn_text 12 0
    /\ Eid.bplib_eid2ipn 128 32 (Some (Eid.cstring buf'))
         (Z.of_nat (length (Eid.cstring buf')))
       = Some (BP_SUCCESS, Some (12, 0)).
Proof.
  apply (ipn2eid_then_eid2ipn_gives_numbers_back 128 32 12 0 16
           (replicate 16 "x"%char)); simpl; lia.
Defined.

(** X8: bplib_eid2ipn reads each number as far as its digits go and takes it
    modulo the width of [bp_ipn_t]: in an EID "ipn:<n><j1>.<s><j2>" of at
    most the maximal length, [n] and [s] numbers of an unsigned long in
    decimal, [j1] and [j2] any characters that do not start with a digit
    ([j1] without a dot), the parser reports success with [n] and [s]
    modulo 2^bits; what follows the digits is not looked at. *)
Theorem eid2ipn_stops_at_last_digit
  (max bits n s : Z) (j1 j2 : list ascii) :
  0 <= n <= Eid.ULONG_MAX -> 0 <= s <= Eid.ULONG_MAX ->
  Eid.junk j1 -> ("."%char ∉ j1) -> Eid.junk j2 ->
  let eid := Eid.chars "ipn:" ++ Eid.utoa n ++ j1
             ++ Eid.chars "." ++ Eid.utoa s ++ j2 in
  Z.of_nat (length eid) <= max ->
  Eid.bplib_eid2ipn max bits (Some eid) (Z.of_nat (length eid))
  = Some (BP_SUCCESS, Some (wrap bits n, wrap bits s)).
Proof. apply eid2ipn_numbers. Qed.

Lemma eid2ipn_stops_at_last_digit_witness :
  Eid.bplib_eid2ipn 128 32 (Some (Eid.chars "ipn:4294967297x.2 y")) 19
  = Some (BP_SUCCESS, Some (1, 2)).
Proof.
  apply (eid2ipn_stops_at_last_digit 128 32 4294967297 2
           (Eid.chars "x") (Eid.chars " y")).
  - unfold Eid.ULONG_MAX. lia.
  - unfold Eid.ULONG_MAX. lia.
  - split; [|reflexivity]. vm_compute. intros H.
    repeat (apply elem_of_cons in H as [H|H]; [discriminate H|]).
    by apply elem_of_nil in H.
  - vm_compute. intros H.
    repeat (apply elem_of_cons in H as [H|H]; [discriminate H|]).
    by apply elem_of_nil in H.
  - split; [|reflexivity]. vm_compute. intros H.
    repeat (apply elem_of_cons in H as [H|H]; [discriminate H|]).
    by apply elem_of_nil in H.
  - simpl. lia.
Defined.

(** ** Operating system layer *)

Lemma strnlen_loop_length (str : list ascii) (maxlen : Z) :
  forall (n : nat) (i : Z) (s : list ascii),
  0 <= i -> drop (Z.to_nat i) str = s -> i + Z.of_nat n = maxlen ->
  Eid.NUL ∈ s \/ (n <= length s)%nat ->
  Os.strnlen_loop n str i maxlen
  = Some (Z.min (i + Z.of_nat (length (Eid.cstring s))) maxlen).
Proof.
  induction n as [|n IH]; intros i s Hi Hs Hn Hend.
  - cbn. f_equal. lia.
  - destruct s as [|c s'].
    { exfalso. destruct Hend as [Hin|Hlen]; [by apply elem_of_nil in Hin|].
      simpl in Hlen. lia. }
    apply drop_lookup_head in Hs as [Hc Hs'].
    cbn [Os.strnlen_loop]. unfold rd.
    destruct (Z.ltb_spec i 0); [lia|]. rewrite Hc. cbn [mbind option_bind].
    cbn [Eid.cstring].
    destruct (Ascii.eqb_spec c Eid.NUL) as [->|Hne].
    + cbn. f_equal. lia.
    + rewrite (IH (i + 1) s'); [cbn [length]; f_equal; lia|lia| |lia|].
      * by replace (Z.to_nat (i + 1)) with (S (Z.to_nat i)) by lia.
      * destruct Hend as [Hin|Hlen].
        -- left. apply elem_of_cons in Hin as [Hin|Hin]; [congruence|done].
        -- right. simpl in Hlen. lia.
Qed.

(** X10: bplib_os_strnlen returns the length of the string or the bound,
    whichever is smaller, for every buffer that holds a terminator or at
    least [maxlen] bytes; it reads no byte outside the buffer.  A bound
    of zero or less is handed back as it is. *)
Theorem strnlen_is_length_up_to_bound (str : list ascii) (maxlen : Z) :
  Eid.NUL ∈ str \/ maxlen <= Z.of_nat (length str) ->
  Os.bplib_os_strnlen str maxlen
  = Some (Z.min (Z.of_nat (length (Eid.cstring str))) maxlen).
Proof.
  intros H. unfold Os.bplib_os_strnlen.
  destruct (Z.le_gt_cases maxlen 0) as [Hle|Hgt].
  - replace (Z.to_nat maxlen) with O by lia. cbn. f_equal. lia.
  - rewrite (strnlen_loop_length str maxlen _ 0 str); [done|lia|done|lia|].
    destruct H; [by left|right; lia].
Qed.

Lemma strnlen_is_length_up_to_bound_witness :
  Os.bplib_os_strnlen (Eid.chars "ipn:1.2" ++ [Eid.NUL; "x"%char]) 64
  = Some 7.
Proof.
  apply (strnlen_is_length_up_to_bound
           (Eid.chars "ipn:1.2" ++ [Eid.NUL; "x"%char]) 64).
  left. apply elem_of_app. right. left.
Defined.

(** The two counters and the blocks in use. *)
Lemma in_use_release (p bs : Z) (blocks : list (Z * Z)) :
  Os.block_at p blocks = Some bs ->
  Forall (fun b => 0 <= snd b) blocks ->
  Os.in_use (Os.release p blocks) = Os.in_use blocks - bs
  /\ 0 <= bs /\ Forall (fun b => 0 <= snd b) (Os.release p blocks).
Proof.
  unfold Os.block_at, Os.in_use.
  induction blocks as [|[a s] r IH]; cbn [List.find Os.release fst]; [done|].
  intros H Hall. apply Forall_cons in Hall as [Hs Hall]. simpl in Hs.
  destruct (Z.eqb_spec a p) as [->|Hne]; cbn [fmap option_fmap option_map snd fold_right] in *.
  - injection H as <-. split; [lia|]. done.
  - destruct (IH H Hall) as (E & Hb & Hr). split; [lia|]. split; [done|].
    by constructor.
Qed.

Lemma in_use_nonneg (blocks : list (Z * Z)) :
  Forall (fun b => 0 <= snd b) blocks -> 0 <= Os.in_use blocks.
Proof.
  unfold Os.in_use. induction 1 as [|b r Hb _ IH]; cbn [fold_right]; lia.
Qed.

(** X11: memory accounting.  In every state reached by calls of
    bplib_os_calloc and bplib_os_free, bplib_os_memused is the sum of the
    sizes of the blocks handed out and not freed, each with the eight
    bytes of its header, and bplib_os_memhigh is not below it. *)
Theorem memused_counts_blocks_in_use (m : Os.memory) :
  Os.reachable m ->
  Os.bplib_os_memused m = Os.in_use (Os.blocks m)
  /\ 0 <= Os.bplib_os_memused m <= Os.bplib_os_memhigh m.
Proof.
  intros H.
  assert (Inv : Os.current_memory_allocated m = Os.in_use (Os.blocks m)
                /\ Os.in_use (Os.blocks m) <= Os.highest_memory_allocated m
                /\ Os.in_use (Os.blocks m) < 2 ^ 64
                /\ Forall (fun b => 0 <= snd b) (Os.blocks m)).
  { induction H as [|m size mem_ptr _ IH Hsize Hfit|m ptr m' _ IH Hfree].
    - cbn. repeat split; try lia. constructor.
    - destruct IH as (Hc & Hh & Hlt & Hall).
      pose proof (in_use_nonneg _ Hall) as H0.
      destruct mem_ptr as [p|]; [|done].
      specialize (Hfit ltac:(done)). unfold Os.sizeof_size_t in *.
      unfold Os.bplib_os_calloc, Os.sizeof_size_t, Os.size_t.
      cbn [snd Os.blocks Os.current_memory_allocated
           Os.highest_memory_allocated].
      rewrite (wrap_small 64 (size + 8)) by lia.
      rewrite Hc, wrap_small by lia.
      change (Os.in_use ((p, size + 8) :: Os.blocks m))
        with (size + 8 + Os.in_use (Os.blocks m)).
      split; [lia|]. split; [|split; [lia|]].
      + destruct (Z.ltb_spec (Os.highest_memory_allocated m)
                    (Os.in_use (Os.blocks m) + (size + 8))); lia.
      + constructor; [simpl; lia|done].
    - destruct IH as (Hc & Hh & Hlt & Hall).
      pose proof (in_use_nonneg _ Hall) as H0.
      destruct ptr as [q|]; cbn in Hfree; [|by injection Hfree as <-].
      destruct (Os.block_at _ _) as [bs|] eqn:Hb; [|discriminate].
      injection Hfree as <-.
      cbn [Os.blocks Os.current_memory_allocated
           Os.highest_memory_allocated].
      destruct (in_use_release _ _ _ Hb Hall) as (E & Hbs & Hall').
      pose proof (in_use_nonneg _ Hall') as H1.
      unfold Os.size_t. rewrite Hc, wrap_small by lia.
      repeat split; try lia. done. }
  destruct Inv as (Hc & Hh & Hlt & Hall).
  pose proof (in_use_nonneg _ Hall).
  unfold Os.bplib_os_memused, Os.bplib_os_memhigh. lia.
Qed.

Lemma memused_counts_blocks_in_use_witness :
  Os.bplib_os_memused
    (snd (Os.bplib_os_calloc 24 (Some 4096) Os.start)) = 32
  /\ 0 <= 32 <= Os.bplib_os_memhigh
                  (snd (Os.bplib_os_calloc 24 (Some 4096) Os.start)).
Proof.
  apply (memused_counts_blocks_in_use
           (snd (Os.bplib_os_calloc 24 (Some 4096) Os.start))).
  apply Os.reach_calloc; [apply Os.reach_start|lia|].
  intros _. vm_compute. reflexivity.
Defined.

(** ** The calls on a channel *)

Section ChannelCalls.

Import Channel.

Context {W C : Type}.
Variable store : bp_store_t W.
Variable os : bp_os_t W.
Variable v6 : bp_v6_t W C.
Variable bits : Z.

Local Abbreviation channel := (bp_channel_t C).
Local Abbreviation tsize ch := (active_table_size (attributes ch)).
Local Abbreviation Inv := (table_invariant bits).

(** *** bplib_config *)

Lemma get_set_attr (opt : bp_opt) (a : bp_attr_t) (x : Z) :
  (forall k, opt <> BP_OPT_OTHER k) -> get_attr opt (set_attr opt a x) = x.
Proof. intros H. destruct opt; try reflexivity. by destruct (H opt). Qed.

Lemma get_set_attr_other (opt opt' : bp_opt) (a : bp_attr_t) (x : Z) :
  opt' <> opt -> get_attr opt' (set_attr opt a x) = get_attr opt' a.
Proof. intros H. destruct opt, opt'; try reflexivity; by destruct H. Qed.

Lemma config_write_inv (ch ch' : channel) (opt : bp_opt) (x len : Z)
      (out : option Z) :
  bplib_config (Some ch) BP_OPT_MODE_WRITE opt (Some x) len
  = (BP_SUCCESS, Some ch', out) ->
  (forall k, opt <> BP_OPT_OTHER k) /\ len = 4
  /\ value_accepted opt x = true /\ out = Some x
  /\ attributes ch' = set_attr opt (attributes ch) x.
Proof.
  intros H. unfold bplib_config in H.
  destruct opt; try discriminate H;
    (destruct (Z.eqb_spec len 4) as [->|]; [|discriminate H]);
    cbn [negb andb] in H;
    (destruct (value_accepted _ x) eqn:Hv; cbn [negb] in H;
     [|discriminate H]);
    injection H as <- <-; (split; [intros k; discriminate|]);
    repeat split; exact Hv.
Qed.

Lemma config_read (ch : channel) (opt : bp_opt) (y : Z) :
  bplib_config (Some ch) BP_OPT_MODE_READ opt (Some y) 4
  = match opt with
    | BP_OPT_OTHER _ => (BP_PARMERR, Some ch, Some y)
    | _ => (BP_SUCCESS, Some ch, Some (get_attr opt (attributes ch)))
    end.
Proof. by destruct opt. Qed.

(** X12: an option written by bplib_config is the option read afterwards: after
    a call in write mode that succeeds, a call in read mode for the same
    option succeeds, hands out the value written and leaves the channel
    as it is; a read of any other option gives the status and the value
    it gave before the write. *)
Theorem config_read_returns_value_written
        (ch ch' : channel) (opt : bp_opt) (x len : Z) (out : option Z) :
  bplib_config (Some ch) BP_OPT_MODE_WRITE opt (Some x) len
  = (BP_SUCCESS, Some ch', out) ->
  (forall y, bplib_config (Some ch') BP_OPT_MODE_READ opt (Some y) 4
             = (BP_SUCCESS, Some ch', Some x))
  /\ (forall opt' y st0 ch0 out0,
        opt' <> opt ->
        bplib_config (Some ch) BP_OPT_MODE_READ opt' (Some y) 4
        = (st0, ch0, out0) ->
        bplib_config (Some ch') BP_OPT_MODE_READ opt' (Some y) 4
        = (st0, Some ch', out0)).
Proof.
  intros H. apply config_write_inv in H as (Hopt & _ & _ & _ & Ha).
  split.
  - intros y. rewrite config_read, Ha, get_set_attr by done.
    destruct opt; try reflexivity. by destruct (Hopt opt).
  - intros opt' y st0 ch0 out0 Hne. rewrite !config_read, Ha.
    rewrite get_set_attr_other by done.
    destruct opt'; by intros [= <- <- <-].
Qed.

(** X13: a call of bplib_config that fails has no effect, and a call in read
    mode never changes the channel: the status is success or the
    parameter error; on the error the channel and the integer behind
    [val] are what they were; in read mode the channel is what it was. *)
Theorem config_fails_or_reads_without_effect
        (channel_ : option channel) (mode : bp_opt_mode) (opt : bp_opt)
        (val_ : option Z) (len : Z) :
  let '(st, ch', out) := bplib_config channel_ mode opt val_ len in
  (st = BP_SUCCESS \/ st = BP_PARMERR)
  /\ (st <> BP_SUCCESS -> ch' = channel_ /\ out = val_)
  /\ (mode = BP_OPT_MODE_READ -> ch' = channel_).
Proof.
  unfold bplib_config.
  destruct channel_ as [ch|]; [|by repeat split; auto].
  destruct val_ as [x|]; [|by repeat split; auto].
  destruct opt; try (by repeat split; auto);
    (destruct (negb (len =? 4)); [by repeat split; auto|]);
    (destruct mode; cbn [andb];
     [|destruct (negb (value_accepted _ x)); [by repeat split; auto|]]);
    (split; [by left|]); (split; [done|]); by intros.
Qed.

(** *** acknowledge *)

(** X14: acknowledge looks at the slot of the CID and at nothing else: a CID
    that differs by a multiple of the table size has the same effect, and
    once acknowledge has returned for a CID, a second call for it
    reports the failed response and changes neither the channel nor the
    storage. *)
Theorem acknowledge_vacates_slot_once
        (ch ch1 : channel) (cid k st : Z) (w w1 : W) :
  acknowledge store ch cid w = Some (st, ch1, w1) ->
  acknowledge store ch (cid + k * tsize ch) w = Some (st, ch1, w1)
  /\ acknowledge store ch1 cid w1 = Some (BP_FAILEDRESPONSE, ch1, w1).
Proof.
  intros H. split.
  - unfold acknowledge, slot_index in *.
    destruct (Z.leb_spec (tsize ch) 0); [done|].
    by rewrite Z.mod_add by lia.
  - unfold acknowledge in *.
    destruct (slot_index ch cid) as [i|] eqn:Hi; [|done].
    cbn [mbind option_bind] in *.
    destruct (slot_sid ch i) as [s|] eqn:Hs; [|done].
    cbn [mbind option_bind] in *.
    destruct (Z.eqb_spec s BP_SID_VACANT) as [->|Hne]; cbn [negb] in H.
    + injection H as <- <- <-. rewrite Hi. cbn. rewrite Hs. done.
    + destruct (relinquish store _ s w) as [rs w2].
      destruct (set_slot_sid ch i BP_SID_VACANT) as [ch2|] eqn:Hset;
        [|done].
      injection H as <- <- <-.
      apply set_slot_sid_spec in Hset as (Hi0 & e & He & ->).
      unfold slot_index in *. cbn [attributes with_table] in *.
      rewrite Hi. cbn [mbind option_bind].
      unfold slot_sid, rd. cbn [active_table with_table].
      destruct (Z.ltb_spec i 0); [lia|].
      rewrite list_lookup_insert_eq by (by apply lookup_lt_Some in He).
      done.
Qed.

(** *** bplib_flush *)

Lemma filter_one_less (f g : nat -> bool) (l : list nat) (i : nat) :
  NoDup l -> i ∈ l -> f i = true -> g i = false ->
  (forall j, j <> i -> g j = f j) ->
  length (List.filter f l) = S (length (List.filter g l)).
Proof.
  intros Hnd Hi Hf Hg Hsame. induction l as [|a l IH]; [by apply elem_of_nil in Hi|].
  apply NoDup_cons in Hnd as [Ha Hnd]. cbn.
  destruct (decide (a = i)) as [->|Hne].
  - rewrite Hf, Hg. cbn. f_equal. f_equal.
    apply List.filter_ext_in. intros j Hj. symmetry. apply Hsame.
    intros ->. apply Ha. by apply list_elem_of_In.
  - apply elem_of_cons in Hi as [->|Hi]; [done|].
    rewrite (Hsame a Hne). destruct (f a); cbn; rewrite IH; done.
Qed.

Lemma occupied_clear (ch ch' : channel) (i : Z) :
  set_slot_sid ch i BP_SID_VACANT = Some ch' ->
  occupied_at ch (Z.to_nat i) = true ->
  occupied ch' = occupied ch - 1.
Proof.
  intros Hset Hocc.
  pose proof (set_slot_sid_occupied _ _ _ _ Hset)
    as (_ & _ & _ & _ & Hl & Hoc).
  unfold occupied. rewrite Hl.
  rewrite (filter_one_less (occupied_at ch) (occupied_at ch') _ (Z.to_nat i)).
  - lia.
  - apply NoDup_seq.
  - apply elem_of_seq. unfold occupied_at in Hocc.
    destruct (active_table ch !! Z.to_nat i) eqn:E; [|done].
    apply lookup_lt_Some in E. lia.
  - done.
  - rewrite Hoc. by rewrite decide_True.
  - intros j Hj. rewrite Hoc. by rewrite decide_False.
Qed.

Lemma val_plus_one (a b : Z) :
  val bits (val bits (a + 1) + (b - 1)) = val bits (a + b).
Proof.
  unfold val, wrap. rewrite Zplus_mod_idemp_l. f_equal. lia.
Qed.

Lemma flush_loop_runs (fuel : nat) : forall (ch : channel) (w : W),
  Inv ch ->
  (Z.to_nat (current_active_cid ch - oldest_active_cid ch) < fuel)%nat ->
  exists ch' w',
    flush_loop store bits fuel ch w = Some (ch', w')
    /\ Inv ch'
    /\ oldest_active_cid ch' = current_active_cid ch
    /\ current_active_cid ch' = current_active_cid ch
    /\ attributes ch' = attributes ch /\ bundle ch' = bundle ch
    /\ custody ch' = custody ch
    /\ val bits (lost (stats ch') + occupied ch')
       = val bits (lost (stats ch) + occupied ch)
    /\ other_stats (stats ch') = other_stats (stats ch).
Proof.
  induction fuel as [|fuel IH]; intros ch w HI Hf; [lia|].
  cbn [flush_loop].
  destruct (Z.eqb_spec (oldest_active_cid ch) (current_active_cid ch))
    as [Heq|Hne]; cbn [negb].
  { exists ch, w. split; [done|]. split; [done|]. by repeat split. }
  pose proof HI as [H1 H2 H3 H4 H5 H6].
  unfold slot_index. destruct (Z.leb_spec (tsize ch) 0) as [|_]; [lia|].
  cbn [mbind option_bind].
  set (i := oldest_active_cid ch mod tsize ch).
  assert (Hi : 0 <= i < tsize ch) by (apply Z.mod_pos_bound; lia).
  destruct (lookup_lt_is_Some_2 (active_table ch) (Z.to_nat i)) as [e He];
    [lia|].
  assert (Hs : slot_sid ch i = Some (sid e)).
  { unfold slot_sid, rd. destruct (Z.ltb_spec i 0); [lia|]. by rewrite He. }
  rewrite Hs. cbn [mbind option_bind].
  assert (Hocc : occupied_at ch (Z.to_nat i) = negb (sid e =? BP_SID_VACANT)).
  { unfold occupied_at. by rewrite He. }
  destruct (Z.eqb_spec (sid e) BP_SID_VACANT) as [Hv|Hv]; cbn [negb] in *.
  - cbn [mbind option_bind].
    destruct (advance_invariant bits ch (bump_oldest bits ch) HI Hne)
      as [HI' Hw']; try reflexivity.
    { intros j Hj. split; [exact Hj|].
      intros ->. change (occupied_at ch (Z.to_nat i) = true) in Hj. congruence. }
    assert (Hb : val bits (oldest_active_cid ch + 1) = oldest_active_cid ch + 1)
      by (apply wrap_small; lia).
    destruct (IH (bump_oldest bits ch) w HI') as (ch' & w' & E & R).
    { cbn. rewrite Hb. lia. }
    exists ch', w'. split; [exact E|]. exact R.
  - destruct (relinquish store _ (sid e) w) as [rs w2].
    assert (Hset : set_slot_sid ch i BP_SID_VACANT
                   = Some (with_table ch (<[Z.to_nat i := mk_slot BP_SID_VACANT (retx e)]>
                                            (active_table ch)))).
    { unfold set_slot_sid, rd, wr. destruct (Z.ltb_spec i 0); [lia|].
      rewrite He. cbn.
      destruct (Z.leb_spec (Z.of_nat (length (active_table ch))) i); [lia|].
      done. }
    rewrite Hset. cbn [mbind option_bind].
    set (ch2 := with_table ch _) in *.
    pose proof (set_slot_sid_occupied _ _ _ _ Hset)
      as (Ha & Ho & Hc & Hst & Hl & Hoc).
    pose proof (occupied_clear _ _ _ Hset Hocc) as Hcount.
    set (ch3 := bump_oldest bits (with_stats ch2 (incr_lost bits (stats ch2)))).
    destruct (advance_invariant bits ch ch3 HI Hne) as [HI' Hw'];
      try reflexivity.
    { done. }
    { intros j Hj. change (occupied_at ch2 j = true) in Hj.
      rewrite Hoc in Hj. destruct (decide _) as [|Hd]; [done|].
      split; [done|]. intros ->. done. }
    assert (Hb : val bits (oldest_active_cid ch + 1) = oldest_active_cid ch + 1)
      by (apply wrap_small; lia).
    destruct (IH ch3 w2 HI') as (ch' & w' & E & R).
    { cbn. rewrite Hb. lia. }
    exists ch', w'. split; [exact E|].
    destruct R as (R1 & R2 & R3 & R4 & R5 & R6 & R7 & R8).
    split; [done|]. repeat split; try done.
    rewrite R7. change (occupied ch3) with (occupied ch2).
    change (lost (stats ch3)) with (val bits (lost (stats ch) + 1)).
    rewrite Hcount. apply val_plus_one.
Qed.

Lemma invariant_empty (ch : channel) :
  Inv ch -> oldest_active_cid ch = current_active_cid ch -> occupied ch = 0.
Proof.
  intros [H1 H2 H3 H4 H5 H6] Heq. unfold occupied.
  rewrite (List.filter_ext_in _ (fun _ => false)); [|].
  - by induction (seq 0 _).
  - intros j _. destruct (occupied_at ch j) eqn:Hj; [|done].
    destruct (H6 j Hj) as (c & Hc & _). lia.
Qed.

(** X15: bplib_flush empties the active table.  For a channel whose table and
    counters are in order (as they are in every state the channel
    reaches), the call returns success; afterwards the oldest CID is the
    current one, no slot of the table is taken, the count of lost
    bundles has gone up by the number of slots that were taken, the
    other counters and the attributes are what they were, and
    bplib_latchstats reports no active bundle. *)
Theorem flush_empties_active_table (ch : channel) (w : W) :
  Inv ch ->
  exists ch' w',
    bplib_flush store bits (Some ch) w = Some (BP_SUCCESS, Some ch', w')
    /\ oldest_active_cid ch' = current_active_cid ch
    /\ current_active_cid ch' = current_active_cid ch
    /\ occupied ch' = 0
    /\ val bits (lost (stats ch'))
       = val bits (lost (stats ch) + occupied ch)
    /\ other_stats (stats ch') = other_stats (stats ch)
    /\ attributes ch' = attributes ch
    /\ forall s0 w0, exists s,
         bplib_latchstats store v6 bits (Some ch') (Some s0) w0
         = (BP_SUCCESS, Some (with_stats ch' s), Some s)
         /\ active s = 0 /\ lost s = lost (stats ch').
Proof.
  intros HI. pose proof HI as [H1 H2 H3 H4 H5 H6].
  unfold bplib_flush.
  destruct (flush_loop_runs (S (Z.to_nat (window bits ch))) ch w HI)
    as (ch' & w' & E & HI' & Ho & Hc & Ha & Hb & Hcu & Hl & Hs).
  { unfold window, val. rewrite wrap_small by lia. lia. }
  rewrite E. cbn [mbind option_bind].
  pose proof (invariant_empty ch' HI' ltac:(congruence)) as Hemp.
  exists ch', w'. split; [done|]. split; [done|]. split; [done|].
  split; [done|]. split; [by rewrite Hemp, Z.add_0_r in Hl|].
  split; [done|]. split; [done|].
  intros s0 w0. eexists. split; [reflexivity|]. cbn.
  split; [|done]. rewrite Ho, Hc, Z.sub_diag. unfold val, wrap.
  apply Z.mod_0_l. pose proof (Z.pow_pos_nonneg 2 bits). lia.
Qed.

End ChannelCalls.

Import Channel Sim.

Lemma config_read_returns_value_written_witness :
  let ch := opened (attrs 4 BP_WRAP_RESEND 10 0) in
  exists ch',
    bplib_config (Some ch) BP_OPT_MODE_WRITE BP_OPT_TIMEOUT (Some 30) 4
    = (BP_SUCCESS, Some ch', Some 30)
    /\ (forall y, bplib_config (Some ch') BP_OPT_MODE_READ BP_OPT_TIMEOUT
                    (Some y) 4
                  = (BP_SUCCESS, Some ch', Some 30))
    /\ bplib_config (Some ch') BP_OPT_MODE_READ BP_OPT_LIFETIME (Some 7) 4
       = (BP_SUCCESS, Some ch', Some 0).
Proof.
  intros ch. eexists. split; [reflexivity|].
  destruct (config_read_returns_value_written ch _ BP_OPT_TIMEOUT 30 4
              (Some 30) eq_refl) as [H1 H2].
  split; [exact H1|].
  apply (H2 BP_OPT_LIFETIME 7 BP_SUCCESS (Some ch) (Some 0));
    [discriminate|reflexivity].
Defined.

Lemma acknowledge_vacates_slot_once_witness :
  let ch := fst loaded_state in
  let w := snd loaded_state in
  exists ch1 w1,
    acknowledge sim_store ch 1 w = Some (BP_SUCCESS, ch1, w1)
    /\ acknowledge sim_store ch (1 + 2 * 4) w = Some (BP_SUCCESS, ch1, w1)
    /\ acknowledge sim_store ch1 1 w1 = Some (BP_FAILEDRESPONSE, ch1, w1).
Proof.
  intros ch w. eexists. eexists. split; [vm_compute; reflexivity|].
  apply (acknowledge_vacates_slot_once sim_store ch _ 1 2 BP_SUCCESS w _).
  vm_compute. reflexivity.
Defined.

Lemma loaded_state_invariant : table_invariant bits (fst loaded_state).
Proof.
  constructor; try (vm_compute; (reflexivity || (split; discriminate)
                                 || discriminate)).
  intros i Hi. destruct i as [|[|[|[|i]]]]; try discriminate Hi.
  exists 1. vm_compute. split; [split; [discriminate|reflexivity]|reflexivity].
Qed.

Lemma flush_empties_active_table_witness :
  occupied (fst loaded_state) = 1
  /\ exists ch' w',
    bplib_flush sim_store bits (Some (fst loaded_state)) (snd loaded_state)
    = Some (BP_SUCCESS, Some ch', w')
    /\ oldest_active_cid ch' = 2 /\ current_active_cid ch' = 2
    /\ occupied ch' = 0 /\ lost (stats ch') = 1.
Proof.
  split; [vm_compute; reflexivity|].
  destruct (flush_empties_active_table sim_store sim_v6 bits
              (fst loaded_state) (snd loaded_state) loaded_state_invariant)
    as (ch' & w' & E & Ho & Hc & Hocc & Hl & _).
  exists ch', w'. split; [exact E|]. split; [exact Ho|]. split; [exact Hc|].
  split; [exact Hocc|].
  vm_compute in E. injection E as <- _. vm_compute. reflexivity.
Defined.

(** ** What bplib_load returns *)

Section LoadStatus.

Import Channel.

Context {W C : Type}.
Variable store : bp_store_t W.
Variable os : bp_os_t W.
Variable v6 : bp_v6_t W C.
Variable bits : Z.

Local Abbreviation channel := (bp_channel_t C).

(** The loop over the stored bundles ends with a bundle to send, or with
    the status of an empty or a failed storage service. *)
Lemma dequeue_loop_ends (fuel : nat) (sysnow tmo : Z) :
  forall (ch ch' : channel) (l l' : locals) (w w' : W),
  dequeue_loop store bits fuel sysnow tmo ch l w = Some (ch', l', w') ->
  is_Some (data l')
  \/ data l' = None
     /\ (status l' = BP_TIMEOUT \/ status l' = BP_FAILEDSTORE).
Proof.
  induction fuel as [|fuel IH]; intros ch ch' l l' w w' H; [discriminate|].
  cbn [dequeue_loop] in H. destruct (data l) as [d|] eqn:Hd.
  - injection H as <- <- <-. left. by rewrite Hd.
  - destruct (dequeue store _ tmo w) as [[[[dst o] sz] dsid] w1].
    apply bind_Some in H as (dopt & Hdopt & H).
    destruct (dst =? BP_SUCCESS).
    + apply bind_Some in H as (d & -> & H).
      destruct (is_expired d sysnow).
      * destruct (relinquish store _ dsid w1) as [rs w2]. by apply IH in H.
      * by apply IH in H.
    + destruct (dst =? BP_TIMEOUT); injection H as <- <- <-;
        (destruct dopt as [d|]; [left; by eexists|right]);
        (split; [done|]); [by left|by right].
Qed.

(** X16: the status of bplib_load is the size of a bundle or an error code:
    whenever the call returns, either it hands out the bytes of a bundle
    and returns their number, or it hands out nothing and returns one
    of the codes for a parameter error, a timeout, a failed storage
    service, no memory or a bundle too large.  The success code and the
    overflow code, set when the active table has wrapped and the
    response is to block, are never what it returns without a bundle. *)
Theorem load_returns_size_or_error
        (fuel : nat) (channel_ : option channel) (bundle_ : option bool)
        (size_ tmo : Z) (flags : option Z) (w w' : W) (st : Z)
        (ch' : option channel) (out : option (list Z)) (fl' : option Z) :
  bplib_load store os v6 bits fuel channel_ bundle_ size_ tmo flags w
  = Some (st, ch', out, fl', w') ->
  (exists d, out = Some (take (Z.to_nat (bundlesize d)) (header d))
             /\ st = bundlesize d)
  \/ out = None
     /\ (st = BP_PARMERR \/ st = BP_TIMEOUT \/ st = BP_FAILEDSTORE
         \/ st = BP_FAILEDMEM \/ st = BP_BUNDLETOOLARGE).
Proof.
  intros H. unfold bplib_load in H.
  destruct channel_ as [ch|]; [|injection H as <- <- <- <- <-; right; tauto].
  destruct bundle_ as [buf|]; [|injection H as <- <- <- <- <-; right; tauto].
  destruct flags as [fl|]; [|injection H as <- <- <- <- <-; right; tauto].
  apply bind_Some in H as ([[[sysnow ch0] l0] w0] & _ & H).
  apply bind_Some in H as ([[ch1 l1] w1] & _ & H).
  apply bind_Some in H as ([[ch2 l2] w2] & Hdeq & H).
  apply bind_Some in H as ([[[ch3 l3] out3] w3] & Hemit & H).
  injection H as <- <- <- <- <-.
  apply dequeue_loop_ends in Hdeq. unfold emit in Hemit.
  destruct (data l2) as [d|] eqn:Hd.
  - clear Hdeq. destruct (negb buf || (bundlesize d <=? size_)).
    + destruct (if negb buf then malloc os (bundlesize d) w2 else (true, w2))
        as [mem w4].
      destruct mem.
      * apply bind_Some in Hemit as ([[ch4 l4] d4] & _ & Hemit).
        injection Hemit as <- <- <- <-. left. by exists d4.
      * destruct (relinquish store _ _ w4) as [rs w5].
        injection Hemit as <- <- <- <-. right. cbn. tauto.
    + destruct (relinquish store _ _ w2) as [rs w5].
      injection Hemit as <- <- <- <-. right. cbn. tauto.
  - injection Hemit as <- <- <- <-. right. split; [done|].
    destruct Hdeq as [[d Hd']|[_ [->| ->]]]; [congruence|tauto|tauto].
Qed.

End LoadStatus.

Import Channel Sim.

Lemma load_returns_size_or_error_witness :
  exists ch' w',
    load (fst stored_state) (snd stored_state)
    = Some (4, ch', Some [6; 1; 0; 104], Some 0, w')
    /\ ((exists d, Some [6; 1; 0; 104]
                   = Some (take (Z.to_nat (bundlesize d)) (header d))
                   /\ 4 = bundlesize d)
        \/ Some [6; 1; 0; 104] = None
           /\ (4 = BP_PARMERR \/ 4 = BP_TIMEOUT \/ 4 = BP_FAILEDSTORE
               \/ 4 = BP_FAILEDMEM \/ 4 = BP_BUNDLETOOLARGE)).
Proof.
  destruct (load (fst stored_state) (snd stored_state))
    as [[[[[st ch'] out] fl'] w']|] eqn:HL;
    [|vm_compute in HL; discriminate HL].
  pose proof HL as HL'. vm_compute in HL'.
  injection HL' as <- _ <- <- _.
  exists ch', w'. split; [reflexivity|].
  exact (load_returns_size_or_error sim_store sim_os sim_v6 bits _ _ _ _ _ _
           _ _ _ _ _ _ HL).
Defined.

(** * The tree at its edges: values it has, and no node left *)

Module RbEdge.
Import RbTree RbHeap RbProof.

#[local] Arguments plug : simpl never.
#[local] Arguments ptr_eqb !p !q : simpl nomatch.
#[local] Opaque field set_value set_offset set_color set_left set_right
  set_parent.
#[local] Arguments are_consecutive : simpl never.
#[local] Arguments u32 : simpl never.
Local Open Scope rb_scope.

(** The search for a value that touches no range, in a tree that has the
    value as the start of a range or has no free node: the search ends
    without a change. *)
Lemma loop_refuses {cap} n v walk : forall t fuel h k fl,
  t <> E ->
  wf cap h (plug k t) fl ->
  ranges_ok n (ino t) -> n < 2 ^ 32 -> 0 <= v < n ->
  Forall (fun r => v + 1 <> fst r /\ fst r + snd r <> v) (ino t) ->
  fl = [] \/ v ∈ (fst <$> ino t) ->
  (height t <= fuel)%nat ->
  insert_or_merge_loop walk fuel v (rootp t) h = Some (None, h).
Proof.
  induction t as [|l IHl nd c nv no r IHr];
    intros fuel h k fl Hne H Hok Hn Hv Hadj Hcase Hfuel; [done|].
  destruct fuel as [|fuel]; [simpl in Hfuel; lia|].
  simpl in Hok, Hadj, Hcase, Hfuel.
  destruct (ranges_around _ _ _ _ Hok) as (Hbef & Haft & Hnd & Hxs & Hys).
  destruct Hnd as (Hnd1 & Hnd2 & Hnd3). simpl in Hnd1, Hnd2, Hnd3, Hbef, Haft.
  destruct Hok as [Hsep _].
  apply separated_app_inv in Hsep as [Hsl Hsr].
  apply separated_cons in Hsr as [_ Hsr].
  apply Forall_app in Hadj as [Hal Har].
  apply Forall_cons in Har as [[Hn1 Hn2] Har]. simpl in Hn1, Hn2.
  simpl insert_or_merge_loop. unfold_queries.
  rep_open H; simpl; query.
  rewrite consec_small by lia.
  destruct (Z.eqb_spec (v + 1) nv) as [|_]; [done|].
  destruct (Z.ltb_spec v nv) as [Hlt|Hge].
  - (* to the left *)
    destruct l as [|ll ln lc lv lo lr].
    + query. unfold create_red_node, pop_free_node, get, bind, ret.
      rewrite (wf_tail _ _ _ _ H).
      destruct Hcase as [->|Hin]; [done|]. exfalso. simpl in Hin.
      apply elem_of_cons in Hin as [->|Hin]; [lia|].
      apply list_elem_of_fmap in Hin as (b & -> & Hb).
      rewrite Forall_forall in Haft. specialize (Haft b Hb). lia.
    + query.
      apply (IHl fuel h (FL nd c nv no r :: k) fl); try done.
      * destruct Hcase as [->|Hin]; [by left|right].
        rewrite fmap_app in Hin. apply elem_of_app in Hin as [Hin|Hin]; [done|].
        exfalso. simpl in Hin.
        apply elem_of_cons in Hin as [->|Hin]; [lia|].
        apply list_elem_of_fmap in Hin as (b & -> & Hb).
        rewrite Forall_forall in Haft. specialize (Haft b Hb). lia.
      * simpl in Hfuel |- *. lia.
  - query. rewrite consec_end by lia.
    destruct (Z.eqb_spec (nv + no) v) as [|_]; [done|].
    destruct (Z.ltb_spec nv v) as [Hgt|Hle]; [|done].
    destruct r as [|rl rn rc rv ro rr].
    + query. unfold create_red_node, pop_free_node, get, bind, ret.
      rewrite (wf_tail _ _ _ _ H).
      destruct Hcase as [->|Hin]; [done|]. exfalso.
      rewrite fmap_app in Hin. apply elem_of_app in Hin as [Hin|Hin].
      * apply list_elem_of_fmap in Hin as (b & -> & Hb).
        rewrite Forall_forall in Hbef. specialize (Hbef b Hb).
        rewrite Forall_forall in Hxs. destruct (Hxs b Hb) as (? & ? & ?). lia.
      * simpl in Hin. apply elem_of_cons in Hin as [->|Hin]; [lia|].
        by apply elem_of_nil in Hin.
    + query.
      apply (IHr fuel h (FR l nd c nv no :: k) fl); try done.
      * destruct Hcase as [->|Hin]; [by left|right].
        rewrite fmap_app in Hin. apply elem_of_app in Hin as [Hin|Hin].
        -- exfalso. apply list_elem_of_fmap in Hin as (b & -> & Hb).
           rewrite Forall_forall in Hbef. specialize (Hbef b Hb).
           rewrite Forall_forall in Hxs. destruct (Hxs b Hb) as (? & ? & ?).
           lia.
        -- simpl in Hin. apply elem_of_cons in Hin as [->|Hin]; [lia|done].
      * simpl in Hfuel |- *. lia.
Qed.


(** ** [insert] of a value the tree does not have *)

(** The proof of [insert_holds], keeping what the call returns and the
    ranges it leaves. *)
Lemma insert_fresh {cap} n v h t fl :
  wf cap h t fl -> rbt t -> ranges_ok n (ino t) ->
  n < 2 ^ 32 -> 0 <= v < n -> ~ covered (ino t) v -> fl <> [] ->
  exists b h' t' fl',
    insert v h = Some (b, h') /\ wf cap h' t' fl' /\ rbt t'
    /\ ino t' = ins_list v (ino t)
    /\ (b = true -> (v, 1) ∈ ins_list v (ino t)).
Proof.
  intros W R Hok Hn Hv Hnc Hfl.
  pose proof (wf_cap _ _ _ _ W) as Hcap.
  unfold insert, fuel_of, try_binary_insert_or_merge. rewrite Hcap.
  destruct t as [|l nd c nv no r].
  - (* the first node *)
    destruct fl as [|j fl]; [done|].
    destruct (new_root_wf v _ _ _ W) as (h1 & E1 & W1).
    change (T E j false v 1 E) with (plug [] (T E j false v 1 E)) in W1.
    destruct (set_color_wf false W1) as (h2 & E2 & W2).
    exists true, h2, (T E j false v 1 E), fl. split.
    + unfold bind in E1 |- *. unfold get.
      rewrite (wf_root _ _ _ _ W). unfold rootp. cbv iota beta.
      rewrite E1. simpl try_insert_rebalance.
      unfold_queries. rep_open W1. query.
      unfold set_black. rewrite E2. done.
    + split; [exact W2|]. split; [unfold rbt; simpl; tauto|].
      split; [done|]. intros _. simpl. by left.
  - destruct (loop_spec (cap := cap) n v (S cap) (T l nd c nv no r) (S cap)
                h [] fl)
      as (h1 & res & E1 & S1); try done.
    { pose proof (wf_depth _ [] _ _ W). simpl in *. lia. }
    { lia. }
    rewrite plug_nil in S1.
    destruct res as [j|].
    + destruct S1 as (k' & fl' & W1 & K1 & I1).
      destruct (ins_fix (cap := cap) (S cap) h1 k' E j v 1 E fl' W1)
        as (h2 & t2 & E2 & W2 & R2 & I2); try done.
      { pose proof (wf_depth _ _ _ _ W1).
        pose proof (wf_cap _ _ _ _ W1). lia. }
      exists true, h2, t2, fl'. split.
      * unfold bind. unfold get.
        rewrite (wf_root _ _ _ _ W). unfold rootp.
        cbv iota beta. unfold rootp in E1. rewrite E1.
        rewrite E2. done.
      * split; [done|]. split; [done|]. split; [by rewrite I2, I1|].
        intros _. rewrite <- I1, ino_plug. simpl.
        apply elem_of_app. right. by left.
    + destruct S1 as (t1 & fl' & W1 & R1 & I1).
      exists false, h1, t1, fl'. split.
      * unfold bind. unfold get.
        rewrite (wf_root _ _ _ _ W). unfold rootp.
        cbv iota beta. unfold rootp in E1. rewrite E1. done.
      * split; [done|]. split; [done|]. split; [done|]. done.
Qed.

(** ** The tree read off the block *)

Lemma wf_shape {cap} h t fl : wf cap h t fl -> tree_shape h = erase t.
Proof.
  intros H. unfold tree_shape, fuel_of.
  rewrite (wf_root _ _ _ _ H).
  erewrite shape_of_rep; [done|apply (wf_rep _ _ _ _ H)|].
  pose proof (height_ids t). pose proof (wf_len _ _ _ _ H). lia.
Qed.

Lemma red_erase t : red (erase t) = col t.
Proof. by destruct t. Qed.

Lemma nrr_erase t : nrr t -> no_red_red (erase t) = true.
Proof.
  induction t as [|l IHl i c v o r IHr]; [done|].
  simpl. intros (Hc & Hl & Hr). rewrite IHl, IHr by done.
  rewrite !red_erase. destruct c; [|done].
  destruct (Hc eq_refl) as [-> ->]. done.
Qed.

Lemma bal_erase t : bal t -> black_depth (erase t) = Some (S (bhl t)).
Proof.
  induction t as [|l IHl i c v o r IHr]; [done|].
  simpl. intros (Hb & Hl & Hr). rewrite IHl, IHr by done.
  rewrite Hb, Nat.eqb_refl. by destruct c.
Qed.

Lemma wf_valid {cap} n h t fl :
  wf cap h t fl -> rbt t -> ranges_ok n (ino t) ->
  rb_valid h = true /\ ranges h = ino t
  /\ size h = Z.of_nat (length (ranges h)).
Proof.
  intros W (Hc & Hb & Hn) [Hs _].
  assert (Hr : ranges h = ino t) by (by rewrite (wf_ranges _ _ _ W), ino_erase).
  split; [|split; [done|]].
  - unfold rb_valid. rewrite (wf_shape _ _ _ W).
    unfold root_is_black. rewrite red_erase, Hc, nrr_erase by done.
    rewrite bal_erase by done. rewrite ino_erase, Hs.
    by rewrite bool_decide_eq_true_2.
  - by rewrite (wf_size _ _ _ _ W), Hr, length_ino.
Qed.

(** What [create_rb_tree] and the inserts of distinct values leave. *)
Lemma built (m : Z) (vs : list Z) :
  m < 2 ^ 32 -> NoDup vs -> (forall x, x ∈ vs -> 0 <= x < 2 ^ 32 - 1) ->
  Z.of_nat (length vs) <= m ->
  exists t0 t,
    create_rb_tree m = Some t0 /\ inserts vs t0 = Some t
    /\ holds (Z.to_nat m) (2 ^ 32 - 1) vs t.
Proof.
  intros Hm Hnd Hin Hlen.
  destruct (create_rb_tree_wf (Z.to_nat m)) as (h0 & E0 & W0); [lia|].
  rewrite Z2Nat.id in E0 by lia.
  destruct (inserts_hold (Z.to_nat m) (2 ^ 32 - 1) vs [] h0) as (h & Eh & Hh).
  - by apply holds_created.
  - lia.
  - done.
  - done.
  - simpl. lia.
  - by exists h0, h.
Qed.

(** ** Ranges that are apart *)

Lemma separated_apart n rs a b :
  ranges_ok n rs -> a ∈ rs -> b ∈ rs ->
  a = b \/ fst a + snd a < fst b \/ fst b + snd b < fst a.
Proof.
  intros [Hs Hok]. induction rs as [|c rs IH]; intros Ha Hb.
  - by apply elem_of_nil in Ha.
  - pose proof (separated_later _ _ _ Hs Hok) as Hl.
    rewrite Forall_forall in Hl.
    apply separated_cons in Hs as [_ Hs].
    apply Forall_cons in Hok as [_ Hok].
    apply elem_of_cons in Ha as [->|Ha]; apply elem_of_cons in Hb as [->|Hb].
    + by left.
    + right. left. by apply Hl.
    + right. right. by apply Hl.
    + by apply IH.
Qed.

Lemma covered_elem rs x :
  covered rs x <-> exists r, r ∈ rs /\ fst r <= x < fst r + snd r.
Proof. unfold covered, in_range. apply Exists_exists. Qed.

(** The first value of a range touches no range. *)
Lemma start_touches_nothing n v rs :
  ranges_ok n rs -> v ∈ (fst <$> rs) ->
  Forall (fun r => v + 1 <> fst r /\ fst r + snd r <> v) rs.
Proof.
  intros Hok Hv. apply list_elem_of_fmap in Hv as (a & -> & Ha).
  apply Forall_forall. intros b Hb.
  destruct Hok as [Hs Hall]. pose proof Hall as Hall'.
  rewrite Forall_forall in Hall'.
  destruct (Hall' a Ha) as (? & ? & ?). destruct (Hall' b Hb) as (? & ? & ?).
  destruct (separated_apart n rs a b (conj Hs Hall) Ha Hb) as [->|[?|?]]; lia.
Qed.

(** A value whose neighbours are not in the tree touches no range. *)
Lemma lone_touches_nothing n v rs (vs : list Z) :
  ranges_ok n rs -> (forall x, covered rs x <-> x ∈ vs) ->
  v + 1 ∉ vs -> v - 1 ∉ vs ->
  Forall (fun r => v + 1 <> fst r /\ fst r + snd r <> v) rs.
Proof.
  intros [_ Hall] Hcov Hup Hdown. apply Forall_forall. intros r Hr.
  rewrite Forall_forall in Hall. destruct (Hall r Hr) as (? & ? & ?).
  split.
  - intros E. apply Hup. apply Hcov. apply covered_elem. exists r.
    split; [done|]. lia.
  - intros E. apply Hdown. apply Hcov. apply covered_elem. exists r.
    split; [done|]. lia.
Qed.

(** A value in the tree whose predecessor is not starts a range. *)
Lemma first_of_range v rs (vs : list Z) :
  (forall x, covered rs x <-> x ∈ vs) -> v ∈ vs -> v - 1 ∉ vs ->
  v ∈ (fst <$> rs).
Proof.
  intros Hcov Hv Hdown. apply Hcov in Hv.
  apply covered_elem in Hv as (r & Hr & Hin).
  apply list_elem_of_fmap. exists r. split; [|done].
  destruct (Z.eq_dec (fst r) v) as [|Hne]; [done|].
  exfalso. apply Hdown. apply Hcov. apply covered_elem. exists r.
  split; [done|]. lia.
Qed.

(** The call of [insert] that ends the search without a change. *)
Lemma insert_refused {cap} n v h t fl :
  wf cap h t fl -> ranges_ok n (ino t) -> n < 2 ^ 32 -> 0 <= v < n ->
  Forall (fun r => v + 1 <> fst r /\ fst r + snd r <> v) (ino t) ->
  fl = [] \/ v ∈ (fst <$> ino t) ->
  insert v h = Some (false, h).
Proof.
  intros W Hok Hn Hv Hadj Hcase.
  unfold insert, fuel_of, try_binary_insert_or_merge.
  unfold bind, get, ret. rewrite (wf_root _ _ _ _ W).
  destruct t as [|l nd c nv no r].
  - simpl. destruct Hcase as [->|Hin]; [|by apply elem_of_nil in Hin].
    unfold is_full, bind, get, ret.
    rewrite (wf_size _ _ _ _ W), (wf_max _ _ _ _ W), (wf_len _ _ _ _ W).
    simpl. done.
  - change (match rootp (T l nd c nv no r) with
            | Some _ => ?a | None => ?b end) with a.
    rewrite (loop_refuses (cap := cap) n v _ (T l nd c nv no r) _ h [] fl);
      try done.
    pose proof (wf_depth _ [] _ _ W). simpl in *. lia.
Qed.

Lemma ins_list_length_touching n v rs :
  ranges_ok n rs -> ~ covered rs v ->
  covered rs (v + 1) \/ covered rs (v - 1) ->
  (length (ins_list v rs) <= length rs)%nat.
Proof.
  induction rs as [|[a o] rs IH]; intros Hok Hnc Hadj.
  - destruct Hadj as [H|H]; by apply Exists_nil in H.
  - destruct Hok as [Hs Hall].
    pose proof (separated_later _ _ _ Hs Hall) as Hl.
    rewrite Forall_forall in Hl.
    apply separated_cons in Hs as [_ Hs].
    pose proof Hall as Hall0.
    apply Forall_cons in Hall as [(Ha1 & Ha2 & Ha3) Hall].
    simpl in Ha1, Ha2, Ha3.
    assert (Hna : ~ (a <= v < a + o)).
    { intros ?. apply Hnc. by constructor. }
    assert (Hnr : ~ covered rs v).
    { intros ?. apply Hnc. by constructor 2. }
    simpl ins_list.
    destruct (Z.ltb_spec (v + 1) a) as [Hlt|Hge].
    { exfalso. rewrite Forall_forall in Hall.
      destruct Hadj as [H|H]; apply covered_elem in H as (r & Hr & Hin);
        apply elem_of_cons in Hr as [->|Hr]; simpl in *; try lia;
        specialize (Hl r Hr); simpl in Hl; lia. }
    destruct (Z.eqb_spec (v + 1) a) as [E1|E1]; [simpl; lia|].
    destruct (Z.eqb_spec (a + o) v) as [E2|E2].
    { destruct rs as [|[a2 o2] rs]; [simpl; lia|].
      destruct (v + 1 =? a2); simpl; lia. }
    simpl. apply le_n_S. apply IH; [done|done|].
    destruct Hadj as [H|H]; [left|right];
      apply Exists_cons in H as [H|H]; try done;
      unfold in_range in H; simpl in H; lia.
Qed.


(** What holds after [create_rb_tree] and inserts of distinct values,
    with the list of free nodes. *)
Lemma holds_free {cap} n vs h :
  holds cap n vs h -> (length vs < cap)%nat ->
  exists t fl,
    wf cap h t fl /\ rbt t /\ ranges_ok n (ino t)
    /\ (forall x, covered (ino t) x <-> x ∈ vs) /\ fl <> [].
Proof.
  intros (t & fl & W & R & Hok & Hcov & Htot) Hlen.
  exists t, fl. split; [done|]. split; [done|]. split; [done|].
  split; [done|].
  intros ->. pose proof (wf_cap _ _ _ _ W) as Hcap.
  pose proof (wf_len _ _ _ _ W) as Hl. simpl in Hl.
  destruct Hok as [_ Hok].
  pose proof (length_total _ (range_ok_pos _ _ Hok)) as Hlt.
  rewrite length_ino in Hlt. lia.
Qed.

End RbEdge.

Import RbTree.

(** The side conditions of the examples. *)
Ltac tree_built :=
  lazymatch goal with
  | |- NoDup ?l => apply (bool_decide_unpack (NoDup l)); vm_compute; exact I
  | |- forall x, x ∈ _ -> _ =>
      let x := fresh "x" in let Hx := fresh "Hx" in
      intros x Hx;
      repeat (apply elem_of_cons in Hx as [->|Hx]; [lia|]);
      by apply elem_of_nil in Hx
  | |- _ ∉ _ =>
      let Hx := fresh "Hx" in
      intros Hx;
      repeat (apply elem_of_cons in Hx as [Hx|Hx]; [discriminate Hx|]);
      by apply elem_of_nil in Hx
  | |- _ ∈ _ => by repeat first [left | right]
  | |- @eq (option _) _ _ => vm_compute; reflexivity
  | |- _ => simpl; lia
  end.

(** X17: inserts of distinct values keep the tree a red-black tree of the
    values.  For a capacity [m] below 2^32 and at most [m] distinct
    values below 2^32 - 1, create_rb_tree and the inserts all return;
    the tree they leave has a black root, no red node with a red child
    and the same number of black nodes on every path, its ranges are in
    increasing order with a gap between any two, they hold exactly the
    values inserted, and the size of the tree is its number of ranges. *)
Theorem distinct_inserts_keep_red_black_tree (m : Z) (vs : list Z) :
  m < 2 ^ 32 -> NoDup vs -> (forall x, x ∈ vs -> 0 <= x < 2 ^ 32 - 1) ->
  Z.of_nat (length vs) <= m ->
  exists t0 t,
    create_rb_tree m = Some t0 /\ inserts vs t0 = Some t
    /\ rb_valid t = true
    /\ (forall x, RbHeap.covered (ranges t) x <-> x ∈ vs)
    /\ RbHeap.total (ranges t) = Z.of_nat (length vs)
    /\ size t = Z.of_nat (length (ranges t))
    /\ max_size t = m.
Proof.
  intros Hm Hnd Hin Hlen.
  destruct (RbEdge.built m vs Hm Hnd Hin Hlen)
    as (t0 & t & E0 & Et & tr & fl & W & R & Hok & Hcov & Htot).
  exists t0, t. split; [done|]. split; [done|].
  destruct (RbEdge.wf_valid _ _ _ _ W R Hok) as (Hv & Hr & Hs).
  rewrite Hr. split; [done|]. split; [done|]. split; [done|].
  split; [by rewrite <- Hr|].
  rewrite (RbHeap.wf_max _ _ _ _ W), (RbHeap.wf_cap _ _ _ _ W). lia.
Qed.

Lemma distinct_inserts_keep_red_black_tree_witness :
  exists t0 t,
    create_rb_tree 4 = Some t0 /\ inserts [7; 3; 8; 1] t0 = Some t
    /\ rb_valid t = true
    /\ (forall x, RbHeap.covered (ranges t) x <-> x ∈ [7; 3; 8; 1])
    /\ RbHeap.total (ranges t) = 4
    /\ size t = Z.of_nat (length (ranges t))
    /\ max_size t = 4.
Proof.
  apply (distinct_inserts_keep_red_black_tree 4 [7; 3; 8; 1]).
  - lia.
  - apply (bool_decide_unpack (NoDup [7; 3; 8; 1])). vm_compute. exact I.
  - intros x Hx.
    repeat (apply elem_of_cons in Hx as [->|Hx]; [lia|]).
    by apply elem_of_nil in Hx.
  - simpl. lia.
Defined.


(** X18: what one insert does to the ranges.  In a tree built by inserts of
    distinct values, with a node to spare, the insert of a value the
    tree does not have returns and leaves the ranges the tree had with
    the value put in: a range of its own when it touches no range, the
    range it touches made one longer, or the two ranges it joins made
    one.  The tree is again a red-black tree of separated ranges, and
    its size is its number of ranges. *)
Theorem insert_of_new_value_extends_ranges
  (m : Z) (vs : list Z) (v : Z) (t0 t : rb_tree) :
  m < 2 ^ 32 -> NoDup vs -> (forall x, x ∈ vs -> 0 <= x < 2 ^ 32 - 1) ->
  Z.of_nat (length vs) < m ->
  create_rb_tree m = Some t0 -> inserts vs t0 = Some t ->
  0 <= v < 2 ^ 32 - 1 -> v ∉ vs ->
  exists b t',
    insert v t = Some (b, t')
    /\ ranges t' = RbHeap.ins_list v (ranges t)
    /\ (forall x, RbHeap.covered (ranges t') x
                  <-> x = v \/ RbHeap.covered (ranges t) x)
    /\ rb_valid t' = true
    /\ size t' = Z.of_nat (length (ranges t')).
Proof.
  intros Hm Hnd Hin Hlen E0 Et Hv Hnv.
  destruct (RbEdge.built m vs Hm Hnd Hin ltac:(lia))
    as (t0' & t' & E0' & Et' & Hh).
  rewrite E0 in E0'. injection E0' as <-.
  rewrite Et in Et'. injection Et' as <-.
  destruct (RbEdge.holds_free _ _ _ Hh ltac:(lia))
    as (tr & fl & W & R & Hok & Hcov & Hfl).
  assert (Hnc : ~ RbHeap.covered (RbHeap.ino tr) v) by (by rewrite Hcov).
  destruct (RbEdge.insert_fresh _ v t tr fl W R Hok ltac:(lia) Hv Hnc Hfl)
    as (b & h' & tr' & fl' & Ei & W' & R' & I' & _).
  destruct (RbProof.ins_list_ok _ v (RbHeap.ino tr) (-1) Hok Hv Hnc)
    as (Hok' & _ & Hcov'); [lia| |].
  { destruct Hok as [_ Hok]. destruct (RbHeap.ino tr) as [|r rs]; [done|].
    apply Forall_cons in Hok as [(? & ? & ?) _]. simpl. lia. }
  rewrite <- I' in Hok', Hcov'.
  destruct (RbEdge.wf_valid _ _ _ _ W' R' Hok') as (Hval & Hr' & Hs').
  destruct (RbEdge.wf_valid _ _ _ _ W R Hok) as (_ & Hr & _).
  exists b, h'. split; [done|]. rewrite Hr', Hr.
  split; [done|]. split; [|split; [done|by rewrite <- Hr']].
  exact Hcov'.
Qed.

Lemma insert_of_new_value_extends_ranges_witness :
  exists t0 t,
    create_rb_tree 4 = Some t0 /\ inserts [5; 9; 7] t0 = Some t
    /\ ranges t = [(5, 1); (7, 1); (9, 1)]
    /\ exists b t',
         insert 8 t = Some (b, t')
         /\ ranges t' = [(5, 1); (7, 3)]
         /\ rb_valid t' = true /\ size t' = 2.
Proof.
  eexists. eexists. split; [vm_compute; reflexivity|].
  split; [vm_compute; reflexivity|]. split; [vm_compute; reflexivity|].
  edestruct (insert_of_new_value_extends_ranges 4 [5; 9; 7] 8)
    as (b & t' & Ei & Hr & _ & Hv & Hs); [tree_built..|].
  exists b, t'. split; [exact Ei|].
  split; [exact Hr|]. split; [exact Hv|]. rewrite Hs, Hr. reflexivity.
Defined.



(** X19: the insert of a value next to a range returns false although the
    value went in.  In a tree built by inserts of distinct values, with
    a node to spare, the insert of a value the tree does not have, next
    to a value it has, returns false: the value is in the ranges
    afterwards, in no range of its own, and the size has not grown. *)
Theorem insert_next_to_range_returns_false
  (m : Z) (vs : list Z) (v : Z) (t0 t : rb_tree) :
  m < 2 ^ 32 -> NoDup vs -> (forall x, x ∈ vs -> 0 <= x < 2 ^ 32 - 1) ->
  Z.of_nat (length vs) < m ->
  create_rb_tree m = Some t0 -> inserts vs t0 = Some t ->
  0 <= v < 2 ^ 32 - 1 -> v ∉ vs -> v + 1 ∈ vs \/ v - 1 ∈ vs ->
  exists t',
    insert v t = Some (false, t')
    /\ RbHeap.covered (ranges t') v
    /\ ((v, 1) ∉ ranges t')
    /\ size t' <= size t.
Proof.
  intros Hm Hnd Hin Hlen E0 Et Hv Hnv Hadj.
  destruct (RbEdge.built m vs Hm Hnd Hin ltac:(lia))
    as (t0' & t' & E0' & Et' & Hh).
  rewrite E0 in E0'. injection E0' as <-.
  rewrite Et in Et'. injection Et' as <-.
  destruct (RbEdge.holds_free _ _ _ Hh ltac:(lia))
    as (tr & fl & W & R & Hok & Hcov & Hfl).
  assert (Hnc : ~ RbHeap.covered (RbHeap.ino tr) v) by (by rewrite Hcov).
  destruct (RbEdge.insert_fresh _ v t tr fl W R Hok ltac:(lia) Hv Hnc Hfl)
    as (b & h' & tr' & fl' & Ei & W' & R' & I' & Hb).
  destruct (RbProof.ins_list_ok _ v (RbHeap.ino tr) (-1) Hok Hv Hnc)
    as (Hok' & _ & Hcov'); [lia| |].
  { destruct Hok as [_ Hok]. destruct (RbHeap.ino tr) as [|r rs]; [done|].
    apply Forall_cons in Hok as [(? & ? & ?) _]. simpl. lia. }
  assert (Hown : (v, 1) ∉ RbHeap.ins_list v (RbHeap.ino tr)).
  { intros Hin1.
    assert (Hc : exists u, (u = v + 1 \/ u = v - 1)
                           /\ RbHeap.covered (RbHeap.ino tr) u).
    { destruct Hadj as [H|H]; apply Hcov in H; eauto. }
    destruct Hc as (u & Hu & Hc).
    assert (Hc' : RbHeap.covered (RbHeap.ins_list v (RbHeap.ino tr)) u)
      by (apply Hcov'; by right).
    apply RbEdge.covered_elem in Hc' as (r & Hr & Hur).
    destruct (RbEdge.separated_apart _ _ _ _ Hok' Hin1 Hr) as [<-|[?|?]];
      simpl in *; lia. }
  assert (b = false) as -> by (destruct b; [by destruct (Hown (Hb eq_refl))|done]).
  rewrite <- I' in Hok', Hcov', Hown.
  destruct (RbEdge.wf_valid _ _ _ _ W' R' Hok') as (_ & Hr' & Hs').
  destruct (RbEdge.wf_valid _ _ _ _ W R Hok) as (_ & Hr & Hs).
  exists h'. split; [done|]. rewrite Hs', Hs, Hr', Hr.
  split; [apply Hcov'; by left|]. split; [done|].
  rewrite I'.
  assert (Hto : RbHeap.covered (RbHeap.ino tr) (v + 1)
                \/ RbHeap.covered (RbHeap.ino tr) (v - 1))
    by (destruct Hadj as [Ha|Ha]; apply Hcov in Ha; tauto).
  pose proof (RbEdge.ins_list_length_touching _ v (RbHeap.ino tr) Hok Hnc Hto).
  lia.
Qed.

Lemma insert_next_to_range_returns_false_witness :
  exists t0 t,
    create_rb_tree 4 = Some t0 /\ inserts [5; 9] t0 = Some t
    /\ exists t',
         insert 6 t = Some (false, t')
         /\ RbHeap.covered (ranges t') 6 /\ ((6, 1) ∉ ranges t')
         /\ size t' <= size t.
Proof.
  eexists. eexists. split; [vm_compute; reflexivity|].
  split; [vm_compute; reflexivity|].
  eapply (insert_next_to_range_returns_false 4 [5; 9] 6);
    first [tree_built | right; tree_built].
Defined.


(** X20: a value that starts a range is not inserted twice.  In a tree built
    by inserts of distinct values, the insert of a value the tree has,
    whose predecessor it does not have, returns false and leaves the
    tree as it is. *)
Theorem insert_of_first_value_of_range_changes_nothing
  (m : Z) (vs : list Z) (v : Z) (t0 t : rb_tree) :
  m < 2 ^ 32 -> NoDup vs -> (forall x, x ∈ vs -> 0 <= x < 2 ^ 32 - 1) ->
  Z.of_nat (length vs) <= m ->
  create_rb_tree m = Some t0 -> inserts vs t0 = Some t ->
  v ∈ vs -> v - 1 ∉ vs ->
  insert v t = Some (false, t).
Proof.
  intros Hm Hnd Hin Hlen E0 Et Hv Hdown.
  destruct (RbEdge.built m vs Hm Hnd Hin Hlen)
    as (t0' & t' & E0' & Et' & tr & fl & W & R & Hok & Hcov & _).
  rewrite E0 in E0'. injection E0' as <-.
  rewrite Et in Et'. injection Et' as <-.
  pose proof (RbEdge.first_of_range v _ vs Hcov Hv Hdown) as Hfirst.
  apply (RbEdge.insert_refused (2 ^ 32 - 1) v t tr fl W Hok); try lia.
  - by apply Hin.
  - by apply (RbEdge.start_touches_nothing (2 ^ 32 - 1)).
  - by right.
Qed.

Lemma insert_of_first_value_of_range_changes_nothing_witness :
  exists t0 t,
    create_rb_tree 10 = Some t0 /\ inserts [5; 10; 15; 6] t0 = Some t
    /\ insert 5 t = Some (false, t) /\ insert 10 t = Some (false, t).
Proof.
  eexists. eexists. split; [vm_compute; reflexivity|].
  split; [vm_compute; reflexivity|]. split.
  - eapply (insert_of_first_value_of_range_changes_nothing 10 [5; 10; 15; 6] 5); tree_built.
  - eapply (insert_of_first_value_of_range_changes_nothing 10 [5; 10; 15; 6] 10); tree_built.
Defined.


(** X21: a full tree takes no new range.  In a tree built by inserts of
    distinct values that has no node left (is_full), a tree of capacity
    0 for one, the insert of a value that is not in the tree and not
    next to a value of the tree returns false and leaves the tree as it
    is. *)
Theorem insert_into_full_tree_changes_nothing
  (m : Z) (vs : list Z) (v : Z) (t0 t : rb_tree) :
  m < 2 ^ 32 -> NoDup vs -> (forall x, x ∈ vs -> 0 <= x < 2 ^ 32 - 1) ->
  Z.of_nat (length vs) <= m ->
  create_rb_tree m = Some t0 -> inserts vs t0 = Some t ->
  is_full t = Some (true, t) ->
  0 <= v < 2 ^ 32 - 1 -> v + 1 ∉ vs -> v - 1 ∉ vs ->
  insert v t = Some (false, t).
Proof.
  intros Hm Hnd Hin Hlen E0 Et Hfull Hv Hup Hdown.
  destruct (RbEdge.built m vs Hm Hnd Hin Hlen)
    as (t0' & t' & E0' & Et' & tr & fl & W & R & Hok & Hcov & _).
  rewrite E0 in E0'. injection E0' as <-.
  rewrite Et in Et'. injection Et' as <-.
  assert (Hfl : fl = []).
  { unfold is_full, bind, get, ret in Hfull.
    injection Hfull as Hfull. apply Z.eqb_eq in Hfull.
    rewrite (RbHeap.wf_size _ _ _ _ W), (RbHeap.wf_max _ _ _ _ W),
      (RbHeap.wf_len _ _ _ _ W) in Hfull.
    destruct fl; [done|]. simpl in Hfull. lia. }
  apply (RbEdge.insert_refused (2 ^ 32 - 1) v t tr fl W Hok); try lia.
  - by apply (RbEdge.lone_touches_nothing (2 ^ 32 - 1) v _ vs).
  - by left.
Qed.

Lemma insert_into_full_tree_changes_nothing_witness :
  exists t0 t,
    create_rb_tree 4 = Some t0 /\ inserts [0; 2; 4; 6] t0 = Some t
    /\ is_full t = Some (true, t) /\ insert 8 t = Some (false, t).
Proof.
  eexists. eexists. split; [vm_compute; reflexivity|].
  split; [vm_compute; reflexivity|].
  split; [vm_compute; reflexivity|].
  eapply (insert_into_full_tree_changes_nothing 4 [0; 2; 4; 6] 8);
    tree_built.
Defined.
